(** * Morse Micro driver: command transport and TWT negotiation

    A shallow embedding of the command/response transport of [command.c]
    ([morse_cmd_tx], [morse_cmd_resp_process]) and of the Target Wake Time
    engine of [twt.c] (event queue, per-flow state machine, wake-interval
    scheduler, mantissa/exponent codec), with the properties the
    specification states about them. *)

From stdpp Require Import base numbers option list gmap.
From Stdlib Require Import ZArith Lia Strings.Byte.

Local Open Scope Z_scope.

(** ** C integer types

    Fixed-width unsigned values are integers in [0, 2^w); a conversion to a
    narrower or unsigned type wraps, a conversion to [int] reinterprets the
    low 32 bits as two's complement. *)
Module CInt.

Definition u8 (x : Z) : Z := x mod 2 ^ 8.
Definition u16 (x : Z) : Z := x mod 2 ^ 16.
Definition u32 (x : Z) : Z := x mod 2 ^ 32.
Definition u64 (x : Z) : Z := x mod 2 ^ 64.

(** [(int)x]: the value of the low 32 bits read as a signed integer. *)
Definition s32 (x : Z) : Z :=
  let r := x mod 2 ^ 32 in if r <? 2 ^ 31 then r else r - 2 ^ 32.

(** [(size_t)x] on an LP64 kernel. *)
Definition size_t (x : Z) : Z := x mod 2 ^ 64.

Lemma u16_small x : 0 <= x < 2 ^ 16 -> u16 x = x.
Proof. intros H. unfold u16. now apply Z.mod_small. Qed.

Lemma u64_small x : 0 <= x < 2 ^ 64 -> u64 x = x.
Proof. intros H. unfold u64. now apply Z.mod_small. Qed.

Lemma s32_small x : 0 <= x < 2 ^ 31 -> s32 x = x.
Proof.
  intros H. unfold s32. rewrite Z.mod_small by lia.
  destruct (Z.ltb_spec x (2 ^ 31)); lia.
Qed.

End CInt.

(** ** errno values used by the two files *)
Module Errno.
Definition EPERM : Z := 1.
Definition ESRCH : Z := 3.
Definition ENOMEM : Z := 12.
Definition EACCES : Z := 13.
Definition ENODEV : Z := 19.
Definition EINVAL : Z := 22.
Definition EBADSLT : Z := 57.
Definition ETIMEDOUT : Z := 110.
End Errno.

(** ** Wake-interval codec ([twt.c], [twt_calculate_wake_interval] and
    [twt_calculate_wake_interval_fields]) *)
Module WakeInterval.
Import CInt.

Definition UINT16_MAX : Z := 65535.

(** [(u64)mantissa * (1UL << exponent)], with a 64-bit [unsigned long]. *)
Definition twt_calculate_wake_interval (mantissa exponent : Z) : Z :=
  u64 (mantissa * u64 (Z.shiftl 1 exponent)).

(** The [while (m > __UINT16_MAX__) { e++; m >>= 1; }] loop; [fuel] bounds
    the number of iterations. *)
Fixpoint fields_loop (fuel : nat) (m e : Z) : option (Z * Z) :=
  if m >? UINT16_MAX then
    match fuel with
    | O => None
    | S fuel' => fields_loop fuel' (Z.shiftr m 1) (e + 1)
    end
  else Some (m, e).

(** The triple is (mantissa written through the pointer, exponent written
    through the pointer, returned interval).  A [u64] needs at most 48
    halvings to drop to 16 bits; 64 iterations are always enough
    ([fields_loop_total]). *)
Definition twt_calculate_wake_interval_fields (wake_interval : Z)
  : option (Z * Z * Z) :=
  match fields_loop 64 wake_interval 0 with
  | Some (m, e) =>
      let mantissa := u16 m in
      Some (mantissa, e, twt_calculate_wake_interval mantissa e)
  | None => None
  end.

Lemma fields_loop_total fuel m e :
  0 <= m < 2 ^ (16 + Z.of_nat fuel) ->
  exists m' e', fields_loop fuel m e = Some (m', e').
Proof.
  revert m e. induction fuel as [|fuel IH]; intros m e Hm; simpl.
  - destruct (Z.gtb_spec m UINT16_MAX) as [Hgt|Hle]; [|eauto].
    unfold UINT16_MAX in Hgt. change (16 + Z.of_nat 0) with 16 in Hm. lia.
  - destruct (Z.gtb_spec m UINT16_MAX) as [Hgt|Hle]; [|eauto].
    apply IH. rewrite Z.shiftr_div_pow2 by lia. change (2 ^ 1) with 2.
    split; [apply Z.div_pos; lia|].
    apply Z.div_lt_upper_bound; [lia|].
    replace (16 + Z.of_nat (S fuel)) with (Z.succ (16 + Z.of_nat fuel)) in Hm by lia.
    rewrite Z.pow_succ_r in Hm by lia. lia.
Qed.

Lemma fields_loop_exact fuel : forall m e m' e' M E,
  fields_loop fuel m e = Some (m', e') ->
  0 <= M <= UINT16_MAX -> 0 <= E -> m = M * 2 ^ E ->
  e <= e' /\ 0 <= m' <= UINT16_MAX /\ m' * 2 ^ (e' - e) = m.
Proof.
  induction fuel as [|fuel IH]; intros m e m' e' M E Hrun HM HE Hm; simpl in Hrun.
  - destruct (Z.gtb_spec m UINT16_MAX) as [Hgt|Hle]; [discriminate|].
    injection Hrun as <- <-. rewrite Z.sub_diag, Z.mul_1_r.
    split; [lia|split; [|reflexivity]].
    split; [|lia]. subst m. apply Z.mul_nonneg_nonneg; [lia|apply Z.pow_nonneg; lia].
  - destruct (Z.gtb_spec m UINT16_MAX) as [Hgt|Hle].
    + assert (HE1 : 1 <= E).
      { destruct (Z.eq_dec E 0) as [->|]; [|lia]. rewrite Z.pow_0_r in Hm. lia. }
      assert (Hhalf : Z.shiftr m 1 = M * 2 ^ (E - 1)).
      { rewrite Z.shiftr_div_pow2 by lia. change (2 ^ 1) with 2. subst m.
        replace E with (Z.succ (E - 1)) at 1 by lia.
        rewrite Z.pow_succ_r by lia.
        replace (M * (2 * 2 ^ (E - 1))) with (M * 2 ^ (E - 1) * 2) by ring.
        apply Z.div_mul. lia. }
      destruct (IH _ _ _ _ M (E - 1) Hrun HM ltac:(lia) Hhalf) as (He & Hm' & Heq).
      split; [lia|split; [exact Hm'|]].
      replace (e' - e) with (Z.succ (e' - (e + 1))) by lia.
      rewrite Z.pow_succ_r by lia.
      replace (m' * (2 * 2 ^ (e' - (e + 1)))) with (2 * (m' * 2 ^ (e' - (e + 1)))) by ring.
      rewrite Heq, Hhalf. subst m.
      replace E with (Z.succ (E - 1)) at 2 by lia.
      rewrite Z.pow_succ_r by lia. ring.
    + injection Hrun as <- <-. rewrite Z.sub_diag, Z.mul_1_r.
      split; [lia|split; [|reflexivity]].
      split; [|lia]. subst m. apply Z.mul_nonneg_nonneg; [lia|apply Z.pow_nonneg; lia].
Qed.

(** C7: every [u64] interval of the form [M * 2^E] with [M <= 65535] is
    encoded by [twt_calculate_wake_interval_fields] into a mantissa and an
    exponent which [twt_calculate_wake_interval] decodes to the same interval
    (the encoder terminates, and its own return value is that interval too). *)
Theorem wake_interval_fields_roundtrip (M E : Z) :
  0 <= M <= UINT16_MAX -> 0 <= E -> M * 2 ^ E < 2 ^ 64 ->
  exists mantissa exponent,
    twt_calculate_wake_interval_fields (M * 2 ^ E)
      = Some (mantissa, exponent, M * 2 ^ E) /\
    0 <= mantissa <= UINT16_MAX /\
    twt_calculate_wake_interval mantissa exponent = M * 2 ^ E.
Proof.
  intros HM HE Hlt.
  assert (Hnn : 0 <= M * 2 ^ E).
  { apply Z.mul_nonneg_nonneg; [lia|apply Z.pow_nonneg; lia]. }
  destruct (fields_loop_total 64 (M * 2 ^ E) 0) as (m & e & Hrun).
  { split; [exact Hnn|]. eapply Z.lt_trans; [exact Hlt|]. now vm_compute. }
  destruct (fields_loop_exact _ _ _ _ _ M E Hrun HM HE eq_refl) as (He & Hm & Heq).
  rewrite Z.sub_0_r in Heq.
  assert (Hdec : twt_calculate_wake_interval m e = M * 2 ^ E).
  { unfold twt_calculate_wake_interval. rewrite Z.shiftl_1_l.
    assert (Hpow : 0 < 2 ^ e) by (apply Z.pow_pos_nonneg; lia).
    assert (Hpe : 2 ^ e < 2 ^ 64).
    { destruct (Z.eq_dec m 0) as [->|Hm0].
      - rewrite Z.mul_0_l in Heq.
        unfold fields_loop in Hrun. rewrite <- Heq in Hrun. simpl in Hrun.
        injection Hrun as <-. now vm_compute.
      - assert (1 * 2 ^ e <= m * 2 ^ e) by (apply Z.mul_le_mono_nonneg_r; lia). lia. }
    rewrite (u64_small (2 ^ e)) by lia. rewrite Heq. apply u64_small. lia. }
  exists m, e. unfold twt_calculate_wake_interval_fields. rewrite Hrun.
  rewrite (u16_small m) by (unfold UINT16_MAX in Hm; lia).
  rewrite Hdec. auto.
Qed.

(** An interval of 100000 us is [50000 * 2^1]. *)
Lemma wake_interval_fields_roundtrip_witness :
  (0 <= 50000 <= UINT16_MAX /\ 0 <= 1 /\ 50000 * 2 ^ 1 < 2 ^ 64) /\
  exists mantissa exponent,
    twt_calculate_wake_interval_fields (50000 * 2 ^ 1)
      = Some (mantissa, exponent, 50000 * 2 ^ 1) /\
    0 <= mantissa <= UINT16_MAX /\
    twt_calculate_wake_interval mantissa exponent = 50000 * 2 ^ 1.
Proof.
  assert (H1 : 0 <= 50000 <= UINT16_MAX) by (unfold UINT16_MAX; lia).
  assert (H2 : 0 <= 1) by lia.
  assert (H3 : 50000 * 2 ^ 1 < 2 ^ 64) by (vm_compute; reflexivity).
  split; [auto|].
  exact (wake_interval_fields_roundtrip 50000 1 H1 H2 H3).
Defined.


(** *** Intervals that are not of the form [M * 2^E] *)

Lemma fields_loop_floor fuel : forall m e m' e',
  fields_loop fuel m e = Some (m', e') -> 0 <= m ->
  e <= e' /\ m' = m / 2 ^ (e' - e) /\ 0 <= m' <= UINT16_MAX /\
  (e' = e \/ 32768 <= m').
Proof.
  induction fuel as [|fuel IH]; intros m e m' e' Hrun Hm; simpl in Hrun.
  - destruct (Z.gtb_spec m UINT16_MAX) as [Hgt|Hle]; [discriminate|].
    injection Hrun as <- <-. rewrite Z.sub_diag, Z.pow_0_r, Z.div_1_r.
    repeat split; auto; lia.
  - destruct (Z.gtb_spec m UINT16_MAX) as [Hgt|Hle].
    + assert (Hhalf : Z.shiftr m 1 = m / 2).
      { rewrite Z.shiftr_div_pow2 by lia. reflexivity. }
      rewrite Hhalf in Hrun.
      assert (H2 : 0 <= m / 2) by (apply Z.div_pos; lia).
      destruct (IH _ _ _ _ Hrun H2) as (He & Hm' & Hr & Hn).
      split; [lia|]. split; [|split; [exact Hr|]].
      * rewrite Hm'. rewrite Z.div_div by (try apply Z.pow_pos_nonneg; lia).
        f_equal. replace (e' - e) with (Z.succ (e' - (e + 1))) by lia.
        now rewrite Z.pow_succ_r by lia.
      * right. destruct Hn as [->|Hn]; [|exact Hn].
        rewrite Z.sub_diag, Z.pow_0_r, Z.div_1_r in Hm'. subst m'.
        unfold UINT16_MAX in Hgt. apply Z.div_le_lower_bound; lia.
    + injection Hrun as <- <-. rewrite Z.sub_diag, Z.pow_0_r, Z.div_1_r.
      repeat split; auto; lia.
Qed.

(** Every [u64] interval is encoded: the exponent is the least one that
    brings the mantissa down to 16 bits, the mantissa is the interval
    shifted right by it, and the interval handed back is the given one
    rounded down to a multiple of [2^exponent]. *)
Theorem wake_interval_fields_floor (w : Z) :
  0 <= w < 2 ^ 64 ->
  exists mantissa exponent,
    twt_calculate_wake_interval_fields w
      = Some (mantissa, exponent, mantissa * 2 ^ exponent) /\
    0 <= exponent <= 48 /\
    mantissa = w / 2 ^ exponent /\
    0 <= mantissa <= UINT16_MAX /\
    (exponent = 0 \/ 32768 <= mantissa) /\
    mantissa * 2 ^ exponent <= w < (mantissa + 1) * 2 ^ exponent.
Proof.
  intros Hw.
  destruct (fields_loop_total 64 w 0) as (m & e & Hrun).
  { split; [lia|]. eapply Z.lt_trans; [apply Hw|]. now vm_compute. }
  destruct (fields_loop_floor _ _ _ _ _ Hrun ltac:(lia)) as (He & Hm & Hr & Hn).
  rewrite Z.sub_0_r in Hm.
  assert (Hpow : 0 < 2 ^ e) by (apply Z.pow_pos_nonneg; lia).
  assert (Hlo : m * 2 ^ e <= w).
  { rewrite Hm, Z.mul_comm. apply Z.mul_div_le. lia. }
  assert (Hhi : w < (m + 1) * 2 ^ e).
  { rewrite Hm. pose proof (Z.mod_pos_bound w (2 ^ e) Hpow).
    pose proof (Z.div_mod w (2 ^ e) ltac:(lia)). nia. }
  assert (He48 : e <= 48).
  { destruct Hn as [->|Hn]; [lia|].
    destruct (Z.le_gt_cases e 48) as [|Hgt]; [assumption|exfalso].
    assert (2 ^ 49 <= 2 ^ e) by (apply Z.pow_le_mono_r; lia).
    assert (32768 * 2 ^ 49 <= m * 2 ^ e) by nia.
    change (32768 * 2 ^ 49) with (2 ^ 64) in *. lia. }
  assert (Hdec : twt_calculate_wake_interval m e = m * 2 ^ e).
  { unfold twt_calculate_wake_interval. rewrite Z.shiftl_1_l.
    assert (2 ^ e <= 2 ^ 48) by (apply Z.pow_le_mono_r; lia).
    rewrite (u64_small (2 ^ e)).
    - apply u64_small. lia.
    - split; [lia|]. eapply Z.le_lt_trans; [eassumption|]. now vm_compute. }
  exists m, e. unfold twt_calculate_wake_interval_fields. rewrite Hrun.
  rewrite (u16_small m) by (unfold UINT16_MAX in Hr; lia).
  rewrite Hdec. repeat split; auto; lia.
Qed.

Lemma wake_interval_fields_floor_witness :
  0 <= 100001 < 2 ^ 64 /\
  exists mantissa exponent,
    twt_calculate_wake_interval_fields 100001
      = Some (mantissa, exponent, mantissa * 2 ^ exponent) /\
    0 <= exponent <= 48 /\
    mantissa = 100001 / 2 ^ exponent /\
    0 <= mantissa <= UINT16_MAX /\
    (exponent = 0 \/ 32768 <= mantissa) /\
    mantissa * 2 ^ exponent <= 100001 < (mantissa + 1) * 2 ^ exponent.
Proof.
  assert (H : 0 <= 100001 < 2 ^ 64) by (split; [lia|now vm_compute]).
  split; [exact H|]. exact (wake_interval_fields_floor 100001 H).
Defined.

End WakeInterval.

(** ** Command transport and response demultiplexer ([command.c]) *)
Module Cmd.
Import CInt Errno.

Definition MM_MAX_COMMAND_RETRY : Z := 2.
Definition MM_CMD_DEFAULT_TIMEOUT_MS : Z := 600.

(** [struct morse_cmd_header], the fields the two functions read or write. *)
Record morse_cmd_header := Hdr {
  flags : Z;
  message_id : Z;
  len : Z;
  host_id : Z;
  vif_id : Z
}.

(** [struct morse_cmd]: header and payload. *)
Record morse_cmd := Command {
  hdr : morse_cmd_header;
  data : list byte
}.

(** The declarations of [command.h] that [command.c] relies on.  The header
    is not part of the sources at hand, so its constants, the layout of
    [struct morse_resp] over a received buffer and the [MORSE_CMD_IS_CFM]
    test are parameters of the development. *)
Record command_h := CommandH {
  MORSE_CMD_HOST_ID_SEQ_MAX : Z;
  MORSE_CMD_HOST_ID_SEQ_SHIFT : Z;
  MORSE_CMD_HOST_ID_SEQ_MASK : Z;
  MORSE_CMD_HOST_ID_RETRY_MASK : Z;
  MORSE_CMD_REQ : Z;
  MORSE_CMD_IS_CFM : morse_cmd_header -> bool;
  sizeof_morse_cmd_header : Z;
  sizeof_morse_resp : Z;
  (** [((struct morse_resp * )skb->data)->hdr], fields already in CPU order *)
  resp_hdr : list byte -> morse_cmd_header;
  (** [le32_to_cpu(((struct morse_resp * )p)->status)], in [0, 2^32) *)
  resp_status : list byte -> Z
}.

(** The masks split the 16-bit host id into a sequence part (high bits) and
    a retry part (the low [SEQ_SHIFT] bits), as [host_id = seq << SHIFT | retry]
    requires. *)
Definition command_h_wf (h : command_h) : Prop :=
  1 <= MORSE_CMD_HOST_ID_SEQ_SHIFT h < 16 /\
  MORSE_CMD_HOST_ID_RETRY_MASK h = Z.ones (MORSE_CMD_HOST_ID_SEQ_SHIFT h) /\
  MORSE_CMD_HOST_ID_SEQ_MASK h =
    Z.shiftl (Z.ones (16 - MORSE_CMD_HOST_ID_SEQ_SHIFT h)) (MORSE_CMD_HOST_ID_SEQ_SHIFT h).

(** [struct morse_cmd_resp_cb], kept in the control block of the command's
    socket buffer.  [cb_dest_resp] is the address of the caller's response
    buffer, [None] for [NULL]. *)
Record morse_cmd_resp_cb := Cb {
  cb_ret : Z;
  cb_length : Z;
  cb_dest_resp : option Z
}.

(** A command socket buffer: the copy of the command and its control block.
    The bus header that [morse_skbq_skb_tx] prepends and
    [morse_skb_remove_hdr_after_sent_to_chip] strips again is transport
    framing and is not represented. *)
Record cmd_skb := CmdSkb {
  skb_cmd : morse_cmd;
  skb_cb : morse_cmd_resp_cb
}.

(** What the functions do to their environment besides updating [morse]. *)
Inductive effect :=
| Eff_event_recv (skb : list byte)       (* morse_mac_event_recv(mors, skb) *)
| Eff_log_late (resp_message_id resp_host_id : Z)
| Eff_log_retry_mismatch
| Eff_complete                            (* complete(mors->cmd_comp) *)
| Eff_kfree_skb (skb : list byte)        (* dev_kfree_skb(skb) *)
| Eff_log_timeout (retry : Z).

(** The part of [struct morse] the transport uses, with the memory holding
    the callers' response buffers.
    - [has_cmd_q]: [skbq_cmd_tc_q(mors)] is not [NULL];
    - [cmd_comp]: [mors->cmd_comp] points to the waiter's completion;
    - [comp_done]: the [done] count of that (on-stack) completion;
    - [pending]: [morse_skbq_tx_pending(cmd_q)];
    - [to_chip]: the frames handed to [morse_skbq_skb_tx], oldest first. *)
Record morse := Morse {
  has_cmd_q : bool;
  cmd_seq : Z;
  cmd_comp : bool;
  comp_done : nat;
  pending : option cmd_skb;
  ps_disabled : Z;
  mem : gmap Z (list byte);
  to_chip : list cmd_skb;
  log : list effect
}.

Definition set_cmd_seq (v : Z) (m : morse) : morse :=
  Morse (has_cmd_q m) v (cmd_comp m) (comp_done m) (pending m) (ps_disabled m)
        (mem m) (to_chip m) (log m).
Definition set_cmd_comp (v : bool) (m : morse) : morse :=
  Morse (has_cmd_q m) (cmd_seq m) v (comp_done m) (pending m) (ps_disabled m)
        (mem m) (to_chip m) (log m).
Definition set_comp_done (v : nat) (m : morse) : morse :=
  Morse (has_cmd_q m) (cmd_seq m) (cmd_comp m) v (pending m) (ps_disabled m)
        (mem m) (to_chip m) (log m).
Definition set_pending (v : option cmd_skb) (m : morse) : morse :=
  Morse (has_cmd_q m) (cmd_seq m) (cmd_comp m) (comp_done m) v (ps_disabled m)
        (mem m) (to_chip m) (log m).
Definition set_ps_disabled (v : Z) (m : morse) : morse :=
  Morse (has_cmd_q m) (cmd_seq m) (cmd_comp m) (comp_done m) (pending m) v
        (mem m) (to_chip m) (log m).
Definition set_mem (v : gmap Z (list byte)) (m : morse) : morse :=
  Morse (has_cmd_q m) (cmd_seq m) (cmd_comp m) (comp_done m) (pending m)
        (ps_disabled m) v (to_chip m) (log m).
Definition push_to_chip (s : cmd_skb) (m : morse) : morse :=
  Morse (has_cmd_q m) (cmd_seq m) (cmd_comp m) (comp_done m) (pending m)
        (ps_disabled m) (mem m) (to_chip m ++ [s]) (log m).
Definition emit (es : list effect) (m : morse) : morse :=
  Morse (has_cmd_q m) (cmd_seq m) (cmd_comp m) (comp_done m) (pending m)
        (ps_disabled m) (mem m) (to_chip m) (log m ++ es).

Definition set_host_id (v : Z) (h : morse_cmd_header) : morse_cmd_header :=
  Hdr (flags h) (message_id h) (len h) v (vif_id h).
Definition set_flags (v : Z) (h : morse_cmd_header) : morse_cmd_header :=
  Hdr v (message_id h) (len h) (host_id h) (vif_id h).
Definition set_cb_ret (v : Z) (cb : morse_cmd_resp_cb) : morse_cmd_resp_cb :=
  Cb v (cb_length cb) (cb_dest_resp cb).

(** [memcpy(dst, src, n)] on the byte images, [n] being a [size_t]: the
    first [n] bytes of [dst] are replaced by the first [n] bytes of [src],
    and [dst] keeps its length.  A copy of more bytes than [src] or [dst]
    holds reads or writes beyond the buffer: it has no result. *)
Definition memcpy (dst src : list byte) (n : Z) : option (list byte) :=
  if (n <=? Z.of_nat (length src)) && (n <=? Z.of_nat (length dst))
  then Some (take (Z.to_nat n) src ++ drop (Z.to_nat n) dst)
  else None.

Section Transport.
Variable h : command_h.

(** The sequence and retry portions of a host id. *)
Definition seq_bits (id : Z) : Z := Z.land id (MORSE_CMD_HOST_ID_SEQ_MASK h).
Definition retry_bits (id : Z) : Z := Z.land id (MORSE_CMD_HOST_ID_RETRY_MASK h).

(** The test that sends [morse_cmd_resp_process] to [exit] with
    [is_late_response] set. *)
Definition is_late (cmd : option cmd_skb) (resp_message_id resp_host_id : Z) : bool :=
  match cmd with
  | None => true
  | Some s =>
      let message_id := message_id (hdr (skb_cmd s)) in
      let host_id := host_id (hdr (skb_cmd s)) in
      negb (message_id =? resp_message_id)
      || negb (seq_bits host_id =? seq_bits resp_host_id)
  end.

(** The tail of the matched path of [morse_cmd_resp_process]: the result
    code stored in [resp_cb->ret] and the memory after the optional
    [memcpy(dest_resp, src_resp, length)].  [length] is an [int]; the test
    against [sizeof(struct morse_resp)] is unsigned, the [min_t(int, ...)]
    signed, and [memcpy] takes the result as a [size_t] again, so that a
    negative [length] asks for a copy of nearly [2^64] bytes.  [skb] is the
    received buffer from [skb->data] on, whose length the function never
    looks at; [dest_resp] is the address of one of the buffers of [mm]. *)
Definition resp_deliver (resp_cb : morse_cmd_resp_cb) (skb : list byte)
    (mm : gmap Z (list byte)) : option (Z * gmap Z (list byte)) :=
  let length := s32 (cb_length resp_cb) in
  match cb_dest_resp resp_cb with
  | Some d =>
      if size_t length >=? sizeof_morse_resp h then
        let length :=
          Z.min length (s32 (len (resp_hdr h skb) + sizeof_morse_cmd_header h)) in
        dst ← mm !! d;
        new ← memcpy dst skb (size_t length);
        Some (0, <[d := new]> mm)
      else Some (s32 (resp_status h skb), mm)
  | None => Some (s32 (resp_status h skb), mm)
  end.

(** [if (mors->cmd_comp) complete(mors->cmd_comp);] *)
Definition complete_waiter (m : morse) : morse :=
  if cmd_comp m then emit [Eff_complete] (set_comp_done (S (comp_done m)) m) else m.

(** [morse_cmd_resp_process(mors, skb)]; [skb] is the received buffer's data.
    The function returns 0 on every path; it has no result when the copy
    into the caller's buffer leaves one of the two buffers. *)
Definition morse_cmd_resp_process (m : morse) (skb : list byte) : option (Z * morse) :=
  let src_hdr := resp_hdr h skb in
  let resp_message_id := message_id src_hdr in
  let resp_host_id := host_id src_hdr in
  if negb (MORSE_CMD_IS_CFM h src_hdr) then
    Some (0, emit [Eff_event_recv skb; Eff_kfree_skb skb] m)
  else
    match pending m with
    | None =>
        Some (0, emit [Eff_log_late resp_message_id resp_host_id; Eff_kfree_skb skb] m)
    | Some s =>
        if is_late (Some s) resp_message_id resp_host_id then
          Some (0, emit [Eff_log_late resp_message_id resp_host_id; Eff_kfree_skb skb] m)
        else
          let m :=
            if negb (retry_bits (host_id (hdr (skb_cmd s))) =? retry_bits resp_host_id)
            then emit [Eff_log_retry_mismatch] m else m in
          let resp_cb := skb_cb s in
          out ← resp_deliver resp_cb skb (mem m);
          let m := set_mem (snd out) m in
          let m := set_pending (Some (CmdSkb (skb_cmd s) (set_cb_ret (fst out) resp_cb))) m in
          Some (0, emit [Eff_kfree_skb skb] (complete_waiter m))
    end.

(** The message is handled as the confirmation of the pending command:
    the result is recorded in the command's control block. *)
Definition treated_as_match (m : morse) (skb : list byte) : bool :=
  MORSE_CMD_IS_CFM h (resp_hdr h skb) &&
  negb (is_late (pending m) (message_id (resp_hdr h skb)) (host_id (resp_hdr h skb))).

(** What the environment does during one pass of the retry loop of
    [morse_cmd_tx]: whether [morse_skbq_alloc_skb] returns a buffer, what
    [morse_skbq_skb_tx] returns, and the control messages that reach
    [morse_cmd_resp_process] while the caller sleeps in
    [wait_for_completion_timeout], in order of arrival. *)
Record attempt_env := AttemptEnv {
  alloc_ok : bool;
  tx_rc : Z;
  inbound : list (list byte)
}.

(** [wait_for_completion_timeout(&cmd_comp, ...)]: the caller is woken as
    soon as the completion is signalled (the count is consumed); when the
    messages of the window are exhausted first, the wait times out and
    returns 0 ([false]).  A message whose processing has no result leaves
    the wait without one. *)
Fixpoint wait_for_completion_timeout (m : morse) (msgs : list (list byte))
  {struct msgs} : option (bool * morse) :=
  match comp_done m with
  | S n => Some (true, set_comp_done n m)
  | O =>
      match msgs with
      | [] => Some (false, m)
      | skb :: rest =>
          match morse_cmd_resp_process m skb with
          | Some r => wait_for_completion_timeout (snd r) rest
          | None => None
          end
      end
  end.

(** How one pass of the [do { ... } while] body ends. *)
Inductive attempt_result :=
| Att_nomem                       (* no buffer: ret = -ENOMEM; break *)
| Att_tx_fail (rc : Z)            (* morse_skbq_skb_tx failed: break *)
| Att_timeout                     (* !wait_ret: ret = -ETIMEDOUT *)
| Att_done (ret : Z).             (* woken: ret read from the response *)

(** [ret] after the pass. *)
Definition attempt_ret (r : attempt_result) : Z :=
  match r with
  | Att_nomem => - ENOMEM
  | Att_tx_fail rc => rc
  | Att_timeout => - ETIMEDOUT
  | Att_done ret => ret
  end.

(** The pass left the loop through [break]. *)
Definition attempt_break (r : attempt_result) : bool :=
  match r with
  | Att_nomem | Att_tx_fail _ => true
  | _ => false
  end.

(** The frame built for try number [retry]: the command with
    [hdr.host_id = cpu_to_le16(host_id | retry)], [cmd_len] bytes of it. *)
Definition cmd_frame (cmd : morse_cmd) (host_id retry : Z) : morse_cmd :=
  Command (set_host_id (u16 (Z.lor host_id retry)) (hdr cmd))
          (take (Z.to_nat (len (hdr cmd))) (data cmd)).

(** The body of the retry loop of [morse_cmd_tx], up to and including
    [retry++] (done by the caller of this function). *)
Definition cmd_tx_attempt (e : attempt_env) (resp : option Z) (cmd : morse_cmd)
    (length host_id retry : Z) (m : morse) : option (attempt_result * morse) :=
  if negb (alloc_ok e) then Some (Att_nomem, m)
  else
    let skb := CmdSkb (cmd_frame cmd host_id retry) (Cb 0 length resp) in
    let m := set_cmd_comp true m in
    let m := if 0 <? retry then set_comp_done 0 m else m in
    if negb (tx_rc e =? 0) then Some (Att_tx_fail (tx_rc e), m)
    else
      let m := set_pending (Some skb) (push_to_chip skb m) in
      w ← wait_for_completion_timeout m (inbound e);
      let m := set_cmd_comp false (snd w) in
      if negb (fst w) then
        Some (Att_timeout, set_pending None (emit [Eff_log_timeout retry] m))
      else
        let ret :=
          match resp with
          | Some d =>
              if negb (length =? 0)
              then s32 (resp_status h (default [] (mem m !! d)))
              else from_option (fun s => cb_ret (skb_cb s)) 0 (pending m)
          | None => from_option (fun s => cb_ret (skb_cb s)) 0 (pending m)
          end in
        Some (Att_done ret, set_pending None m).

(** The [do { ... } while ((ret == -ETIMEDOUT) && retry < MM_MAX_COMMAND_RETRY)]
    loop; [fuel] bounds the number of passes. *)
Fixpoint cmd_tx_loop (fuel : nat) (env : Z -> attempt_env) (resp : option Z)
    (cmd : morse_cmd) (length host_id retry : Z) (m : morse) : option (Z * morse) :=
  match fuel with
  | O => None
  | S fuel' =>
      match cmd_tx_attempt (env retry) resp cmd length host_id retry m with
      | None => None
      | Some a =>
          let ret := attempt_ret (fst a) in
          if attempt_break (fst a) then Some (ret, snd a)
          else
            let retry := retry + 1 in
            if (ret =? - ETIMEDOUT) && (retry <? MM_MAX_COMMAND_RETRY)
            then cmd_tx_loop fuel' env resp cmd length host_id retry (snd a)
            else Some (ret, snd a)
      end
  end.

(** The sequence number [morse_cmd_tx] assigns: [cmd_seq + 1], wrapping to 1
    after [MORSE_CMD_HOST_ID_SEQ_MAX]. *)
Definition next_seq (m : morse) : Z :=
  if cmd_seq m + 1 >? MORSE_CMD_HOST_ID_SEQ_MAX h then 1 else cmd_seq m + 1.

(** [host_id = mors->cmd_seq << MORSE_CMD_HOST_ID_SEQ_SHIFT] (a [u16]). *)
Definition cmd_host_id (m : morse) : Z :=
  u16 (Z.shiftl (next_seq m) (MORSE_CMD_HOST_ID_SEQ_SHIFT h)).

(** The command as the loop sees it: [hdr.flags] set to [MORSE_CMD_REQ]. *)
Definition cmd_req (cmd : morse_cmd) : morse_cmd :=
  Command (set_flags (MORSE_CMD_REQ h) (hdr cmd)) (data cmd).

(** The state on entry to the loop: sequence number taken, power save
    blocked, the on-stack completion freshly initialised. *)
Definition cmd_tx_begin (m : morse) : morse :=
  set_ps_disabled (ps_disabled m + 1) (set_comp_done 0 (set_cmd_seq (next_seq m) m)).

(** [morse_cmd_tx(mors, resp, cmd, length, timeout, func)].  [timeout]
    bounds the sleep of each pass; what arrives within it is given by
    [inbound (env retry)], so the value itself is not an argument here.
    [func] only appears in log messages.  The call has no result when a
    confirmation received during one of its waits is copied out of bounds;
    the loop itself never needs more than [MM_MAX_COMMAND_RETRY] passes
    ([morse_cmd_tx_unfold]). *)
Definition morse_cmd_tx (env : Z -> attempt_env) (m : morse) (resp : option Z)
    (cmd : morse_cmd) (length : Z) : option (Z * morse) :=
  if negb (has_cmd_q m) then Some (- ENODEV, m)
  else
    match cmd_tx_loop (Z.to_nat MM_MAX_COMMAND_RETRY) env resp (cmd_req cmd) length
                      (cmd_host_id m) 0 (cmd_tx_begin m) with
    | Some (ret, m) => Some (ret, set_ps_disabled (ps_disabled m - 1) m)
    | None => None
    end.

End Transport.

(** An instance of the [command.h] parameters on which the model can be
    run: 12-bit sequence and 4-bit retry fields, and a little-endian header
    of six 16-bit words followed by the 32-bit status. *)
Definition byte_at (bs : list byte) (i : nat) : Z :=
  Z.of_N (Byte.to_N (nth i bs x00)).
Definition le16_at (bs : list byte) (i : nat) : Z :=
  byte_at bs i + 2 ^ 8 * byte_at bs (i + 1).
Definition le32_at (bs : list byte) (i : nat) : Z :=
  le16_at bs i + 2 ^ 16 * le16_at bs (i + 2).

Definition sample_command_h : command_h := {|
  MORSE_CMD_HOST_ID_SEQ_MAX := 0xfff;
  MORSE_CMD_HOST_ID_SEQ_SHIFT := 4;
  MORSE_CMD_HOST_ID_SEQ_MASK := 0xfff0;
  MORSE_CMD_HOST_ID_RETRY_MASK := 0xf;
  MORSE_CMD_REQ := 1;
  MORSE_CMD_IS_CFM := fun hd => Z.testbit (flags hd) 1;
  sizeof_morse_cmd_header := 12;
  sizeof_morse_resp := 16;
  resp_hdr := fun bs =>
    Hdr (le16_at bs 0) (le16_at bs 2) (le16_at bs 4) (le16_at bs 6) (le16_at bs 8);
  resp_status := fun bs => le32_at bs 12
|}.

Section TransportFacts.
Variable h : command_h.

(** *** Host-id bit fields *)

Lemma testbit_retry k n : (k = 0 \/ k = 1) -> 0 <= n -> Z.testbit k n = (n =? 0) && (k =? 1).
Proof.
  intros [-> | ->] Hn.
  - rewrite Z.bits_0. now rewrite andb_false_r.
  - change 1 with (Z.ones 1) at 1. rewrite Z.testbit_ones_nonneg by lia.
    rewrite andb_true_r. destruct (Z.ltb_spec n 1), (Z.eqb_spec n 0); lia || reflexivity.
Qed.

Lemma testbit_u16 x n : 0 <= n -> Z.testbit (CInt.u16 x) n = (n <? 16) && Z.testbit x n.
Proof.
  intros Hn. unfold CInt.u16. destruct (Z.ltb_spec n 16).
  - now rewrite Z.mod_pow2_bits_low.
  - now rewrite Z.mod_pow2_bits_high.
Qed.

Lemma host_id_retry_bits x k :
  command_h_wf h -> k = 0 \/ k = 1 ->
  retry_bits h (u16 (Z.lor (u16 (Z.shiftl x (MORSE_CMD_HOST_ID_SEQ_SHIFT h))) k)) = k.
Proof.
  intros (Hs & Hr & _) Hk. unfold retry_bits. rewrite Hr.
  apply Z.bits_inj'. intros n Hn.
  rewrite Z.land_spec, testbit_u16, Z.lor_spec, testbit_u16, Z.testbit_ones_nonneg by lia.
  rewrite (testbit_retry k n Hk Hn).
  destruct (Z.ltb_spec n (MORSE_CMD_HOST_ID_SEQ_SHIFT h)).
  - rewrite Z.shiftl_spec_low by lia.
    destruct (Z.ltb_spec n 16); [|lia]. simpl. now rewrite andb_true_r.
  - destruct (Z.eqb_spec n 0); [lia|]. simpl. now rewrite orb_false_r, andb_false_r.
Qed.

Lemma host_id_seq_bits x k :
  command_h_wf h -> k = 0 \/ k = 1 ->
  seq_bits h (u16 (Z.lor x k)) = seq_bits h x.
Proof.
  intros (Hs & _ & Hm) Hk. unfold seq_bits. rewrite Hm.
  apply Z.bits_inj'. intros n Hn.
  rewrite !Z.land_spec, testbit_u16, Z.lor_spec by lia.
  rewrite (testbit_retry k n Hk Hn).
  rewrite Z.shiftl_spec by lia.
  destruct (Z.ltb_spec n (MORSE_CMD_HOST_ID_SEQ_SHIFT h)).
  - rewrite (Z.testbit_neg_r _ (n - _)) by lia. now rewrite !andb_false_r.
  - rewrite Z.testbit_ones_nonneg by lia.
    destruct (Z.eqb_spec n 0); [lia|]. simpl. rewrite orb_false_r.
    destruct (Z.ltb_spec n 16), (Z.ltb_spec (n - MORSE_CMD_HOST_ID_SEQ_SHIFT h)
      (16 - MORSE_CMD_HOST_ID_SEQ_SHIFT h)); try lia; simpl; auto.
Qed.


(** *** The response demultiplexer *)

(** The matching condition in the words of the specification: a command is
    pending, and the message id and the sequence portion of the host id of
    the message equal those of the pending command. *)
Definition resp_matches (m : morse) (skb : list byte) : Prop :=
  exists s, pending m = Some s /\
    message_id (hdr (skb_cmd s)) = message_id (resp_hdr h skb) /\
    seq_bits h (host_id (hdr (skb_cmd s))) = seq_bits h (host_id (resp_hdr h skb)).

(** What the function does with a message it takes for the confirmation of
    the pending command: a result code is stored in the control block of the
    pending command, the waiter (if any) is signalled once, and no late
    response is logged.  The copy into the caller's buffer belongs to this
    path only; when it leaves one of the buffers the function has no
    result. *)
Definition handled_as_match (m : morse) (skb : list byte) (r : option (Z * morse)) : Prop :=
  match r with
  | Some (_, m') =>
      (exists s ret, pending m = Some s /\
         pending m' = Some (CmdSkb (skb_cmd s) (set_cb_ret ret (skb_cb s)))) /\
      comp_done m' = (if cmd_comp m then S (comp_done m) else comp_done m) /\
      (forall a b, Eff_log_late a b ∉ drop (length (log m)) (log m'))
  | None =>
      exists s, pending m = Some s /\ resp_deliver h (skb_cb s) skb (mem m) = None
  end.

(** What it does with a late response: a log line, and the buffer is freed. *)
Definition handled_as_late (m : morse) (skb : list byte) (r : option (Z * morse)) : Prop :=
  r = Some (0, emit [Eff_log_late (message_id (resp_hdr h skb)) (host_id (resp_hdr h skb));
                     Eff_kfree_skb skb] m).

Lemma is_late_false m skb :
  is_late h (pending m) (message_id (resp_hdr h skb)) (host_id (resp_hdr h skb)) = false
  <-> resp_matches m skb.
Proof.
  unfold is_late, resp_matches. destruct (pending m) as [s|]; split.
  - intros H. apply orb_false_elim in H as [H1 H2].
    apply negb_false_iff in H1, H2. apply Z.eqb_eq in H1, H2. eauto.
  - intros (s' & [= <-] & H1 & H2). rewrite H1, H2, !Z.eqb_refl. reflexivity.
  - discriminate.
  - intros (s' & Hs & _). discriminate.
Qed.

Lemma resp_process_late m skb :
  MORSE_CMD_IS_CFM h (resp_hdr h skb) = true ->
  ~ resp_matches m skb ->
  morse_cmd_resp_process h m skb =
    Some (0, emit [Eff_log_late (message_id (resp_hdr h skb)) (host_id (resp_hdr h skb));
                   Eff_kfree_skb skb] m).
Proof.
  intros Hcfm Hno. rewrite <- is_late_false in Hno. apply not_false_is_true in Hno.
  unfold morse_cmd_resp_process. cbv zeta. rewrite Hcfm. cbn [negb].
  destruct (pending m) as [s|]; [|reflexivity]. now rewrite Hno.
Qed.

(** The state before [resp_cb->ret] is stored: with the retry-mismatch line
    logged when the retry portions differ. *)
Definition log_retry_mismatch (m : morse) (s : cmd_skb) (skb : list byte) : morse :=
  if negb (retry_bits h (host_id (hdr (skb_cmd s))) =? retry_bits h (host_id (resp_hdr h skb)))
  then emit [Eff_log_retry_mismatch] m else m.

(** The state in which the matched path ends, [out] being the result code
    and the memory [resp_deliver] leaves. *)
Definition matched_state (m : morse) (s : cmd_skb) (skb : list byte)
    (out : Z * gmap Z (list byte)) : morse :=
  emit [Eff_kfree_skb skb]
    (complete_waiter
       (set_pending (Some (CmdSkb (skb_cmd s) (set_cb_ret (fst out) (skb_cb s))))
          (set_mem (snd out) (log_retry_mismatch m s skb)))).

Lemma resp_process_matched m skb s :
  MORSE_CMD_IS_CFM h (resp_hdr h skb) = true ->
  pending m = Some s ->
  resp_matches m skb ->
  morse_cmd_resp_process h m skb =
    (out ← resp_deliver h (skb_cb s) skb (mem m); Some (0, matched_state m s skb out)).
Proof.
  intros Hcfm Hs Hm. rewrite <- is_late_false in Hm. rewrite Hs in Hm.
  unfold morse_cmd_resp_process, matched_state, log_retry_mismatch. cbv zeta.
  rewrite Hcfm, Hs. cbn [negb]. rewrite Hm.
  destruct (negb _); reflexivity.
Qed.

Lemma matched_state_fields m s skb out :
  pending (matched_state m s skb out)
    = Some (CmdSkb (skb_cmd s) (set_cb_ret (fst out) (skb_cb s))) /\
  mem (matched_state m s skb out) = snd out /\
  comp_done (matched_state m s skb out)
    = (if cmd_comp m then S (comp_done m) else comp_done m) /\
  cmd_comp (matched_state m s skb out) = cmd_comp m /\
  to_chip (matched_state m s skb out) = to_chip m /\
  cmd_seq (matched_state m s skb out) = cmd_seq m /\
  has_cmd_q (matched_state m s skb out) = has_cmd_q m /\
  ps_disabled (matched_state m s skb out) = ps_disabled m.
Proof.
  unfold matched_state, complete_waiter, log_retry_mismatch.
  destruct (negb _), (cmd_comp m) eqn:Hc; cbn; rewrite ?Hc; cbn; rewrite ?Hc; auto 10.
Qed.

Lemma matched_state_log m s skb out a b :
  Eff_log_late a b ∉ drop (length (log m)) (log (matched_state m s skb out)).
Proof.
  unfold matched_state, complete_waiter, log_retry_mismatch.
  destruct (negb _), (cmd_comp m) eqn:Hc; simpl; rewrite ?Hc; simpl;
    rewrite <- ?app_assoc, drop_app_length; simpl;
    rewrite !elem_of_cons, ?elem_of_nil; intuition discriminate.
Qed.

Lemma handled_as_match_intro m skb s :
  MORSE_CMD_IS_CFM h (resp_hdr h skb) = true ->
  pending m = Some s ->
  resp_matches m skb ->
  handled_as_match m skb (morse_cmd_resp_process h m skb).
Proof.
  intros Hcfm Hs Hm. rewrite (resp_process_matched m skb s Hcfm Hs Hm).
  destruct (resp_deliver h (skb_cb s) skb (mem m)) as [out|] eqn:Hout;
    cbn [mbind option_bind handled_as_match].
  - destruct (matched_state_fields m s skb out) as (Hp & _ & Hc & _).
    split; [|split].
    + exists s, (fst out). auto.
    + exact Hc.
    + intros a b. apply matched_state_log.
  - exists s. auto.
Qed.

(** C2: a confirmation is handled as the answer to the pending command
    exactly when a command is pending and message id and sequence bits agree;
    otherwise it is handled as a late response.  A difference in the retry
    bits alone does not prevent the match: it only adds a log line. *)
Theorem resp_process_match_iff (m : morse) (skb : list byte) :
  MORSE_CMD_IS_CFM h (resp_hdr h skb) = true ->
  let r := morse_cmd_resp_process h m skb in
  (resp_matches m skb <-> handled_as_match m skb r) /\
  (~ resp_matches m skb <-> handled_as_late m skb r) /\
  (forall s, pending m = Some s ->
     message_id (hdr (skb_cmd s)) = message_id (resp_hdr h skb) ->
     seq_bits h (host_id (hdr (skb_cmd s))) = seq_bits h (host_id (resp_hdr h skb)) ->
     retry_bits h (host_id (hdr (skb_cmd s))) <> retry_bits h (host_id (resp_hdr h skb)) ->
     handled_as_match m skb r /\
     forall ret m', r = Some (ret, m') -> Eff_log_retry_mismatch ∈ log m').
Proof.
  intros Hcfm r.
  assert (Hlate : ~ resp_matches m skb -> handled_as_late m skb r).
  { intros Hno. unfold handled_as_late, r. now rewrite resp_process_late. }
  assert (Hmatch : resp_matches m skb -> handled_as_match m skb r).
  { intros (s & Hs & H1 & H2).
    apply (handled_as_match_intro m skb s Hcfm Hs). exists s; auto. }
  assert (Hexcl : handled_as_late m skb r -> ~ handled_as_match m skb r).
  { intros Hl Hh. rewrite Hl in Hh. destruct Hh as (_ & _ & Hlog). simpl in Hlog.
    rewrite drop_app_length in Hlog. eapply Hlog. apply elem_of_cons. left. reflexivity. }
  assert (Hdec : resp_matches m skb \/ ~ resp_matches m skb).
  { rewrite <- is_late_false. destruct (is_late _ _ _ _); [right|left]; congruence. }
  split; [|split].
  - split; [exact Hmatch|]. intros Hh. destruct Hdec as [|Hno]; [assumption|].
    exfalso. exact (Hexcl (Hlate Hno) Hh).
  - split; [exact Hlate|]. intros Hl Hm. exact (Hexcl Hl (Hmatch Hm)).
  - intros s Hs H1 H2 Hr.
    assert (Hm : resp_matches m skb) by (exists s; auto).
    split; [exact (Hmatch Hm)|].
    intros ret m'. unfold r. rewrite (resp_process_matched m skb s Hcfm Hs Hm).
    destruct (resp_deliver h (skb_cb s) skb (mem m)) as [out|]; [|discriminate].
    cbn [mbind option_bind]. intros [= _ <-].
    unfold matched_state. cbn [emit log]. apply elem_of_app. left.
    unfold complete_waiter, log_retry_mismatch.
    apply Z.eqb_neq in Hr. rewrite Hr. simpl.
    destruct (cmd_comp m) eqn:Hc; simpl; rewrite ?Hc; simpl;
      rewrite ?elem_of_app, !elem_of_cons; auto.
Qed.

(** C3: a confirmation that does not match the pending command (none
    pending, other message id, or other sequence bits) signals no completion,
    leaves the callers' buffers, the pending command and its control block as
    they were, and frees the received buffer; the only other trace is the
    late-response log line. *)
Theorem resp_process_unmatched_frame (m : morse) (skb : list byte) :
  MORSE_CMD_IS_CFM h (resp_hdr h skb) = true ->
  ~ resp_matches m skb ->
  exists m',
    morse_cmd_resp_process h m skb = Some (0, m') /\
    comp_done m' = comp_done m /\
    cmd_comp m' = cmd_comp m /\
    mem m' = mem m /\
    pending m' = pending m /\
    cmd_seq m' = cmd_seq m /\
    to_chip m' = to_chip m /\
    log m' = log m ++ [Eff_log_late (message_id (resp_hdr h skb)) (host_id (resp_hdr h skb));
                       Eff_kfree_skb skb].
Proof.
  intros Hcfm Hno. rewrite (resp_process_late m skb Hcfm Hno).
  eexists. split; [reflexivity|]. simpl. repeat split.
Qed.


(** *** The copy into the caller's buffer *)

Lemma memcpy_length dst src n new :
  memcpy dst src n = Some new -> length new = length dst.
Proof.
  unfold memcpy. destruct (Z.leb_spec n (Z.of_nat (length src))); [|discriminate].
  destruct (Z.leb_spec n (Z.of_nat (length dst))); [|discriminate].
  intros [= <-]. rewrite length_app, length_take, length_drop. lia.
Qed.

Lemma memcpy_in_bounds dst src n :
  n <= Z.of_nat (length src) -> n <= Z.of_nat (length dst) ->
  memcpy dst src n = Some (take (Z.to_nat n) src ++ drop (Z.to_nat n) dst).
Proof.
  intros H1 H2. unfold memcpy.
  destruct (Z.leb_spec n (Z.of_nat (length src))); [|lia].
  destruct (Z.leb_spec n (Z.of_nat (length dst))); [|lia]. reflexivity.
Qed.

Lemma memcpy_out_of_bounds dst src n :
  Z.of_nat (length src) < n \/ Z.of_nat (length dst) < n -> memcpy dst src n = None.
Proof.
  intros H. unfold memcpy.
  destruct (Z.leb_spec n (Z.of_nat (length src))); [|reflexivity].
  destruct (Z.leb_spec n (Z.of_nat (length dst))); [lia|reflexivity].
Qed.

Lemma size_t_small z : 0 <= z < 2 ^ 31 -> size_t z = z.
Proof.
  intros Hz. unfold size_t. apply Z.mod_small. split; [lia|].
  eapply Z.lt_trans; [apply Hz|]. now vm_compute.
Qed.

(** The layout of [struct morse_resp], as far as the status word goes: it
    lies within the struct, behind the header. *)
Definition status_in_resp : Prop :=
  forall a b : list byte,
    take (Z.to_nat (sizeof_morse_resp h)) a = take (Z.to_nat (sizeof_morse_resp h)) b ->
    resp_status h a = resp_status h b.

Definition status_behind_header : Prop :=
  forall a b : list byte,
    drop (Z.to_nat (sizeof_morse_cmd_header h)) a
      = drop (Z.to_nat (sizeof_morse_cmd_header h)) b ->
    resp_status h a = resp_status h b.

(** The copy of the matched path, for a command with a buffer at [d] and an
    expected length of at least [sizeof(struct morse_resp)]. *)
Lemma resp_deliver_copy cb skb mm d dst :
  cb_dest_resp cb = Some d ->
  0 <= cb_length cb < 2 ^ 31 ->
  sizeof_morse_resp h <= cb_length cb ->
  0 <= len (resp_hdr h skb) + sizeof_morse_cmd_header h < 2 ^ 31 ->
  mm !! d = Some dst ->
  resp_deliver h cb skb mm =
    (new ← memcpy dst skb (Z.min (cb_length cb)
                                 (len (resp_hdr h skb) + sizeof_morse_cmd_header h));
     Some (0, <[d := new]> mm)).
Proof.
  intros Hd Hlen Hge Hdecl Hdst. unfold resp_deliver. rewrite Hd.
  rewrite (s32_small _ Hlen), (s32_small _ Hdecl), (size_t_small _ Hlen).
  destruct (Z.geb_spec (cb_length cb) (sizeof_morse_resp h)); [|lia].
  cbv zeta. rewrite Hdst. cbn [mbind option_bind].
  rewrite size_t_small by lia. reflexivity.
Qed.

(** Without a buffer, or with an expected length below
    [sizeof(struct morse_resp)], nothing is copied. *)
Lemma resp_deliver_raw cb skb mm :
  0 <= cb_length cb < 2 ^ 31 ->
  cb_dest_resp cb = None \/ cb_length cb < sizeof_morse_resp h ->
  resp_deliver h cb skb mm = Some (s32 (resp_status h skb), mm).
Proof.
  intros Hlen Hcase. unfold resp_deliver.
  destruct (cb_dest_resp cb) as [d|]; [|reflexivity].
  destruct Hcase as [|Hshort]; [discriminate|].
  rewrite (s32_small _ Hlen), (size_t_small _ Hlen).
  destruct (Z.geb_spec (cb_length cb) (sizeof_morse_resp h)); [lia|reflexivity].
Qed.

(** C8 (amended): on a matched confirmation whose command has a destination
    buffer and an expected length of at least [sizeof(struct morse_resp)]
    (and below [2^31]), exactly [n = min(expected length, declared length +
    sizeof(struct morse_cmd_header))] bytes of the message replace the start
    of the destination buffer, which keeps its length, and the result code 0
    is recorded; this when the received buffer and the destination hold [n]
    bytes, otherwise the copy leaves a buffer and has no result.  The status
    word found in the destination afterwards is that of the message when at
    least a [struct morse_resp] was copied, and the one the destination held
    before when no more than the header was.  Without a buffer, or with a
    shorter expected length, nothing is copied and the status word of the
    message is recorded as the result code. *)
Theorem resp_process_copy (m : morse) (skb : list byte) (s : cmd_skb) :
  MORSE_CMD_IS_CFM h (resp_hdr h skb) = true ->
  pending m = Some s ->
  resp_matches m skb ->
  0 <= cb_length (skb_cb s) < 2 ^ 31 ->
  0 <= len (resp_hdr h skb) + sizeof_morse_cmd_header h < 2 ^ 31 ->
  let r := morse_cmd_resp_process h m skb in
  let n := Z.min (cb_length (skb_cb s))
                 (len (resp_hdr h skb) + sizeof_morse_cmd_header h) in
  (forall d dst,
     cb_dest_resp (skb_cb s) = Some d ->
     sizeof_morse_resp h <= cb_length (skb_cb s) ->
     mem m !! d = Some dst ->
     (n <= Z.of_nat (length skb) -> n <= Z.of_nat (length dst) ->
      exists m' new,
        r = Some (0, m') /\
        new = take (Z.to_nat n) skb ++ drop (Z.to_nat n) dst /\
        mem m' !! d = Some new /\ length new = length dst /\
        (forall d', d' <> d -> mem m' !! d' = mem m !! d') /\
        pending m' = Some (CmdSkb (skb_cmd s) (set_cb_ret 0 (skb_cb s))) /\
        (status_in_resp -> 0 <= sizeof_morse_resp h <= n ->
           resp_status h new = resp_status h skb) /\
        (status_behind_header -> n <= sizeof_morse_cmd_header h ->
           resp_status h new = resp_status h dst)) /\
     (Z.of_nat (length skb) < n \/ Z.of_nat (length dst) < n -> r = None)) /\
  (cb_dest_resp (skb_cb s) = None \/ cb_length (skb_cb s) < sizeof_morse_resp h ->
     exists m',
       r = Some (0, m') /\ mem m' = mem m /\
       pending m' =
         Some (CmdSkb (skb_cmd s) (set_cb_ret (s32 (resp_status h skb)) (skb_cb s)))).
Proof.
  intros Hcfm Hs Hm Hlen Hdecl r n.
  unfold r. rewrite (resp_process_matched m skb s Hcfm Hs Hm).
  assert (Hlm : mem (log_retry_mismatch m s skb) = mem m).
  { unfold log_retry_mismatch. now destruct (negb _). }
  split.
  - intros d dst Hd Hge Hdst.
    rewrite (resp_deliver_copy _ skb (mem m) d dst Hd Hlen Hge Hdecl Hdst). fold n.
    split.
    + intros Hsrc Hdest. rewrite (memcpy_in_bounds dst skb n Hsrc Hdest).
      cbn [mbind option_bind].
      set (new := take (Z.to_nat n) skb ++ drop (Z.to_nat n) dst).
      destruct (matched_state_fields m s skb (0, <[d := new]> (mem m)))
        as (Hp & Hmem & _).
      exists (matched_state m s skb (0, <[d := new]> (mem m))), new.
      split; [reflexivity|]. split; [reflexivity|].
      cbn [fst snd] in Hp, Hmem. rewrite Hmem.
      split; [apply lookup_insert_eq|].
      split; [apply (memcpy_length dst skb n); now apply memcpy_in_bounds|].
      split; [intros d' Hne; now apply lookup_insert_ne|].
      split; [exact Hp|]. split.
      * intros Hloc Hsz. apply Hloc. unfold new.
        rewrite take_app_le by (rewrite length_take; lia).
        rewrite take_take. f_equal. lia.
      * intros Hloc Hsz. apply Hloc. unfold new.
        assert (Hn : (Z.to_nat n <= Z.to_nat (sizeof_morse_cmd_header h))%nat) by lia.
        assert (Hk : length (take (Z.to_nat n) skb) = Z.to_nat n)
          by (rewrite length_take; lia).
        rewrite drop_app_ge by lia. rewrite Hk, drop_drop. f_equal. lia.
    + intros Hout. now rewrite (memcpy_out_of_bounds dst skb n Hout).
  - intros Hcase. rewrite (resp_deliver_raw _ skb (mem m) Hlen Hcase).
    cbn [mbind option_bind].
    destruct (matched_state_fields m s skb (s32 (resp_status h skb), mem m))
      as (Hp & Hmem & _).
    eexists. split; [reflexivity|]. split; [exact Hmem|exact Hp].
Qed.

(** *** Copies that stay within their buffers *)

(** The received buffer holds the bytes its header declares. *)
Definition msg_complete (skb : list byte) : Prop :=
  0 <= len (resp_hdr h skb) + sizeof_morse_cmd_header h < 2 ^ 31 /\
  len (resp_hdr h skb) + sizeof_morse_cmd_header h <= Z.of_nat (length skb).

(** The copies a command with control block [cb] can ask for stay within
    their buffers: the expected length is not negative as an [int], the
    buffer at [dest_resp] holds that many bytes, and the messages [msgs]
    hold what they declare.  A command without a buffer asks for no copy. *)
Definition deliverable (cb : morse_cmd_resp_cb) (mm : gmap Z (list byte))
    (msgs : list (list byte)) : Prop :=
  match cb_dest_resp cb with
  | None => True
  | Some d =>
      0 <= cb_length cb < 2 ^ 31 /\
      (exists dst, mm !! d = Some dst /\ cb_length cb <= Z.of_nat (length dst)) /\
      Forall msg_complete msgs
  end.

(** The buffers of the two memories have the same sizes. *)
Definition same_sizes (mm mm' : gmap Z (list byte)) : Prop :=
  forall d, length <$> (mm' !! d) = length <$> (mm !! d).

Lemma same_sizes_refl mm : same_sizes mm mm.
Proof. intros d. reflexivity. Qed.

Lemma same_sizes_trans m1 m2 m3 :
  same_sizes m1 m2 -> same_sizes m2 m3 -> same_sizes m1 m3.
Proof. intros H1 H2 d. now rewrite H2, H1. Qed.

Lemma resp_deliver_sizes cb skb mm out :
  resp_deliver h cb skb mm = Some out -> same_sizes mm (snd out).
Proof.
  unfold resp_deliver. destruct (cb_dest_resp cb) as [d|].
  2:{ intros [= <-]. apply same_sizes_refl. }
  destruct (_ >=? _).
  2:{ intros [= <-]. apply same_sizes_refl. }
  cbv zeta. destruct (mm !! d) as [dst|] eqn:Hdst; [|discriminate].
  cbn [mbind option_bind].
  destruct (memcpy dst skb _) as [new|] eqn:Hcp; [|discriminate].
  cbn [mbind option_bind]. intros [= <-]. cbn [snd]. intros d'.
  destruct (decide (d' = d)) as [->|Hne].
  - rewrite lookup_insert_eq, Hdst. cbn. f_equal. eapply memcpy_length; eassumption.
  - now rewrite lookup_insert_ne.
Qed.

Lemma deliverable_ext cb cb' mm mm' msgs msgs' :
  cb_length cb' = cb_length cb -> cb_dest_resp cb' = cb_dest_resp cb ->
  same_sizes mm mm' -> (Forall msg_complete msgs -> Forall msg_complete msgs') ->
  deliverable cb mm msgs -> deliverable cb' mm' msgs'.
Proof.
  unfold deliverable. intros -> -> Hsz Hmsgs.
  destruct (cb_dest_resp cb) as [d|]; [|auto].
  intros (Hl & (dst & Hdst & Hn) & Hall). split; [exact Hl|]. split; [|auto].
  pose proof (Hsz d) as Hd. rewrite Hdst in Hd. cbn in Hd.
  destruct (mm' !! d) as [dst'|]; [|discriminate]. cbn in Hd. injection Hd as Hd.
  exists dst'. split; [reflexivity|]. lia.
Qed.

Lemma resp_deliver_total cb skb mm :
  deliverable cb mm [skb] -> is_Some (resp_deliver h cb skb mm).
Proof.
  unfold deliverable, resp_deliver. destruct (cb_dest_resp cb) as [d|]; [|eauto].
  intros (Hl & (dst & Hdst & Hn) & Hall). apply Forall_cons in Hall as [[Hdecl Hskb] _].
  rewrite (s32_small _ Hl), (s32_small _ Hdecl), (size_t_small _ Hl).
  destruct (_ >=? _); [|eauto]. cbv zeta. rewrite Hdst. cbn [mbind option_bind].
  rewrite size_t_small by lia. rewrite memcpy_in_bounds by lia. cbn. eauto.
Qed.

(** What a message does to the slots the transport shares with the caller. *)
Definition kept_by_message (m m' : morse) : Prop :=
  to_chip m' = to_chip m /\ cmd_seq m' = cmd_seq m /\
  has_cmd_q m' = has_cmd_q m /\ ps_disabled m' = ps_disabled m /\
  cmd_comp m' = cmd_comp m /\ same_sizes (mem m) (mem m') /\
  match pending m' with
  | None => pending m = None
  | Some s' => exists s, pending m = Some s /\ skb_cmd s' = skb_cmd s /\
                 cb_length (skb_cb s') = cb_length (skb_cb s) /\
                 cb_dest_resp (skb_cb s') = cb_dest_resp (skb_cb s)
  end.

Lemma kept_by_message_refl m : kept_by_message m m.
Proof.
  repeat (split; [reflexivity|]). split; [apply same_sizes_refl|].
  destruct (pending m) as [s|]; [|reflexivity]. exists s. auto.
Qed.

Lemma kept_by_message_trans m1 m2 m3 :
  kept_by_message m1 m2 -> kept_by_message m2 m3 -> kept_by_message m1 m3.
Proof.
  intros (A1 & A2 & A3 & A4 & A5 & A6 & A7) (B1 & B2 & B3 & B4 & B5 & B6 & B7).
  do 5 (split; [congruence|]). split; [eapply same_sizes_trans; eassumption|].
  destruct (pending m3) as [s3|].
  - destruct B7 as (s2 & Hs2 & E1 & E2 & E3). rewrite Hs2 in A7.
    destruct A7 as (s1 & Hs1 & F1 & F2 & F3). exists s1. repeat split; congruence.
  - rewrite B7 in A7. exact A7.
Qed.

Lemma resp_process_keeps m skb r m' :
  morse_cmd_resp_process h m skb = Some (r, m') -> r = 0 /\ kept_by_message m m'.
Proof.
  unfold morse_cmd_resp_process. cbv zeta.
  assert (Hemit : forall es, kept_by_message m (emit es m)).
  { intros es. repeat (split; [reflexivity|]). split; [apply same_sizes_refl|].
    cbn. destruct (pending m) as [s|]; [|reflexivity]. exists s. auto. }
  destruct (negb (MORSE_CMD_IS_CFM _ _)); [intros [= <- <-]; auto|].
  destruct (pending m) as [s|] eqn:Hp; [|intros [= <- <-]; auto].
  destruct (is_late _ _ _ _); [intros [= <- <-]; auto|].
  fold (log_retry_mismatch m s skb).
  assert (Hlm : mem (log_retry_mismatch m s skb) = mem m).
  { unfold log_retry_mismatch. now destruct (negb _). }
  rewrite Hlm.
  destruct (resp_deliver h (skb_cb s) skb (mem m)) as [out|] eqn:Hout; [|discriminate].
  cbn [mbind option_bind]. intros [= <- <-]. split; [reflexivity|].
  fold (matched_state m s skb out).
  destruct (matched_state_fields m s skb out) as (F1 & F2 & _ & F4 & F5 & F6 & F7 & F8).
  repeat (split; [assumption|]). rewrite F2, F1.
  split; [eapply resp_deliver_sizes; eassumption|].
  exists s. rewrite Hp. auto.
Qed.

Lemma resp_process_total m skb :
  (forall s, pending m = Some s -> deliverable (skb_cb s) (mem m) [skb]) ->
  is_Some (morse_cmd_resp_process h m skb).
Proof.
  intros Hok. unfold morse_cmd_resp_process. cbv zeta.
  destruct (negb (MORSE_CMD_IS_CFM _ _)); [eauto|].
  destruct (pending m) as [s|] eqn:Hp; [|eauto].
  destruct (is_late _ _ _ _); [eauto|].
  fold (log_retry_mismatch m s skb).
  assert (Hlm : mem (log_retry_mismatch m s skb) = mem m).
  { unfold log_retry_mismatch. now destruct (negb _). }
  rewrite Hlm. destruct (resp_deliver_total (skb_cb s) skb (mem m) (Hok s eq_refl)) as [out ->].
  cbn. eauto.
Qed.


(** *** The retry loop of [morse_cmd_tx] *)

Lemma wait_keeps msgs : forall m w m',
  wait_for_completion_timeout h m msgs = Some (w, m') ->
  to_chip m' = to_chip m /\ cmd_seq m' = cmd_seq m /\
  has_cmd_q m' = has_cmd_q m /\ ps_disabled m' = ps_disabled m /\
  cmd_comp m' = cmd_comp m /\ same_sizes (mem m) (mem m').
Proof.
  induction msgs as [|skb rest IH]; intros m w m'; simpl.
  - destruct (comp_done m); intros [= <- <-];
      (do 5 (split; [reflexivity|])); apply same_sizes_refl.
  - destruct (comp_done m);
      [|intros [= <- <-]; (do 5 (split; [reflexivity|])); apply same_sizes_refl].
    destruct (morse_cmd_resp_process h m skb) as [[r m1]|] eqn:Hr; [|discriminate].
    cbn [snd]. intros Hw. apply IH in Hw as (H1 & H2 & H3 & H4 & H5 & H6).
    apply resp_process_keeps in Hr as (_ & K1 & K2 & K3 & K4 & K5 & K6 & _).
    do 5 (split; [congruence|]). eapply same_sizes_trans; eassumption.
Qed.

Lemma wait_total msgs : forall m,
  (forall s, pending m = Some s -> deliverable (skb_cb s) (mem m) msgs) ->
  is_Some (wait_for_completion_timeout h m msgs).
Proof.
  induction msgs as [|skb rest IH]; intros m Hok; simpl.
  - destruct (comp_done m); eauto.
  - destruct (comp_done m); [|eauto].
    destruct (resp_process_total m skb) as [[r m1] Hr].
    { intros s Hs. eapply deliverable_ext; [reflexivity|reflexivity|apply same_sizes_refl| |
        exact (Hok s Hs)].
      intros Hall. apply Forall_cons in Hall as [Hskb _]. now constructor. }
    rewrite Hr. cbn [snd]. apply IH. intros s1 Hs1.
    apply resp_process_keeps in Hr as (_ & _ & _ & _ & _ & _ & Hsz & Hp).
    rewrite Hs1 in Hp. destruct Hp as (s & Hs & _ & E1 & E2).
    eapply deliverable_ext; [exact E1|exact E2|exact Hsz| |exact (Hok s Hs)].
    intros Hall. now apply Forall_cons in Hall as [_ Hrest].
Qed.

(** The frame of try number [k], with its control block. *)
Definition try_skb (resp : option Z) (cmd : morse_cmd) (length host_id k : Z) : cmd_skb :=
  CmdSkb (cmd_frame cmd host_id k) (Cb 0 length resp).

(** The buffer was allocated and queued: the pass reached the wait. *)
Definition attempt_sent (e : attempt_env) : bool := alloc_ok e && (tx_rc e =? 0).

Lemma attempt_keeps e resp cmd length hid retry m a :
  cmd_tx_attempt h e resp cmd length hid retry m = Some a ->
  to_chip (snd a) =
    to_chip m ++ (if attempt_sent e then [try_skb resp cmd length hid retry] else []) /\
  attempt_break (fst a) = negb (attempt_sent e) /\
  ps_disabled (snd a) = ps_disabled m /\
  same_sizes (mem m) (mem (snd a)).
Proof.
  unfold cmd_tx_attempt, attempt_sent. cbv zeta.
  destruct (alloc_ok e); cbn [negb andb].
  2:{ intros [= <-]. cbn. rewrite app_nil_r. auto using same_sizes_refl. }
  destruct (Z.eqb_spec (tx_rc e) 0) as [Hrc|Hrc]; cbn [negb].
  2:{ intros [= <-]. cbn. rewrite app_nil_r.
      destruct (0 <? retry); cbn; auto using same_sizes_refl. }
  match goal with
  | |- context [wait_for_completion_timeout h ?m0 ?l] =>
      destruct (wait_for_completion_timeout h m0 l) as [[w mw]|] eqn:Hw; [|discriminate];
      apply wait_keeps in Hw as (H1 & _ & _ & H4 & _ & H6)
  end.
  cbn [mbind option_bind fst snd].
  destruct w; cbn [negb]; intros [= <-]; cbn [fst snd attempt_break];
    cbn; rewrite H1, H4; (split; [|split; [reflexivity|split]]);
    try (destruct (0 <? retry); now cbn);
    intros d; rewrite (H6 d); destruct (0 <? retry); reflexivity.
Qed.

Lemma attempt_total e resp cmd length hid retry m :
  deliverable (Cb 0 length resp) (mem m) (inbound e) ->
  is_Some (cmd_tx_attempt h e resp cmd length hid retry m).
Proof.
  intros Hok. unfold cmd_tx_attempt. cbv zeta.
  destruct (negb (alloc_ok e)); [eauto|].
  destruct (negb (tx_rc e =? 0)); [eauto|].
  match goal with
  | |- context [wait_for_completion_timeout h ?m0 ?l] =>
      destruct (wait_total l m0) as [[w mw] Hw]
  end.
  { intros s Hs. cbn in Hs. injection Hs as <-. cbn [skb_cb].
    eapply deliverable_ext; [reflexivity|reflexivity| |intros H; exact H|exact Hok].
    intros d. destruct (0 <? retry); reflexivity. }
  rewrite Hw. cbn [mbind option_bind fst snd]. destruct (negb w); eauto.
Qed.

Section Call.
Variables (env : Z -> attempt_env) (m : morse) (resp : option Z)
          (cmd : morse_cmd) (length : Z).

(** The first pass of the loop, and the second one from the state [m1] the
    first one left. *)
Definition first_attempt : option (attempt_result * morse) :=
  cmd_tx_attempt h (env 0) resp (cmd_req h cmd) length (cmd_host_id h m) 0
                 (cmd_tx_begin h m).
Definition second_attempt (m1 : morse) : option (attempt_result * morse) :=
  cmd_tx_attempt h (env 1) resp (cmd_req h cmd) length (cmd_host_id h m) 1 m1.

(** The frames of the two tries. *)
Definition try_frame (k : Z) : cmd_skb :=
  try_skb resp (cmd_req h cmd) length (cmd_host_id h m) k.

(** The loop is left after a first pass that ended as [r]. *)
Definition stops_after_first (r : attempt_result) : bool :=
  attempt_break r || negb (attempt_ret r =? - ETIMEDOUT).

(** No confirmation received during the call is copied out of bounds: with
    a response buffer, the expected length is below [2^31], the buffer holds
    that many bytes, and the messages of both waits hold the bytes their
    headers declare. *)
Definition copies_in_bounds : Prop :=
  deliverable (Cb 0 length resp) (mem m) (inbound (env 0) ++ inbound (env 1)).

(** The result of the call, from the results of its passes. *)
Definition call_result (a : attempt_result * morse) : Z * morse :=
  (attempt_ret (fst a), set_ps_disabled (ps_disabled (snd a) - 1) (snd a)).

Lemma morse_cmd_tx_unfold_first a1 :
  has_cmd_q m = true -> first_attempt = Some a1 -> stops_after_first (fst a1) = true ->
  morse_cmd_tx h env m resp cmd length = Some (call_result a1).
Proof.
  intros Hq H1 Hstop. unfold morse_cmd_tx. rewrite Hq. cbn [negb].
  change (Z.to_nat MM_MAX_COMMAND_RETRY) with 2%nat.
  cbn [cmd_tx_loop]. fold first_attempt. rewrite H1.
  unfold stops_after_first in Hstop.
  destruct (attempt_break (fst a1)); [reflexivity|]. cbn [orb] in Hstop.
  apply negb_true_iff in Hstop. rewrite Hstop. reflexivity.
Qed.

Lemma morse_cmd_tx_unfold_second a1 a2 :
  has_cmd_q m = true -> first_attempt = Some a1 -> stops_after_first (fst a1) = false ->
  second_attempt (snd a1) = Some a2 ->
  morse_cmd_tx h env m resp cmd length = Some (call_result a2).
Proof.
  intros Hq H1 Hstop H2. unfold morse_cmd_tx. rewrite Hq. cbn [negb].
  change (Z.to_nat MM_MAX_COMMAND_RETRY) with 2%nat.
  cbn [cmd_tx_loop]. fold first_attempt. rewrite H1.
  unfold stops_after_first in Hstop. apply orb_false_elim in Hstop as [Hb Hr].
  rewrite Hb. apply negb_false_iff in Hr. rewrite Hr.
  change (0 + 1) with 1. change (1 <? MM_MAX_COMMAND_RETRY) with true.
  cbn [andb]. fold (second_attempt (snd a1)). rewrite H2.
  destruct (attempt_break (fst a2)); [reflexivity|].
  change (1 + 1 <? MM_MAX_COMMAND_RETRY) with false. rewrite andb_false_r. reflexivity.
Qed.

(** Both passes have a result when the copies stay in bounds, and two
    passes are enough. *)
Lemma morse_cmd_tx_unfold :
  has_cmd_q m = true -> copies_in_bounds ->
  exists a1 a2,
    first_attempt = Some a1 /\ second_attempt (snd a1) = Some a2 /\
    morse_cmd_tx h env m resp cmd length =
      Some (call_result (if stops_after_first (fst a1) then a1 else a2)).
Proof.
  intros Hq Hok.
  destruct (attempt_total (env 0) resp (cmd_req h cmd) length (cmd_host_id h m) 0
              (cmd_tx_begin h m)) as [a1 H1].
  { eapply deliverable_ext; [reflexivity|reflexivity|apply same_sizes_refl| |exact Hok].
    intros Hall. now apply Forall_app in Hall as [? _]. }
  destruct (attempt_keeps _ _ _ _ _ _ _ _ H1) as (_ & _ & _ & Hsz).
  destruct (attempt_total (env 1) resp (cmd_req h cmd) length (cmd_host_id h m) 1
              (snd a1)) as [a2 H2].
  { eapply deliverable_ext; [reflexivity|reflexivity|exact Hsz| |exact Hok].
    intros Hall. now apply Forall_app in Hall as [_ ?]. }
  exists a1, a2. split; [exact H1|]. split; [exact H2|].
  destruct (stops_after_first (fst a1)) eqn:Hstop.
  - now apply morse_cmd_tx_unfold_first.
  - now apply (morse_cmd_tx_unfold_second a1 a2).
Qed.

(** The call returns when the copies stay in bounds. *)
Lemma morse_cmd_tx_returns :
  copies_in_bounds ->
  exists ret m', morse_cmd_tx h env m resp cmd length = Some (ret, m').
Proof.
  intros Hok. destruct (has_cmd_q m) eqn:Hq.
  - destruct (morse_cmd_tx_unfold Hq Hok) as (a1 & a2 & _ & _ & ->). unfold call_result. eauto.
  - unfold morse_cmd_tx. rewrite Hq. simpl. eauto.
Qed.

(** C1 (amended): with a command queue, and no confirmation copied out of
    bounds, the call makes at most two tries.  Every try carries the same
    payload and header except for the host id, whose sequence bits are those
    of the sequence number taken on entry and whose retry bits are the
    number of the try.  A first try that times out is followed by the second
    try; a second try is made only when the first pass ended with the result
    code -ETIMEDOUT, never after an allocation or transmit failure or a
    response with any other status; and when both tries time out the call
    returns -ETIMEDOUT. *)
Theorem morse_cmd_tx_retry :
  command_h_wf h ->
  has_cmd_q m = true ->
  copies_in_bounds ->
  exists ret m' frames first second,
    first_attempt = Some first /\ second_attempt (snd first) = Some second /\
    morse_cmd_tx h env m resp cmd length = Some (ret, m') /\
    to_chip m' = to_chip m ++ frames /\
    (frames = [] \/ frames = [try_frame 0] \/ frames = [try_frame 0; try_frame 1]) /\
    (forall k, k = 0 \/ k = 1 ->
       data (skb_cmd (try_frame k)) = data (skb_cmd (try_frame 0)) /\
       set_host_id 0 (hdr (skb_cmd (try_frame k)))
         = set_host_id 0 (hdr (skb_cmd (try_frame 0))) /\
       seq_bits h (host_id (hdr (skb_cmd (try_frame k)))) = seq_bits h (cmd_host_id h m) /\
       retry_bits h (host_id (hdr (skb_cmd (try_frame k)))) = k) /\
    (fst first = Att_timeout -> attempt_sent (env 1) = true ->
       frames = [try_frame 0; try_frame 1]) /\
    (frames = [try_frame 0; try_frame 1] ->
       attempt_break (fst first) = false /\
       attempt_ret (fst first) = - ETIMEDOUT) /\
    (attempt_break (fst first) = true \/
     attempt_ret (fst first) <> - ETIMEDOUT ->
       ret = attempt_ret (fst first) /\
       (frames = [] \/ frames = [try_frame 0])) /\
    (fst first = Att_timeout -> fst second = Att_timeout ->
       ret = - ETIMEDOUT).
Proof.
  intros Hwf Hq Hok.
  destruct (morse_cmd_tx_unfold Hq Hok) as (a1 & a2 & H1 & H2 & Hrun).
  destruct (attempt_keeps _ _ _ _ _ _ _ _ H1) as (F1 & B1 & _).
  destruct (attempt_keeps _ _ _ _ _ _ _ _ H2) as (F2 & B2 & _).
  fold (try_frame 0) in F1. fold (try_frame 1) in F2.
  change (to_chip (cmd_tx_begin h m)) with (to_chip m) in F1.
  rewrite F1, <- app_assoc in F2.
  assert (Hne : forall a b : cmd_skb, [a; b] <> [a] /\ [a; b] <> []) by (split; discriminate).
  rewrite Hrun. unfold call_result.
  assert (Hfields : forall k, k = 0 \/ k = 1 ->
       data (skb_cmd (try_frame k)) = data (skb_cmd (try_frame 0)) /\
       set_host_id 0 (hdr (skb_cmd (try_frame k)))
         = set_host_id 0 (hdr (skb_cmd (try_frame 0))) /\
       seq_bits h (host_id (hdr (skb_cmd (try_frame k)))) = seq_bits h (cmd_host_id h m) /\
       retry_bits h (host_id (hdr (skb_cmd (try_frame k)))) = k).
  { intros k Hk. split; [reflexivity|]. split; [reflexivity|]. cbn.
    split; [now apply host_id_seq_bits|].
    unfold cmd_host_id. now apply host_id_retry_bits. }
  unfold stops_after_first.
  destruct (attempt_break (fst a1)) eqn:Hb1; cbn [orb].
  { (* the first pass left through break: nothing was queued *)
    symmetry in B1. apply negb_true_iff in B1. rewrite B1, app_nil_r in F1.
    exists (attempt_ret (fst a1)),
      (set_ps_disabled (ps_disabled (snd a1) - 1) (snd a1)), [], a1, a2.
    split; [exact H1|]. split; [exact H2|].
    split; [reflexivity|]. split; [now rewrite app_nil_r|].
    split; [auto|]. split; [exact Hfields|].
    split; [intros Ht; rewrite Ht in Hb1; discriminate|].
    split; [discriminate|].
    split; [auto|].
    intros Ht; rewrite Ht in Hb1; discriminate. }
  symmetry in B1. apply negb_false_iff in B1. rewrite B1 in F1, F2.
  destruct (Z.eqb_spec (attempt_ret (fst a1)) (- ETIMEDOUT)) as [Hr1|Hr1];
    cbn [negb].
  - (* a second pass is made *)
    destruct (attempt_sent (env 1)) eqn:Hs2.
    + exists (attempt_ret (fst a2)),
        (set_ps_disabled (ps_disabled (snd a2) - 1) (snd a2)),
        [try_frame 0; try_frame 1], a1, a2.
      split; [exact H1|]. split; [exact H2|].
      split; [reflexivity|]. split; [exact F2|].
      split; [auto|]. split; [exact Hfields|].
      split; [auto|]. split; [auto|].
      split; [intros [?|?]; [congruence|contradiction]|].
      intros _ Ht2. now rewrite Ht2.
    + exists (attempt_ret (fst a2)),
        (set_ps_disabled (ps_disabled (snd a2) - 1) (snd a2)),
        [try_frame 0], a1, a2.
      split; [exact H1|]. split; [exact H2|].
      split; [reflexivity|]. split; [exact F2|].
      split; [auto|]. split; [exact Hfields|].
      split; [discriminate|].
      split; [intros Hf; symmetry in Hf; now apply Hne in Hf|].
      split; [intros [?|?]; [congruence|contradiction]|].
      intros _ Ht2. now rewrite Ht2.
  - exists (attempt_ret (fst a1)),
      (set_ps_disabled (ps_disabled (snd a1) - 1) (snd a1)),
      [try_frame 0], a1, a2.
    split; [exact H1|]. split; [exact H2|].
    split; [reflexivity|]. split; [exact F1|].
    split; [auto|]. split; [exact Hfields|].
    split; [intros Ht; rewrite Ht in Hr1; now contradiction Hr1|].
    split; [intros Hf; symmetry in Hf; now apply Hne in Hf|].
    split; [auto|].
    intros Ht; rewrite Ht in Hr1; now contradiction Hr1.
Qed.

End Call.
End TransportFacts.


(** *** The transport run on concrete inputs *)

(** A device with a command queue and nothing in flight. *)
Definition idle_morse : morse :=
  Morse true 0 false 0 None 0 ∅ [] [].

(** Command 5 without payload. *)
Definition sample_cmd : morse_cmd := Command (Hdr 0 5 0 0 0) [].

(** The confirmation of command 5, sequence number 1, try [retry], with the
    given four status bytes (little-endian). *)
Definition sample_cfm (retry s0 s1 s2 s3 : byte) : list byte :=
  [x02; x00; x05; x00; x04; x00; retry; x00; x00; x00; x00; x00; s0; s1; s2; s3].

Lemma sample_command_h_wf : command_h_wf sample_command_h.
Proof. repeat split; vm_compute; congruence. Qed.

(** The firmware never answers. *)
Definition silent_env (_ : Z) : attempt_env := AttemptEnv true 0 [].

Lemma morse_cmd_tx_retry_witness :
  command_h_wf sample_command_h /\ has_cmd_q idle_morse = true /\
  copies_in_bounds sample_command_h silent_env idle_morse None 0 /\
  exists m',
    morse_cmd_tx sample_command_h silent_env idle_morse None sample_cmd 0
      = Some (- ETIMEDOUT, m') /\
    to_chip m' =
      [try_frame sample_command_h idle_morse None sample_cmd 0 0;
       try_frame sample_command_h idle_morse None sample_cmd 0 1].
Proof.
  split; [exact sample_command_h_wf|]. split; [reflexivity|]. split; [exact I|].
  destruct (morse_cmd_tx_retry sample_command_h silent_env idle_morse None sample_cmd 0
              sample_command_h_wf eq_refl I)
    as (ret & m' & frames & a1 & a2 & H1 & H2 & Htx & Hchip & _ & _ & Hre & _ & _ & Hto).
  injection H1 as <-. injection H2 as <-.
  exists m'.
  rewrite (Hto eq_refl eq_refl) in Htx. rewrite (Hre eq_refl eq_refl) in Hchip.
  split; [exact Htx|exact Hchip].
Defined.

(** The first try is answered with status 0xffffff92, which is -110 as an
    [int]; the second try is not answered. *)
Definition status_etimedout_env (retry : Z) : attempt_env :=
  if retry =? 0 then AttemptEnv true 0 [sample_cfm x10 x92 xff xff xff]
  else AttemptEnv true 0 [].

(** C1 as stated: a second try is made only after a try that timed out. *)
Definition retry_only_after_timeout : Prop :=
  forall (h : command_h) (env : Z -> attempt_env) (m : morse) (resp : option Z)
         (cmd : morse_cmd) (length : Z) (ret : Z) (m' : morse),
    command_h_wf h -> has_cmd_q m = true ->
    morse_cmd_tx h env m resp cmd length = Some (ret, m') ->
    to_chip m' = to_chip m ++ [try_frame h m resp cmd length 0; try_frame h m resp cmd length 1] ->
    fst <$> first_attempt h env m resp cmd length = Some Att_timeout.

(** On that run the first try is woken with result code -110 and the second
    try is transmitted all the same. *)
Example answered_try_is_retried :
  fst <$> first_attempt sample_command_h status_etimedout_env idle_morse None sample_cmd 0
    = Some (Att_done (- ETIMEDOUT)) /\
  (to_chip <$> (snd <$>
     morse_cmd_tx sample_command_h status_etimedout_env idle_morse None sample_cmd 0))
    = Some [try_frame sample_command_h idle_morse None sample_cmd 0 0;
            try_frame sample_command_h idle_morse None sample_cmd 0 1].
Proof. split; vm_compute; reflexivity. Qed.

Lemma retry_after_answered_try : ~ retry_only_after_timeout.
Proof.
  intros H.
  specialize (H sample_command_h status_etimedout_env idle_morse None sample_cmd 0).
  specialize (H (- ETIMEDOUT)
    (snd (default (0, idle_morse)
       (morse_cmd_tx sample_command_h status_etimedout_env idle_morse None sample_cmd 0)))).
  specialize (H sample_command_h_wf eq_refl).
  vm_compute in H. specialize (H eq_refl eq_refl). discriminate H.
Qed.

(** Command 5 in flight with sequence number 1 on its second try, a waiter
    installed, and a 20-byte response buffer at address 0 when [dest] is set. *)
Definition waiting_morse (expected : Z) (dest : option Z) : morse :=
  Morse true 1 true 0
        (Some (CmdSkb (Command (Hdr 1 5 0 0x11 0) []) (Cb 0 expected dest)))
        1 {[ 0 := replicate 20 x00 ]} [] [].

Lemma resp_process_match_iff_witness :
  MORSE_CMD_IS_CFM sample_command_h
    (resp_hdr sample_command_h (sample_cfm x10 x00 x00 x00 x00)) = true /\
  handled_as_match sample_command_h (waiting_morse 0 None) (sample_cfm x10 x00 x00 x00 x00)
    (morse_cmd_resp_process sample_command_h (waiting_morse 0 None)
       (sample_cfm x10 x00 x00 x00 x00)) /\
  exists m',
    morse_cmd_resp_process sample_command_h (waiting_morse 0 None)
      (sample_cfm x10 x00 x00 x00 x00) = Some (0, m') /\
    Eff_log_retry_mismatch ∈ log m'.
Proof.
  split; [reflexivity|].
  assert (Hr : retry_bits sample_command_h (host_id (hdr (Command (Hdr 1 5 0 0x11 0) [])))
               <> retry_bits sample_command_h
                    (host_id (resp_hdr sample_command_h (sample_cfm x10 x00 x00 x00 x00)))).
  { vm_compute. discriminate. }
  destruct (proj2 (proj2 (resp_process_match_iff sample_command_h (waiting_morse 0 None)
                            (sample_cfm x10 x00 x00 x00 x00) eq_refl)) _ eq_refl eq_refl eq_refl Hr)
    as [Hmatch Hlog].
  split; [exact Hmatch|]. eexists. split; [reflexivity|]. exact (Hlog _ _ eq_refl).
Defined.

Lemma resp_process_unmatched_frame_witness :
  MORSE_CMD_IS_CFM sample_command_h
    (resp_hdr sample_command_h (sample_cfm x20 x00 x00 x00 x00)) = true /\
  ~ resp_matches sample_command_h (waiting_morse 0 None) (sample_cfm x20 x00 x00 x00 x00) /\
  exists m',
    morse_cmd_resp_process sample_command_h (waiting_morse 0 None)
      (sample_cfm x20 x00 x00 x00 x00) = Some (0, m') /\
    comp_done m' = 0%nat /\ pending m' = pending (waiting_morse 0 None).
Proof.
  assert (Hno : ~ resp_matches sample_command_h (waiting_morse 0 None)
                  (sample_cfm x20 x00 x00 x00 x00)).
  { intros (s & Hs & _ & Hseq). injection Hs as <-. vm_compute in Hseq. discriminate. }
  split; [reflexivity|]. split; [exact Hno|].
  destruct (resp_process_unmatched_frame sample_command_h (waiting_morse 0 None)
              (sample_cfm x20 x00 x00 x00 x00) eq_refl Hno)
    as (m' & Hrun & Hdone & _ & _ & Hpend & _).
  exists m'. split; [exact Hrun|]. split; [exact Hdone|exact Hpend].
Defined.

Lemma byte_at_take n bs i : (i < n)%nat -> byte_at (take n bs) i = byte_at bs i.
Proof.
  intros Hi. unfold byte_at. do 2 f_equal.
  revert n i Hi. induction bs as [|b bs IH]; intros [|n] [|i] Hi; cbn; try lia; auto.
  apply IH. lia.
Qed.

Lemma sample_status_in_resp : status_in_resp sample_command_h.
Proof.
  intros a b Hab. cbn in *. change (Z.to_nat 16) with 16%nat in Hab.
  unfold le32_at, le16_at.
  rewrite <- !(byte_at_take 16 a), <- !(byte_at_take 16 b) by lia.
  now rewrite Hab.
Qed.

Lemma byte_at_drop n bs i : byte_at bs (n + i) = byte_at (drop n bs) i.
Proof.
  unfold byte_at. do 2 f_equal.
  revert bs. induction n as [|n IH]; intros [|b bs]; cbn; auto.
  - now destruct i.
Qed.

Lemma sample_status_behind_header : status_behind_header sample_command_h.
Proof.
  intros a b Hab. change (Z.to_nat (sizeof_morse_cmd_header sample_command_h))
    with 12%nat in Hab.
  assert (H : forall i, byte_at a (12 + i) = byte_at b (12 + i))
    by (intros i; now rewrite !byte_at_drop, Hab).
  pose proof (H 0%nat) as H0. pose proof (H 1%nat) as H1.
  pose proof (H 2%nat) as H2. pose proof (H 3%nat) as H3.
  cbn [resp_status sample_command_h]. unfold le32_at, le16_at.
  cbn [Nat.add] in *. now rewrite H0, H1, H2, H3.
Qed.

(** The confirmation declares 4 bytes behind its header; 20 bytes are
    expected: 16 bytes are copied, the status among them. *)
Lemma resp_process_copy_witness :
  exists m',
    morse_cmd_resp_process sample_command_h (waiting_morse 20 (Some 0))
      (sample_cfm x10 x07 x00 x00 x00) = Some (0, m') /\
    mem m' !! 0 = Some (sample_cfm x10 x07 x00 x00 x00 ++ replicate 4 x00) /\
    resp_status sample_command_h (default [] (mem m' !! 0)) = 7.
Proof.
  assert (Hm : resp_matches sample_command_h (waiting_morse 20 (Some 0))
                 (sample_cfm x10 x07 x00 x00 x00)).
  { eexists. split; [reflexivity|]. split; reflexivity. }
  assert (H1 : 0 <= 20 < 2 ^ 31) by (vm_compute; split; congruence).
  assert (H2 : 0 <= len (resp_hdr sample_command_h (sample_cfm x10 x07 x00 x00 x00))
                    + sizeof_morse_cmd_header sample_command_h < 2 ^ 31)
    by (vm_compute; split; congruence).
  destruct (proj1 (proj1 (resp_process_copy sample_command_h (waiting_morse 20 (Some 0))
              (sample_cfm x10 x07 x00 x00 x00) _ eq_refl eq_refl Hm H1 H2)
              0 (replicate 20 x00) eq_refl ltac:(vm_compute; congruence) eq_refl))
    as (m' & new & Hrun & Hnew & Hmem & _ & _ & _ & Hst & _).
  { vm_compute. congruence. }
  { vm_compute. congruence. }
  exists m'. split; [exact Hrun|]. rewrite Hmem. split; [now rewrite Hnew|].
  change (default [] (Some new)) with new.
  rewrite (Hst sample_status_in_resp ltac:(vm_compute; split; congruence)).
  reflexivity.
Defined.

(** C8 as stated: the number of bytes copied is the smaller of the length
    field of the response header and the expected length. *)
Definition copies_min_of_len_field : Prop :=
  forall (h : command_h) (m : morse) (skb : list byte) (s : cmd_skb) (d : Z)
         (dst : list byte) (m' : morse),
    MORSE_CMD_IS_CFM h (resp_hdr h skb) = true ->
    pending m = Some s ->
    resp_matches h m skb ->
    cb_dest_resp (skb_cb s) = Some d ->
    sizeof_morse_resp h <= cb_length (skb_cb s) < 2 ^ 31 ->
    mem m !! d = Some dst ->
    morse_cmd_resp_process h m skb = Some (0, m') ->
    mem m' !! d = memcpy dst skb (Z.min (len (resp_hdr h skb)) (cb_length (skb_cb s))).

(** The length field of [sample_cfm] is 4 and 20 bytes are expected: all 16
    bytes of the message are copied, not 4. *)
Lemma copies_header_too : ~ copies_min_of_len_field.
Proof.
  intros H.
  specialize (H sample_command_h (waiting_morse 20 (Some 0))
                (sample_cfm x10 x07 x00 x00 x00) _ 0 (replicate 20 x00)
                (snd (default (0, idle_morse)
                   (morse_cmd_resp_process sample_command_h (waiting_morse 20 (Some 0))
                      (sample_cfm x10 x07 x00 x00 x00))))
                eq_refl eq_refl).
  assert (Hm : resp_matches sample_command_h (waiting_morse 20 (Some 0))
                 (sample_cfm x10 x07 x00 x00 x00)).
  { eexists. split; [reflexivity|]. split; reflexivity. }
  specialize (H Hm eq_refl).
  assert (Hr : sizeof_morse_resp sample_command_h <= 20 < 2 ^ 31)
    by (vm_compute; split; congruence).
  specialize (H Hr eq_refl eq_refl).
  vm_compute in H. discriminate H.
Qed.


(** *** What a call leaves behind *)

Section Aftermath.
Variable h : command_h.

(** The two states differ in the log only. *)
Definition same_but_log (m m' : morse) : Prop :=
  has_cmd_q m' = has_cmd_q m /\ cmd_seq m' = cmd_seq m /\ cmd_comp m' = cmd_comp m /\
  comp_done m' = comp_done m /\ pending m' = pending m /\
  ps_disabled m' = ps_disabled m /\ mem m' = mem m /\ to_chip m' = to_chip m.

Lemma same_but_log_refl m : same_but_log m m.
Proof. repeat split. Qed.

Lemma same_but_log_trans m1 m2 m3 :
  same_but_log m1 m2 -> same_but_log m2 m3 -> same_but_log m1 m3.
Proof. unfold same_but_log. intuition congruence. Qed.

(** A message that is not taken for the confirmation of the pending command
    (an event, or a late confirmation) leaves a trace in the log only. *)
Lemma resp_process_unmatched m skb :
  treated_as_match h m skb = false ->
  exists m', morse_cmd_resp_process h m skb = Some (0, m') /\ same_but_log m m'.
Proof.
  unfold treated_as_match, morse_cmd_resp_process. cbv zeta. intros H.
  destruct (MORSE_CMD_IS_CFM h (resp_hdr h skb)); cbn [negb andb] in *.
  2:{ eexists. split; [reflexivity|]. repeat split. }
  apply negb_false_iff in H.
  destruct (pending m) as [s|] eqn:Hp;
    [|eexists; split; [reflexivity|]; repeat split; now rewrite ?Hp].
  rewrite H. eexists. split; [reflexivity|]. repeat split; now rewrite ?Hp.
Qed.

Lemma wait_unmatched msgs : forall m,
  comp_done m = 0%nat ->
  Forall (fun skb => treated_as_match h m skb = false) msgs ->
  exists m',
    wait_for_completion_timeout h m msgs = Some (false, m') /\ same_but_log m m'.
Proof.
  induction msgs as [|skb rest IH]; intros m Hd Hall; simpl; rewrite Hd.
  - eexists. split; [reflexivity|apply same_but_log_refl].
  - apply Forall_cons in Hall as [Hskb Hrest].
    destruct (resp_process_unmatched m skb Hskb) as (m1 & Hrun & Hs).
    rewrite Hrun. cbn [snd].
    destruct (IH m1) as (m' & Hw & Hl).
    + destruct Hs as (_ & _ & _ & Hc & _). congruence.
    + eapply Forall_impl; [exact Hrest|]. intros x Hx. cbv beta in *.
      unfold treated_as_match in *.
      destruct Hs as (_ & _ & _ & _ & Hp & _). now rewrite Hp.
    + exists m'. split; [exact Hw|]. eapply same_but_log_trans; eassumption.
Qed.

(** With nothing pending a message is never a match: it writes to no
    buffer and signals nobody. *)
Lemma resp_process_idle m skb :
  pending m = None ->
  exists m',
    morse_cmd_resp_process h m skb = Some (0, m') /\
    pending m' = None /\ comp_done m' = comp_done m /\ mem m' = mem m.
Proof.
  intros Hp. unfold morse_cmd_resp_process. cbv zeta. rewrite Hp.
  destruct (negb (MORSE_CMD_IS_CFM _ _)); eexists; (split; [reflexivity|]); cbn; auto.
Qed.

(** One pass of the loop: what it leaves in the slots shared with
    [morse_cmd_resp_process]. *)
Lemma attempt_slots e resp cmd length hid retry m a :
  cmd_tx_attempt h e resp cmd length hid retry m = Some a ->
  pending (snd a) = (if attempt_sent e then None else pending m) /\
  cmd_seq (snd a) = cmd_seq m /\ has_cmd_q (snd a) = has_cmd_q m /\
  cmd_comp (snd a) = (if alloc_ok e then negb (tx_rc e =? 0) else cmd_comp m).
Proof.
  unfold cmd_tx_attempt, attempt_sent. cbv zeta.
  destruct (alloc_ok e); cbn [negb andb]; [|intros [= <-]; now simpl].
  destruct (Z.eqb_spec (tx_rc e) 0) as [Hrc|Hrc]; cbn [negb].
  2:{ intros [= <-]. destruct (0 <? retry); now simpl. }
  match goal with
  | |- context [wait_for_completion_timeout h ?m0 ?l] =>
      destruct (wait_for_completion_timeout h m0 l) as [[w mw]|] eqn:Hw; [|discriminate];
      apply wait_keeps in Hw as (_ & H2 & H3 & _)
  end.
  cbn [mbind option_bind fst snd].
  destruct w; cbn [negb]; intros [= <-]; cbn [fst snd]; cbn; rewrite H2, H3;
    destruct (0 <? retry); now simpl.
Qed.

Section Call.
Variables (env : Z -> attempt_env) (m : morse) (resp : option Z)
          (cmd : morse_cmd) (length : Z).

(** Power save is blocked for the duration of the call only: when no
    confirmation is copied out of bounds the call returns, and
    [morse_ps_disable] and [morse_ps_enable] are balanced on every path,
    whatever the chip and the queue do. *)
Theorem morse_cmd_tx_ps_balanced :
  copies_in_bounds h env m resp length ->
  exists ret m',
    morse_cmd_tx h env m resp cmd length = Some (ret, m') /\
    ps_disabled m' = ps_disabled m.
Proof.
  intros Hok. destruct (has_cmd_q m) eqn:Hq.
  - destruct (morse_cmd_tx_unfold h env m resp cmd length Hq Hok)
      as (a1 & a2 & H1 & H2 & ->).
    unfold call_result. eexists _, _. split; [reflexivity|].
    cbn [set_ps_disabled ps_disabled].
    destruct (attempt_keeps h _ _ _ _ _ _ _ _ H1) as (_ & _ & P1 & _).
    destruct (attempt_keeps h _ _ _ _ _ _ _ _ H2) as (_ & _ & P2 & _).
    change (ps_disabled (cmd_tx_begin h m)) with (ps_disabled m + 1) in P1.
    destruct (stops_after_first (fst a1)); lia.
  - unfold morse_cmd_tx. rewrite Hq. simpl. eauto.
Qed.

(** When the call returns no command is left pending, and a confirmation
    that arrives afterwards wakes nobody and writes to no buffer. *)
Theorem morse_cmd_tx_slot_clear :
  pending m = None ->
  copies_in_bounds h env m resp length ->
  exists ret m',
    morse_cmd_tx h env m resp cmd length = Some (ret, m') /\
    pending m' = None /\
    forall skb, exists m'',
      morse_cmd_resp_process h m' skb = Some (0, m'') /\
      pending m'' = None /\ comp_done m'' = comp_done m' /\ mem m'' = mem m'.
Proof.
  intros Hp Hok.
  destruct (has_cmd_q m) eqn:Hq.
  - destruct (morse_cmd_tx_unfold h env m resp cmd length Hq Hok)
      as (a1 & a2 & H1 & H2 & ->).
    unfold call_result. eexists _, _. split; [reflexivity|].
    destruct (attempt_slots _ _ _ _ _ _ _ _ H1) as (P1 & _).
    destruct (attempt_slots _ _ _ _ _ _ _ _ H2) as (P2 & _).
    change (pending (cmd_tx_begin h m)) with (pending m) in P1. rewrite Hp in P1.
    assert (P1' : pending (snd a1) = None)
      by (rewrite P1; now destruct (attempt_sent _)).
    assert (P2' : pending (snd a2) = None)
      by (rewrite P2, P1'; now destruct (attempt_sent (env 1))).
    assert (Hfin : pending (snd (if stops_after_first (fst a1) then a1 else a2)) = None)
      by (now destruct (stops_after_first _)).
    split; [exact Hfin|].
    intros skb. apply resp_process_idle. exact Hfin.
  - unfold morse_cmd_tx. rewrite Hq. simpl. eexists _, _. split; [reflexivity|].
    split; [exact Hp|]. intros skb. now apply resp_process_idle.
Qed.

End Call.

(** *** Sequence numbers *)

(** The sequence bits of a host id built from a sequence number that fits
    the field are the number shifted into place. *)
Lemma seq_bits_shiftl x :
  command_h_wf h -> 0 <= x < 2 ^ (16 - MORSE_CMD_HOST_ID_SEQ_SHIFT h) ->
  seq_bits h (u16 (Z.shiftl x (MORSE_CMD_HOST_ID_SEQ_SHIFT h)))
    = Z.shiftl x (MORSE_CMD_HOST_ID_SEQ_SHIFT h).
Proof.
  intros (Hs & _ & Hm) Hx. unfold seq_bits. rewrite Hm.
  apply Z.bits_inj'. intros n Hn.
  rewrite Z.land_spec, testbit_u16, !Z.shiftl_spec by lia.
  destruct (Z.ltb_spec n (MORSE_CMD_HOST_ID_SEQ_SHIFT h)).
  - rewrite !(Z.testbit_neg_r _ (n - _)) by lia. now rewrite andb_false_r.
  - rewrite Z.testbit_ones_nonneg by lia.
    destruct (Z.ltb_spec n 16).
    + destruct (Z.ltb_spec (n - MORSE_CMD_HOST_ID_SEQ_SHIFT h)
                           (16 - MORSE_CMD_HOST_ID_SEQ_SHIFT h)); [|lia].
      simpl. now rewrite andb_true_r.
    + simpl. symmetry.
      rewrite <- (Z.mod_small x (2 ^ (16 - MORSE_CMD_HOST_ID_SEQ_SHIFT h))) by lia.
      apply Z.mod_pow2_bits_high. lia.
Qed.

Section Sequence.
Variables (env : Z -> attempt_env) (m : morse) (resp : option Z)
          (cmd : morse_cmd) (length : Z).

(** Every call on a device with a command queue, in which no confirmation
    is copied out of bounds, takes the next sequence number, which runs
    through 1 .. [MORSE_CMD_HOST_ID_SEQ_MAX] and is never 0; every frame of
    the call carries that number in the sequence field of its host id, where
    shifting the field back recovers it. *)
Theorem morse_cmd_tx_sequence :
  command_h_wf h ->
  has_cmd_q m = true ->
  0 <= cmd_seq m ->
  1 <= MORSE_CMD_HOST_ID_SEQ_MAX h < 2 ^ (16 - MORSE_CMD_HOST_ID_SEQ_SHIFT h) ->
  copies_in_bounds h env m resp length ->
  exists ret m' frames,
    morse_cmd_tx h env m resp cmd length = Some (ret, m') /\
    cmd_seq m' = (if cmd_seq m <? MORSE_CMD_HOST_ID_SEQ_MAX h then cmd_seq m + 1 else 1) /\
    1 <= cmd_seq m' <= MORSE_CMD_HOST_ID_SEQ_MAX h /\
    to_chip m' = to_chip m ++ frames /\
    Forall (fun f =>
              Z.shiftr (seq_bits h (host_id (hdr (skb_cmd f))))
                       (MORSE_CMD_HOST_ID_SEQ_SHIFT h) = cmd_seq m') frames.
Proof.
  intros Hwf Hq Hseq Hmax Hok.
  assert (Hnext : next_seq h m
            = (if cmd_seq m <? MORSE_CMD_HOST_ID_SEQ_MAX h then cmd_seq m + 1 else 1)).
  { unfold next_seq.
    destruct (Z.gtb_spec (cmd_seq m + 1) (MORSE_CMD_HOST_ID_SEQ_MAX h)),
             (Z.ltb_spec (cmd_seq m) (MORSE_CMD_HOST_ID_SEQ_MAX h)); lia. }
  assert (Hrange : 1 <= next_seq h m <= MORSE_CMD_HOST_ID_SEQ_MAX h).
  { rewrite Hnext. destruct (Z.ltb_spec (cmd_seq m) (MORSE_CMD_HOST_ID_SEQ_MAX h)); lia. }
  assert (Hfield : forall k, k = 0 \/ k = 1 ->
    Z.shiftr (seq_bits h (host_id (hdr (skb_cmd (try_frame h m resp cmd length k)))))
             (MORSE_CMD_HOST_ID_SEQ_SHIFT h) = next_seq h m).
  { intros k Hk. cbn. rewrite (host_id_seq_bits h _ k Hwf Hk).
    unfold cmd_host_id. rewrite seq_bits_shiftl by (auto; lia).
    destruct Hwf as (Hs & _). rewrite Z.shiftr_shiftl_l by lia.
    now rewrite Z.sub_diag, Z.shiftl_0_r. }
  destruct (morse_cmd_tx_unfold h env m resp cmd length Hq Hok)
    as (a1 & a2 & H1 & H2 & ->).
  destruct (attempt_keeps h _ _ _ _ _ _ _ _ H1) as (F1 & _ & _).
  destruct (attempt_keeps h _ _ _ _ _ _ _ _ H2) as (F2 & _ & _).
  destruct (attempt_slots _ _ _ _ _ _ _ _ H1) as (_ & S1 & _).
  destruct (attempt_slots _ _ _ _ _ _ _ _ H2) as (_ & S2 & _).
  fold (try_frame h m resp cmd length 0) in F1.
  fold (try_frame h m resp cmd length 1) in F2.
  change (to_chip (cmd_tx_begin h m)) with (to_chip m) in F1.
  change (cmd_seq (cmd_tx_begin h m)) with (next_seq h m) in S1.
  rewrite F1, <- app_assoc in F2. rewrite S1 in S2.
  unfold call_result.
  destruct (stops_after_first (fst a1)).
  - eexists _, _, _. split; [reflexivity|]. cbn [set_ps_disabled cmd_seq to_chip].
    rewrite S1. split; [exact Hnext|]. split; [exact Hrange|]. split; [exact F1|].
    destruct (attempt_sent (env 0)); [|constructor].
    constructor; [|constructor]. apply Hfield. auto.
  - eexists _, _, _. split; [reflexivity|]. cbn [set_ps_disabled cmd_seq to_chip].
    rewrite S2. split; [exact Hnext|]. split; [exact Hrange|]. split; [exact F2|].
    apply Forall_app. split.
    + destruct (attempt_sent (env 0)); [|constructor].
      constructor; [|constructor]. apply Hfield. auto.
    + destruct (attempt_sent (env 1)); [|constructor].
      constructor; [|constructor]. apply Hfield. auto.
Qed.

End Sequence.
End Aftermath.

(** *** Answered and unanswered calls *)

Section Traffic.
Variable h : command_h.
Variables (env : Z -> attempt_env) (m : morse) (resp : option Z)
          (cmd : morse_cmd) (length : Z).

(** The message is a confirmation of the call's command: its message id and
    the sequence bits of its host id are those of the frames of the call. *)
Definition answers (skb : list byte) : bool :=
  MORSE_CMD_IS_CFM h (resp_hdr h skb)
  && (message_id (resp_hdr h skb) =? message_id (hdr cmd))
  && (seq_bits h (host_id (resp_hdr h skb)) =? seq_bits h (cmd_host_id h m)).

Lemma treated_as_match_try k x skb :
  command_h_wf h -> k = 0 \/ k = 1 ->
  pending x = Some (try_frame h m resp cmd length k) ->
  treated_as_match h x skb = answers skb.
Proof.
  intros Hwf Hk Hp. unfold treated_as_match, answers, is_late. rewrite Hp. cbn.
  rewrite (host_id_seq_bits h _ k Hwf Hk).
  rewrite negb_orb, !negb_involutive, <- andb_assoc.
  rewrite (Z.eqb_sym (message_id (hdr cmd))).
  rewrite (Z.eqb_sym (seq_bits h (cmd_host_id h m))). reflexivity.
Qed.

(** The state in which try [k] waits: the waiter installed (and, on the
    second try, its completion re-initialised), the frame queued and
    pending. *)
Definition waiting (k : Z) (x : morse) : morse :=
  let x := set_cmd_comp true x in
  let x := if 0 <? k then set_comp_done 0 x else x in
  set_pending (Some (try_frame h m resp cmd length k))
    (push_to_chip (try_frame h m resp cmd length k) x).

(** [ret] after a completed wait. *)
Definition woken_ret (mw : morse) : Z :=
  match resp with
  | Some d =>
      if negb (length =? 0)
      then s32 (resp_status h (default [] (mem mw !! d)))
      else from_option (fun s => cb_ret (skb_cb s)) 0 (pending mw)
  | None => from_option (fun s => cb_ret (skb_cb s)) 0 (pending mw)
  end.

Lemma attempt_waits k x e :
  alloc_ok e = true -> tx_rc e = 0 ->
  cmd_tx_attempt h e resp (cmd_req h cmd) length (cmd_host_id h m) k x =
    (w ← wait_for_completion_timeout h (waiting k x) (inbound e);
     let mw := set_cmd_comp false (snd w) in
     if negb (fst w) then
       Some (Att_timeout, set_pending None (emit [Eff_log_timeout k] mw))
     else Some (Att_done (woken_ret mw), set_pending None mw)).
Proof.
  intros Ha Ht. unfold cmd_tx_attempt, woken_ret, waiting, try_frame, try_skb.
  cbv zeta. rewrite Ha, Ht. reflexivity.
Qed.

(** A try during which nothing but events and confirmations of other
    commands arrive times out, and leaves the buffers alone. *)
Lemma attempt_unanswered k x e :
  command_h_wf h -> k = 0 \/ k = 1 ->
  alloc_ok e = true -> tx_rc e = 0 -> (k = 0 -> comp_done x = 0%nat) ->
  Forall (fun skb => answers skb = false) (inbound e) ->
  exists mx,
    cmd_tx_attempt h e resp (cmd_req h cmd) length (cmd_host_id h m) k x
      = Some (Att_timeout, mx) /\
    mem mx = mem x /\ pending mx = None /\
    cmd_comp mx = false /\ comp_done mx = 0%nat.
Proof.
  intros Hwf Hk Ha Ht Hd Hall. rewrite (attempt_waits k x e Ha Ht).
  assert (Hp : pending (waiting k x) = Some (try_frame h m resp cmd length k))
    by reflexivity.
  assert (Hc : comp_done (waiting k x) = 0%nat).
  { unfold waiting. cbv zeta. destruct (Z.ltb_spec 0 k); cbn; [reflexivity|].
    apply Hd. lia. }
  destruct (wait_unmatched h (inbound e) (waiting k x) Hc) as (mw & Hw & Hs).
  { eapply Forall_impl; [exact Hall|]. intros skb Hskb. cbv beta in *.
    now rewrite (treated_as_match_try k _ skb Hwf Hk Hp). }
  rewrite Hw. cbn [mbind option_bind negb fst snd]. eexists. split; [reflexivity|].
  destruct Hs as (_ & _ & _ & Hcd & _ & _ & Hm & _).
  cbn. rewrite Hm, Hcd, Hc. unfold waiting. cbv zeta.
  destruct (0 <? k); cbn; auto.
Qed.

(** If all that arrives during the two waits are events and confirmations
    of other commands (another message id or another sequence number), the
    call sends both tries and returns -ETIMEDOUT; no caller's buffer is
    written, nothing stays pending and no waiter stays installed. *)
Theorem morse_cmd_tx_unanswered :
  command_h_wf h ->
  has_cmd_q m = true ->
  alloc_ok (env 0) = true -> tx_rc (env 0) = 0 ->
  alloc_ok (env 1) = true -> tx_rc (env 1) = 0 ->
  Forall (fun skb => answers skb = false) (inbound (env 0) ++ inbound (env 1)) ->
  exists m',
    morse_cmd_tx h env m resp cmd length = Some (- ETIMEDOUT, m') /\
    to_chip m' = to_chip m ++ [try_frame h m resp cmd length 0;
                               try_frame h m resp cmd length 1] /\
    mem m' = mem m /\ pending m' = None /\ cmd_comp m' = false.
Proof.
  intros Hwf Hq Ha0 Ht0 Ha1 Ht1 Hall. apply Forall_app in Hall as [Hall0 Hall1].
  destruct (attempt_unanswered 0 (cmd_tx_begin h m) (env 0) Hwf ltac:(auto) Ha0 Ht0
              ltac:(reflexivity) Hall0) as (m1 & R1 & M1 & P1 & C1 & D1).
  destruct (attempt_unanswered 1 m1 (env 1)
              Hwf ltac:(auto) Ha1 Ht1 ltac:(discriminate) Hall1) as (m2 & R2 & M2 & P2 & C2 & D2).
  destruct (attempt_keeps h _ _ _ _ _ _ _ _ R1) as (F1 & _ & _).
  destruct (attempt_keeps h _ _ _ _ _ _ _ _ R2) as (F2 & _ & _).
  unfold attempt_sent in F1, F2. rewrite Ha0, Ht0 in F1. rewrite Ha1, Ht1 in F2.
  cbn [andb Z.eqb fst snd] in F1, F2.
  change (to_chip (cmd_tx_begin h m)) with (to_chip m) in F1.
  rewrite F1, <- app_assoc in F2.
  rewrite (morse_cmd_tx_unfold_second h env m resp cmd length (Att_timeout, m1)
             (Att_timeout, m2) Hq R1 eq_refl R2).
  unfold call_result. cbn [fst snd attempt_ret].
  eexists. split; [reflexivity|]. cbn [set_ps_disabled to_chip mem pending cmd_comp].
  split; [exact F2|]. split; [now rewrite M2, M1|]. auto.
Qed.

(** *** A call answered on its first try *)

Section Answered.
Variables (skb : list byte) (rest : list (list byte)).
Hypothesis Hwf : command_h_wf h.
Hypothesis Hq : has_cmd_q m = true.
Hypothesis Halloc : alloc_ok (env 0) = true.
Hypothesis Htx : tx_rc (env 0) = 0.
Hypothesis Hin : inbound (env 0) = skb :: rest.
Hypothesis Hans : answers skb = true.

(** The state in which the caller is woken by the confirmation, [out] being
    what the copy of the confirmation leaves. *)
Lemma first_wait_woken out :
  resp_deliver h (Cb 0 length resp) skb (mem m) = Some out ->
  exists mw,
    wait_for_completion_timeout h (waiting 0 (cmd_tx_begin h m)) (skb :: rest)
      = Some (true, mw) /\
    mem mw = snd out /\
    pending mw = Some (CmdSkb (cmd_frame (cmd_req h cmd) (cmd_host_id h m) 0)
                              (Cb (fst out) length resp)) /\
    to_chip mw = to_chip m ++ [try_frame h m resp cmd length 0].
Proof.
  intros Hout.
  set (x := waiting 0 (cmd_tx_begin h m)).
  assert (Hp : pending x = Some (try_frame h m resp cmd length 0)) by reflexivity.
  assert (Hcfm : MORSE_CMD_IS_CFM h (resp_hdr h skb) = true).
  { unfold answers in Hans. now apply andb_true_iff in Hans as [[? _]%andb_true_iff _]. }
  assert (Hm : resp_matches h x skb).
  { apply is_late_false.
    pose proof (treated_as_match_try 0 x skb Hwf ltac:(auto) Hp) as Ht.
    rewrite Hans in Ht. unfold treated_as_match in Ht. rewrite Hcfm in Ht.
    cbn [andb] in Ht. now apply negb_true_iff in Ht. }
  cbn [wait_for_completion_timeout].
  change (comp_done x) with 0%nat. cbv iota.
  rewrite (resp_process_matched h x skb _ Hcfm Hp Hm).
  change (mem x) with (mem m). change (skb_cb (try_frame h m resp cmd length 0))
    with (Cb 0 length resp). rewrite Hout. cbn [mbind option_bind snd].
  destruct (matched_state_fields h x (try_frame h m resp cmd length 0) skb out)
    as (F1 & F2 & F3 & _ & F5 & _).
  change (cmd_comp x) with true in F3. change (comp_done x) with 0%nat in F3.
  assert (Hw : forall l,
    wait_for_completion_timeout h
      (matched_state h x (try_frame h m resp cmd length 0) skb out) l
    = Some (true, set_comp_done 0
              (matched_state h x (try_frame h m resp cmd length 0) skb out))).
  { intros l. destruct l; cbn [wait_for_completion_timeout]; now rewrite F3. }
  rewrite Hw. eexists. split; [reflexivity|].
  cbn [set_comp_done mem pending to_chip]. rewrite F2, F1, F5.
  split; [reflexivity|]. split; [reflexivity|]. reflexivity.
Qed.


Lemma first_attempt_woken out :
  resp_deliver h (Cb 0 length resp) skb (mem m) = Some out ->
  exists mw,
    first_attempt h env m resp cmd length
      = Some (Att_done (woken_ret mw), set_pending None mw) /\
    mem mw = snd out /\ cmd_comp mw = false /\
    pending mw = Some (CmdSkb (cmd_frame (cmd_req h cmd) (cmd_host_id h m) 0)
                              (Cb (fst out) length resp)) /\
    to_chip mw = to_chip m ++ [try_frame h m resp cmd length 0].
Proof.
  intros Hout. destruct (first_wait_woken out Hout) as (mw & Hw & Hmem & Hpend & Hchip).
  exists (set_cmd_comp false mw).
  unfold first_attempt. rewrite (attempt_waits 0 _ _ Halloc Htx).
  rewrite Hin, Hw. cbn [mbind option_bind fst snd negb]. auto.
Qed.

Lemma answered_returns out ret :
  resp_deliver h (Cb 0 length resp) skb (mem m) = Some out ->
  (forall mw,
     mem mw = snd out ->
     pending mw = Some (CmdSkb (cmd_frame (cmd_req h cmd) (cmd_host_id h m) 0)
                         (Cb (fst out) length resp)) ->
     woken_ret mw = ret) ->
  ret <> - ETIMEDOUT ->
  exists m',
    morse_cmd_tx h env m resp cmd length = Some (ret, m') /\
    to_chip m' = to_chip m ++ [try_frame h m resp cmd length 0] /\
    pending m' = None /\ cmd_comp m' = false /\
    mem m' = snd out.
Proof.
  intros Hout Hret Hne.
  destruct (first_attempt_woken out Hout) as (mw & Hfa & Hmem & Hcomp & Hpend & Hchip).
  rewrite (Hret mw Hmem Hpend) in Hfa.
  rewrite (morse_cmd_tx_unfold_first h env m resp cmd length _ Hq Hfa).
  - unfold call_result. eexists. split; [reflexivity|]. cbn. auto.
  - unfold stops_after_first. cbn [fst attempt_break attempt_ret orb].
    apply Z.eqb_neq in Hne. now rewrite Hne.
Qed.


(** With a buffer and an expected length that is not 0 but shorter than
    [struct morse_resp], the confirmation is not copied, and the call
    returns the status word found in the caller's buffer as it was before
    the call, provided that word is not -ETIMEDOUT: the status the chip sent
    is not looked at. *)
Theorem morse_cmd_tx_short_buffer (d : Z) (dst : list byte) :
  resp = Some d ->
  0 < length < sizeof_morse_resp h -> length < 2 ^ 31 ->
  mem m !! d = Some dst ->
  s32 (resp_status h dst) <> - ETIMEDOUT ->
  exists m',
    morse_cmd_tx h env m resp cmd length = Some (s32 (resp_status h dst), m') /\
    to_chip m' = to_chip m ++ [try_frame h m resp cmd length 0] /\
    pending m' = None /\ mem m' = mem m.
Proof.
  intros Hresp Hlen Hlen' Hdst Hne.
  assert (Hout : resp_deliver h (Cb 0 length resp) skb (mem m)
                 = Some (s32 (resp_status h skb), mem m)).
  { apply resp_deliver_raw; cbn [cb_length cb_dest_resp]; [lia|right; lia]. }
  destruct (answered_returns _ (s32 (resp_status h dst)) Hout)
    as (m' & Htx' & Hchip & Hp & _ & Hmem).
  - intros mw Hmem _. unfold woken_ret. rewrite Hresp.
    assert (Hl0 : (length =? 0) = false) by (apply Z.eqb_neq; lia).
    rewrite Hl0. cbn [negb]. rewrite Hmem. cbn [snd]. now rewrite Hdst.
  - exact Hne.
  - exists m'. split; [exact Htx'|]. split; [exact Hchip|]. split; [exact Hp|exact Hmem].
Qed.

End Answered.
End Traffic.

(** *** Runs on concrete inputs *)

(** The idle device with a 20-byte response buffer at address 0. *)
Definition idle_morse_buf : morse := set_mem {[ 0 := replicate 20 x00 ]} idle_morse.

(** The chip answers the first try with status 7. *)
Definition answering_env (_ : Z) : attempt_env :=
  AttemptEnv true 0 [sample_cfm x10 x07 x00 x00 x00].

(** During both waits an event and the confirmation of an older command
    (sequence number 2) arrive. *)
Definition stray_env (_ : Z) : attempt_env :=
  AttemptEnv true 0 [[x00; x00; x05; x00; x04; x00; x10; x00; x00; x00; x00; x00];
                     sample_cfm x20 x00 x00 x00 x00].

(** With the 20-byte buffer and 20 bytes expected, the 16-byte confirmations
    of [answering_env] are copied within bounds. *)
Lemma answering_in_bounds :
  copies_in_bounds sample_command_h answering_env idle_morse_buf (Some 0) 20.
Proof.
  split; [vm_compute; split; congruence|]. split.
  - exists (replicate 20 x00). split; [reflexivity|]. vm_compute. congruence.
  - repeat constructor; vm_compute; congruence.
Qed.

Lemma morse_cmd_tx_ps_balanced_witness :
  copies_in_bounds sample_command_h answering_env idle_morse_buf (Some 0) 20 /\
  exists ret m',
    morse_cmd_tx sample_command_h answering_env idle_morse_buf (Some 0) sample_cmd 20
      = Some (ret, m') /\
    ps_disabled m' = ps_disabled idle_morse_buf.
Proof.
  split; [exact answering_in_bounds|].
  exact (morse_cmd_tx_ps_balanced sample_command_h answering_env idle_morse_buf (Some 0)
           sample_cmd 20 answering_in_bounds).
Defined.

Lemma morse_cmd_tx_slot_clear_witness :
  pending idle_morse_buf = None /\
  copies_in_bounds sample_command_h answering_env idle_morse_buf (Some 0) 20 /\
  exists ret m',
    morse_cmd_tx sample_command_h answering_env idle_morse_buf (Some 0) sample_cmd 20
      = Some (ret, m') /\
    pending m' = None.
Proof.
  split; [reflexivity|]. split; [exact answering_in_bounds|].
  destruct (morse_cmd_tx_slot_clear sample_command_h answering_env idle_morse_buf (Some 0)
              sample_cmd 20 eq_refl answering_in_bounds) as (ret & m' & Htx & Hp & _).
  exists ret, m'. auto.
Defined.

Lemma morse_cmd_tx_sequence_witness :
  (command_h_wf sample_command_h /\ has_cmd_q idle_morse_buf = true /\
   0 <= cmd_seq idle_morse_buf /\
   1 <= MORSE_CMD_HOST_ID_SEQ_MAX sample_command_h
     < 2 ^ (16 - MORSE_CMD_HOST_ID_SEQ_SHIFT sample_command_h) /\
   copies_in_bounds sample_command_h answering_env idle_morse_buf (Some 0) 20) /\
  exists ret m',
    morse_cmd_tx sample_command_h answering_env idle_morse_buf (Some 0) sample_cmd 20
      = Some (ret, m') /\
    cmd_seq m' = 1.
Proof.
  assert (H1 : 0 <= cmd_seq idle_morse_buf) by (cbn; lia).
  assert (H2 : 1 <= MORSE_CMD_HOST_ID_SEQ_MAX sample_command_h
                 < 2 ^ (16 - MORSE_CMD_HOST_ID_SEQ_SHIFT sample_command_h))
    by (vm_compute; split; congruence).
  split; [split; [exact sample_command_h_wf|split; [reflexivity|split; [assumption|
          split; [assumption|exact answering_in_bounds]]]]|].
  destruct (morse_cmd_tx_sequence sample_command_h answering_env idle_morse_buf (Some 0)
              sample_cmd 20 sample_command_h_wf eq_refl H1 H2 answering_in_bounds)
    as (ret & m' & frames & Htx & Hs & _).
  exists ret, m'. split; [exact Htx|exact Hs].
Defined.

Lemma morse_cmd_tx_unanswered_witness :
  Forall (fun skb => answers sample_command_h idle_morse sample_cmd skb = false)
         (inbound (stray_env 0) ++ inbound (stray_env 1)) /\
  exists m',
    morse_cmd_tx sample_command_h stray_env idle_morse_buf (Some 0) sample_cmd 20
      = Some (- ETIMEDOUT, m') /\
    mem m' = mem idle_morse_buf.
Proof.
  assert (H : Forall (fun skb => answers sample_command_h idle_morse_buf sample_cmd skb = false)
                (inbound (stray_env 0) ++ inbound (stray_env 1))).
  { repeat constructor. }
  split; [exact H|].
  destruct (morse_cmd_tx_unanswered sample_command_h stray_env idle_morse_buf (Some 0)
              sample_cmd 20 sample_command_h_wf eq_refl eq_refl eq_refl eq_refl eq_refl H)
    as (m' & Htx & _ & Hmem & _).
  exists m'. auto.
Defined.


(** Four bytes are expected (less than the 16 of [struct morse_resp]): the
    chip's status 7 is lost and the 0 of the untouched buffer is returned. *)
Lemma morse_cmd_tx_short_buffer_witness :
  answers sample_command_h idle_morse_buf sample_cmd (sample_cfm x10 x07 x00 x00 x00) = true /\
  exists m',
    morse_cmd_tx sample_command_h answering_env idle_morse_buf (Some 0) sample_cmd 4
      = Some (0, m') /\
    mem m' = mem idle_morse_buf.
Proof.
  split; [reflexivity|].
  destruct (morse_cmd_tx_short_buffer sample_command_h answering_env idle_morse_buf (Some 0)
              sample_cmd 4 (sample_cfm x10 x07 x00 x00 x00) []
              sample_command_h_wf eq_refl eq_refl eq_refl eq_refl eq_refl
              0 (replicate 20 x00) eq_refl)
    as (m' & Htx & _ & _ & Hmem).
  - vm_compute. split; reflexivity.
  - reflexivity.
  - reflexivity.
  - vm_compute. discriminate.
  - exists m'. auto.
Defined.

End Cmd.

(** ** Target Wake Time negotiation and scheduling ([twt.c]) *)
Module Twt.
Import CInt Errno.

(** *** Constants of [ieee80211.h] and of [twt.c] *)

Inductive ieee80211_twt_setup_cmd :=
| TWT_SETUP_CMD_REQUEST
| TWT_SETUP_CMD_SUGGEST
| TWT_SETUP_CMD_DEMAND
| TWT_SETUP_CMD_GROUPING
| TWT_SETUP_CMD_ACCEPT
| TWT_SETUP_CMD_ALTERNATE
| TWT_SETUP_CMD_DICTATE
| TWT_SETUP_CMD_REJECT.

(** The value of the enumerator (the order of [twt_cmd_strs]). *)
Definition setup_cmd_code (c : ieee80211_twt_setup_cmd) : Z :=
  match c with
  | TWT_SETUP_CMD_REQUEST => 0
  | TWT_SETUP_CMD_SUGGEST => 1
  | TWT_SETUP_CMD_DEMAND => 2
  | TWT_SETUP_CMD_GROUPING => 3
  | TWT_SETUP_CMD_ACCEPT => 4
  | TWT_SETUP_CMD_ALTERNATE => 5
  | TWT_SETUP_CMD_DICTATE => 6
  | TWT_SETUP_CMD_REJECT => 7
  end.

Definition BIT (n : Z) : Z := Z.shiftl 1 n.
Definition IEEE80211_TWT_CONTROL_WAKE_DUR_UNIT : Z := BIT 5.
Definition IEEE80211_TWT_REQTYPE_REQUEST : Z := BIT 0.
Definition IEEE80211_TWT_REQTYPE_SETUP_CMD : Z := 0xe.
Definition IEEE80211_TWT_REQTYPE_SETUP_CMD_OFFSET : Z := 1.
Definition IEEE80211_TWT_REQTYPE_WAKE_INT_EXP : Z := 0x7c00.
Definition IEEE80211_TWT_REQTYPE_WAKE_INT_EXP_OFFSET : Z := 10.
Definition TWT_WAKE_DUR_UNIT_256 : Z := 256.

(** Modelled from the spec: [MORSE_US_TO_TU] of [utils.h] is not among the
    sources; the minimum wake duration is carried in time units (TU, 1024
    microseconds) when the WAKE_DUR_UNIT flag is set. *)
Definition MORSE_US_TO_TU (us : Z) : Z := us / 1024.

(** *** Data *)

(** [struct ieee80211_twt_params], fields in CPU byte order. *)
Record ieee80211_twt_params := TwtParams {
  req_type : Z;
  twt : Z;
  min_twt_dur : Z;
  mantissa : Z;
  channel : Z
}.

(** [struct morse_twt_agreement_data]. *)
Record morse_twt_agreement_data := AgrData {
  control : Z;
  params : ieee80211_twt_params;
  wake_time_us : Z;
  wake_interval_us : Z;
  wake_duration_us : Z
}.

Inductive morse_twt_state :=
| MORSE_TWT_STATE_NO_AGREEMENT
| MORSE_TWT_STATE_CONSIDER_REQUEST
| MORSE_TWT_STATE_CONSIDER_SUGGEST
| MORSE_TWT_STATE_CONSIDER_DEMAND
| MORSE_TWT_STATE_CONSIDER_GROUPING
| MORSE_TWT_STATE_AGREEMENT.

Global Instance morse_twt_state_eq_dec : EqDecision morse_twt_state.
Proof. solve_decision. Defined.

(** [struct morse_twt_agreement] without its [list] node: whether and where
    the agreement is linked is read off the wake-interval lists. *)
Record morse_twt_agreement := Agr {
  state : morse_twt_state;
  data : morse_twt_agreement_data
}.

(** [struct morse_twt_sta]; [addr] is the 48-bit station address. *)
Record morse_twt_sta := Sta {
  addr : Z;
  dialog_token : Z;
  action_is_pending : bool;
  agreements : list morse_twt_agreement
}.

Inductive morse_twt_event_type :=
| MORSE_TWT_EVENT_SETUP
| MORSE_TWT_EVENT_TEARDOWN.

(** [struct morse_twt_event].  [setup_agr_data] is [None] for a [NULL]
    pointer; an event owns its agreement data. *)
Record morse_twt_event := Event {
  type : morse_twt_event_type;
  ev_addr : Z;
  flow_id : nat;
  setup_cmd : ieee80211_twt_setup_cmd;
  setup_agr_data : option morse_twt_agreement_data;
  teardown : bool
}.

Inductive nl80211_iftype :=
| NL80211_IFTYPE_STATION
| NL80211_IFTYPE_AP
| NL80211_IFTYPE_OTHER.

(** The address of an agreement slot: the address of its station record and
    the flow id. *)
Definition agr_ptr : Type := nat * nat.

(** One call of [morse_mac_send_twt_action_frame]. *)
Record twt_action_frame := ActionFrame {
  af_event : morse_twt_event;
  af_dest : Z;
  af_dialog_token : Z;
  af_is_setup : bool
}.

(** [struct morse_twt] of a virtual interface, with the station records it
    allocated ([sta_mem], by address) and the interface type.
    - [stas]: the station list, as the addresses of the records, in order;
    - [wake_intervals]: one list per wake interval, in list order, each
      holding the linked agreement slots in list order;
    - [events], [tx], [to_install_uninstall]: the three event queues;
    - [action_frames]: the action frames handed to the MAC, oldest first;
    - [can_alloc]: whether [kmalloc(..., GFP_ATOMIC)] finds memory. *)
Record morse_twt := Twt {
  can_alloc : bool;
  vif_type : nl80211_iftype;
  sta_mem : gmap nat morse_twt_sta;
  stas : list nat;
  wake_intervals : list (list agr_ptr);
  events : list morse_twt_event;
  tx : list morse_twt_event;
  to_install_uninstall : list morse_twt_event;
  active_agreement_bitmap : Z;
  action_frames : list twt_action_frame
}.

Definition set_sta_mem (v : gmap nat morse_twt_sta) (t : morse_twt) : morse_twt :=
  Twt (can_alloc t) (vif_type t) v (stas t) (wake_intervals t) (events t) (tx t)
      (to_install_uninstall t) (active_agreement_bitmap t) (action_frames t).
Definition set_stas (v : list nat) (t : morse_twt) : morse_twt :=
  Twt (can_alloc t) (vif_type t) (sta_mem t) v (wake_intervals t) (events t) (tx t)
      (to_install_uninstall t) (active_agreement_bitmap t) (action_frames t).
Definition set_wake_intervals (v : list (list agr_ptr)) (t : morse_twt) : morse_twt :=
  Twt (can_alloc t) (vif_type t) (sta_mem t) (stas t) v (events t) (tx t)
      (to_install_uninstall t) (active_agreement_bitmap t) (action_frames t).
Definition set_events (v : list morse_twt_event) (t : morse_twt) : morse_twt :=
  Twt (can_alloc t) (vif_type t) (sta_mem t) (stas t) (wake_intervals t) v (tx t)
      (to_install_uninstall t) (active_agreement_bitmap t) (action_frames t).
Definition set_tx (v : list morse_twt_event) (t : morse_twt) : morse_twt :=
  Twt (can_alloc t) (vif_type t) (sta_mem t) (stas t) (wake_intervals t) (events t) v
      (to_install_uninstall t) (active_agreement_bitmap t) (action_frames t).
Definition set_to_install_uninstall (v : list morse_twt_event) (t : morse_twt) : morse_twt :=
  Twt (can_alloc t) (vif_type t) (sta_mem t) (stas t) (wake_intervals t) (events t) (tx t)
      v (active_agreement_bitmap t) (action_frames t).
Definition set_active_agreement_bitmap (v : Z) (t : morse_twt) : morse_twt :=
  Twt (can_alloc t) (vif_type t) (sta_mem t) (stas t) (wake_intervals t) (events t) (tx t)
      (to_install_uninstall t) v (action_frames t).
Definition push_action_frame (f : twt_action_frame) (t : morse_twt) : morse_twt :=
  Twt (can_alloc t) (vif_type t) (sta_mem t) (stas t) (wake_intervals t) (events t) (tx t)
      (to_install_uninstall t) (active_agreement_bitmap t) (action_frames t ++ [f]).

Definition set_state (v : morse_twt_state) (a : morse_twt_agreement) : morse_twt_agreement :=
  Agr v (data a).
Definition set_data (v : morse_twt_agreement_data) (a : morse_twt_agreement)
  : morse_twt_agreement := Agr (state a) v.
Definition set_wake_time_us (v : Z) (d : morse_twt_agreement_data)
  : morse_twt_agreement_data :=
  AgrData (control d) (params d) v (wake_interval_us d) (wake_duration_us d).
Definition set_params (v : ieee80211_twt_params) (d : morse_twt_agreement_data)
  : morse_twt_agreement_data :=
  AgrData (control d) v (wake_time_us d) (wake_interval_us d) (wake_duration_us d).
Definition set_agreements (v : list morse_twt_agreement) (s : morse_twt_sta) : morse_twt_sta :=
  Sta (addr s) (dialog_token s) (action_is_pending s) v.
Definition set_action_is_pending (v : bool) (s : morse_twt_sta) : morse_twt_sta :=
  Sta (addr s) (dialog_token s) v (agreements s).

(** *** Memory access

    The functions below return [None] where the C code would dereference a
    pointer to no live object or divide by zero. *)

(** [sta->agreements[flow]] *)
Definition agr_at (t : morse_twt) (a : agr_ptr) : option morse_twt_agreement :=
  s ← sta_mem t !! a.1; agreements s !! a.2.

(** Store into [sta->agreements[flow]]. *)
Definition agr_update (f : morse_twt_agreement -> morse_twt_agreement) (a : agr_ptr)
    (t : morse_twt) : morse_twt :=
  set_sta_mem (alter (fun s => set_agreements (alter f a.2 (agreements s)) s) a.1 (sta_mem t)) t.

(** [list_empty(&agr->list)]: the slot is linked into no wake-interval list. *)
Definition agr_unlinked (t : morse_twt) (a : agr_ptr) : bool :=
  forallb (fun b => negb (bool_decide (a ∈ b))) (wake_intervals t).

(** *** Request type field *)

Definition morse_twt_get_command (req_type : Z) : Z :=
  Z.shiftr (Z.land req_type IEEE80211_TWT_REQTYPE_SETUP_CMD)
           IEEE80211_TWT_REQTYPE_SETUP_CMD_OFFSET.

Definition morse_twt_cmd_is_req (cmd : ieee80211_twt_setup_cmd) : bool :=
  Z.land (u8 (setup_cmd_code cmd)) (BIT 2) =? 0.

Definition morse_twt_set_command (req_type : Z) (cmd : ieee80211_twt_setup_cmd) : Z :=
  let r := u16 (Z.land req_type (Z.lnot IEEE80211_TWT_REQTYPE_SETUP_CMD)) in
  let r :=
    if morse_twt_cmd_is_req cmd
    then u16 (Z.lor r IEEE80211_TWT_REQTYPE_REQUEST)
    else u16 (Z.land r (Z.lnot IEEE80211_TWT_REQTYPE_REQUEST)) in
  u16 (Z.lor r (Z.shiftl (setup_cmd_code cmd) IEEE80211_TWT_REQTYPE_SETUP_CMD_OFFSET)).

Definition morse_twt_update_params (p : ieee80211_twt_params)
    (control wake_time_us wake_interval_us wake_duration_us : Z) : ieee80211_twt_params :=
  let exp := Z.shiftr (Z.land (req_type p) IEEE80211_TWT_REQTYPE_WAKE_INT_EXP)
                      IEEE80211_TWT_REQTYPE_WAKE_INT_EXP_OFFSET in
  let mantissa := u16 (wake_interval_us / u32 (Z.shiftl 1 exp)) in
  let dur :=
    if negb (Z.land control IEEE80211_TWT_CONTROL_WAKE_DUR_UNIT =? 0)
    then u8 (MORSE_US_TO_TU wake_duration_us)
    else u8 (wake_duration_us / TWT_WAKE_DUR_UNIT_256) in
  TwtParams (req_type p) wake_time_us dur mantissa (channel p).

(** *** Event queues *)

(** [morse_twt_queue_purge(mors, qhead, addr, flow_id)]: unlink and free
    every event of the queue that matches the given address and flow id
    (a [NULL] filter matches everything; with both [NULL] nothing is done). *)
Definition purge_matches (addr : option Z) (flow : option nat) (e : morse_twt_event) : bool :=
  from_option (fun a => ev_addr e =? a) true addr
  && from_option (fun f => Nat.eqb f (flow_id e)) true flow.

Definition morse_twt_queue_purge (q : list morse_twt_event) (addr : option Z)
    (flow : option nat) : list morse_twt_event :=
  match addr, flow with
  | None, None => q
  | _, _ => List.filter (fun e => negb (purge_matches addr flow e)) q
  end.

Definition morse_twt_tx_queue_purge (t : morse_twt) (addr : option Z) : morse_twt :=
  set_tx (morse_twt_queue_purge (tx t) addr None) t.

Definition morse_twt_to_install_queue_purge (t : morse_twt) (addr : option Z) : morse_twt :=
  set_to_install_uninstall (morse_twt_queue_purge (to_install_uninstall t) addr None) t.

Definition morse_twt_event_queue_purge (t : morse_twt) (addr : option Z) : morse_twt :=
  set_events (morse_twt_queue_purge (events t) addr None) t.

(** [morse_twt_queue_event(mors, mors_vif, event)] *)
Definition morse_twt_queue_event (t : morse_twt) (event : morse_twt_event) : morse_twt :=
  set_events
    (morse_twt_queue_purge (events t) (Some (ev_addr event)) (Some (flow_id event))
       ++ [event]) t.


(** *** Stations and agreements *)

Section Stations.
(** The number of flows per station, [MORSE_TWT_AGREEMENTS_MAX_PER_STA] of
    [twt.h] (the header is not among the sources). *)
Variable MORSE_TWT_AGREEMENTS_MAX_PER_STA : nat.

(** [morse_twt_get_sta]: the first record of the station list with the
    address, [Some None] for [NULL]. *)
Fixpoint get_sta_loop (mm : gmap nat morse_twt_sta) (l : list nat) (a : Z)
  : option (option nat) :=
  match l with
  | [] => Some None
  | p :: rest =>
      s ← mm !! p;
      if addr s =? a then Some (Some p) else get_sta_loop mm rest a
  end.

Definition morse_twt_get_sta (t : morse_twt) (a : Z) : option (option nat) :=
  get_sta_loop (sta_mem t) (stas t) a.

(** [list_del] of a node: the first (and, in a list of distinct nodes, only)
    occurrence goes. *)
Fixpoint unlink {A} `{EqDecision A} (a : A) (l : list A) : list A :=
  match l with
  | [] => []
  | x :: rest => if bool_decide (x = a) then rest else x :: unlink a rest
  end.

(** The wake-interval lists after [list_del_init(&agr->list)] and, when the
    list that held the agreement is left empty, [list_del(&wi->list)]. *)
Fixpoint wi_unlink (a : agr_ptr) (wis : list (list agr_ptr)) : list (list agr_ptr) :=
  match wis with
  | [] => []
  | b :: rest =>
      if bool_decide (a ∈ b) then
        match unlink a b with
        | [] => rest
        | b' => b' :: rest
        end
      else b :: wi_unlink a rest
  end.

(** [morse_twt_agreement_remove(mors, agr)] *)
Definition morse_twt_agreement_remove (t : morse_twt) (agr : agr_ptr)
  : option (Z * morse_twt) :=
  _ ← agr_at t agr;
  if agr_unlinked t agr then Some (0, t)
  else Some (0, set_wake_intervals (wi_unlink agr (wake_intervals t)) t).

(** The loop [for (i = ...; i < MAX; i++) morse_twt_agreement_remove(mors,
    &sta->agreements[i])] of [morse_twt_sta_remove], with [n] passes left. *)
Fixpoint sta_remove_agreements (t : morse_twt) (p i n : nat) : option morse_twt :=
  match n with
  | O => Some t
  | S n' =>
      r ← morse_twt_agreement_remove t (p, i);
      sta_remove_agreements r.2 p (S i) n'
  end.

(** [morse_twt_sta_remove(mors, twt, sta)] *)
Definition morse_twt_sta_remove (t : morse_twt) (sta : option nat)
  : option (Z * morse_twt) :=
  match sta with
  | None => Some (- ENODEV, t)
  | Some p =>
      s ← sta_mem t !! p;
      t ← sta_remove_agreements t p 0 MORSE_TWT_AGREEMENTS_MAX_PER_STA;
      let t :=
        match vif_type t with
        | NL80211_IFTYPE_STATION =>
            morse_twt_to_install_queue_purge (set_active_agreement_bitmap 0 t)
                                             (Some (addr s))
        | _ => t
        end in
      let t := morse_twt_tx_queue_purge t (Some (addr s)) in
      Some (0, set_sta_mem (delete p (sta_mem t)) (set_stas (unlink p (stas t)) t))
  end.

Definition is_no_agreement (a : morse_twt_agreement) : bool :=
  bool_decide (state a = MORSE_TWT_STATE_NO_AGREEMENT).

(** [morse_twt_sta_agreement_remove(mors, twt, sta, flow_id)] *)
Definition morse_twt_sta_agreement_remove (t : morse_twt) (sta : option nat)
    (flow_id : nat) : option (Z * morse_twt) :=
  match sta with
  | None => Some (- EINVAL, t)
  | Some p =>
      if (MORSE_TWT_AGREEMENTS_MAX_PER_STA <=? flow_id)%nat then Some (- EINVAL, t)
      else
        r ← morse_twt_agreement_remove t (p, flow_id);
        let t := r.2 in
        s ← sta_mem t !! p;
        if forallb is_no_agreement (take MORSE_TWT_AGREEMENTS_MAX_PER_STA (agreements s))
        then morse_twt_sta_remove t (Some p)
        else Some (0, t)
  end.

(** [morse_twt_sta_agreement_add(mors, twt, sta, flow_id, agr_data)] *)
Definition morse_twt_sta_agreement_add (t : morse_twt) (sta : option nat)
    (flow_id : nat) (agr_data : option morse_twt_agreement_data)
  : option (Z * morse_twt) :=
  match sta, agr_data with
  | Some p, Some d =>
      if (MORSE_TWT_AGREEMENTS_MAX_PER_STA <=? flow_id)%nat then Some (- EINVAL, t)
      else
        _ ← agr_at t (p, flow_id);
        Some (0, agr_update (set_data d) (p, flow_id) t)
  | _, _ => Some (- EINVAL, t)
  end.

(** *** Wake-interval scheduler *)

(** The [list_for_each_entry(wi, head, list)] loop of
    [morse_twt_agreement_wake_interval_get] over a non-empty list of wake
    intervals.  The result is the position of the returned list head and the
    wake-interval lists after a possible insertion; [Some None] is [NULL]. *)
Fixpoint wi_get_loop (t : morse_twt) (wake_interval : Z) (l : list (list agr_ptr))
  : option (option (nat * list (list agr_ptr))) :=
  match l with
  | [] => Some None
  | wi :: rest =>
      match wi with
      | [] => Some None
      | agr :: _ =>
          a ← agr_at t agr;
          let wi_us := wake_interval_us (data a) in
          if wi_us =? wake_interval then Some (Some (O, l))
          else if wi_us >? wake_interval then
            if can_alloc t then Some (Some (O, [] :: l)) else Some None
          else
            match rest with
            | [] => if can_alloc t then Some (Some (1%nat, [wi; []])) else Some None
            | _ =>
                r ← wi_get_loop t wake_interval rest;
                Some (option_map (fun il => (S il.1, wi :: il.2)) r)
            end
      end
  end.

(** [morse_twt_agreement_wake_interval_get(mors, twt, wake_interval_us)] *)
Definition morse_twt_agreement_wake_interval_get (t : morse_twt) (wake_interval : Z)
  : option (option (nat * morse_twt)) :=
  match wake_intervals t with
  | [] =>
      if can_alloc t then Some (Some (O, set_wake_intervals [[]] t)) else Some None
  | l =>
      r ← wi_get_loop t wake_interval l;
      Some (option_map (fun il => (il.1, set_wake_intervals il.2 t)) r)
  end.

(** [div64_u64_rem(dividend, divisor, &remainder)]: the remainder; a zero
    divisor is a divide error. *)
Definition div64_u64_rem (dividend divisor : Z) : option Z :=
  if divisor =? 0 then None else Some (dividend mod divisor).

(** The gap the loop of [morse_twt_agreement_wake_interval_add] computes
    between the service periods of two consecutive agreements
    ([unalloc_dur_us], a [u64]). *)
Definition unalloc_dur_us (cur next : morse_twt_agreement_data) : option Z :=
  cur_next_wake_offset_us ← div64_u64_rem (wake_time_us cur) (wake_interval_us cur);
  next_next_wake_offset_us ← div64_u64_rem (wake_time_us next) (wake_interval_us next);
  let next_next_wake_offset_us :=
    if cur_next_wake_offset_us >? next_next_wake_offset_us
    then u64 (next_next_wake_offset_us + wake_interval_us cur)
    else next_next_wake_offset_us in
  Some (u64 (next_next_wake_offset_us
             - u64 (cur_next_wake_offset_us + wake_duration_us cur))).

(** The [list_for_each_entry(ptr, &wi->agreements, list)] loop of
    [morse_twt_agreement_wake_interval_add]: the wake time given to the new
    agreement and the list with the agreement linked in, or [Some None] when
    the loop runs to its end (the function then returns [-EBADSLT]). *)
Fixpoint wi_place (t : morse_twt) (agr : agr_ptr) (duration : Z) (b : list agr_ptr)
  : option (option (Z * list agr_ptr)) :=
  match b with
  | [] => Some None
  | ptr :: rest =>
      p ← agr_at t ptr;
      match rest with
      | [] =>
          Some (Some (u64 (wake_time_us (data p) + wake_duration_us (data p)),
                      [ptr; agr]))
      | ptr_next :: _ =>
          pn ← agr_at t ptr_next;
          gap ← unalloc_dur_us (data p) (data pn);
          if gap >=? duration then
            Some (Some (u64 (wake_time_us (data p) + wake_duration_us (data p)),
                        ptr :: agr :: rest))
          else
            r ← wi_place t agr duration rest;
            Some (option_map (fun tb => (tb.1, ptr :: tb.2)) r)
      end
  end.

(** [agr->data.wake_time_us = time] *)
Definition retime (time : Z) (x : morse_twt_agreement) : morse_twt_agreement :=
  set_data (set_wake_time_us time (data x)) x.

Definition set_bucket (i : nat) (b : list agr_ptr) (t : morse_twt) : morse_twt :=
  set_wake_intervals (<[i := b]> (wake_intervals t)) t.

(** [morse_twt_agreement_wake_interval_add(mors, twt, agr)] *)
Definition morse_twt_agreement_wake_interval_add (t : morse_twt) (agr : agr_ptr)
  : option (Z * morse_twt) :=
  a ← agr_at t agr;
  match state a with
  | MORSE_TWT_STATE_NO_AGREEMENT | MORSE_TWT_STATE_AGREEMENT => Some (- EINVAL, t)
  | _ =>
      r ← morse_twt_agreement_wake_interval_get t (wake_interval_us (data a));
      match r with
      | None => Some (- EINVAL, t)
      | Some (i, t) =>
          b ← wake_intervals t !! i;
          match b with
          | [] =>
              Some (0, set_bucket i [agr] (agr_update (retime 0) agr t))
          | _ =>
              if morse_twt_get_command (req_type (params (data a)))
                 =? setup_cmd_code TWT_SETUP_CMD_DEMAND
              then Some (0, set_bucket i (b ++ [agr]) t)
              else
                r ← wi_place t agr (wake_duration_us (data a)) b;
                match r with
                | Some (time, b') =>
                    Some (0, set_bucket i b' (agr_update (retime time) agr t))
                | None => Some (- EBADSLT, t)
                end
          end
      end
  end.


(** *** Negotiation state machine *)

Definition set_setup_cmd (c : ieee80211_twt_setup_cmd) (e : morse_twt_event)
  : morse_twt_event :=
  Event (type e) (ev_addr e) (flow_id e) c (setup_agr_data e) (teardown e).
Definition set_setup_agr_data (d : option morse_twt_agreement_data) (e : morse_twt_event)
  : morse_twt_event :=
  Event (type e) (ev_addr e) (flow_id e) (setup_cmd e) d (teardown e).

(** [req_type] rewritten by [morse_twt_set_command]. *)
Definition data_set_command (c : ieee80211_twt_setup_cmd) (d : morse_twt_agreement_data)
  : morse_twt_agreement_data :=
  set_params (TwtParams (morse_twt_set_command (req_type (params d)) c) (twt (params d))
                        (min_twt_dur (params d)) (mantissa (params d)) (channel (params d))) d.

(** [params] rewritten by [morse_twt_update_params] from the friendly values. *)
Definition data_update_params (d : morse_twt_agreement_data) : morse_twt_agreement_data :=
  set_params (morse_twt_update_params (params d) (control d) (wake_time_us d)
                                      (wake_interval_us d) (wake_duration_us d)) d.

(** The type of [morse_twt_enter_state], which [morse_twt_send_accept] and
    [morse_twt_send_reject] call back. *)
Definition enter_state_fn : Type :=
  morse_twt -> option nat -> morse_twt_event -> morse_twt_state -> option (Z * morse_twt).

(** The tail shared by [morse_twt_send_accept] and [morse_twt_send_reject]:
    answer at once with an action frame when the request came in one, else
    queue the response for the association response. *)
Definition send_response (enter_state : enter_state_fn) (t : morse_twt) (p : nat)
    (event : morse_twt_event) (next : morse_twt_state) : option (Z * morse_twt) :=
  s ← sta_mem t !! p;
  if action_is_pending s then
    let t := push_action_frame (ActionFrame event (addr s) (dialog_token s) true) t in
    let t := set_sta_mem (<[p := set_action_is_pending false s]> (sta_mem t)) t in
    r ← enter_state t (Some p) event next;
    Some (0, r.2)
  else Some (0, set_tx (tx t ++ [event]) t).

(** [morse_twt_send_accept(mors, twt, sta, event)] *)
Definition send_accept_with (enter_state : enter_state_fn) (t : morse_twt)
    (sta : option nat) (event : morse_twt_event) : option (Z * morse_twt) :=
  match sta, setup_agr_data event with
  | Some p, Some event_agr_data =>
      let sta_agr := (p, flow_id event) in
      _ ← agr_at t sta_agr;
      let t := agr_update (set_data event_agr_data) sta_agr t in
      r ← morse_twt_agreement_wake_interval_add t sta_agr;
      let t := r.2 in
      let event := set_setup_cmd TWT_SETUP_CMD_ACCEPT event in
      let t := agr_update (fun x => set_data (data_update_params
                 (data_set_command TWT_SETUP_CMD_ACCEPT (data x))) x) sta_agr t in
      a ← agr_at t sta_agr;
      let event := set_setup_agr_data (Some (data a)) event in
      send_response enter_state t p event MORSE_TWT_STATE_AGREEMENT
  | _, _ => Some (- EINVAL, t)
  end.

(** [morse_twt_send_reject(mors, twt, sta, event)]; the agreement data of
    the event is dereferenced without a check. *)
Definition send_reject_with (enter_state : enter_state_fn) (t : morse_twt)
    (sta : option nat) (event : morse_twt_event) : option (Z * morse_twt) :=
  match sta with
  | None => Some (- EINVAL, t)
  | Some p =>
      let event := set_setup_cmd TWT_SETUP_CMD_REJECT event in
      d ← setup_agr_data event;
      let event :=
        set_setup_agr_data (Some (data_set_command TWT_SETUP_CMD_REJECT d)) event in
      send_response enter_state t p event MORSE_TWT_STATE_NO_AGREEMENT
  end.

(** [morse_twt_enter_state(mors, twt, sta, event, state)], with the two
    senders it dispatches to as arguments.  The return values of the
    [morse_twt_enter_state_*] functions are dropped: the result is 0. *)
Definition enter_state_with
    (send_accept send_reject : morse_twt -> option nat -> morse_twt_event
                               -> option (Z * morse_twt))
    (t : morse_twt) (sta : option nat) (event : morse_twt_event)
    (state : morse_twt_state) : option (Z * morse_twt) :=
  match sta with
  | None => Some (- EINVAL, t)
  | Some p =>
      _ ← agr_at t (p, flow_id event);
      let t := agr_update (set_state state) (p, flow_id event) t in
      r ← match state with
          | MORSE_TWT_STATE_NO_AGREEMENT =>
              morse_twt_sta_agreement_remove t (Some p) (flow_id event)
          | MORSE_TWT_STATE_CONSIDER_REQUEST
          | MORSE_TWT_STATE_CONSIDER_SUGGEST => send_accept t (Some p) event
          | MORSE_TWT_STATE_CONSIDER_DEMAND
          | MORSE_TWT_STATE_CONSIDER_GROUPING => send_reject t (Some p) event
          | MORSE_TWT_STATE_AGREEMENT =>
              morse_twt_sta_agreement_add t (Some p) (flow_id event) (setup_agr_data event)
          end;
      Some (0, r.2)
  end.

(** The calls of [morse_twt_enter_state] made by the two senders enter
    AGREEMENT or NO_AGREEMENT, from where no sender is called again: for
    these calls the sender arguments are never used
    ([enter_state_settled_eq]). *)
Definition enter_state_settled : enter_state_fn :=
  enter_state_with (fun t _ _ => Some (- EINVAL, t)) (fun t _ _ => Some (- EINVAL, t)).

Definition morse_twt_send_accept := send_accept_with enter_state_settled.
Definition morse_twt_send_reject := send_reject_with enter_state_settled.

Definition morse_twt_enter_state : enter_state_fn :=
  enter_state_with morse_twt_send_accept morse_twt_send_reject.

(** [morse_twt_handle_event_in_no_agreement(mors, twt, sta, event)] *)
Definition morse_twt_handle_event_in_no_agreement (t : morse_twt) (sta : option nat)
    (event : morse_twt_event) : option (Z * morse_twt) :=
  match sta, type event with
  | Some p, MORSE_TWT_EVENT_SETUP =>
      match setup_cmd event with
      | TWT_SETUP_CMD_REQUEST =>
          r ← morse_twt_enter_state t sta event MORSE_TWT_STATE_CONSIDER_REQUEST;
          Some (0, r.2)
      | TWT_SETUP_CMD_SUGGEST =>
          r ← morse_twt_enter_state t sta event MORSE_TWT_STATE_CONSIDER_SUGGEST;
          Some (0, r.2)
      | TWT_SETUP_CMD_DEMAND =>
          r ← morse_twt_enter_state t sta event MORSE_TWT_STATE_CONSIDER_DEMAND;
          Some (0, r.2)
      | TWT_SETUP_CMD_GROUPING =>
          r ← morse_twt_enter_state t sta event MORSE_TWT_STATE_CONSIDER_DEMAND;
          Some (0, r.2)
      | _ => Some (- EINVAL, t)
      end
  | _, _ => Some (- EINVAL, t)
  end.

(** [morse_twt_handle_event_teardown(mors, mors_vif, twt_sta, event)] *)
Definition morse_twt_handle_event_teardown (t : morse_twt) (twt_sta : option nat)
    (event : morse_twt_event) : option (Z * morse_twt) :=
  match vif_type t with
  | NL80211_IFTYPE_AP =>
      morse_twt_enter_state t twt_sta event MORSE_TWT_STATE_NO_AGREEMENT
  | _ => Some (- EINVAL, t)
  end.

(** [morse_twt_dequeue_tx_response(mors, mors_vif, tx)] *)
Definition morse_twt_dequeue_tx_response (t : morse_twt) (tx : morse_twt_event)
  : option (Z * morse_twt) :=
  sta ← morse_twt_get_sta t (ev_addr tx);
  match sta with
  | None => Some (- ENODEV, t)
  | Some p =>
      a ← agr_at t (p, flow_id tx);
      match state a with
      | MORSE_TWT_STATE_NO_AGREEMENT | MORSE_TWT_STATE_AGREEMENT => Some (- EINVAL, t)
      | _ =>
          match setup_cmd tx with
          | TWT_SETUP_CMD_ACCEPT =>
              morse_twt_enter_state t (Some p) tx MORSE_TWT_STATE_AGREEMENT
          | TWT_SETUP_CMD_REJECT =>
              morse_twt_enter_state t (Some p) tx MORSE_TWT_STATE_NO_AGREEMENT
          | _ => Some (0, t)
          end
      end
  end.

End Stations.

(** *** Reading and writing agreement slots *)

Lemma agr_at_update_eq g a t x :
  agr_at t a = Some x -> agr_at (agr_update g a t) a = Some (g x).
Proof.
  unfold agr_at, agr_update. cbn [sta_mem set_sta_mem]. rewrite lookup_alter_eq.
  destruct (sta_mem t !! a.1) as [s|]; [|discriminate]. cbn.
  intros Hx. now rewrite list_lookup_alter_eq, Hx.
Qed.

Lemma agr_at_update_ne g a b t : a <> b -> agr_at (agr_update g a t) b = agr_at t b.
Proof.
  intros Hne. unfold agr_at, agr_update. cbn [sta_mem set_sta_mem].
  destruct (decide (a.1 = b.1)) as [He|Hn].
  - rewrite <- He, lookup_alter_eq. destruct (sta_mem t !! a.1) as [s|]; [|reflexivity].
    cbn. apply list_lookup_alter_ne. intros H2. apply Hne.
    destruct a, b; simpl in *; congruence.
  - now rewrite lookup_alter_ne.
Qed.

Lemma agr_at_update_is_Some g a b t :
  is_Some (agr_at (agr_update g a t) b) <-> is_Some (agr_at t b).
Proof.
  destruct (decide (a = b)) as [<-|Hne].
  - destruct (agr_at t a) as [x|] eqn:Hx.
    + rewrite (agr_at_update_eq g a t x Hx). split; eauto.
    + unfold agr_at, agr_update in *. cbn [sta_mem set_sta_mem]. rewrite lookup_alter_eq.
      destruct (sta_mem t !! a.1) as [s|]; cbn in *;
        [rewrite list_lookup_alter_eq, Hx|]; cbn; split; intros [? ?]; discriminate.
  - now rewrite agr_at_update_ne.
Qed.

Lemma agr_at_live t p s i :
  sta_mem t !! p = Some s -> (i < length (agreements s))%nat -> is_Some (agr_at t (p, i)).
Proof.
  intros Hs Hi. unfold agr_at. cbn. rewrite Hs. cbn. now apply lookup_lt_is_Some.
Qed.

(** *** Unlinking *)

Section Unlink.
Context {A : Type} `{EqDecision A}.
Implicit Types (a x : A) (l : list A).

Lemma unlink_notin a l : a ∉ l -> unlink a l = l.
Proof.
  induction l as [|y l IH]; [reflexivity|]. rewrite not_elem_of_cons. intros [Hne Hl].
  cbn. rewrite bool_decide_eq_false_2 by congruence. now rewrite IH.
Qed.

Lemma elem_of_unlink_sub a x l : x ∈ unlink a l -> x ∈ l.
Proof.
  induction l as [|y l IH]; cbn; [auto|]. case_bool_decide.
  - intros H1. now right.
  - rewrite !elem_of_cons. intros [->|H1]; auto.
Qed.

Lemma elem_of_unlink a x l : NoDup l -> x ∈ unlink a l <-> x ∈ l /\ x <> a.
Proof.
  induction l as [|y l IH]; cbn.
  - intros _. rewrite elem_of_nil. tauto.
  - rewrite NoDup_cons. intros [Hy Hl]. case_bool_decide as Hya.
    + subst y. rewrite elem_of_cons. split.
      * intros Hx. split; [now right|]. intros ->. contradiction.
      * intros [[->|Hx] Hne]; [contradiction|assumption].
    + rewrite !elem_of_cons, (IH Hl). split.
      * intros [->|[Hx Hne]]; auto.
      * intros [[->|Hx] Hne]; auto.
Qed.

Lemma NoDup_unlink a l : NoDup l -> NoDup (unlink a l).
Proof.
  induction l as [|y l IH]; cbn; [auto|]. rewrite NoDup_cons. intros [Hy Hl].
  case_bool_decide; [assumption|]. apply NoDup_cons. split; [|auto].
  intros Hin. apply Hy. now apply elem_of_unlink_sub in Hin.
Qed.

End Unlink.

Lemma wi_unlink_notin a wis : a ∉ concat wis -> wi_unlink a wis = wis.
Proof.
  induction wis as [|b wis IH]; [reflexivity|]. cbn. rewrite not_elem_of_app.
  intros [Hb Hw]. rewrite bool_decide_eq_false_2 by assumption. now rewrite IH.
Qed.

Lemma wi_unlink_at a pre b post :
  a ∈ b -> a ∉ concat pre ->
  wi_unlink a (pre ++ b :: post)
    = pre ++ match unlink a b with [] => post | b' => b' :: post end.
Proof.
  intros Hb. induction pre as [|c pre IH]; cbn.
  - intros _. now rewrite bool_decide_eq_true_2.
  - rewrite not_elem_of_app. intros [Hc Hpre].
    rewrite bool_decide_eq_false_2 by assumption. now rewrite IH.
Qed.

Lemma elem_of_wi_unlink_sub a x wis : x ∈ concat (wi_unlink a wis) -> x ∈ concat wis.
Proof.
  induction wis as [|b wis IH]; cbn; [auto|]. case_bool_decide.
  - assert (Hgoal : x ∈ unlink a b ++ concat wis -> x ∈ b ++ concat wis).
    { rewrite !elem_of_app. intros [Hx|Hx]; [left|now right].
      now apply elem_of_unlink_sub in Hx. }
    destruct (unlink a b) as [|y b']; exact Hgoal.
  - change (concat (b :: wi_unlink a wis)) with (b ++ concat (wi_unlink a wis)).
    rewrite !elem_of_app. intros [Hx|Hx]; auto.
Qed.

Lemma elem_of_wi_unlink a x wis :
  NoDup (concat wis) -> x ∈ concat (wi_unlink a wis) <-> x ∈ concat wis /\ x <> a.
Proof.
  induction wis as [|b wis IH]; cbn.
  - intros _. rewrite elem_of_nil. tauto.
  - rewrite NoDup_app. intros (Hb & Hdisj & Hw). case_bool_decide as Hab.
    + assert (Hgoal : x ∈ unlink a b ++ concat wis <-> x ∈ b ++ concat wis /\ x <> a).
      { rewrite !elem_of_app, (elem_of_unlink a x b Hb). split.
        - intros [[Hx Hne]|Hx]; [auto|]. split; [auto|]. intros ->.
          exact (Hdisj a Hab Hx).
        - intros [[Hx|Hx] Hne]; auto. }
      destruct (unlink a b) as [|y b']; exact Hgoal.
    + change (concat (b :: wi_unlink a wis)) with (b ++ concat (wi_unlink a wis)).
      rewrite !elem_of_app, (IH Hw). split.
      * intros [Hx|[Hx Hne]]; [|auto]. split; [auto|]. intros ->. contradiction.
      * intros [[Hx|Hx] Hne]; auto.
Qed.

Lemma NoDup_wi_unlink a wis : NoDup (concat wis) -> NoDup (concat (wi_unlink a wis)).
Proof.
  induction wis as [|b wis IH]; cbn; [auto|].
  rewrite NoDup_app. intros (Hb & Hdisj & Hw). case_bool_decide as Hab.
  - assert (Hgoal : NoDup (unlink a b ++ concat wis)).
    { apply NoDup_app. split; [now apply NoDup_unlink|]. split; [|assumption].
      intros x Hx. apply Hdisj. now apply elem_of_unlink_sub in Hx. }
    destruct (unlink a b) as [|y b']; [assumption|exact Hgoal].
  - change (concat (b :: wi_unlink a wis)) with (b ++ concat (wi_unlink a wis)).
    apply NoDup_app. split; [assumption|]. split; [|auto].
    intros x Hx Hx'. apply (Hdisj x Hx). now apply elem_of_wi_unlink_sub in Hx'.
Qed.

Lemma wi_unlink_nonempty a wis : [] ∉ wis -> [] ∉ wi_unlink a wis.
Proof.
  induction wis as [|b wis IH]; cbn; [auto|]. rewrite not_elem_of_cons.
  intros [Hb Hw]. case_bool_decide.
  - destruct (unlink a b) as [|y b']; [assumption|].
    rewrite not_elem_of_cons. split; [discriminate|assumption].
  - rewrite not_elem_of_cons. auto.
Qed.


(** *** Removing agreements and stations *)

(** Two states differ in the wake-interval lists at most. *)
Definition same_but_wake_intervals (t t' : morse_twt) : Prop :=
  can_alloc t' = can_alloc t /\ vif_type t' = vif_type t /\
  sta_mem t' = sta_mem t /\ stas t' = stas t /\ events t' = events t /\
  tx t' = tx t /\ to_install_uninstall t' = to_install_uninstall t /\
  active_agreement_bitmap t' = active_agreement_bitmap t /\
  action_frames t' = action_frames t.

Lemma same_but_wake_intervals_refl t : same_but_wake_intervals t t.
Proof. repeat split. Qed.

Lemma same_but_wake_intervals_trans t1 t2 t3 :
  same_but_wake_intervals t1 t2 -> same_but_wake_intervals t2 t3 ->
  same_but_wake_intervals t1 t3.
Proof. unfold same_but_wake_intervals. intuition congruence. Qed.

Lemma agr_at_ext t t' a : sta_mem t' = sta_mem t -> agr_at t' a = agr_at t a.
Proof. unfold agr_at. now intros ->. Qed.

Lemma agr_unlinked_spec t a : agr_unlinked t a = true <-> a ∉ concat (wake_intervals t).
Proof.
  unfold agr_unlinked. induction (wake_intervals t) as [|b wis IH]; cbn.
  - rewrite elem_of_nil. tauto.
  - rewrite andb_true_iff, IH, not_elem_of_app, negb_true_iff, bool_decide_eq_false. tauto.
Qed.

Section StationFacts.
Variable MAX : nat.

Lemma agreement_remove_spec t a :
  is_Some (agr_at t a) ->
  exists t', morse_twt_agreement_remove t a = Some (0, t') /\
    wake_intervals t' = wi_unlink a (wake_intervals t) /\
    same_but_wake_intervals t t'.
Proof.
  intros [x Hx]. unfold morse_twt_agreement_remove. rewrite Hx. cbn.
  destruct (agr_unlinked t a) eqn:Hu.
  - exists t. split; [reflexivity|]. split; [|apply same_but_wake_intervals_refl].
    apply agr_unlinked_spec in Hu. now rewrite wi_unlink_notin.
  - eexists. split; [reflexivity|]. split; [reflexivity|]. repeat split.
Qed.

(** The wake-interval lists after the removal loop of [morse_twt_sta_remove]
    over the flows [i], ..., [i + n - 1] of station [p]. *)
Definition wi_unlink_flows (p i n : nat) (wis : list (list agr_ptr)) : list (list agr_ptr) :=
  foldl (fun w j => wi_unlink (p, j) w) wis (seq i n).

Lemma sta_remove_agreements_spec p n : forall i t,
  (forall j, (i <= j < i + n)%nat -> is_Some (agr_at t (p, j))) ->
  exists t', sta_remove_agreements t p i n = Some t' /\
    wake_intervals t' = wi_unlink_flows p i n (wake_intervals t) /\
    same_but_wake_intervals t t'.
Proof.
  induction n as [|n IH]; intros i t Hlive; cbn.
  - exists t. split; [reflexivity|]. split; [reflexivity|apply same_but_wake_intervals_refl].
  - destruct (agreement_remove_spec t (p, i)) as (t1 & Hrm & Hwi & Hsame).
    { apply Hlive. lia. }
    rewrite Hrm. cbn.
    destruct (IH (S i) t1) as (t2 & Hrest & Hwi2 & Hsame2).
    { intros j Hj. rewrite (agr_at_ext t t1) by apply Hsame. apply Hlive. lia. }
    exists t2. split; [exact Hrest|]. split.
    + rewrite Hwi2, Hwi. reflexivity.
    + eapply same_but_wake_intervals_trans; eassumption.
Qed.

Lemma wi_unlink_flows_spec p n : forall i wis,
  NoDup (concat wis) ->
  NoDup (concat (wi_unlink_flows p i n wis)) /\
  ([] ∉ wis -> [] ∉ wi_unlink_flows p i n wis) /\
  (forall x, x ∈ concat (wi_unlink_flows p i n wis)
             <-> x ∈ concat wis /\ ~ (x.1 = p /\ (i <= x.2 < i + n)%nat)).
Proof.
  induction n as [|n IH]; intros i wis Hnd; cbn.
  - split; [assumption|]. split; [auto|]. intros x. split; [|tauto].
    intros Hx. split; [assumption|]. lia.
  - destruct (IH (S i) (wi_unlink (p, i) wis) (NoDup_wi_unlink _ _ Hnd)) as (H1 & H2 & H3).
    split; [exact H1|]. split.
    + intros Hne. apply H2. now apply wi_unlink_nonempty.
    + intros x. unfold wi_unlink_flows in H3. rewrite H3, (elem_of_wi_unlink _ _ _ Hnd).
      split.
      * intros [[Hx Hne] Hout]. split; [assumption|]. intros [Hp Hr].
        destruct (decide (x.2 = i)) as [Hi|Hi].
        -- apply Hne. destruct x; simpl in *; congruence.
        -- apply Hout. split; [assumption|lia].
      * intros [Hx Hout]. split; [split; [assumption|]|].
        -- intros ->. apply Hout. simpl. split; [reflexivity|lia].
        -- intros [Hp Hr]. apply Hout. split; [assumption|lia].
Qed.


Lemma sta_remove_spec t p s :
  sta_mem t !! p = Some s ->
  length (agreements s) = MAX ->
  exists t', morse_twt_sta_remove MAX t (Some p) = Some (0, t') /\
    sta_mem t' = delete p (sta_mem t) /\
    stas t' = unlink p (stas t) /\
    wake_intervals t' = wi_unlink_flows p 0 MAX (wake_intervals t) /\
    tx t' = morse_twt_queue_purge (tx t) (Some (addr s)) None /\
    events t' = events t /\
    action_frames t' = action_frames t.
Proof.
  intros Hs Hlen. unfold morse_twt_sta_remove. rewrite Hs. cbn.
  destruct (sta_remove_agreements_spec p MAX 0 t) as (t1 & Hrm & Hwi & Hsame).
  { intros j Hj. apply (agr_at_live t p s j Hs). lia. }
  rewrite Hrm. cbn.
  destruct Hsame as (_ & _ & Hmem & Hstas & Hev & Htx & _ & _ & Haf).
  eexists. split; [reflexivity|].
  destruct (vif_type t1); cbn; rewrite ?Hmem, ?Hstas, ?Hev, ?Htx, ?Haf, ?Hwi; repeat split.
Qed.

(** The station record after [agr->state = MORSE_TWT_STATE_NO_AGREEMENT] for
    flow [f]. *)
Definition sta_flow_idle (f : nat) (s : morse_twt_sta) : morse_twt_sta :=
  set_agreements (alter (set_state MORSE_TWT_STATE_NO_AGREEMENT) f (agreements s)) s.

(** All flows of the station are in state NO_AGREEMENT. *)
Definition all_flows_idle (s : morse_twt_sta) : bool :=
  forallb is_no_agreement (agreements s).

Lemma enter_state_settled_eq t sta event st :
  st = MORSE_TWT_STATE_NO_AGREEMENT \/ st = MORSE_TWT_STATE_AGREEMENT ->
  morse_twt_enter_state MAX t sta event st = enter_state_settled MAX t sta event st.
Proof. intros [-> | ->]; destruct sta; reflexivity. Qed.

Lemma enter_no_agreement_run t p s event :
  sta_mem t !! p = Some s ->
  length (agreements s) = MAX ->
  (flow_id event < MAX)%nat ->
  let a := (p, flow_id event) in
  let s' := sta_flow_idle (flow_id event) s in
  exists t',
    enter_state_settled MAX t (Some p) event MORSE_TWT_STATE_NO_AGREEMENT = Some (0, t') /\
    action_frames t' = action_frames t /\ events t' = events t /\
    (if all_flows_idle s' then
       sta_mem t' = delete p (sta_mem t) /\ stas t' = unlink p (stas t) /\
       wake_intervals t' = wi_unlink_flows p 0 MAX (wi_unlink a (wake_intervals t))
     else
       sta_mem t' = <[p := s']> (sta_mem t) /\ stas t' = stas t /\
       wake_intervals t' = wi_unlink a (wake_intervals t) /\ tx t' = tx t).
Proof.
  intros Hs Hlen Hflow a s'.
  assert (Hlive : is_Some (agr_at t a)).
  { apply (agr_at_live t p s _ Hs). lia. }
  destruct Hlive as [x Hx].
  unfold enter_state_settled, enter_state_with. fold a. rewrite Hx. cbn [mbind option_bind].
  set (t1 := agr_update (set_state MORSE_TWT_STATE_NO_AGREEMENT) a t).
  assert (Hs1 : sta_mem t1 !! p = Some s').
  { unfold t1, agr_update. cbn [sta_mem set_sta_mem]. cbn [a fst snd].
    now rewrite lookup_alter_eq, Hs. }
  assert (Hlen' : length (agreements s') = MAX).
  { unfold s', sta_flow_idle. cbn. now rewrite length_alter. }
  unfold morse_twt_sta_agreement_remove.
  destruct (Nat.leb_spec MAX (flow_id event)) as [Hge|_]; [lia|].
  destruct (agreement_remove_spec t1 a) as (t2 & Hrm & Hwi2 & Hsame2).
  { apply (agr_at_live t1 p s' _ Hs1). lia. }
  fold a. rewrite Hrm. cbn [mbind option_bind snd].
  destruct Hsame2 as (_ & _ & Hmem2 & Hstas2 & Hev2 & Htx2 & _ & _ & Haf2).
  assert (Hs2 : sta_mem t2 !! p = Some s') by (now rewrite Hmem2).
  rewrite Hs2. cbn [mbind option_bind].
  rewrite take_ge by lia. fold (all_flows_idle s').
  assert (Hmem1 : sta_mem t1 = <[p := s']> (sta_mem t)).
  { unfold t1, agr_update. cbn [sta_mem set_sta_mem a fst snd].
    apply map_eq. intros k. destruct (decide (k = p)) as [->|Hk].
    - now rewrite lookup_alter_eq, lookup_insert_eq, Hs.
    - now rewrite lookup_alter_ne, lookup_insert_ne by congruence. }
  destruct (all_flows_idle s') eqn:Hidle.
  - destruct (sta_remove_spec t2 p s' Hs2 Hlen')
      as (t3 & Hrm3 & Hmem3 & Hstas3 & Hwi3 & _ & Hev3 & Haf3).
    rewrite Hrm3. cbn [mbind option_bind snd]. exists t3. split; [reflexivity|].
    split; [now rewrite Haf3, Haf2|]. split; [now rewrite Hev3, Hev2|].
    split; [|split].
    + rewrite Hmem3, Hmem2, Hmem1. apply delete_insert_eq.
    + now rewrite Hstas3, Hstas2.
    + now rewrite Hwi3, Hwi2.
  - exists t2. split; [reflexivity|]. rewrite Haf2, Hev2, Hmem2, Hstas2, Hwi2, Htx2.
    repeat split. exact Hmem1.
Qed.

(** C9: when a flow of a station enters NO_AGREEMENT
    ([morse_twt_enter_state] with that state, as on a teardown or when a
    reject has been delivered), its agreement is unlinked from the
    wake-interval list that held it; that list is deleted when this leaves it
    empty, so no empty list is left behind; the agreements of other stations
    stay linked as they were; and the station record is freed and taken off
    the station list if all its flows are then in NO_AGREEMENT, and kept
    (with only the state of the flow changed) otherwise. *)
Theorem enter_no_agreement_removes (t : morse_twt) (p : nat) (s : morse_twt_sta)
    (event : morse_twt_event) :
  sta_mem t !! p = Some s ->
  length (agreements s) = MAX ->
  (flow_id event < MAX)%nat ->
  NoDup (concat (wake_intervals t)) ->
  NoDup (stas t) ->
  let a := (p, flow_id event) in
  let s' := sta_flow_idle (flow_id event) s in
  exists t',
    morse_twt_enter_state MAX t (Some p) event MORSE_TWT_STATE_NO_AGREEMENT = Some (0, t') /\
    (a ∉ concat (wake_intervals t')) /\
    ([] ∉ wake_intervals t -> [] ∉ wake_intervals t') /\
    (forall q, q.1 <> p ->
       (q ∈ concat (wake_intervals t') <-> q ∈ concat (wake_intervals t))) /\
    (if all_flows_idle s' then
       sta_mem t' = delete p (sta_mem t) /\ stas t' = unlink p (stas t) /\
       (p ∉ stas t') /\
       (forall i, (i < MAX)%nat -> (p, i) ∉ concat (wake_intervals t'))
     else
       sta_mem t' = <[p := s']> (sta_mem t) /\ stas t' = stas t /\
       (forall q, q <> a ->
          (q ∈ concat (wake_intervals t') <-> q ∈ concat (wake_intervals t))) /\
       (forall pre b post, wake_intervals t = pre ++ b :: post -> a ∈ b ->
          wake_intervals t' =
            pre ++ match unlink a b with [] => post | b' => b' :: post end)).
Proof.
  intros Hs Hlen Hflow Hnd Hnds a s'.
  destruct (enter_no_agreement_run t p s event Hs Hlen Hflow) as (t' & Hrun & _ & _ & Hres).
  fold a s' in Hres. exists t'.
  split; [rewrite enter_state_settled_eq by auto; exact Hrun|].
  pose proof (NoDup_wi_unlink a _ Hnd) as Hnd2.
  destruct (all_flows_idle s').
  - destruct Hres as (Hmem & Hstas & Hwi).
    destruct (wi_unlink_flows_spec p MAX 0 _ Hnd2) as (_ & Hne3 & Hin3).
    rewrite <- Hwi in Hne3, Hin3.
    split; [|split; [|split; [|split; [|split; [|split]]]]].
    + rewrite Hin3. intros [_ Hout]. apply Hout. cbn. split; [reflexivity|lia].
    + intros Hne. apply Hne3. now apply wi_unlink_nonempty.
    + intros q Hq. rewrite Hin3, (elem_of_wi_unlink _ _ _ Hnd). split.
      * tauto.
      * intros Hin. split; [split; [assumption|]|]; [intros ->; now apply Hq|tauto].
    + exact Hmem.
    + exact Hstas.
    + rewrite Hstas. rewrite (elem_of_unlink p p (stas t) Hnds). tauto.
    + intros i Hi. rewrite Hin3. intros [_ Hout]. apply Hout. cbn.
      split; [reflexivity|lia].
  - destruct Hres as (Hmem & Hstas & Hwi & _).
    split; [|split; [|split; [|split; [|split; [|split]]]]].
    + rewrite Hwi, (elem_of_wi_unlink _ _ _ Hnd). tauto.
    + intros Hne. rewrite Hwi. now apply wi_unlink_nonempty.
    + intros q Hq. rewrite Hwi, (elem_of_wi_unlink _ _ _ Hnd). split; [tauto|].
      intros Hin. split; [assumption|]. intros ->. now apply Hq.
    + exact Hmem.
    + exact Hstas.
    + intros q Hq. rewrite Hwi, (elem_of_wi_unlink _ _ _ Hnd). tauto.
    + intros pre b post Hw Hab. rewrite Hwi, Hw. apply wi_unlink_at; [assumption|].
      rewrite Hw, concat_app, concat_cons in Hnd. apply NoDup_app in Hnd as (_ & Hdisj & _).
      intros Hpre. apply (Hdisj a Hpre). apply elem_of_app. now left.
Qed.

End StationFacts.

(** *** The wake-interval scheduler *)

(** The lookup loop walks past a list whose first agreement has a smaller
    wake interval. *)
Definition passed_by (t : morse_twt) (wake_interval : Z) (b : list agr_ptr) : Prop :=
  exists x r ax, b = x :: r /\ agr_at t x = Some ax /\
    wake_interval_us (data ax) < wake_interval.

(** The list is the one of the wake interval: its first agreement has it. *)
Definition bucket_of (t : morse_twt) (wake_interval : Z) (b : list agr_ptr) : Prop :=
  exists x r ax, b = x :: r /\ agr_at t x = Some ax /\
    wake_interval_us (data ax) = wake_interval.


Lemma insert_middle {A} (pre : list A) x y post :
  <[length pre := x]> (pre ++ y :: post) = pre ++ x :: post.
Proof. induction pre as [|z pre IH]; cbn; [reflexivity|]. f_equal. exact IH. Qed.

Lemma lookup_middle {A} (pre : list A) y post :
  (pre ++ y :: post) !! length pre = Some y.
Proof. induction pre as [|z pre IH]; cbn; [reflexivity|]. exact IH. Qed.

Lemma wi_get_loop_found t I pre b post :
  Forall (passed_by t I) pre -> bucket_of t I b ->
  wi_get_loop t I (pre ++ b :: post) = Some (Some (length pre, pre ++ b :: post)).
Proof.
  intros Hpre (x & r & ax & -> & Hx & HI). induction Hpre as [|c pre Hc Hpre IH].
  - cbn. rewrite Hx. cbn. rewrite HI, Z.eqb_refl. reflexivity.
  - destruct Hc as (y & ry & ay & -> & Hy & Hlt).
    cbn [app wi_get_loop]. rewrite Hy. cbn [mbind option_bind].
    destruct (Z.eqb_spec (wake_interval_us (data ay)) I) as [|_]; [lia|].
    destruct (Z.gtb_spec (wake_interval_us (data ay)) I) as [|_]; [lia|].
    destruct (pre ++ (x :: r) :: post) as [|c' rest'] eqn:Hrest.
    { destruct pre; discriminate. }
    rewrite IH. reflexivity.
Qed.


Lemma wake_interval_get_found t I pre b post :
  wake_intervals t = pre ++ b :: post ->
  Forall (passed_by t I) pre -> bucket_of t I b ->
  morse_twt_agreement_wake_interval_get t I
    = Some (Some (length pre, set_wake_intervals (pre ++ b :: post) t)).
Proof.
  intros Hw Hpre Hb. unfold morse_twt_agreement_wake_interval_get. rewrite Hw.
  generalize (wi_get_loop_found t I pre b post Hpre Hb).
  destruct (pre ++ b :: post) as [|c l] eqn:E; [destruct pre; discriminate|].
  intros ->. reflexivity.
Qed.


(** No gap between two consecutive service periods of the list takes a
    service period of the given duration (the gaps as the loop computes
    them). *)
Fixpoint no_gap (t : morse_twt) (duration : Z) (b : list agr_ptr) : Prop :=
  match b with
  | x :: (y :: _) as rest =>
      (exists ax ay gap, agr_at t x = Some ax /\ agr_at t y = Some ay /\
         unalloc_dur_us (data ax) (data ay) = Some gap /\ gap < duration) /\
      no_gap t duration rest
  | _ => True
  end.

Lemma wi_place_cons2 t agr duration x y b :
  wi_place t agr duration (x :: y :: b) =
    (p ← agr_at t x;
     pn ← agr_at t y;
     gap ← unalloc_dur_us (data p) (data pn);
     if gap >=? duration then
       Some (Some (u64 (wake_time_us (data p) + wake_duration_us (data p)),
                   x :: agr :: y :: b))
     else
       r ← wi_place t agr duration (y :: b);
       Some (option_map (fun tb => (tb.1, x :: tb.2)) r)).
Proof. reflexivity. Qed.

Lemma wi_place_ext t t' agr duration b :
  sta_mem t' = sta_mem t -> wi_place t' agr duration b = wi_place t agr duration b.
Proof.
  intros Hm. induction b as [|x b IH]; [reflexivity|].
  destruct b as [|y b].
  - cbn. now rewrite (agr_at_ext t t').
  - rewrite !wi_place_cons2, !(agr_at_ext t t'), IH by assumption. reflexivity.
Qed.





Definition considered (a : morse_twt_agreement) : Prop :=
  state a <> MORSE_TWT_STATE_NO_AGREEMENT /\ state a <> MORSE_TWT_STATE_AGREEMENT.

(** The agreement was requested with setup command REQUEST or SUGGEST. *)
Definition request_or_suggest (a : morse_twt_agreement) : Prop :=
  morse_twt_get_command (req_type (params (data a))) = setup_cmd_code TWT_SETUP_CMD_REQUEST \/
  morse_twt_get_command (req_type (params (data a))) = setup_cmd_code TWT_SETUP_CMD_SUGGEST.

Lemma wake_interval_add_run t agr a pre b post c r :
  agr_at t agr = Some a -> considered a -> request_or_suggest a ->
  wake_intervals t = pre ++ b :: post -> b = c :: r ->
  Forall (passed_by t (wake_interval_us (data a))) pre ->
  bucket_of t (wake_interval_us (data a)) b ->
  morse_twt_agreement_wake_interval_add t agr =
    (res ← wi_place (set_wake_intervals (pre ++ b :: post) t) agr
                    (wake_duration_us (data a)) b;
     match res with
     | Some (time, b') =>
         Some (0, set_bucket (length pre) b'
                    (agr_update (retime time) agr (set_wake_intervals (pre ++ b :: post) t)))
     | None => Some (- EBADSLT, set_wake_intervals (pre ++ b :: post) t)
     end).
Proof.
  intros Ha [Hs1 Hs2] Hcmd Hw Hb Hpre Hbucket.
  unfold morse_twt_agreement_wake_interval_add. rewrite Ha. cbn [mbind option_bind].
  rewrite (wake_interval_get_found t _ pre b post Hw Hpre Hbucket).
  cbn [mbind option_bind wake_intervals set_wake_intervals].
  rewrite lookup_middle. cbn [mbind option_bind].
  assert (Hnd : (morse_twt_get_command (req_type (params (data a)))
                 =? setup_cmd_code TWT_SETUP_CMD_DEMAND) = false).
  { apply Z.eqb_neq. destruct Hcmd as [-> | ->]; discriminate. }
  subst b. rewrite Hnd.
  destruct (state a); try contradiction; reflexivity.
Qed.









(** *** The event queue holds one event per peer and flow *)

(** The key under which [morse_twt_queue_event] replaces events. *)
Definition ev_key (e : morse_twt_event) : Z * nat := (ev_addr e, flow_id e).

Definition same_key (e x : morse_twt_event) : bool :=
  (ev_addr x =? ev_addr e) && Nat.eqb (flow_id e) (flow_id x).

Definition one_per_key (q : list morse_twt_event) : Prop := NoDup (ev_key <$> q).

(** The event queue of a virtual interface over its life: empty after
    [morse_twt_init_vif]; events are added by [morse_twt_queue_event] only;
    [morse_twt_handle_event] takes the peeked event off the queue, and
    [morse_twt_event_queue_purge] drops the events of one or of all peers. *)
Inductive events_reachable : list morse_twt_event -> Prop :=
| reach_init : events_reachable []
| reach_queue t e :
    events_reachable (events t) ->
    events_reachable (events (morse_twt_queue_event t e))
| reach_dequeue q1 e q2 :
    events_reachable (q1 ++ e :: q2) ->
    events_reachable (q1 ++ q2)
| reach_purge t a :
    events_reachable (events t) ->
    events_reachable (events (morse_twt_event_queue_purge t a)).

Lemma purge_matches_key e x :
  purge_matches (Some (ev_addr e)) (Some (flow_id e)) x = same_key e x.
Proof. reflexivity. Qed.

Lemma same_key_iff e x : same_key e x = true <-> ev_key x = ev_key e.
Proof.
  unfold same_key, ev_key. rewrite andb_true_iff, Z.eqb_eq, Nat.eqb_eq.
  split; [intros [-> ->]; reflexivity|intros [= -> ->]; auto].
Qed.

Lemma filter_keys_sub (f : morse_twt_event -> bool) q k :
  k ∈ ev_key <$> List.filter f q -> k ∈ ev_key <$> q.
Proof.
  rewrite !list_elem_of_fmap. intros (x & -> & Hx). exists x. split; [reflexivity|].
  apply list_elem_of_In in Hx. apply filter_In in Hx as [Hx _].
  now apply list_elem_of_In.
Qed.

Lemma one_per_key_filter (f : morse_twt_event -> bool) q :
  one_per_key q -> one_per_key (List.filter f q).
Proof.
  unfold one_per_key. induction q as [|x q IH]; simpl; [auto|].
  rewrite NoDup_cons. intros [Hx Hq]. destruct (f x); simpl; [|auto].
  rewrite NoDup_cons. split; [|auto]. intros Hin. apply Hx. now apply filter_keys_sub in Hin.
Qed.

Lemma one_per_key_delete q1 e q2 : one_per_key (q1 ++ e :: q2) -> one_per_key (q1 ++ q2).
Proof.
  unfold one_per_key. rewrite !fmap_app, fmap_cons.
  rewrite !NoDup_app, NoDup_cons. intros (H1 & H2 & _ & H3).
  split; [exact H1|]. split; [|exact H3].
  intros k Hk Hk2. apply (H2 k Hk). now right.
Qed.

Lemma purged_key_absent e q :
  ev_key e ∉ ev_key <$> morse_twt_queue_purge q (Some (ev_addr e)) (Some (flow_id e)).
Proof.
  unfold morse_twt_queue_purge. rewrite list_elem_of_fmap. intros (x & Hk & Hx).
  apply list_elem_of_In, filter_In in Hx as [_ Hx].
  rewrite purge_matches_key in Hx. apply negb_true_iff in Hx.
  symmetry in Hk. apply same_key_iff in Hk. congruence.
Qed.

Lemma one_per_key_queue_event t e :
  one_per_key (events t) -> one_per_key (events (morse_twt_queue_event t e)).
Proof.
  intros H. cbn. unfold one_per_key. rewrite fmap_app. apply NoDup_app.
  split; [|split].
  - unfold morse_twt_queue_purge. now apply one_per_key_filter.
  - intros k Hk Hk'. cbn in Hk'. apply list_elem_of_singleton in Hk'. subst k.
    now apply purged_key_absent in Hk.
  - cbn. apply NoDup_singleton.
Qed.

Lemma events_reachable_one_per_key q : events_reachable q -> one_per_key q.
Proof.
  induction 1 as [|t e _ IH|q1 e q2 _ IH|t a _ IH].
  - apply NoDup_nil_2.
  - now apply one_per_key_queue_event.
  - now apply one_per_key_delete in IH.
  - cbn. unfold morse_twt_queue_purge. destruct a; [|exact IH].
    now apply one_per_key_filter.
Qed.

(** C10: [morse_twt_queue_event] first drops every pending event of the same
    peer address and flow id and then appends the new event, so that the new
    event is the only one of its peer and flow in the queue; an older event
    of that peer and flow that was still waiting is gone without having been
    handled; and no queue that the driver can build holds two events of one
    peer and flow. *)
Theorem queue_event_replaces (t : morse_twt) (e : morse_twt_event) :
  let t' := morse_twt_queue_event t e in
  events t' = List.filter (fun x => negb (same_key e x)) (events t) ++ [e] /\
  List.filter (same_key e) (events t') = [e] /\
  (forall x, x ∈ events t -> same_key e x = true ->
     x ∉ List.filter (fun x => negb (same_key e x)) (events t)) /\
  (forall x, x ∈ events t -> same_key e x = false -> x ∈ events t') /\
  (one_per_key (events t) -> one_per_key (events t')) /\
  (forall q, events_reachable q -> one_per_key q).
Proof.
  intros t'. split; [reflexivity|]. split; [|split; [|split; [|split]]].
  - unfold t', morse_twt_queue_event. cbn [events set_events].
    rewrite List.filter_app. cbn [List.filter].
    assert (Hself : same_key e e = true) by (now apply same_key_iff).
    rewrite Hself.
    assert (Hnone : List.filter (same_key e)
              (morse_twt_queue_purge (events t) (Some (ev_addr e)) (Some (flow_id e))) = []).
    { unfold morse_twt_queue_purge. induction (events t) as [|x q IH]; [reflexivity|].
      cbn [List.filter]. rewrite purge_matches_key.
      destruct (same_key e x) eqn:Hx; cbn [negb]; [exact IH|].
      cbn [List.filter]. now rewrite Hx. }
    now rewrite Hnone.
  - intros x _ Hx Hin. apply list_elem_of_In, filter_In in Hin as [_ Hin].
    rewrite Hx in Hin. discriminate.
  - intros x Hin Hx. cbn. apply elem_of_app. left.
    unfold morse_twt_queue_purge. apply list_elem_of_In, filter_In.
    split; [now apply list_elem_of_In|]. rewrite purge_matches_key, Hx. reflexivity.
  - apply one_per_key_queue_event.
  - apply events_reachable_one_per_key.
Qed.


(** *** Safety of the scheduler and what it leaves alone *)

(** A linked agreement slot is live and its wake interval is not zero. *)
Definition slot_sound (t : morse_twt) (q : agr_ptr) : Prop :=
  exists x, agr_at t q = Some x /\ wake_interval_us (data x) <> 0.

Definition lists_sound (t : morse_twt) : Prop :=
  Forall (Forall (slot_sound t)) (wake_intervals t).

Lemma wi_get_loop_safe t I wis :
  Forall (Forall (slot_sound t)) wis ->
  exists r, wi_get_loop t I wis = Some r /\
    forall i l', r = Some (i, l') ->
      exists b, l' !! i = Some b /\ Forall (slot_sound t) b.
Proof.
  induction 1 as [|wi wis Hwi Hall IH]; cbn [wi_get_loop].
  - exists None. split; [reflexivity|discriminate].
  - destruct wi as [|agr wi0].
    { exists None. split; [reflexivity|discriminate]. }
    pose proof (Forall_inv Hwi) as (a & Ha & _). rewrite Ha. cbn [mbind option_bind].
    destruct (wake_interval_us (data a) =? I).
    { eexists. split; [reflexivity|]. intros i l' [= <- <-]. exists (agr :: wi0). now split. }
    destruct (wake_interval_us (data a) >? I).
    { destruct (can_alloc t).
      - eexists. split; [reflexivity|]. intros i l' [= <- <-]. exists []. now split.
      - exists None. split; [reflexivity|discriminate]. }
    destruct wis as [|wi' wis'].
    { destruct (can_alloc t).
      - eexists. split; [reflexivity|]. intros i l' [= <- <-]. exists []. now split.
      - exists None. split; [reflexivity|discriminate]. }
    destruct IH as (r & Hr & Hspec). rewrite Hr. cbn [mbind option_bind].
    eexists. split; [reflexivity|].
    intros i l' Heq. destruct r as [[i0 l0]|]; [|discriminate].
    cbn in Heq. injection Heq as <- <-. cbn. now apply Hspec.
Qed.

Lemma wake_interval_get_safe t I :
  lists_sound t ->
  exists r, morse_twt_agreement_wake_interval_get t I = Some r /\
    forall i t1, r = Some (i, t1) ->
      exists l', t1 = set_wake_intervals l' t /\
        exists b, l' !! i = Some b /\ Forall (slot_sound t) b.
Proof.
  unfold lists_sound, morse_twt_agreement_wake_interval_get. intros Hs.
  destruct (wake_intervals t) as [|c wis].
  - destruct (can_alloc t).
    + eexists. split; [reflexivity|]. intros i t1 [= <- <-].
      exists [[]]. split; [reflexivity|]. exists []. now split.
    + exists None. split; [reflexivity|discriminate].
  - destruct (wi_get_loop_safe t I (c :: wis) Hs) as (r & Hr & Hspec).
    rewrite Hr. cbn [mbind option_bind]. eexists. split; [reflexivity|].
    intros i t1 Heq. destruct r as [[i0 l0]|]; [|discriminate].
    cbn in Heq. injection Heq as <- <-. exists l0. split; [reflexivity|]. now apply Hspec.
Qed.

Lemma wi_place_safe t agr duration b :
  Forall (slot_sound t) b -> is_Some (wi_place t agr duration b).
Proof.
  induction 1 as [|x b (ax & Hx & Hix) Hall IH]; [now eexists|].
  destruct b as [|y b].
  - cbn. rewrite Hx. now eexists.
  - rewrite wi_place_cons2, Hx. cbn [mbind option_bind].
    pose proof (Forall_inv Hall) as (ay & Hy & Hiy). rewrite Hy. cbn [mbind option_bind].
    unfold unalloc_dur_us, div64_u64_rem.
    rewrite (proj2 (Z.eqb_neq _ _) Hix), (proj2 (Z.eqb_neq _ _) Hiy).
    cbn [mbind option_bind]. destruct (_ >=? duration); [now eexists|].
    destruct IH as [r Hr]. rewrite Hr. now eexists.
Qed.

Lemma wake_interval_add_safe t agr :
  is_Some (agr_at t agr) -> lists_sound t ->
  is_Some (morse_twt_agreement_wake_interval_add t agr).
Proof.
  intros [a Ha] Hs. unfold morse_twt_agreement_wake_interval_add.
  rewrite Ha. cbn [mbind option_bind].
  destruct (wake_interval_get_safe t (wake_interval_us (data a)) Hs) as (r & Hr & Hspec).
  assert (Hgoal : is_Some
    (r ← morse_twt_agreement_wake_interval_get t (wake_interval_us (data a));
     match r with
     | Some (i, t0) =>
         b ← wake_intervals t0 !! i;
         match b with
         | [] => Some (0, set_bucket i [agr] (agr_update (retime 0) agr t0))
         | _ :: _ =>
             if morse_twt_get_command (req_type (params (data a)))
                =? setup_cmd_code TWT_SETUP_CMD_DEMAND
             then Some (0, set_bucket i (b ++ [agr]) t0)
             else
               r0 ← wi_place t0 agr (wake_duration_us (data a)) b;
               match r0 with
               | Some (time, b') =>
                   Some (0, set_bucket i b' (agr_update (retime time) agr t0))
               | None => Some (- EBADSLT, t0)
               end
         end
     | None => Some (- EINVAL, t)
     end)).
  { rewrite Hr. cbn [mbind option_bind]. destruct r as [[i t1]|]; [|now eexists].
    destruct (Hspec i t1 eq_refl) as (l' & -> & b & Hb & Hsound).
    cbn [wake_intervals set_wake_intervals]. rewrite Hb. cbn [mbind option_bind].
    destruct b as [|c b]; [now eexists|].
    destruct (_ =? _); [now eexists|].
    destruct (wi_place_safe (set_wake_intervals l' t) agr (wake_duration_us (data a))
                (c :: b)) as [r0 Hr0].
    { eapply Forall_impl; [exact Hsound|]. intros q (x & Hq & Hi). exists x. now split. }
    rewrite Hr0. cbn [mbind option_bind]. destruct r0 as [[time b']|]; now eexists. }
  destruct (state a); first [now eexists | exact Hgoal].
Qed.

Lemma lists_sound_update g a t :
  a ∉ concat (wake_intervals t) -> lists_sound t -> lists_sound (agr_update g a t).
Proof.
  unfold lists_sound. cbn [wake_intervals agr_update set_sta_mem].
  induction (wake_intervals t) as [|b wis IH]; cbn [concat]; [constructor|].
  rewrite not_elem_of_app. intros [Hb Hw] Hall.
  apply Forall_cons in Hall as [Hsb Hall]. constructor; [|now apply IH].
  clear IH Hall Hw. induction Hsb as [|q b (x & Hq & Hi) Hsb IH]; [constructor|].
  apply not_elem_of_cons in Hb as [Hne Hb]. constructor; [|now apply IH].
  exists x. split; [|exact Hi]. rewrite agr_at_update_ne by auto. exact Hq.
Qed.

(** *** What a step does to the station of the flow *)

(** The record keeps its identity and the state of flow [f]. *)
Definition sta_like (f : nat) (s s' : morse_twt_sta) : Prop :=
  addr s' = addr s /\ dialog_token s' = dialog_token s /\
  action_is_pending s' = action_is_pending s /\
  length (agreements s') = length (agreements s) /\
  (forall x, agreements s !! f = Some x ->
     exists x', agreements s' !! f = Some x' /\ state x' = state x).

(** The step touches the wake-interval lists and slot [f] of station [p]
    only, and keeps the state of that slot. *)
Definition slot_step (p f : nat) (t t' : morse_twt) : Prop :=
  stas t' = stas t /\ tx t' = tx t /\ action_frames t' = action_frames t /\
  (forall q, q <> p -> sta_mem t' !! q = sta_mem t !! q) /\
  (forall s, sta_mem t !! p = Some s ->
     exists s', sta_mem t' !! p = Some s' /\ sta_like f s s').

Lemma sta_like_refl f s : sta_like f s s.
Proof. repeat split. eauto. Qed.

Lemma sta_like_trans f s1 s2 s3 : sta_like f s1 s2 -> sta_like f s2 s3 -> sta_like f s1 s3.
Proof.
  intros (A1 & A2 & A3 & A4 & A5) (B1 & B2 & B3 & B4 & B5).
  repeat split; try congruence.
  intros x Hx. destruct (A5 x Hx) as (x' & Hx' & Hs').
  destruct (B5 x' Hx') as (x'' & Hx'' & Hs''). exists x''. split; [assumption|congruence].
Qed.

Lemma slot_step_refl p f t : slot_step p f t t.
Proof. repeat split. intros s Hs. exists s. split; [assumption|apply sta_like_refl]. Qed.

Lemma slot_step_trans p f t1 t2 t3 :
  slot_step p f t1 t2 -> slot_step p f t2 t3 -> slot_step p f t1 t3.
Proof.
  intros (A1 & A2 & A3 & A4 & A5) (B1 & B2 & B3 & B4 & B5).
  split; [congruence|]. split; [congruence|]. split; [congruence|]. split.
  - intros q Hq. rewrite B4, A4 by assumption. reflexivity.
  - intros s Hs. destruct (A5 s Hs) as (s' & Hs' & Hl).
    destruct (B5 s' Hs') as (s'' & Hs'' & Hl'). exists s''. split; [assumption|].
    eapply sta_like_trans; eassumption.
Qed.

Lemma slot_step_ext p f t t' :
  sta_mem t' = sta_mem t -> stas t' = stas t -> tx t' = tx t ->
  action_frames t' = action_frames t -> slot_step p f t t'.
Proof.
  intros Hm H1 H2 H3. split; [assumption|]. split; [assumption|]. split; [assumption|].
  rewrite Hm. split; [reflexivity|]. intros s Hs. exists s. split; [assumption|].
  apply sta_like_refl.
Qed.

Lemma slot_step_update p f g t :
  (forall x, state (g x) = state x) -> slot_step p f t (agr_update g (p, f) t).
Proof.
  intros Hg. split; [reflexivity|]. split; [reflexivity|]. split; [reflexivity|].
  unfold agr_update. cbn [sta_mem set_sta_mem fst snd]. split.
  - intros q Hq. now rewrite lookup_alter_ne.
  - intros s Hs. rewrite lookup_alter_eq, Hs. eexists. split; [reflexivity|].
    split; [reflexivity|]. split; [reflexivity|]. split; [reflexivity|].
    cbn. split; [apply length_alter|].
    intros x Hx. rewrite list_lookup_alter_eq, Hx. eexists. split; [reflexivity|apply Hg].
Qed.

Lemma wake_interval_get_shape t I i t1 :
  morse_twt_agreement_wake_interval_get t I = Some (Some (i, t1)) ->
  exists l', t1 = set_wake_intervals l' t.
Proof.
  unfold morse_twt_agreement_wake_interval_get.
  destruct (wake_intervals t) as [|c wis].
  - destruct (can_alloc t); [|discriminate]. intros [= <- <-]. eauto.
  - destruct (wi_get_loop t I (c :: wis)) as [[[i0 l0]|]|]; cbn; try discriminate.
    intros [= <- <-]. eauto.
Qed.

Lemma wake_interval_add_slot_step p f t r t' :
  morse_twt_agreement_wake_interval_add t (p, f) = Some (r, t') -> slot_step p f t t'.
Proof.
  unfold morse_twt_agreement_wake_interval_add.
  destruct (agr_at t (p, f)) as [a|]; cbn [mbind option_bind]; [|discriminate].
  assert (Hsame : Some (- EINVAL, t) = Some (r, t') -> slot_step p f t t').
  { intros [= _ <-]. apply slot_step_refl. }
  assert (Hretime : forall time i b l',
    slot_step p f t (set_bucket i b (agr_update (retime time) (p, f) (set_wake_intervals l' t)))).
  { intros time i b l'. eapply slot_step_trans.
    - apply (slot_step_update p f (retime time)). reflexivity.
    - apply slot_step_ext; reflexivity. }
  destruct (state a); try exact Hsame;
    (destruct (morse_twt_agreement_wake_interval_get t (wake_interval_us (data a)))
       as [[[i t1]|]|] eqn:Hget; cbn [mbind option_bind]; [|exact Hsame|discriminate];
     apply wake_interval_get_shape in Hget as [l' ->];
     destruct (wake_intervals (set_wake_intervals l' t) !! i) as [[|c b]|];
       cbn [mbind option_bind];
       [intros [= _ <-]; apply Hretime| |discriminate];
     destruct (_ =? _); [intros [= _ <-]; apply slot_step_ext; reflexivity|];
     destruct (wi_place _ _ _ _) as [[[time b']|]|]; cbn [mbind option_bind];
       [intros [= _ <-]; apply Hretime
       |intros [= _ <-]; apply slot_step_ext; reflexivity
       |discriminate]).
Qed.

Lemma get_sta_loop_ext (m m' : gmap nat morse_twt_sta) l a :
  (forall q, addr <$> m' !! q = addr <$> m !! q) ->
  get_sta_loop m' l a = get_sta_loop m l a.
Proof.
  intros Hext. induction l as [|p l IH]; [reflexivity|]. cbn.
  specialize (Hext p). destruct (m' !! p) as [s'|], (m !! p) as [s|]; cbn in *;
    try discriminate; [|reflexivity].
  injection Hext as ->. now rewrite IH.
Qed.

Lemma slot_step_get_sta p f t t' s a :
  sta_mem t !! p = Some s -> slot_step p f t t' ->
  morse_twt_get_sta t' a = morse_twt_get_sta t a.
Proof.
  intros Hs (Hstas & _ & _ & Hother & Hp). unfold morse_twt_get_sta. rewrite Hstas.
  apply get_sta_loop_ext. intros q. destruct (decide (q = p)) as [->|Hq].
  - destruct (Hp s Hs) as (s' & Hs' & Hl & _). rewrite Hs', Hs. cbn. now rewrite Hl.
  - now rewrite Hother.
Qed.

Lemma agr_update_get_sta g a t ad :
  morse_twt_get_sta (agr_update g a t) ad = morse_twt_get_sta t ad.
Proof.
  unfold morse_twt_get_sta, agr_update. cbn [sta_mem stas set_sta_mem].
  apply get_sta_loop_ext. intros q. destruct (decide (q = a.1)) as [->|Hq].
  - rewrite lookup_alter_eq. now destruct (sta_mem t !! a.1).
  - now rewrite lookup_alter_ne.
Qed.

(** *** The state machine from NO_AGREEMENT *)

(** The state of a flow of a peer; a peer without a station record has no
    agreement. *)
Definition flow_state (t : morse_twt) (p f : nat) : morse_twt_state :=
  match agr_at t (p, f) with
  | Some x => state x
  | None => MORSE_TWT_STATE_NO_AGREEMENT
  end.

(** *** The request type field *)

Lemma testbit_small c n : 0 <= c -> Z.log2 c < n -> Z.testbit c n = false.
Proof. intros. now apply Z.bits_above_log2. Qed.

(** A bit field of width [w] at offset [k]: masking and shifting down
    gives the field as a number below [2^w]. *)
Lemma field_extract r k w :
  0 <= k -> 0 <= w ->
  Z.shiftr (Z.land r (Z.shiftl (Z.ones w) k)) k = Z.shiftr r k mod 2 ^ w.
Proof.
  intros Hk Hw. rewrite <- Z.land_ones by lia.
  apply Z.bits_inj'. intros n Hn.
  rewrite Z.shiftr_spec, !Z.land_spec, Z.shiftr_spec, Z.shiftl_spec by lia.
  now rewrite Z.add_simpl_r.
Qed.

(** Bit [n] of the request type written by [morse_twt_set_command]. *)
Lemma set_command_testbit r cmd n :
  0 <= n ->
  Z.testbit (morse_twt_set_command r cmd) n =
    if n =? 0 then morse_twt_cmd_is_req cmd
    else if n <? 4 then Z.testbit (setup_cmd_code cmd) (n - 1)
    else (n <? 16) && Z.testbit r n.
Proof.
  intros Hn. unfold morse_twt_set_command. cbv zeta.
  assert (Hc : 0 <= setup_cmd_code cmd < 8) by (destruct cmd; cbn; lia).
  assert (Hreq : morse_twt_cmd_is_req cmd = negb (Z.testbit (setup_cmd_code cmd) 2))
    by (destruct cmd; reflexivity).
  rewrite Cmd.testbit_u16, Z.lor_spec, Z.shiftl_spec by lia.
  unfold IEEE80211_TWT_REQTYPE_SETUP_CMD_OFFSET, IEEE80211_TWT_REQTYPE_SETUP_CMD,
    IEEE80211_TWT_REQTYPE_REQUEST. change (BIT 0) with 1.
  assert (H14 : Z.testbit 14 n = (0 <? n) && (n <? 4)).
  { destruct (Z.eq_dec n 0) as [->|]; [reflexivity|].
    destruct (Z.eq_dec n 1) as [->|]; [reflexivity|].
    destruct (Z.eq_dec n 2) as [->|]; [reflexivity|].
    destruct (Z.eq_dec n 3) as [->|]; [reflexivity|].
    rewrite testbit_small by (change (Z.log2 14) with 3; lia).
    destruct (Z.ltb_spec 0 n), (Z.ltb_spec n 4); try lia; reflexivity. }
  assert (H1 : Z.testbit 1 n = (n =? 0)).
  { destruct (Z.eq_dec n 0) as [->|]; [reflexivity|].
    rewrite testbit_small by (change (Z.log2 1) with 0; lia).
    symmetry. apply Z.eqb_neq. lia. }
  assert (Hcode : 3 < n -> Z.testbit (setup_cmd_code cmd) (n - 1) = false).
  { intros H3. apply testbit_small; [lia|].
    destruct (Z.eq_dec (setup_cmd_code cmd) 0) as [->|]; [cbn; lia|].
    assert (Z.log2 (setup_cmd_code cmd) < 3) by (apply Z.log2_lt_pow2; lia). lia. }
  assert (Hr1 : Z.testbit (u16 (Z.land r (Z.lnot 14))) n
                = (n <? 16) && Z.testbit r n && negb ((0 <? n) && (n <? 4))).
  { rewrite Cmd.testbit_u16, Z.land_spec, Z.lnot_spec, H14 by lia.
    now rewrite andb_assoc. }
  assert (Hcm : n = 0 \/ 3 < n -> Z.testbit (setup_cmd_code cmd) (n - 1) = false).
  { intros [->|H3]; [now rewrite Z.testbit_neg_r by lia|now apply Hcode]. }
  destruct (morse_twt_cmd_is_req cmd) eqn:Hq.
  - rewrite Cmd.testbit_u16, Z.lor_spec, Hr1, H1 by lia.
    destruct (Z.eqb_spec n 0), (Z.ltb_spec n 4), (Z.ltb_spec 0 n), (Z.ltb_spec n 16);
      try lia; rewrite ?Hcm by lia; cbn;
      destruct (Z.testbit r n), (Z.testbit (setup_cmd_code cmd) (n - 1)); reflexivity.
  - rewrite Cmd.testbit_u16, Z.land_spec, Z.lnot_spec, Hr1, H1 by lia.
    destruct (Z.eqb_spec n 0), (Z.ltb_spec n 4), (Z.ltb_spec 0 n), (Z.ltb_spec n 16);
      try lia; rewrite ?Hcm by lia; cbn;
      destruct (Z.testbit r n), (Z.testbit (setup_cmd_code cmd) (n - 1)); reflexivity.
Qed.

Lemma get_command_testbit r n :
  0 <= n -> Z.testbit (morse_twt_get_command r) n = (n <? 3) && Z.testbit r (n + 1).
Proof.
  intros Hn. unfold morse_twt_get_command, IEEE80211_TWT_REQTYPE_SETUP_CMD,
    IEEE80211_TWT_REQTYPE_SETUP_CMD_OFFSET.
  rewrite Z.shiftr_spec, Z.land_spec by lia.
  destruct (Z.eq_dec n 0) as [->|]; [cbn; now rewrite andb_true_r|].
  destruct (Z.eq_dec n 1) as [->|]; [cbn; now rewrite andb_true_r|].
  destruct (Z.eq_dec n 2) as [->|]; [cbn; now rewrite andb_true_r|].
  rewrite (testbit_small 14) by (change (Z.log2 14) with 3; lia).
  destruct (Z.ltb_spec n 3); [lia|]. now rewrite andb_false_r.
Qed.

Lemma get_command_set_command r cmd :
  morse_twt_get_command (morse_twt_set_command r cmd) = setup_cmd_code cmd.
Proof.
  apply Z.bits_inj'. intros n Hn.
  rewrite get_command_testbit, set_command_testbit by lia.
  destruct (Z.eqb_spec (n + 1) 0); [lia|]. rewrite Z.add_simpl_r.
  destruct (Z.ltb_spec n 3).
  - destruct (Z.ltb_spec (n + 1) 4); [reflexivity|lia].
  - symmetry. apply testbit_small; [destruct cmd; cbn; lia|].
    destruct cmd; cbn; lia.
Qed.

Section MachineFacts.
Variable MAX : nat.

Lemma agr_at_lookup t p f s x :
  sta_mem t !! p = Some s -> agreements s !! f = Some x -> agr_at t (p, f) = Some x.
Proof. intros Hs Hx. unfold agr_at. cbn. rewrite Hs. exact Hx. Qed.

Lemma enter_agreement_run t p s x event d :
  sta_mem t !! p = Some s -> agreements s !! flow_id event = Some x ->
  (flow_id event < MAX)%nat -> setup_agr_data event = Some d ->
  exists t',
    enter_state_settled MAX t (Some p) event MORSE_TWT_STATE_AGREEMENT = Some (0, t') /\
    agr_at t' (p, flow_id event) = Some (Agr MORSE_TWT_STATE_AGREEMENT d) /\
    action_frames t' = action_frames t /\ tx t' = tx t.
Proof.
  intros Hs Hx Hf Hd. pose proof (agr_at_lookup t p _ s x Hs Hx) as Ha.
  unfold enter_state_settled, enter_state_with. rewrite Ha. cbn [mbind option_bind].
  unfold morse_twt_sta_agreement_add. rewrite Hd.
  destruct (Nat.leb_spec MAX (flow_id event)) as [|_]; [lia|].
  rewrite (agr_at_update_eq _ _ _ _ Ha). cbn [mbind option_bind snd].
  eexists. split; [reflexivity|]. split; [|split; reflexivity].
  rewrite (agr_at_update_eq _ _ _ (set_state MORSE_TWT_STATE_AGREEMENT x));
    [reflexivity|now apply agr_at_update_eq].
Qed.

(** The response built from a request: same peer and flow, with agreement
    data. *)
Definition response_to (event resp : morse_twt_event)
    (c : ieee80211_twt_setup_cmd) : Prop :=
  setup_cmd resp = c /\ ev_addr resp = ev_addr event /\ flow_id resp = flow_id event /\
  type resp = type event /\
  exists d, setup_agr_data resp = Some d /\
    morse_twt_get_command (req_type (params d)) = setup_cmd_code c.

(** The agreement data [morse_twt_send_accept] leaves in the slot carries
    the ACCEPT command. *)
Lemma accept_command_pinned t t2 p f s x s3 x3 :
  slot_step p f t t2 -> sta_mem t !! p = Some s -> agreements s !! f = Some x ->
  sta_mem (agr_update
             (fun x0 : morse_twt_agreement =>
                set_data (data_update_params
                            (data_set_command TWT_SETUP_CMD_ACCEPT (data x0))) x0)
             (p, f) t2) !! p = Some s3 ->
  agreements s3 !! f = Some x3 ->
  morse_twt_get_command (req_type (params (data x3))) = setup_cmd_code TWT_SETUP_CMD_ACCEPT.
Proof.
  intros (_ & _ & _ & _ & Hp2) Hs Hx Hs3 Hx3.
  destruct (Hp2 s Hs) as (s2 & Hs2 & _ & _ & _ & _ & Hslot2).
  destruct (Hslot2 x Hx) as (x2 & Hx2 & _).
  pose proof (agr_at_lookup t2 p f s2 x2 Hs2 Hx2) as Ha2.
  pose proof (agr_at_lookup _ p f s3 x3 Hs3 Hx3) as Ha3.
  rewrite (agr_at_update_eq _ _ _ _ Ha2) in Ha3. injection Ha3 as <-.
  cbn. apply get_command_set_command.
Qed.

Lemma send_accept_run t p s x event d :
  sta_mem t !! p = Some s -> length (agreements s) = MAX ->
  agreements s !! flow_id event = Some x -> setup_agr_data event = Some d ->
  lists_sound t -> (p, flow_id event) ∉ concat (wake_intervals t) ->
  exists t' resp,
    morse_twt_send_accept MAX t (Some p) event = Some (0, t') /\
    response_to event resp TWT_SETUP_CMD_ACCEPT /\
    (if action_is_pending s then
       action_frames t' =
         action_frames t ++ [ActionFrame resp (addr s) (dialog_token s) true] /\
       tx t' = tx t /\
       flow_state t' p (flow_id event) = MORSE_TWT_STATE_AGREEMENT
     else
       exists t3, slot_step p (flow_id event) t t3 /\ t' = set_tx (tx t ++ [resp]) t3).
Proof.
  intros Hs Hlen Hx Hd Hsound Hunl.
  pose proof (agr_at_lookup t p _ s x Hs Hx) as Ha.
  assert (Hf : (flow_id event < MAX)%nat).
  { rewrite <- Hlen. eapply lookup_lt_Some; eassumption. }
  unfold morse_twt_send_accept, send_accept_with. rewrite Hd, Ha. cbn [mbind option_bind].
  set (f := flow_id event) in *.
  set (t1 := agr_update (set_data d) (p, f) t).
  assert (Hst1 : slot_step p f t t1) by (apply slot_step_update; reflexivity).
  destruct (wake_interval_add_safe t1 (p, f)) as [[r t2] Hadd].
  { unfold t1. rewrite (agr_at_update_eq _ _ _ _ Ha). now eexists. }
  { unfold t1. now apply lists_sound_update. }
  rewrite Hadd. cbn [mbind option_bind snd].
  pose proof (wake_interval_add_slot_step p f t1 r t2 Hadd) as Hst2.
  set (G := fun x0 : morse_twt_agreement =>
              set_data (data_update_params (data_set_command TWT_SETUP_CMD_ACCEPT (data x0))) x0).
  set (t3 := agr_update G (p, f) t2).
  assert (Hst3 : slot_step p f t t3).
  { eapply slot_step_trans; [exact Hst1|]. eapply slot_step_trans; [exact Hst2|].
    apply slot_step_update. reflexivity. }
  destruct Hst3 as (Hstas3 & Htx3 & Haf3 & Hother3 & Hp3).
  destruct (Hp3 s Hs) as (s3 & Hs3 & Hid3 & Hdt3 & Hap3 & Hlen3 & Hslot3).
  destruct (Hslot3 x Hx) as (x3 & Hx3 & Hstate3).
  rewrite (agr_at_lookup t3 p f s3 x3 Hs3 Hx3). cbn [mbind option_bind].
  set (resp := set_setup_agr_data (Some (data x3))
                 (set_setup_cmd TWT_SETUP_CMD_ACCEPT event)).
  assert (Hresp : response_to event resp TWT_SETUP_CMD_ACCEPT).
  { repeat split. exists (data x3). split; [reflexivity|].
    eapply (accept_command_pinned t t2 p f s x s3 x3); try eassumption.
    eapply slot_step_trans; eassumption. }
  unfold send_response. rewrite Hs3. cbn [mbind option_bind]. rewrite Hap3.
  destruct (action_is_pending s) eqn:Hpend.
  - set (t5 := set_sta_mem _ _).
    destruct (enter_agreement_run t5 p (set_action_is_pending false s3) x3 resp (data x3))
      as (t6 & Hrun & Hagr & Haf6 & Htx6).
    { unfold t5. cbn [sta_mem set_sta_mem]. apply lookup_insert_eq. }
    { exact Hx3. }
    { exact Hf. }
    { reflexivity. }
    rewrite Hrun. cbn [mbind option_bind snd]. exists t6, resp.
    split; [reflexivity|]. split; [exact Hresp|].
    split; [|split].
    + rewrite Haf6. unfold t5. cbn [action_frames set_sta_mem push_action_frame].
      now rewrite Haf3, Hid3, Hdt3.
    + rewrite Htx6. exact Htx3.
    + unfold flow_state. change (flow_id resp) with f in Hagr. now rewrite Hagr.
  - exists (set_tx (tx t3 ++ [resp]) t3), resp.
    split; [reflexivity|]. split; [exact Hresp|].
    exists t3. split; [|now rewrite Htx3].
    repeat split; assumption.
Qed.

Lemma send_reject_run t p s x event d :
  sta_mem t !! p = Some s -> length (agreements s) = MAX ->
  agreements s !! flow_id event = Some x -> setup_agr_data event = Some d ->
  exists t' resp,
    morse_twt_send_reject MAX t (Some p) event = Some (0, t') /\
    response_to event resp TWT_SETUP_CMD_REJECT /\
    (if action_is_pending s then
       action_frames t' =
         action_frames t ++ [ActionFrame resp (addr s) (dialog_token s) true] /\
       flow_state t' p (flow_id event) = MORSE_TWT_STATE_NO_AGREEMENT
     else t' = set_tx (tx t ++ [resp]) t).
Proof.
  intros Hs Hlen Hx Hd.
  assert (Hf : (flow_id event < MAX)%nat).
  { rewrite <- Hlen. eapply lookup_lt_Some; eassumption. }
  unfold morse_twt_send_reject, send_reject_with.
  cbn [setup_agr_data set_setup_cmd]. rewrite Hd. cbn [mbind option_bind].
  set (resp := set_setup_agr_data _ _).
  assert (Hresp : response_to event resp TWT_SETUP_CMD_REJECT).
  { repeat split. eexists. split; [reflexivity|]. cbn. apply get_command_set_command. }
  unfold send_response. rewrite Hs. cbn [mbind option_bind].
  destruct (action_is_pending s) eqn:Hpend.
  - set (t5 := set_sta_mem _ _).
    destruct (enter_no_agreement_run MAX t5 p (set_action_is_pending false s) resp)
      as (t6 & Hrun & Haf6 & _ & Hres).
    { unfold t5. cbn [sta_mem set_sta_mem]. apply lookup_insert_eq. }
    { exact Hlen. }
    { exact Hf. }
    rewrite Hrun. cbn [mbind option_bind snd]. exists t6, resp.
    split; [reflexivity|]. split; [exact Hresp|]. split.
    + rewrite Haf6. reflexivity.
    + unfold flow_state, agr_at. cbn [fst snd].
      destruct (all_flows_idle _).
      * destruct Hres as (-> & _). now rewrite lookup_delete_eq.
      * destruct Hres as (-> & _). rewrite lookup_insert_eq. cbn.
        change (flow_id resp) with (flow_id event).
        rewrite list_lookup_alter_eq, Hx. reflexivity.
  - exists (set_tx (tx t ++ [resp]) t), resp.
    split; [reflexivity|]. split; [exact Hresp|reflexivity].
Qed.


Section FromNoAgreement.
Variables (t : morse_twt) (p : nat) (s : morse_twt_sta) (a0 : morse_twt_agreement)
          (event : morse_twt_event) (d : morse_twt_agreement_data).
Hypothesis Hs : sta_mem t !! p = Some s.
Hypothesis Hlen : length (agreements s) = MAX.
Hypothesis Ha0 : agreements s !! flow_id event = Some a0.
Hypothesis Hget : morse_twt_get_sta t (ev_addr event) = Some (Some p).
Hypothesis Hd : setup_agr_data event = Some d.

Let f := flow_id event.

Lemma flow_in_range : (f < MAX)%nat.
Proof. rewrite <- Hlen. eapply lookup_lt_Some; exact Ha0. Qed.

Lemma considered_sta st :
  let t0 := agr_update (set_state st) (p, f) t in
  let s0 := set_agreements (alter (set_state st) f (agreements s)) s in
  sta_mem t0 !! p = Some s0 /\ length (agreements s0) = MAX /\
  agreements s0 !! f = Some (set_state st a0).
Proof.
  cbn zeta. unfold agr_update. cbn [sta_mem set_sta_mem fst snd].
  rewrite lookup_alter_eq, Hs. split; [reflexivity|]. cbn [agreements set_agreements].
  split; [now rewrite length_alter|]. unfold f. now rewrite list_lookup_alter_eq, Ha0.
Qed.

End FromNoAgreement.

End MachineFacts.


(** *** The engine run on concrete inputs *)

Definition MAX_FLOWS : nat := 8.

Definition no_params : ieee80211_twt_params := TwtParams 0 0 0 0 0.

(** Agreement data of a peer asking with setup command [cmd] for a wake
    interval of 100000 us ([50000 * 2^1]) and the given wake duration: an
    implicit, announced agreement, the request bit set when the command is a
    requester's. *)
Definition sample_req_type (cmd : ieee80211_twt_setup_cmd) : Z :=
  Z.lor (if morse_twt_cmd_is_req cmd then 1 else 0)
    (Z.lor (Z.shiftl (setup_cmd_code cmd) 1) (Z.lor (BIT 5) (Z.shiftl 1 10))).

Definition sample_data (cmd : ieee80211_twt_setup_cmd) (time duration : Z)
  : morse_twt_agreement_data :=
  AgrData 0 (TwtParams (sample_req_type cmd) time (duration / 256) 50000 0)
          time 100000 duration.

Definition idle_agr : morse_twt_agreement :=
  Agr MORSE_TWT_STATE_NO_AGREEMENT (AgrData 0 no_params 0 0 0).

(** A station record with all flows in NO_AGREEMENT. *)
Definition idle_sta (a : Z) : morse_twt_sta := Sta a 0 false (replicate MAX_FLOWS idle_agr).

(** A responder (access point) that knows the peers 0xa1 and 0xb2, records at
    addresses 1 and 2, and has no agreement yet. *)
Definition fresh_twt : morse_twt :=
  Twt true NL80211_IFTYPE_AP {[ 1%nat := idle_sta 0xa1; 2%nat := idle_sta 0xb2 ]}
      [1%nat; 2%nat] [] [] [] [] 0 [].

(** SETUP(REQUEST, flow 2, interval 100000 us, duration 8000 us) from 0xa1. *)
Definition request_event : morse_twt_event :=
  Event MORSE_TWT_EVENT_SETUP 0xa1 2 TWT_SETUP_CMD_REQUEST
        (Some (sample_data TWT_SETUP_CMD_REQUEST 0 8000)) false.

Example fresh_lookup : sta_mem fresh_twt !! 1%nat = Some (idle_sta 0xa1).
Proof. vm_compute. reflexivity. Qed.

(** Peer 0xa1 holds two agreements of 50000 us each on flows 0 and 1, which
    fill the wake interval of 100000 us; the request of peer 0xb2 for 8000 us
    in the same wake interval is being considered. *)
Definition booked_sta : morse_twt_sta :=
  Sta 0xa1 0 false
      (Agr MORSE_TWT_STATE_AGREEMENT (sample_data TWT_SETUP_CMD_ACCEPT 0 50000)
       :: Agr MORSE_TWT_STATE_AGREEMENT (sample_data TWT_SETUP_CMD_ACCEPT 50000 50000)
       :: replicate 6 idle_agr).

Definition asking_sta (duration : Z) : morse_twt_sta :=
  Sta 0xb2 0 false
      (Agr MORSE_TWT_STATE_CONSIDER_REQUEST (sample_data TWT_SETUP_CMD_REQUEST 0 duration)
       :: replicate 7 idle_agr).

Definition booked_twt : morse_twt :=
  Twt true NL80211_IFTYPE_AP {[ 1%nat := booked_sta; 2%nat := asking_sta 8000 ]}
      [1%nat; 2%nat] [[(1%nat, 0%nat); (1%nat, 1%nat)]] [] [] [] 0 [].



Lemma asking_considered (duration : Z) :
  considered (Agr MORSE_TWT_STATE_CONSIDER_REQUEST
                  (sample_data TWT_SETUP_CMD_REQUEST 0 duration)).
Proof. split; discriminate. Defined.

Lemma asking_request (duration : Z) :
  request_or_suggest (Agr MORSE_TWT_STATE_CONSIDER_REQUEST
                          (sample_data TWT_SETUP_CMD_REQUEST 0 duration)).
Proof. left. reflexivity. Defined.










(** Peer 0xa1 holds its only agreement on flow 2, alone in its wake-interval
    list; a teardown for flow 2 arrives. *)
Definition lone_sta : morse_twt_sta :=
  Sta 0xa1 0 false
      (<[2%nat := Agr MORSE_TWT_STATE_AGREEMENT (sample_data TWT_SETUP_CMD_ACCEPT 0 8000)]>
         (replicate MAX_FLOWS idle_agr)).

Definition lone_twt : morse_twt :=
  Twt true NL80211_IFTYPE_AP {[ 1%nat := lone_sta ]} [1%nat] [[(1%nat, 2%nat)]] [] [] [] 0 [].

Definition teardown_event : morse_twt_event :=
  Event MORSE_TWT_EVENT_TEARDOWN 0xa1 2 TWT_SETUP_CMD_REQUEST None true.

Lemma enter_no_agreement_removes_witness :
  exists t',
    morse_twt_enter_state MAX_FLOWS lone_twt (Some 1%nat) teardown_event
      MORSE_TWT_STATE_NO_AGREEMENT = Some (0, t') /\
    ((1%nat, 2%nat) ∉ concat (wake_intervals t')) /\
    ([] ∉ wake_intervals t') /\
    sta_mem t' = ∅ /\ stas t' = [].
Proof.
  assert (Hnd : NoDup (concat (wake_intervals lone_twt))).
  { apply NoDup_singleton. }
  assert (Hnds : NoDup (stas lone_twt)).
  { apply NoDup_singleton. }
  assert (Hf : (flow_id teardown_event < MAX_FLOWS)%nat).
  { unfold MAX_FLOWS. cbn. lia. }
  destruct (enter_no_agreement_removes MAX_FLOWS lone_twt 1%nat lone_sta teardown_event
              eq_refl eq_refl Hf Hnd Hnds)
    as (t' & Hrun & Hgone & Hne & _ & Hsta).
  cbn in Hsta. destruct Hsta as (Hmem & Hstas & _).
  exists t'. split; [exact Hrun|]. split; [exact Hgone|]. split.
  - apply Hne. cbn. rewrite list_elem_of_singleton. discriminate.
  - split; [rewrite Hmem; apply delete_singleton_eq|exact Hstas].
Defined.


(** *** The TWT element ([morse_twt_parse_ie], [morse_twt_validate_params]) *)

Definition TWT_IE_MIN_LENGTH : Z := 10.
Definition TWT_IE_MAX_LENGTH : Z := 20.
Definition IEEE80211_TWT_CONTROL_NDP : Z := BIT 0.
Definition IEEE80211_TWT_CONTROL_NEG_TYPE_BROADCAST : Z := BIT 3.
Definition IEEE80211_TWT_REQTYPE_IMPLICIT : Z := BIT 5.
Definition IEEE80211_TWT_REQTYPE_FLOWTYPE : Z := BIT 6.
Definition IEEE80211_TWT_REQTYPE_FLOWID : Z := 0x380.
Definition IEEE80211_TWT_REQTYPE_FLOWID_OFFSET : Z := 7.
Definition IEEE80211_TWT_REQTYPE_PROTECTION : Z := BIT 15.

(** [morse_twt_ctrl_flag_is_set] and [morse_twt_req_flag_is_set]:
    [!!(flags & flag)]. *)
Definition morse_twt_ctrl_flag_is_set (flags flag : Z) : bool :=
  negb (Z.land flags flag =? 0).
Definition morse_twt_req_flag_is_set (flags flag : Z) : bool :=
  negb (Z.land flags flag =? 0).

(** The enumerator with the given value. *)
Definition setup_cmd_of_code (c : Z) : option ieee80211_twt_setup_cmd :=
  match c with
  | 0 => Some TWT_SETUP_CMD_REQUEST
  | 1 => Some TWT_SETUP_CMD_SUGGEST
  | 2 => Some TWT_SETUP_CMD_DEMAND
  | 3 => Some TWT_SETUP_CMD_GROUPING
  | 4 => Some TWT_SETUP_CMD_ACCEPT
  | 5 => Some TWT_SETUP_CMD_ALTERNATE
  | 6 => Some TWT_SETUP_CMD_DICTATE
  | 7 => Some TWT_SETUP_CMD_REJECT
  | _ => None
  end.

(** The wake-interval exponent of a request type. *)
Definition wake_int_exp (rt : Z) : Z :=
  Z.shiftr (Z.land rt IEEE80211_TWT_REQTYPE_WAKE_INT_EXP)
           IEEE80211_TWT_REQTYPE_WAKE_INT_EXP_OFFSET.

(** [morse_twt_calculate_wake_interval_us(params)]:
    [(u64)mantissa * (1 << exp)].  The shift is done in [int]; for an
    exponent of 31 it yields [INT_MIN], which the multiplication converts to
    [u64]. *)
Definition morse_twt_calculate_wake_interval_us (p : ieee80211_twt_params) : Z :=
  u64 (u16 (mantissa p) * s32 (Z.shiftl 1 (wake_int_exp (req_type p)))).

(** [struct ie_element]: [ie_ptr] is [None] for a [NULL] pointer, else the
    bytes of the frame from [ptr] on (each a [u8]); [ie_len] is the length
    the element declares. *)
Record ie_element := IE {
  ie_ptr : option (list Z);
  ie_len : Z
}.

(** Reads at an offset from [ptr]; [None] past the end of the frame. *)
Definition get_u8 (bs : list Z) (k : nat) : option Z := u8 <$> bs !! k.
Definition get_le16 (bs : list Z) (k : nat) : option Z :=
  b0 ← get_u8 bs k; b1 ← get_u8 bs (k + 1);
  Some (b0 + 2 ^ 8 * b1).
Definition get_le32 (bs : list Z) (k : nat) : option Z :=
  w0 ← get_le16 bs k; w1 ← get_le16 bs (k + 2);
  Some (w0 + 2 ^ 16 * w1).
Definition get_le64 (bs : list Z) (k : nat) : option Z :=
  d0 ← get_le32 bs k; d1 ← get_le32 bs (k + 4);
  Some (d0 + 2 ^ 32 * d1).

(** [*(struct ieee80211_twt_params * )(ptr + 1)]: the packed parameter block
    that follows the control byte ([req_type], [twt], [min_twt_dur],
    [mantissa], [channel]), in CPU byte order. *)
Definition read_twt_params (bs : list Z) : option ieee80211_twt_params :=
  rt ← get_le16 bs 1; tw ← get_le64 bs 3; dur ← get_u8 bs 11;
  man ← get_le16 bs 12; ch ← get_u8 bs 14;
  Some (TwtParams rt tw dur man ch).

Definition is_station (v : nl80211_iftype) : bool :=
  match v with NL80211_IFTYPE_STATION => true | _ => false end.
Definition is_ap (v : nl80211_iftype) : bool :=
  match v with NL80211_IFTYPE_AP => true | _ => false end.

(** [morse_twt_validate_params(mors, vif, params)], [params] being the block
    at [ptr + 1]. *)
Definition morse_twt_validate_params (vif : nl80211_iftype) (bs : list Z) : option Z :=
  rt ← get_le16 bs 1;
  let role_ok :=
    match setup_cmd_of_code (morse_twt_get_command rt) with
    | Some TWT_SETUP_CMD_ACCEPT | Some TWT_SETUP_CMD_REJECT => is_station vif
    | Some TWT_SETUP_CMD_REQUEST | Some TWT_SETUP_CMD_DEMAND
    | Some TWT_SETUP_CMD_SUGGEST => is_ap vif
    | Some TWT_SETUP_CMD_GROUPING => false
    | _ => true
    end in
  if negb role_ok then Some (- EINVAL)
  else if morse_twt_req_flag_is_set rt IEEE80211_TWT_REQTYPE_FLOWTYPE
  then Some (- EINVAL)
  else if negb (morse_twt_req_flag_is_set rt IEEE80211_TWT_REQTYPE_IMPLICIT)
  then Some (- EINVAL)
  else if morse_twt_req_flag_is_set rt IEEE80211_TWT_REQTYPE_PROTECTION
  then Some (- EINVAL)
  else
    channel ← get_u8 bs 14;
    if channel >? 0 then Some (- EINVAL) else Some 0.

Section Element.
(** [IEEE80211_TWT_CONTROL_NEG_TYPE] and [MORSE_TU_TO_US] are declared in
    headers that are not among the sources. *)
Variable IEEE80211_TWT_CONTROL_NEG_TYPE : Z.
Variable MORSE_TU_TO_US : Z -> Z.

(** The friendly values [morse_twt_parse_ie] derives from the parameters. *)
Definition agreement_of_params (control : Z) (p : ieee80211_twt_params)
  : morse_twt_agreement_data :=
  AgrData control p (twt p) (morse_twt_calculate_wake_interval_us p)
    (if morse_twt_ctrl_flag_is_set control IEEE80211_TWT_CONTROL_WAKE_DUR_UNIT
     then u32 (MORSE_TU_TO_US (min_twt_dur p))
     else u32 (min_twt_dur p * TWT_WAKE_DUR_UNIT_256)).

(** [morse_twt_parse_ie(mors_vif, ie, event, src_addr)]: the error code, or
    the event filled in when the function returns 0. *)
Definition morse_twt_parse_ie (t : morse_twt) (ie : option ie_element) (src_addr : Z)
  : option (Z + morse_twt_event) :=
  match ie with
  | None => Some (inl (- EINVAL))
  | Some e =>
      match ie_ptr e with
      | None => Some (inl (- EINVAL))
      | Some bs =>
          if (ie_len e <? TWT_IE_MIN_LENGTH) || (ie_len e >? TWT_IE_MAX_LENGTH)
          then Some (inl (- EINVAL))
          else
            control ← get_u8 bs 0;
            if morse_twt_ctrl_flag_is_set control IEEE80211_TWT_CONTROL_NEG_TYPE_BROADCAST
            then Some (inl (- EINVAL))
            else if morse_twt_ctrl_flag_is_set control IEEE80211_TWT_CONTROL_NEG_TYPE
            then Some (inl (- EINVAL))
            else if morse_twt_ctrl_flag_is_set control IEEE80211_TWT_CONTROL_NDP
            then Some (inl (- EINVAL))
            else
              ret ← morse_twt_validate_params (vif_type t) bs;
              if negb (ret =? 0) then Some (inl ret)
              else
                rt ← get_le16 bs 1;
                let flow_id :=
                  Z.shiftr (Z.land rt IEEE80211_TWT_REQTYPE_FLOWID)
                           IEEE80211_TWT_REQTYPE_FLOWID_OFFSET in
                if negb (can_alloc t) then Some (inl (- ENOMEM))
                else
                  p ← read_twt_params bs;
                  cmd ← setup_cmd_of_code (morse_twt_get_command (req_type p));
                  Some (inr (Event MORSE_TWT_EVENT_SETUP src_addr (Z.to_nat (u8 flow_id)) cmd
                                   (Some (agreement_of_params control p)) false))
      end
  end.

End Element.

(** *** Looking into the queues ([morse_twt_peek_queue]) *)

(** The position of the first element that satisfies [f]. *)
Fixpoint find_index {A} (f : A -> bool) (l : list A) : option nat :=
  match l with
  | [] => None
  | x :: rest => if f x then Some O else S <$> find_index f rest
  end.

(** The test of the loop of [morse_twt_peek_queue]: the address is the
    wanted one or the zero address, and the flow id is the wanted one when
    one is given. *)
Definition peek_matches (addr : Z) (flow : option nat) (e : morse_twt_event) : bool :=
  ((ev_addr e =? addr) || (ev_addr e =? 0))
  && from_option (fun f => Nat.eqb f (flow_id e)) true flow.

(** [morse_twt_peek_queue(mors, head, mors_vif, addr, flow_id)]: the
    position in the queue of the event returned, [None] for [NULL]. *)
Definition morse_twt_peek_queue (q : list morse_twt_event) (addr : option Z)
    (flow : option nat) : option nat :=
  match addr with
  | None => match q with [] => None | _ => Some O end
  | Some a => find_index (peek_matches a flow) q
  end.

Definition morse_twt_peek_tx (t : morse_twt) (addr : option Z) (flow : option nat)
  : option nat :=
  match addr with
  | None => None
  | Some a => morse_twt_peek_queue (tx t) (Some a) flow
  end.

Definition morse_twt_peek_event (t : morse_twt) (addr : option Z) (flow : option nat)
  : option nat :=
  morse_twt_peek_queue (events t) addr flow.

(** [morse_twt_get_ie_size(mors, event)]: [sizeof(agr_data->control) +
    sizeof(agr_data->params)], a [u8] and the packed 14 bytes of
    [struct ieee80211_twt_params]. *)
Definition morse_twt_get_ie_size (event : option morse_twt_event) : Z :=
  match event with
  | None => - EINVAL
  | Some e =>
      match type e, setup_agr_data e with
      | MORSE_TWT_EVENT_SETUP, None => - EINVAL
      | MORSE_TWT_EVENT_TEARDOWN, _ => 0
      | MORSE_TWT_EVENT_SETUP, Some _ => 1 + 14
      end
  end.

(** *** The engine *)

(** The work items the engine schedules. *)
Inductive twt_work :=
| TWT_WORK          (* &twt->work: morse_twt_handle_event_work *)
| TWT_CMD_WORK.     (* &twt->sta_vif.cmd_work: morse_twt_handle_cmd_work *)

Section Engine.
Variable MORSE_TWT_AGREEMENTS_MAX_PER_STA : nat.
(** [twt->responder], [twt->requester] and
    [morse_mac_is_sta_vif_associated(vif)], which the functions below only
    read. *)
Variables (responder requester associated : bool).

(** [morse_twt_add_sta(mors, twt, addr)]: [kzalloc] returns the address of
    no live record, and the record is zeroed: every agreement is in the
    state of value 0 with no data. *)
Definition morse_twt_add_sta (t : morse_twt) (a : Z) : option nat * morse_twt :=
  if can_alloc t then
    let p := fresh (dom (sta_mem t)) in
    let sta := Sta a 0 false (replicate MORSE_TWT_AGREEMENTS_MAX_PER_STA idle_agr) in
    (Some p, set_stas (stas t ++ [p]) (set_sta_mem (<[p := sta]> (sta_mem t)) t))
  else (None, t).

(** [morse_twt_sta_remove_addr(mors, mors_vif, addr)] *)
Definition morse_twt_sta_remove_addr (t : morse_twt) (a : Z) : option (Z * morse_twt) :=
  sta ← morse_twt_get_sta t a;
  morse_twt_sta_remove MORSE_TWT_AGREEMENTS_MAX_PER_STA t sta.

(** The [list_for_each_entry_safe] loop of [morse_twt_sta_remove_all] over
    the stations that are still to be visited. *)
Fixpoint sta_remove_all_loop (t : morse_twt) (l : list nat) : option morse_twt :=
  match l with
  | [] => Some t
  | p :: rest =>
      r ← morse_twt_sta_remove MORSE_TWT_AGREEMENTS_MAX_PER_STA t (Some p);
      sta_remove_all_loop r.2 rest
  end.

(** [morse_twt_sta_remove_all(mors, twt)] *)
Definition morse_twt_sta_remove_all (t : morse_twt) : option (Z * morse_twt) :=
  t ← sta_remove_all_loop t (stas t);
  Some (0, t).

(** [morse_twt_finish_vif(mors, mors_vif)] *)
Definition morse_twt_finish_vif (t : morse_twt) : option (Z * morse_twt) :=
  r ← morse_twt_sta_remove_all t;
  let t := morse_twt_tx_queue_purge r.2 None in
  let t := morse_twt_to_install_queue_purge t None in
  let t := morse_twt_event_queue_purge t None in
  Some (0, t).

(** [morse_twt_handle_event_in_consider(mors, twt, sta, event)] *)
Definition morse_twt_handle_event_in_consider (t : morse_twt) (event : morse_twt_event)
  : Z * morse_twt :=
  match type event with
  | MORSE_TWT_EVENT_SETUP =>
      match setup_cmd event with
      | TWT_SETUP_CMD_REQUEST | TWT_SETUP_CMD_SUGGEST
      | TWT_SETUP_CMD_DEMAND | TWT_SETUP_CMD_GROUPING => (0, t)
      | _ => (- EINVAL, t)
      end
  | _ => (- EINVAL, t)
  end.

(** [morse_twt_handle_event_in_agreement(mors, mors_vif, twt, sta, event)] *)
Definition morse_twt_handle_event_in_agreement (t : morse_twt) (sta : nat)
    (event : morse_twt_event) : option (Z * morse_twt) :=
  match type event with
  | MORSE_TWT_EVENT_SETUP =>
      match setup_cmd event with
      | TWT_SETUP_CMD_REQUEST | TWT_SETUP_CMD_SUGGEST
      | TWT_SETUP_CMD_DEMAND | TWT_SETUP_CMD_GROUPING =>
          s ← sta_mem t !! sta;
          match morse_twt_peek_tx t (Some (addr s)) (Some (flow_id event)) with
          | Some _ => Some (0, t)
          | None =>
              r ← morse_twt_send_reject MORSE_TWT_AGREEMENTS_MAX_PER_STA t (Some sta) event;
              Some (0, r.2)
          end
      | _ => Some (- EINVAL, t)
      end
  | _ => Some (- EINVAL, t)
  end.

(** [morse_twt_preprocess_event(mors, twt, event)] for an event that has
    been taken off its queue: whether it is to be processed further, the
    state and the work scheduled. *)
Definition morse_twt_preprocess_event (t : morse_twt) (event : morse_twt_event)
  : bool * morse_twt * list twt_work :=
  match type event, teardown event with
  | MORSE_TWT_EVENT_TEARDOWN, true => (true, t, [])
  | _, _ =>
      match setup_cmd event with
      | TWT_SETUP_CMD_REQUEST | TWT_SETUP_CMD_SUGGEST
      | TWT_SETUP_CMD_DEMAND | TWT_SETUP_CMD_GROUPING =>
          if responder then (true, t, []) else (false, t, [])
      | TWT_SETUP_CMD_ACCEPT =>
          if requester then
            (false, set_to_install_uninstall (to_install_uninstall t ++ [event]) t,
             if associated then [TWT_CMD_WORK] else [])
          else (false, t, [])
      | _ => (false, t, [])
      end
  end.

(** How one pass of the loop of [morse_twt_handle_event] ends. *)
Inductive pass_end :=
| Pass_next          (* the next event is looked for *)
| Pass_return.       (* no station record could be allocated: return *)

(** The [switch (sta->agreements[event->flow_id].state)] of
    [morse_twt_handle_event]. *)
Definition handle_setup_event (t : morse_twt) (p : nat) (event : morse_twt_event)
  : option morse_twt :=
  a ← agr_at t (p, flow_id event);
  match state a with
  | MORSE_TWT_STATE_NO_AGREEMENT =>
      r ← morse_twt_handle_event_in_no_agreement MORSE_TWT_AGREEMENTS_MAX_PER_STA t (Some p) event; Some r.2
  | MORSE_TWT_STATE_AGREEMENT =>
      r ← morse_twt_handle_event_in_agreement t p event; Some r.2
  | _ => Some (morse_twt_handle_event_in_consider t event).2
  end.

(** The body of the [while (event)] loop of [morse_twt_handle_event] for the
    event at position [i] of the event queue. *)
Definition handle_event_pass (t : morse_twt) (i : nat)
  : option (pass_end * morse_twt * list twt_work) :=
  event ← events t !! i;
  let t := set_events (delete i (events t)) t in
  let '(more, t, w) := morse_twt_preprocess_event t event in
  if more then
    sta ← morse_twt_get_sta t (ev_addr event);
    match type event with
    | MORSE_TWT_EVENT_TEARDOWN =>
        r ← morse_twt_handle_event_teardown MORSE_TWT_AGREEMENTS_MAX_PER_STA t sta event;
        Some (Pass_next, r.2, w)
    | MORSE_TWT_EVENT_SETUP =>
        let '(sta, t) :=
          match sta with
          | Some p => (Some p, t)
          | None => morse_twt_add_sta t (ev_addr event)
          end in
        match sta with
        | None => Some (Pass_return, t, w ++ [TWT_WORK])
        | Some p =>
            t ← handle_setup_event t p event;
            Some (Pass_next, t, w)
        end
    end
  else Some (Pass_next, t, w).

(** The loop; the outer [None] means that [fuel] passes were not enough,
    the inner one that a pass went wrong. *)
Fixpoint handle_event_loop (fuel : nat) (t : morse_twt) (addr : option Z)
    (w : list twt_work) : option (option (morse_twt * list twt_work)) :=
  match morse_twt_peek_event t addr None with
  | None => Some (Some (t, w))
  | Some i =>
      match fuel with
      | O => None
      | S fuel' =>
          match handle_event_pass t i with
          | None => Some None
          | Some (Pass_return, t, w') => Some (Some (t, w ++ w'))
          | Some (Pass_next, t, w') => handle_event_loop fuel' t addr (w ++ w')
          end
      end
  end.

(** [morse_twt_handle_event(mors_vif, addr)].  Every pass takes an event off
    the queue and none adds one, so as many passes as there are events
    suffice. *)
Definition morse_twt_handle_event (t : morse_twt) (addr : option Z)
  : option (morse_twt * list twt_work) :=
  mjoin (handle_event_loop (length (events t)) t addr []).

End Engine.

Lemma setup_cmd_of_code_code cmd : setup_cmd_of_code (setup_cmd_code cmd) = Some cmd.
Proof. now destruct cmd. Qed.

(** [morse_twt_set_command] and [morse_twt_get_command] are inverse to each
    other on the setup command; the request bit is set exactly for the four
    requester commands, and the rest of the field (trigger, implicit, flow
    type, flow id, exponent, protection) is left as it was. *)
Theorem set_command_get_command (r : Z) (cmd : ieee80211_twt_setup_cmd) :
  let r' := morse_twt_set_command r cmd in
  morse_twt_get_command r' = setup_cmd_code cmd /\
  setup_cmd_of_code (morse_twt_get_command r') = Some cmd /\
  Z.testbit r' 0 = morse_twt_cmd_is_req cmd /\
  (morse_twt_cmd_is_req cmd = true <->
     cmd = TWT_SETUP_CMD_REQUEST \/ cmd = TWT_SETUP_CMD_SUGGEST \/
     cmd = TWT_SETUP_CMD_DEMAND \/ cmd = TWT_SETUP_CMD_GROUPING) /\
  (forall n, 4 <= n < 16 -> Z.testbit r' n = Z.testbit r n) /\
  0 <= r' < 2 ^ 16.
Proof.
  cbv zeta.
  split; [apply get_command_set_command|].
  split; [rewrite get_command_set_command; apply setup_cmd_of_code_code|].
  split; [now rewrite set_command_testbit by lia|].
  split; [destruct cmd; cbn; split; intros H; try discriminate; auto;
          destruct H as [H|[H|[H|H]]]; discriminate|].
  split.
  - intros n Hn. rewrite set_command_testbit by lia.
    destruct (Z.eqb_spec n 0); [lia|]. destruct (Z.ltb_spec n 4); [lia|].
    destruct (Z.ltb_spec n 16); [reflexivity|lia].
  - unfold morse_twt_set_command, u16. cbv zeta. apply Z.mod_pos_bound. lia.
Qed.

(** *** From the element to the agreement and back *)

Lemma wake_int_exp_mod r : wake_int_exp r = Z.shiftr r 10 mod 2 ^ 5.
Proof. exact (field_extract r 10 5 ltac:(lia) ltac:(lia)). Qed.

Lemma wake_int_exp_range r : 0 <= wake_int_exp r <= 31.
Proof.
  rewrite wake_int_exp_mod. pose proof (Z.mod_pos_bound (Z.shiftr r 10) (2 ^ 5)). lia.
Qed.

Lemma wake_int_exp_set_command r cmd :
  wake_int_exp (morse_twt_set_command r cmd) = wake_int_exp r.
Proof.
  unfold wake_int_exp, IEEE80211_TWT_REQTYPE_WAKE_INT_EXP,
    IEEE80211_TWT_REQTYPE_WAKE_INT_EXP_OFFSET.
  apply Z.bits_inj'. intros n Hn.
  rewrite !Z.shiftr_spec, !Z.land_spec, set_command_testbit by lia.
  destruct (Z.eqb_spec (n + 10) 0); [lia|]. destruct (Z.ltb_spec (n + 10) 4); [lia|].
  destruct (Z.ltb_spec (n + 10) 16); [reflexivity|].
  rewrite (testbit_small 31744) by (change (Z.log2 31744) with 14; lia).
  now rewrite !andb_false_r.
Qed.

(** The wake interval of a parameter block whose exponent is at most 30. *)
Lemma calculate_wake_interval_us_small p :
  0 <= mantissa p < 2 ^ 16 -> 0 <= wake_int_exp (req_type p) <= 30 ->
  morse_twt_calculate_wake_interval_us p = mantissa p * 2 ^ wake_int_exp (req_type p) /\
  0 < 2 ^ wake_int_exp (req_type p) < 2 ^ 31.
Proof.
  intros Hm He. unfold morse_twt_calculate_wake_interval_us.
  set (e := wake_int_exp (req_type p)) in *.
  assert (Hp : 0 < 2 ^ e) by (apply Z.pow_pos_nonneg; lia).
  assert (Hp' : 2 ^ e <= 2 ^ 30) by (apply Z.pow_le_mono_r; lia).
  rewrite Z.shiftl_1_l, (u16_small (mantissa p)) by lia.
  rewrite s32_small by lia.
  split; [|lia]. apply u64_small. split; [nia|].
  assert (mantissa p * 2 ^ e <= 2 ^ 16 * 2 ^ 30) by nia.
  eapply Z.le_lt_trans; [eassumption|]. now vm_compute.
Qed.

Section Echo.
Variable MORSE_TU_TO_US : Z -> Z.

(** What [morse_twt_send_accept] sends back for a request parsed from an
    element with an exponent of at most 30 and the wake duration in units of
    256 us, once the scheduler has chosen the wake time [T]: the request's
    own mantissa, minimum wake duration, channel and request type, but for
    the setup command (now ACCEPT, request bit cleared), and [T] as the
    target wake time. *)
Theorem accept_echoes_request (control : Z) (p : ieee80211_twt_params) (T : Z) :
  0 <= mantissa p < 2 ^ 16 ->
  0 <= min_twt_dur p < 2 ^ 8 ->
  wake_int_exp (req_type p) <= 30 ->
  morse_twt_ctrl_flag_is_set control IEEE80211_TWT_CONTROL_WAKE_DUR_UNIT = false ->
  let d := agreement_of_params MORSE_TU_TO_US control p in
  let d' := data_update_params
              (data_set_command TWT_SETUP_CMD_ACCEPT (set_wake_time_us T d)) in
  params d' = TwtParams (morse_twt_set_command (req_type p) TWT_SETUP_CMD_ACCEPT) T
                        (min_twt_dur p) (mantissa p) (channel p) /\
  wake_int_exp (req_type (params d')) = wake_int_exp (req_type p) /\
  morse_twt_get_command (req_type (params d')) = setup_cmd_code TWT_SETUP_CMD_ACCEPT /\
  wake_interval_us d' = mantissa p * 2 ^ wake_int_exp (req_type p).
Proof.
  intros Hm Hd He Hunit. cbv zeta.
  pose proof (wake_int_exp_range (req_type p)) as Hrange.
  destruct (calculate_wake_interval_us_small p Hm ltac:(lia)) as (Hint & Hpow).
  unfold data_update_params, data_set_command, agreement_of_params, set_wake_time_us,
    set_params, morse_twt_update_params. cbn.
  rewrite Hunit.
  fold (wake_int_exp (morse_twt_set_command (req_type p) TWT_SETUP_CMD_ACCEPT)).
  rewrite wake_int_exp_set_command, Hint.
  assert (Hunit' : (Z.land control IEEE80211_TWT_CONTROL_WAKE_DUR_UNIT =? 0) = true).
  { unfold morse_twt_ctrl_flag_is_set in Hunit. now apply negb_false_iff in Hunit. }
  rewrite Hunit'. cbn [negb].
  set (e := wake_int_exp (req_type p)) in *.
  assert (Hu32 : u32 (Z.shiftl 1 e) = 2 ^ e).
  { rewrite Z.shiftl_1_l. unfold u32. apply Z.mod_small. split; [lia|].
    eapply Z.lt_trans; [apply Hpow|]. now vm_compute. }
  rewrite Hu32, Z.div_mul by lia. rewrite (u16_small (mantissa p)) by lia.
  assert (Hdur : u8 (u32 (min_twt_dur p * TWT_WAKE_DUR_UNIT_256) / TWT_WAKE_DUR_UNIT_256)
                 = min_twt_dur p).
  { unfold TWT_WAKE_DUR_UNIT_256, u32. rewrite (Z.mod_small (_ * 256)).
    - rewrite Z.div_mul by lia. unfold u8. apply Z.mod_small. lia.
    - split; [lia|]. assert (min_twt_dur p * 256 < 2 ^ 8 * 256) by lia.
      eapply Z.lt_trans; [eassumption|]. now vm_compute. }
  rewrite Hdur. split; [reflexivity|]. split; [reflexivity|].
  split; [apply (get_command_set_command (req_type p))|reflexivity].
Qed.

End Echo.

(** *** What [morse_twt_parse_ie] lets through *)

Lemma get_u8_range bs k v : get_u8 bs k = Some v -> 0 <= v < 2 ^ 8.
Proof.
  unfold get_u8. destruct (bs !! k); [|discriminate]. intros [= <-].
  apply Z.mod_pos_bound. lia.
Qed.

Lemma get_le16_range bs k v : get_le16 bs k = Some v -> 0 <= v < 2 ^ 16.
Proof.
  unfold get_le16. destruct (get_u8 bs k) as [b0|] eqn:H0; [|discriminate].
  destruct (get_u8 bs (k + 1)) as [b1|] eqn:H1; [|discriminate].
  intros [= <-]. apply get_u8_range in H0, H1. lia.
Qed.

(** The setup commands [morse_twt_validate_params] accepts on an interface
    of the given type: the requester's commands on an access point, ACCEPT
    and REJECT on a station, ALTERNATE and DICTATE on any interface (the
    switch has no check for them), GROUPING on none. *)
Definition role_allows (vif : nl80211_iftype) (cmd : ieee80211_twt_setup_cmd) : Prop :=
  match cmd with
  | TWT_SETUP_CMD_REQUEST | TWT_SETUP_CMD_SUGGEST | TWT_SETUP_CMD_DEMAND =>
      vif = NL80211_IFTYPE_AP
  | TWT_SETUP_CMD_ACCEPT | TWT_SETUP_CMD_REJECT => vif = NL80211_IFTYPE_STATION
  | TWT_SETUP_CMD_ALTERNATE | TWT_SETUP_CMD_DICTATE => True
  | TWT_SETUP_CMD_GROUPING => False
  end.

Lemma validate_params_ok vif bs :
  morse_twt_validate_params vif bs = Some 0 ->
  exists rt cmd,
    get_le16 bs 1 = Some rt /\
    setup_cmd_of_code (morse_twt_get_command rt) = Some cmd /\
    role_allows vif cmd /\
    morse_twt_req_flag_is_set rt IEEE80211_TWT_REQTYPE_FLOWTYPE = false /\
    morse_twt_req_flag_is_set rt IEEE80211_TWT_REQTYPE_IMPLICIT = true /\
    morse_twt_req_flag_is_set rt IEEE80211_TWT_REQTYPE_PROTECTION = false /\
    get_u8 bs 14 = Some 0.
Proof.
  unfold morse_twt_validate_params.
  destruct (get_le16 bs 1) as [rt|] eqn:Hrt; [|discriminate]. cbn [mbind option_bind].
  assert (Hcode : exists cmd, setup_cmd_of_code (morse_twt_get_command rt) = Some cmd).
  { unfold morse_twt_get_command, IEEE80211_TWT_REQTYPE_SETUP_CMD,
      IEEE80211_TWT_REQTYPE_SETUP_CMD_OFFSET.
    change 14 with (Z.shiftl (Z.ones 3) 1). rewrite field_extract by lia.
    pose proof (Z.mod_pos_bound (Z.shiftr rt 1) (2 ^ 3) ltac:(lia)) as Hb.
    set (c := Z.shiftr rt 1 mod 2 ^ 3) in *.
    assert (c = 0 \/ c = 1 \/ c = 2 \/ c = 3 \/ c = 4 \/ c = 5 \/ c = 6 \/ c = 7)
      as [->|[->|[->|[->|[->|[->|[->| ->]]]]]]] by lia; eexists; reflexivity. }
  destruct Hcode as [cmd Hcmd]. rewrite Hcmd.
  intros H. exists rt, cmd. split; [reflexivity|]. split; [exact Hcmd|].
  destruct (morse_twt_req_flag_is_set rt IEEE80211_TWT_REQTYPE_FLOWTYPE);
    [destruct cmd, vif; discriminate|].
  destruct (morse_twt_req_flag_is_set rt IEEE80211_TWT_REQTYPE_IMPLICIT);
    [|destruct cmd, vif; discriminate].
  destruct (morse_twt_req_flag_is_set rt IEEE80211_TWT_REQTYPE_PROTECTION);
    [destruct cmd, vif; discriminate|].
  destruct (get_u8 bs 14) as [ch|] eqn:Hch; [|destruct cmd, vif; discriminate].
  pose proof (get_u8_range _ _ _ Hch) as Hr.
  assert (Hch0 : (if ch >? 0 then Some (- EINVAL) else Some 0) = Some 0 -> ch = 0).
  { destruct (Z.gtb_spec ch 0); [discriminate|]. lia. }
  split; [destruct cmd, vif; cbn in *; try discriminate; auto|].
  split; [reflexivity|]. split; [reflexivity|]. split; [reflexivity|].
  f_equal. destruct cmd, vif; cbn in H; try discriminate; now apply Hch0.
Qed.

Section Parsed.
Variable IEEE80211_TWT_CONTROL_NEG_TYPE : Z.
Variable MORSE_TU_TO_US : Z -> Z.

(** The shape of a parsed event. *)
Lemma parse_ie_shape (t : morse_twt) (ie : option ie_element) (src_addr : Z)
    (ev : morse_twt_event) :
  morse_twt_parse_ie IEEE80211_TWT_CONTROL_NEG_TYPE MORSE_TU_TO_US t ie src_addr
    = Some (inr ev) ->
  type ev = MORSE_TWT_EVENT_SETUP /\ ev_addr ev = src_addr /\
  is_Some (setup_agr_data ev).
Proof.
  unfold morse_twt_parse_ie. intros H.
  repeat match type of H with
  | match ?x with _ => _ end = _ => destruct x eqn:?; try discriminate
  | (if ?x then _ else _) = _ => destruct x eqn:?; try discriminate
  | mbind _ ?x = _ => destruct x eqn:?; try discriminate; cbn [mbind option_bind] in H
  end.
  injection H as <-. cbn. split; [reflexivity|]. split; [reflexivity|]. now eexists.
Qed.

(** Every event [morse_twt_parse_ie] produces is a SETUP event of the
    sender for a flow id below 8.  It carries the control byte and the
    parameter block of the element with their friendly values; its setup
    command is the one encoded in the request type and is one the interface
    may receive (REQUEST, SUGGEST, DEMAND on an access point only, ACCEPT,
    REJECT on a station only, ALTERNATE and DICTATE on either, never
    GROUPING); the agreement is implicit and announced,
    without protection, channel, NDP paging or broadcast; and the element
    declared a length of 10 to 20 bytes. *)
Theorem parse_ie_event (t : morse_twt) (ie : option ie_element) (src_addr : Z)
    (ev : morse_twt_event) :
  morse_twt_parse_ie IEEE80211_TWT_CONTROL_NEG_TYPE MORSE_TU_TO_US t ie src_addr
    = Some (inr ev) ->
  exists e bs control p,
    ie = Some e /\ ie_ptr e = Some bs /\
    TWT_IE_MIN_LENGTH <= ie_len e <= TWT_IE_MAX_LENGTH /\
    get_u8 bs 0 = Some control /\ read_twt_params bs = Some p /\
    type ev = MORSE_TWT_EVENT_SETUP /\ ev_addr ev = src_addr /\
    (flow_id ev < 8)%nat /\
    Z.of_nat (flow_id ev) = Z.shiftr (req_type p) 7 mod 2 ^ 3 /\
    setup_agr_data ev = Some (agreement_of_params MORSE_TU_TO_US control p) /\
    setup_cmd_of_code (morse_twt_get_command (req_type p)) = Some (setup_cmd ev) /\
    role_allows (vif_type t) (setup_cmd ev) /\
    channel p = 0 /\
    morse_twt_req_flag_is_set (req_type p) IEEE80211_TWT_REQTYPE_IMPLICIT = true /\
    morse_twt_req_flag_is_set (req_type p) IEEE80211_TWT_REQTYPE_FLOWTYPE = false /\
    morse_twt_req_flag_is_set (req_type p) IEEE80211_TWT_REQTYPE_PROTECTION = false /\
    morse_twt_ctrl_flag_is_set control IEEE80211_TWT_CONTROL_NDP = false /\
    morse_twt_ctrl_flag_is_set control IEEE80211_TWT_CONTROL_NEG_TYPE_BROADCAST = false.
Proof.
  unfold morse_twt_parse_ie. intros H.
  destruct ie as [e|]; [|discriminate]. destruct (ie_ptr e) as [bs|] eqn:Hptr; [|discriminate].
  destruct (Z.ltb_spec (ie_len e) TWT_IE_MIN_LENGTH); [discriminate|].
  destruct (Z.gtb_spec (ie_len e) TWT_IE_MAX_LENGTH); [discriminate|]. cbn [orb] in H.
  destruct (get_u8 bs 0) as [control|] eqn:Hctl; [|discriminate]. cbn [mbind option_bind] in H.
  destruct (morse_twt_ctrl_flag_is_set control IEEE80211_TWT_CONTROL_NEG_TYPE_BROADCAST) eqn:Hb;
    [discriminate|].
  destruct (morse_twt_ctrl_flag_is_set control IEEE80211_TWT_CONTROL_NEG_TYPE); [discriminate|].
  destruct (morse_twt_ctrl_flag_is_set control IEEE80211_TWT_CONTROL_NDP) eqn:Hndp;
    [discriminate|].
  destruct (morse_twt_validate_params (vif_type t) bs) as [ret|] eqn:Hval; [|discriminate].
  cbn [mbind option_bind] in H.
  destruct (Z.eqb_spec ret 0) as [->|]; [|discriminate]. cbn [negb] in H.
  destruct (validate_params_ok _ _ Hval) as (rt & cmd & Hrt & Hcmd & Hrole & Hft & Him & Hpr & Hch).
  rewrite Hrt in H. cbn [mbind option_bind] in H.
  destruct (can_alloc t); [|discriminate]. cbn [negb] in H.
  destruct (read_twt_params bs) as [p|] eqn:Hp; [|discriminate]. cbn [mbind option_bind] in H.
  assert (Hp' : req_type p = rt /\ channel p = 0).
  { unfold read_twt_params in Hp. rewrite Hrt, Hch in Hp. cbn [mbind option_bind] in Hp.
    destruct (get_le64 bs 3); [|discriminate]. cbn [mbind option_bind] in Hp.
    destruct (get_u8 bs 11); [|discriminate]. cbn [mbind option_bind] in Hp.
    destruct (get_le16 bs 12); [|discriminate]. cbn [mbind option_bind] in Hp.
    injection Hp as <-. auto. }
  destruct Hp' as [Hrt' Hch']. rewrite Hrt', Hcmd in H. cbn [mbind option_bind] in H.
  injection H as <-.
  assert (Hflow : Z.shiftr (Z.land rt IEEE80211_TWT_REQTYPE_FLOWID)
                    IEEE80211_TWT_REQTYPE_FLOWID_OFFSET = Z.shiftr rt 7 mod 2 ^ 3).
  { exact (field_extract rt 7 3 ltac:(lia) ltac:(lia)). }
  pose proof (Z.mod_pos_bound (Z.shiftr rt 7) (2 ^ 3) ltac:(lia)) as Hfb.
  exists e, bs, control, p. rewrite Hrt'. cbn [type ev_addr flow_id setup_agr_data setup_cmd].
  rewrite Hflow. unfold u8. rewrite (Z.mod_small _ (2 ^ 8)) by lia.
  repeat (split; [first [reflexivity | assumption | lia]|]).
  assumption.
Qed.

End Parsed.

(** A REQUEST for flow 2 with mantissa 50000, exponent 1 and a minimum wake
    duration of 32 units of 256 us. *)
Definition request_ie : ie_element :=
  IE (Some [0; 0x21; 0x05; 0; 0; 0; 0; 0; 0; 0; 0; 32; 0x50; 0xc3; 0]) 15.

Lemma parse_ie_event_witness :
  exists ev,
    morse_twt_parse_ie 4 (fun tu => tu * 1024) fresh_twt (Some request_ie) 0xa1
      = Some (inr ev) /\
    type ev = MORSE_TWT_EVENT_SETUP /\ (flow_id ev < 8)%nat /\
    role_allows NL80211_IFTYPE_AP (setup_cmd ev).
Proof.
  eexists. split; [vm_compute; reflexivity|].
  destruct (parse_ie_event 4 (fun tu => tu * 1024) fresh_twt (Some request_ie) 0xa1 _
              eq_refl)
    as (e & bs & control & p & _ & _ & _ & _ & _ & Hty & _ & Hfl & _ & _ & _ & Hrole & _).
  split; [exact Hty|]. split; [exact Hfl|exact Hrole].
Defined.

Lemma accept_echoes_request_witness :
  params (data_update_params
            (data_set_command TWT_SETUP_CMD_ACCEPT
               (set_wake_time_us 8192
                  (agreement_of_params (fun tu => tu * 1024) 0
                     (TwtParams 0x0521 0 32 50000 0)))))
    = TwtParams 0x0528 8192 32 50000 0.
Proof.
  refine (proj1 (accept_echoes_request (fun tu => tu * 1024) 0
                   (TwtParams 0x0521 0 32 50000 0) 8192 _ _ _ _)).
  all: vm_compute; try split; congruence.
Defined.

(** *** Peeking *)

Lemma find_index_Some {A} (f : A -> bool) l i :
  find_index f l = Some i <->
  exists x, l !! i = Some x /\ f x = true /\
    forall j y, (j < i)%nat -> l !! j = Some y -> f y = false.
Proof.
  revert i. induction l as [|a l IH]; intros i; cbn.
  - split; [discriminate|]. intros (x & Hx & _). discriminate.
  - destruct (f a) eqn:Hfa.
    + split.
      * intros [= <-]. exists a. split; [reflexivity|]. split; [assumption|]. intros; lia.
      * intros (x & Hx & Hfx & Hmin). destruct i as [|i]; [reflexivity|].
        specialize (Hmin O a ltac:(lia) eq_refl). congruence.
    + destruct (find_index f l) as [k|]; cbn.
      * split.
        -- intros [= <-]. destruct (proj1 (IH k) eq_refl) as (x & Hx & Hfx & Hmin).
           exists x. split; [assumption|]. split; [assumption|].
           intros [|j] y Hj Hy; [cbn in Hy; congruence|]. apply (Hmin j); [lia|assumption].
        -- intros (x & Hx & Hfx & Hmin). destruct i as [|i]; [cbn in Hx; congruence|].
           f_equal. assert (Some k = Some i) as [= ->]; [|reflexivity].
           apply IH. exists x. split; [assumption|]. split; [assumption|].
           intros j y Hj Hy. apply (Hmin (S j)); [lia|assumption].
      * split; [discriminate|]. intros (x & Hx & Hfx & Hmin).
        destruct i as [|i]; [cbn in Hx; congruence|].
        assert (@None nat = Some i) as Hc; [|discriminate].
        apply IH. exists x. split; [assumption|]. split; [assumption|].
        intros j y Hj Hy. apply (Hmin (S j)); [lia|assumption].
Qed.

Lemma find_index_None {A} (f : A -> bool) l :
  find_index f l = None <-> Forall (fun x => f x = false) l.
Proof.
  induction l as [|a l IH]; cbn.
  - split; [constructor|reflexivity].
  - destruct (f a) eqn:Hfa.
    + split; [discriminate|]. intros H. apply Forall_cons in H as [H _]. congruence.
    + destruct (find_index f l); cbn.
      * split; [discriminate|]. intros H. apply Forall_cons in H as [_ H].
        apply IH in H. discriminate.
      * split; [|reflexivity]. intros _. constructor; [assumption|]. now apply IH.
Qed.

(** After [morse_twt_queue_event] a peek for the event's address and flow
    id finds an event of that flow: the event just queued, or an older one
    with the zero address, which matches every address.  Without events of
    the zero address in the queue it is the event just queued, at the tail. *)
Theorem queue_event_peek (t : morse_twt) (e : morse_twt_event) :
  let t' := morse_twt_queue_event t e in
  exists i x,
    morse_twt_peek_event t' (Some (ev_addr e)) (Some (flow_id e)) = Some i /\
    events t' !! i = Some x /\ flow_id x = flow_id e /\
    (x = e \/ (ev_addr x = 0 /\ ev_addr e <> 0 /\ x ∈ events t)) /\
    (Forall (fun y => ev_addr y <> 0) (events t) ->
       x = e /\ S i = length (events t')).
Proof.
  cbv zeta. unfold morse_twt_peek_event, morse_twt_peek_queue.
  set (q := events (morse_twt_queue_event t e)).
  set (f := peek_matches (ev_addr e) (Some (flow_id e))).
  assert (Hq : q = List.filter (fun x => negb (same_key e x)) (events t) ++ [e]).
  { unfold q, morse_twt_queue_event, morse_twt_queue_purge. cbn.
    reflexivity. }
  assert (Hfe : f e = true).
  { unfold f, peek_matches. cbn. now rewrite Z.eqb_refl, Nat.eqb_refl. }
  destruct (find_index f q) as [i|] eqn:Hi.
  2:{ apply find_index_None in Hi. rewrite Hq in Hi. apply Forall_app in Hi as [_ Hi].
      apply Forall_cons in Hi as [Hi _]. congruence. }
  pose proof Hi as Hi'. apply find_index_Some in Hi' as (x & Hx & Hfx & Hmin).
  exists i, x. split; [reflexivity|]. split; [exact Hx|].
  assert (Hflow : flow_id x = flow_id e).
  { unfold f, peek_matches in Hfx. cbn in Hfx. apply andb_true_iff in Hfx as [_ Hfl].
    apply Nat.eqb_eq in Hfl. congruence. }
  split; [exact Hflow|].
  assert (Hcase : x = e \/ (ev_addr x = 0 /\ ev_addr e <> 0 /\ x ∈ events t)).
  { rewrite Hq in Hx. apply lookup_app_Some in Hx as [Hx|[_ Hx]].
    - right. apply list_elem_of_lookup_2 in Hx. apply list_elem_of_In in Hx.
      apply filter_In in Hx as [Hin Hkey]. apply list_elem_of_In in Hin.
      apply negb_true_iff in Hkey.
      unfold f, peek_matches in Hfx. cbn in Hfx. apply andb_true_iff in Hfx as [Ha _].
      unfold same_key in Hkey. rewrite Hflow, Nat.eqb_refl, andb_true_r in Hkey.
      rewrite Hkey in Ha. cbn in Ha. apply Z.eqb_eq in Ha.
      split; [assumption|]. split; [|assumption].
      intros He0. apply Z.eqb_neq in Hkey. congruence.
    - left. apply list_lookup_singleton_Some in Hx as [_ ->]. reflexivity. }
  split; [exact Hcase|].
  intros Hnz. destruct Hcase as [->|(H0 & _ & Hin)].
  - split; [reflexivity|].
    rewrite Hq in Hx |- *. rewrite length_app. cbn.
    apply lookup_app_Some in Hx as [Hx|[Hle Hx]].
    + exfalso. apply list_elem_of_lookup_2 in Hx. apply list_elem_of_In in Hx.
      apply filter_In in Hx as [_ Hkey]. apply negb_true_iff in Hkey.
      unfold same_key in Hkey. now rewrite Z.eqb_refl, Nat.eqb_refl in Hkey.
    + apply list_lookup_singleton_Some in Hx as [Hz _]. lia.
  - exfalso. rewrite Forall_forall in Hnz. exact (Hnz x Hin H0).
Qed.

(** *** The station table *)

Section Tables.
Variable MAX : nat.

(** The state after [morse_twt_sta_remove] of the record [s] at [p]. *)
Definition sta_removed (p : nat) (s : morse_twt_sta) (t : morse_twt) : morse_twt :=
  Twt (can_alloc t) (vif_type t) (delete p (sta_mem t)) (unlink p (stas t))
      (wi_unlink_flows p 0 MAX (wake_intervals t)) (events t)
      (morse_twt_queue_purge (tx t) (Some (addr s)) None)
      (match vif_type t with
       | NL80211_IFTYPE_STATION =>
           morse_twt_queue_purge (to_install_uninstall t) (Some (addr s)) None
       | _ => to_install_uninstall t
       end)
      (match vif_type t with
       | NL80211_IFTYPE_STATION => 0
       | _ => active_agreement_bitmap t
       end)
      (action_frames t).

Lemma sta_remove_eq t p s :
  sta_mem t !! p = Some s -> length (agreements s) = MAX ->
  morse_twt_sta_remove MAX t (Some p) = Some (0, sta_removed p s t).
Proof.
  intros Hs Hlen. unfold morse_twt_sta_remove. rewrite Hs. cbn.
  destruct (sta_remove_agreements_spec p MAX 0 t) as (t1 & Hrm & Hwi & Hsame).
  { intros j Hj. apply (agr_at_live t p s j Hs). lia. }
  rewrite Hrm. cbn.
  destruct Hsame as (H1 & H2 & H3 & H4 & H5 & H6 & H7 & H8 & H9).
  unfold sta_removed. rewrite <- Hwi.
  destruct t1 as [a1 b1 c1 d1 e1 f1 g1 h1 i1 j1], t as [a b c d e f g h i j].
  cbn in *. subst. destruct b; reflexivity.
Qed.

(** Every listed station is a live record with [MAX] agreements. *)
Definition stas_live (t : morse_twt) : Prop :=
  forall p, p ∈ stas t ->
    exists s, sta_mem t !! p = Some s /\ length (agreements s) = MAX.

(** No two listed stations have the same address. *)
Definition addrs_unique (t : morse_twt) : Prop :=
  forall p q s s', p ∈ stas t -> q ∈ stas t ->
    sta_mem t !! p = Some s -> sta_mem t !! q = Some s' ->
    addr s = addr s' -> p = q.

Lemma get_sta_loop_none mm l a :
  (forall q, q ∈ l -> exists s, mm !! q = Some s /\ addr s <> a) ->
  get_sta_loop mm l a = Some None.
Proof.
  induction l as [|p l IH]; intros H; cbn; [reflexivity|].
  destruct (H p ltac:(left)) as (s & Hs & Hne). rewrite Hs. cbn.
  apply Z.eqb_neq in Hne. rewrite Hne. apply IH. intros q Hq. apply H. now right.
Qed.

Lemma get_sta_loop_found mm pre p post s a :
  (forall q, q ∈ pre -> exists s', mm !! q = Some s' /\ addr s' <> a) ->
  mm !! p = Some s -> addr s = a ->
  get_sta_loop mm (pre ++ p :: post) a = Some (Some p).
Proof.
  induction pre as [|x pre IH]; intros H Hs Ha; cbn.
  - rewrite Hs. cbn. apply Z.eqb_eq in Ha. now rewrite Ha.
  - destruct (H x ltac:(left)) as (s' & Hs' & Hne). rewrite Hs'. cbn.
    apply Z.eqb_neq in Hne. rewrite Hne. apply IH; auto. intros q Hq. apply H. now right.
Qed.

Lemma get_sta_loop_cases mm l a :
  (forall q, q ∈ l -> is_Some (mm !! q)) ->
  (get_sta_loop mm l a = Some None /\
   forall q, q ∈ l -> exists s, mm !! q = Some s /\ addr s <> a) \/
  (exists pre p post s, l = pre ++ p :: post /\ mm !! p = Some s /\ addr s = a /\
     (forall q, q ∈ pre -> exists s', mm !! q = Some s' /\ addr s' <> a) /\
     get_sta_loop mm l a = Some (Some p)).
Proof.
  induction l as [|x l IH]; intros Hlive.
  - left. split; [reflexivity|]. intros q Hq. inversion Hq.
  - destruct (Hlive x ltac:(left)) as [s Hs].
    destruct (Z.eq_dec (addr s) a) as [Ha|Ha].
    + right. exists [], x, l, s. split; [reflexivity|]. split; [assumption|].
      split; [assumption|]. split; [intros q Hq; inversion Hq|].
      cbn. rewrite Hs. cbn. apply Z.eqb_eq in Ha. now rewrite Ha.
    + destruct IH as [[Hn Hall]|(pre & p & post & s' & -> & Hp & Hpa & Hpre & Hrun)].
      * intros q Hq. apply Hlive. now right.
      * left. split.
        -- cbn. rewrite Hs. cbn. apply Z.eqb_neq in Ha. now rewrite Ha.
        -- intros q Hq. apply elem_of_cons in Hq as [->|Hq]; [eauto|auto].
      * right. exists (x :: pre), p, post, s'. split; [reflexivity|].
        split; [assumption|]. split; [assumption|]. split.
        -- intros q Hq. apply elem_of_cons in Hq as [->|Hq]; [eauto|auto].
        -- cbn. rewrite Hs. cbn. apply Z.eqb_neq in Ha. now rewrite Ha.
Qed.

Lemma get_sta_loop_Some mm l a p :
  get_sta_loop mm l a = Some (Some p) ->
  p ∈ l /\ exists s, mm !! p = Some s /\ addr s = a.
Proof.
  induction l as [|x l IH]; cbn; [discriminate|].
  destruct (mm !! x) as [s|] eqn:Hs; [|discriminate]. cbn.
  destruct (Z.eqb_spec (addr s) a).
  - intros [= <-]. split; [left|eauto].
  - intros H. destruct (IH H) as [Hin Hex]. split; [now right|assumption].
Qed.

Lemma get_sta_loop_None_inv mm l a :
  get_sta_loop mm l a = Some None ->
  forall q, q ∈ l -> exists s, mm !! q = Some s /\ addr s <> a.
Proof.
  induction l as [|x l IH]; cbn; intros H q Hq; [inversion Hq|].
  destruct (mm !! x) as [s|] eqn:Hs; [|discriminate]. cbn in H.
  destruct (Z.eqb_spec (addr s) a); [discriminate|].
  apply elem_of_cons in Hq as [->|Hq]; [eauto|auto].
Qed.

(** [morse_twt_add_sta] for an address that [morse_twt_get_sta] does not
    find: with memory, a record at an address that was not in use joins the
    list; from then on the address is found, at that record, every flow of
    which is in NO_AGREEMENT and unscheduled, while every other address is
    looked up as before.  Without memory the result is [NULL] and nothing
    changes. *)
Theorem add_sta_get_sta (t : morse_twt) (a : Z) :
  stas_live t ->
  morse_twt_get_sta t a = Some None ->
  (can_alloc t = false -> morse_twt_add_sta MAX t a = (None, t)) /\
  (can_alloc t = true ->
     exists p t',
       morse_twt_add_sta MAX t a = (Some p, t') /\
       sta_mem t !! p = None /\ (p ∉ stas t) /\
       stas t' = stas t ++ [p] /\
       sta_mem t' = <[p := Sta a 0 false (replicate MAX idle_agr)]> (sta_mem t) /\
       morse_twt_get_sta t' a = Some (Some p) /\
       (forall b, b <> a -> morse_twt_get_sta t' b = morse_twt_get_sta t b) /\
       (forall f, (f < MAX)%nat -> agr_at t' (p, f) = Some idle_agr) /\
       stas_live t' /\
       wake_intervals t' = wake_intervals t /\ events t' = events t /\ tx t' = tx t).
Proof.
  intros Hlive Hnone. unfold morse_twt_add_sta. split; intros Hc; rewrite Hc; [reflexivity|].
  set (p := fresh (dom (sta_mem t))).
  assert (Hp : sta_mem t !! p = None).
  { apply not_elem_of_dom. apply is_fresh. }
  assert (Hpl : p ∉ stas t).
  { intros Hin. destruct (Hlive p Hin) as (s & Hs & _). congruence. }
  set (new := Sta a 0 false (replicate MAX idle_agr)).
  assert (Hold : forall q, q ∈ stas t -> <[p := new]> (sta_mem t) !! q = sta_mem t !! q).
  { intros q Hq. apply lookup_insert_ne. intros ->. contradiction. }
  eexists _, _. split; [reflexivity|]. cbn.
  split; [exact Hp|]. split; [exact Hpl|]. split; [reflexivity|]. split; [reflexivity|].
  split; [|split; [|split; [|split]]].
  - unfold morse_twt_get_sta. cbn. apply (get_sta_loop_found _ _ _ [] new).
    + intros q Hq. rewrite (Hold q Hq).
      exact (get_sta_loop_None_inv _ _ _ Hnone q Hq).
    + apply lookup_insert_eq.
    + reflexivity.
  - intros b Hb. unfold morse_twt_get_sta. cbn.
    destruct (get_sta_loop_cases (sta_mem t) (stas t) b) as
      [[Hn Hall]|(pre & q & post & s & Hl & Hq & Hqa & Hpre & Hrun)].
    + intros q Hq. destruct (Hlive q Hq) as (s & Hs & _). eauto.
    + rewrite Hn. apply get_sta_loop_none. intros q Hq.
      apply elem_of_app in Hq as [Hq|Hq].
      * rewrite (Hold q Hq). auto.
      * apply list_elem_of_singleton in Hq as ->. exists new.
        split; [apply lookup_insert_eq|]. cbn. congruence.
    + rewrite Hrun, Hl, <- app_assoc. cbn.
      assert (Hin : forall x, x ∈ pre ++ [q] -> x ∈ stas t).
      { intros x Hx. rewrite Hl. apply elem_of_app in Hx as [Hx|Hx].
        - apply elem_of_app. now left.
        - apply list_elem_of_singleton in Hx as ->. apply elem_of_app. right. left. }
      apply (get_sta_loop_found _ _ _ _ s).
      * intros x Hx. rewrite Hold by (apply Hin, elem_of_app; now left). auto.
      * rewrite Hold by (apply Hin, elem_of_app; right; left). assumption.
      * assumption.
  - intros f Hf. unfold agr_at. cbn. rewrite lookup_insert_eq. cbn.
    apply lookup_replicate_2. lia.
  - intros q Hq. cbn in Hq |- *. apply elem_of_app in Hq as [Hq|Hq].
    + rewrite (Hold q Hq). auto.
    + apply list_elem_of_singleton in Hq as ->. exists new.
      split; [apply lookup_insert_eq|]. cbn. apply length_replicate.
  - auto.
Qed.

(** Removing a station: the listed stations are looked up as before, but
    for the one removed. *)
Lemma get_sta_loop_unlink mm l p s b :
  NoDup l -> mm !! p = Some s -> addr s <> b ->
  (forall q, q ∈ l -> is_Some (mm !! q)) ->
  get_sta_loop (delete p mm) (unlink p l) b = get_sta_loop mm l b.
Proof.
  intros Hnd Hs Hb. induction l as [|x l IH]; intros Hlive; cbn; [reflexivity|].
  apply NoDup_cons in Hnd as [Hx Hnd].
  case_bool_decide as Hxp.
  - subst x. rewrite Hs. cbn. apply Z.eqb_neq in Hb. rewrite Hb.
    clear IH. induction l as [|y l IH]; cbn; [reflexivity|].
    assert (y <> p) by (intros ->; apply Hx; left).
    rewrite lookup_delete_ne by congruence.
    destruct (mm !! y); cbn; [|reflexivity].
    destruct (addr m =? b); [reflexivity|]. apply IH.
    + intros Hin. apply Hx. now right.
    + now apply NoDup_cons in Hnd as [_ ?].
    + intros q Hq. apply Hlive. apply elem_of_cons in Hq as [->|Hq]; [left|right; now right].
  - cbn. rewrite lookup_delete_ne by congruence.
    destruct (mm !! x); cbn; [|reflexivity].
    destruct (addr m =? b); [reflexivity|]. apply IH; [assumption|].
    intros q Hq. apply Hlive. now right.
Qed.

(** [morse_twt_sta_remove_addr]: an address without a station record gives
    -ENODEV and changes nothing.  Otherwise the record is unlisted and
    freed, all of its agreements leave the wake-interval lists, the
    responses queued for the address are purged, the event queue is not
    touched, and afterwards the address is not found any more while every
    other address is looked up as before. *)
Theorem sta_remove_addr_spec (t : morse_twt) (a : Z) :
  stas_live t -> NoDup (stas t) -> addrs_unique t ->
  NoDup (concat (wake_intervals t)) ->
  exists r t',
    morse_twt_sta_remove_addr MAX t a = Some (r, t') /\
    morse_twt_get_sta t' a = Some None /\
    (forall b, b <> a -> morse_twt_get_sta t' b = morse_twt_get_sta t b) /\
    events t' = events t /\
    ((r = - ENODEV /\ t' = t /\ morse_twt_get_sta t a = Some None) \/
     (r = 0 /\ exists p s,
        morse_twt_get_sta t a = Some (Some p) /\ sta_mem t !! p = Some s /\
        sta_mem t' = delete p (sta_mem t) /\ (p ∉ stas t') /\
        (forall q, q ∈ stas t' <-> q ∈ stas t /\ q <> p) /\
        (forall x, x ∈ concat (wake_intervals t')
                   <-> x ∈ concat (wake_intervals t) /\ ~ (x.1 = p /\ (x.2 < MAX)%nat)) /\
        (forall e, e ∈ tx t' <-> e ∈ tx t /\ ev_addr e <> a))).
Proof.
  intros Hlive Hnd Huniq Hwnd. unfold morse_twt_sta_remove_addr, morse_twt_get_sta.
  destruct (get_sta_loop_cases (sta_mem t) (stas t) a) as
    [[Hn Hall]|(pre & p & post & s & Hl & Hp & Hpa & Hpre & Hrun)].
  { intros q Hq. destruct (Hlive q Hq) as (s & Hs & _). eauto. }
  - rewrite Hn. cbn. exists (- ENODEV), t. split; [reflexivity|]. split; [exact Hn|].
    split; [reflexivity|]. split; [reflexivity|]. left. auto.
  - rewrite Hrun. cbn [mbind option_bind].
    assert (Hpin : p ∈ stas t) by (rewrite Hl; apply elem_of_app; right; left).
    destruct (Hlive p Hpin) as (s' & Hs' & Hlen). rewrite Hp in Hs'. injection Hs' as <-.
    rewrite (sta_remove_eq t p s Hp Hlen).
    exists 0, (sta_removed p s t). split; [reflexivity|].
    assert (Hstas : forall q, q ∈ unlink p (stas t) <-> q ∈ stas t /\ q <> p)
      by (intros q; now apply elem_of_unlink).
    split; [|split; [|split; [reflexivity|right; split; [reflexivity|]]]].
    + cbn. apply get_sta_loop_none. intros q Hq. apply Hstas in Hq as [Hq Hne].
      rewrite lookup_delete_ne by congruence.
      destruct (Hlive q Hq) as (sq & Hsq & _). exists sq. split; [assumption|].
      intros Heq. apply Hne. apply (Huniq q p sq s Hq Hpin Hsq Hp). congruence.
    + intros b Hb. cbn. apply (get_sta_loop_unlink _ _ _ s); auto; [congruence|].
      intros q Hq. destruct (Hlive q Hq) as (sq & Hsq & _). eauto.
    + exists p, s. split; [reflexivity|]. split; [assumption|]. split; [reflexivity|].
      split; [cbn; intros Hin; apply Hstas in Hin as [_ ?]; congruence|].
      split; [exact Hstas|]. split.
      * intros x. cbn.
        destruct (wi_unlink_flows_spec p MAX 0 (wake_intervals t) Hwnd) as (_ & _ & Hx).
        rewrite Hx. split; intros [H1 H2]; (split; [assumption|]);
          intros [H3 H4]; apply H2; (split; [assumption|lia]).
      * intros e. cbn. unfold morse_twt_queue_purge. rewrite list_elem_of_In, filter_In.
        rewrite <- list_elem_of_In. unfold purge_matches. cbn. rewrite andb_true_r.
        rewrite negb_true_iff, Z.eqb_neq, Hpa. reflexivity.
Qed.

(** The loop of [morse_twt_sta_remove_all] over the stations [l]. *)
Lemma sta_remove_all_loop_spec l : forall t,
  NoDup l -> NoDup (stas t) ->
  (forall p, p ∈ l -> exists s, sta_mem t !! p = Some s /\ length (agreements s) = MAX) ->
  NoDup (concat (wake_intervals t)) ->
  exists t',
    sta_remove_all_loop MAX t l = Some t' /\
    events t' = events t /\ action_frames t' = action_frames t /\
    vif_type t' = vif_type t /\
    (vif_type t <> NL80211_IFTYPE_STATION ->
       to_install_uninstall t' = to_install_uninstall t) /\
    (forall q, q ∈ stas t' <-> q ∈ stas t /\ q ∉ l) /\
    (forall q, sta_mem t' !! q = if bool_decide (q ∈ l) then None else sta_mem t !! q) /\
    NoDup (concat (wake_intervals t')) /\
    ([] ∉ wake_intervals t -> [] ∉ wake_intervals t') /\
    (forall x, x ∈ concat (wake_intervals t')
               <-> x ∈ concat (wake_intervals t) /\ ~ (x.1 ∈ l /\ (x.2 < MAX)%nat)) /\
    (forall e, e ∈ tx t' <->
       e ∈ tx t /\ forall p s, p ∈ l -> sta_mem t !! p = Some s -> ev_addr e <> addr s).
Proof.
  induction l as [|p l IH]; intros t Hnd Hsnd Hlive Hwnd; cbn [sta_remove_all_loop].
  - exists t. split; [reflexivity|].
    do 3 (split; [reflexivity|]). split; [auto|].
    split; [intros q; rewrite elem_of_nil; tauto|].
    split; [intros q; reflexivity|]. split; [assumption|]. split; [auto|].
    split; [intros x; rewrite elem_of_nil; tauto|].
    intros e. split; [intros ?; split; [assumption|]|intros [? _]; assumption].
    intros p s Hp. inversion Hp.
  - apply NoDup_cons in Hnd as [Hpl Hnd].
    destruct (Hlive p ltac:(left)) as (s & Hs & Hlen).
    rewrite (sta_remove_eq t p s Hs Hlen). cbn [mbind option_bind snd].
    destruct (wi_unlink_flows_spec p MAX 0 (wake_intervals t) Hwnd) as (W1 & W2 & W3).
    destruct (IH (sta_removed p s t) Hnd) as
      (t' & Hrun & Hev & Haf & Hvt & Hti & Hst & Hmem & Hw1 & Hw2 & Hw3 & Htx).
    { cbn. now apply NoDup_unlink. }
    { intros q Hq. cbn. rewrite lookup_delete_ne by (intros ->; contradiction).
      apply Hlive. now right. }
    { exact W1. }
    exists t'. split; [exact Hrun|]. cbn in Hev, Haf, Hvt, Hti, Hst, Hmem, Hw2, Hw3, Htx.
    split; [exact Hev|]. split; [exact Haf|]. split; [exact Hvt|].
    split; [intros Hv; rewrite Hti by assumption; destruct (vif_type t); congruence|].
    split; [|split; [|split; [exact Hw1|split; [auto|split]]]].
    + intros q. rewrite Hst, (elem_of_unlink _ _ _ Hsnd), not_elem_of_cons. tauto.
    + intros q. rewrite Hmem.
      destruct (decide (q ∈ l)) as [Hq|Hq].
      * rewrite bool_decide_eq_true_2 by assumption.
        rewrite bool_decide_eq_true_2 by (now right). reflexivity.
      * rewrite (bool_decide_eq_false_2 (q ∈ l)) by assumption.
        destruct (decide (q = p)) as [->|Hqp].
        -- rewrite bool_decide_eq_true_2 by left. apply lookup_delete_eq.
        -- rewrite bool_decide_eq_false_2
             by (intros Hc; apply elem_of_cons in Hc as [?|?]; contradiction).
           now apply lookup_delete_ne.
    + intros x. rewrite Hw3, W3. rewrite elem_of_cons. split.
      * intros [[Hx Hnp] Hnl]. split; [assumption|]. intros [[Hp|Hl] Hf].
        -- apply Hnp. split; [assumption|lia].
        -- apply Hnl. auto.
      * intros [Hx Hn]. split; [split; [assumption|]|].
        -- intros [Hp Hf]. apply Hn. split; [now left|lia].
        -- intros [Hl Hf]. apply Hn. split; [now right|assumption].
    + intros e. rewrite Htx. unfold morse_twt_queue_purge.
      rewrite list_elem_of_In, filter_In, <- list_elem_of_In.
      unfold purge_matches. cbn. rewrite andb_true_r, negb_true_iff, Z.eqb_neq. split.
      * intros [[He Hne] Hrest]. split; [assumption|]. intros q sq Hq Hsq.
        apply elem_of_cons in Hq as [->|Hq].
        -- rewrite Hs in Hsq. injection Hsq as <-. assumption.
        -- apply (Hrest q sq Hq). rewrite lookup_delete_ne by (intros ->; contradiction).
           assumption.
      * intros [He Hall]. split; [split; [assumption|]|].
        -- apply (Hall p s); [left|assumption].
        -- intros q sq Hq Hsq. destruct (decide (q = p)) as [->|Hqp]; [contradiction|].
           rewrite lookup_delete_ne in Hsq by congruence. apply (Hall q sq); [now right|assumption].
Qed.

(** The linked agreements belong to listed stations. *)
Definition slots_owned (t : morse_twt) : Prop :=
  forall x, x ∈ concat (wake_intervals t) -> x.1 ∈ stas t /\ (x.2 < MAX)%nat.

(** [morse_twt_finish_vif] removes every station and with them all the
    agreements, down to the last wake-interval list.  The three purges that
    follow are called with a [NULL] address, for which
    [morse_twt_queue_purge] returns at once: the event queue is left as it
    was, on an access point the install queue too, and of the queued
    responses those go whose address is that of a removed station. *)
Theorem finish_vif_spec (t : morse_twt) :
  stas_live t -> NoDup (stas t) ->
  NoDup (concat (wake_intervals t)) -> [] ∉ wake_intervals t -> slots_owned t ->
  exists t',
    morse_twt_finish_vif MAX t = Some (0, t') /\
    stas t' = [] /\ (forall p, p ∈ stas t -> sta_mem t' !! p = None) /\
    wake_intervals t' = [] /\
    events t' = events t /\
    (vif_type t <> NL80211_IFTYPE_STATION ->
       to_install_uninstall t' = to_install_uninstall t) /\
    (forall e, e ∈ tx t' <->
       e ∈ tx t /\ forall p s, p ∈ stas t -> sta_mem t !! p = Some s -> ev_addr e <> addr s).
Proof.
  intros Hlive Hnd Hwnd Hne Hown.
  destruct (sta_remove_all_loop_spec (stas t) t Hnd Hnd Hlive Hwnd) as
    (t' & Hrun & Hev & Haf & Hvt & Hti & Hst & Hmem & Hw1 & Hw2 & Hw3 & Htx).
  unfold morse_twt_finish_vif, morse_twt_sta_remove_all. rewrite Hrun.
  cbn [mbind option_bind snd].
  unfold morse_twt_tx_queue_purge, morse_twt_to_install_queue_purge,
    morse_twt_event_queue_purge, morse_twt_queue_purge.
  eexists. split; [reflexivity|]. cbn.
  split; [|split; [|split; [|split; [exact Hev|split; [exact Hti|exact Htx]]]]].
  - apply elem_of_nil_inv. intros q Hq. apply Hst in Hq as [? ?]. contradiction.
  - intros p Hp. rewrite Hmem. now rewrite bool_decide_eq_true_2.
  - destruct (wake_intervals t') as [|b r] eqn:Hw; [reflexivity|exfalso].
    destruct b as [|x b].
    + apply (Hw2 Hne). left.
    + assert (Hx : x ∈ concat ((x :: b) :: r)) by (cbn; left).
      apply Hw3 in Hx as [Hx Hn]. apply Hn. now apply Hown.
Qed.

End Tables.

(** *** Runs on concrete inputs *)

Lemma fresh_twt_live : stas_live MAX_FLOWS fresh_twt.
Proof.
  intros p Hp. cbn in Hp.
  apply elem_of_cons in Hp as [->|Hp]; [eexists; split; reflexivity|].
  apply list_elem_of_singleton in Hp as ->. eexists; split; reflexivity.
Qed.

Lemma fresh_twt_stas_NoDup : NoDup (stas fresh_twt).
Proof. apply NoDup_ListNoDup. repeat constructor; cbn; intuition discriminate. Qed.

Lemma fresh_twt_unique : addrs_unique fresh_twt.
Proof.
  intros p q s s' Hp Hq Hs Hs' Ha. cbn in Hp, Hq.
  apply elem_of_cons in Hp as [->|Hp]; [|apply list_elem_of_singleton in Hp as ->];
  (apply elem_of_cons in Hq as [->|Hq]; [|apply list_elem_of_singleton in Hq as ->]);
  try reflexivity; vm_compute in Hs, Hs'; injection Hs as <-; injection Hs' as <-;
  discriminate Ha.
Qed.

Lemma add_sta_get_sta_witness :
  stas_live MAX_FLOWS fresh_twt /\ morse_twt_get_sta fresh_twt 0xc3 = Some None /\
  exists p t',
    morse_twt_add_sta MAX_FLOWS fresh_twt 0xc3 = (Some p, t') /\
    morse_twt_get_sta t' 0xc3 = Some (Some p) /\
    morse_twt_get_sta t' 0xa1 = Some (Some 1%nat).
Proof.
  split; [exact fresh_twt_live|]. split; [reflexivity|].
  destruct (proj2 (add_sta_get_sta MAX_FLOWS fresh_twt 0xc3 fresh_twt_live eq_refl) eq_refl)
    as (p & t' & Hadd & _ & _ & _ & _ & Hget & Hother & _).
  exists p, t'. split; [exact Hadd|]. split; [exact Hget|].
  rewrite Hother by discriminate. reflexivity.
Defined.

Lemma sta_remove_addr_spec_witness :
  (stas_live MAX_FLOWS fresh_twt /\ NoDup (stas fresh_twt) /\ addrs_unique fresh_twt /\
   NoDup (concat (wake_intervals fresh_twt))) /\
  exists r t',
    morse_twt_sta_remove_addr MAX_FLOWS fresh_twt 0xa1 = Some (r, t') /\
    morse_twt_get_sta t' 0xa1 = Some None /\
    morse_twt_get_sta t' 0xb2 = Some (Some 2%nat).
Proof.
  assert (Hw : NoDup (concat (wake_intervals fresh_twt))) by constructor.
  split; [split; [exact fresh_twt_live|split; [exact fresh_twt_stas_NoDup|
          split; [exact fresh_twt_unique|exact Hw]]]|].
  destruct (sta_remove_addr_spec MAX_FLOWS fresh_twt 0xa1 fresh_twt_live
              fresh_twt_stas_NoDup fresh_twt_unique Hw)
    as (r & t' & Hrun & Hgone & Hother & _).
  exists r, t'. split; [exact Hrun|]. split; [exact Hgone|].
  rewrite Hother by discriminate. reflexivity.
Defined.

Lemma finish_vif_spec_witness :
  (stas_live MAX_FLOWS fresh_twt /\ NoDup (stas fresh_twt) /\
   NoDup (concat (wake_intervals fresh_twt)) /\ ([] ∉ wake_intervals fresh_twt) /\
   slots_owned MAX_FLOWS fresh_twt) /\
  exists t',
    morse_twt_finish_vif MAX_FLOWS (morse_twt_queue_event fresh_twt request_event)
      = Some (0, t') /\
    stas t' = [] /\ events t' = [request_event].
Proof.
  assert (Hw : NoDup (concat (wake_intervals fresh_twt))) by constructor.
  assert (Hne : [] ∉ wake_intervals fresh_twt) by apply not_elem_of_nil.
  assert (Hown : slots_owned MAX_FLOWS fresh_twt) by (intros x Hx; inversion Hx).
  split; [auto using fresh_twt_live, fresh_twt_stas_NoDup|].
  destruct (finish_vif_spec MAX_FLOWS (morse_twt_queue_event fresh_twt request_event)
              fresh_twt_live fresh_twt_stas_NoDup Hw Hne Hown)
    as (t' & Hrun & Hst & _ & _ & Hev & _).
  exists t'. split; [exact Hrun|]. split; [exact Hst|exact Hev].
Defined.

(** *** A request for a flow that has an agreement *)

Section Established.
Variable MAX : nat.

Lemma cmd_is_req_cases cmd :
  morse_twt_cmd_is_req cmd = true <->
    cmd = TWT_SETUP_CMD_REQUEST \/ cmd = TWT_SETUP_CMD_SUGGEST \/
    cmd = TWT_SETUP_CMD_DEMAND \/ cmd = TWT_SETUP_CMD_GROUPING.
Proof.
  destruct cmd; vm_compute; split; intros H; try discriminate; try tauto;
    repeat (destruct H as [H|H]; try discriminate).
Qed.

(** [morse_twt_send_reject] for a request that came in an action frame: the
    reject goes out at once, and the flow is taken to NO_AGREEMENT. *)
Lemma send_reject_action_run t p s event d :
  sta_mem t !! p = Some s -> length (agreements s) = MAX ->
  (flow_id event < MAX)%nat -> setup_agr_data event = Some d ->
  action_is_pending s = true ->
  NoDup (concat (wake_intervals t)) ->
  exists t' resp,
    morse_twt_send_reject MAX t (Some p) event = Some (0, t') /\
    response_to event resp TWT_SETUP_CMD_REJECT /\
    action_frames t' = action_frames t ++ [ActionFrame resp (addr s) (dialog_token s) true] /\
    flow_state t' p (flow_id event) = MORSE_TWT_STATE_NO_AGREEMENT /\
    ((p, flow_id event) ∉ concat (wake_intervals t')) /\
    (forall q, q.1 <> p ->
       (q ∈ concat (wake_intervals t') <-> q ∈ concat (wake_intervals t))) /\
    events t' = events t.
Proof.
  intros Hs Hlen Hf Hd Hpend Hnd.
  unfold morse_twt_send_reject, send_reject_with.
  cbn [setup_agr_data set_setup_cmd]. rewrite Hd. cbn [mbind option_bind].
  set (resp := set_setup_agr_data _ _).
  assert (Hresp : response_to event resp TWT_SETUP_CMD_REJECT).
  { repeat split. eexists. split; [reflexivity|]. cbn. apply get_command_set_command. }
  unfold send_response. rewrite Hs. cbn [mbind option_bind]. rewrite Hpend.
  set (t5 := set_sta_mem _ _).
  destruct (enter_no_agreement_run MAX t5 p (set_action_is_pending false s) resp)
    as (t6 & Hrun & Haf6 & Hev6 & Hres).
  { unfold t5. cbn [sta_mem set_sta_mem]. apply lookup_insert_eq. }
  { exact Hlen. }
  { exact Hf. }
  rewrite Hrun. cbn [mbind option_bind snd]. exists t6, resp.
  split; [reflexivity|]. split; [exact Hresp|].
  split; [rewrite Haf6; reflexivity|].
  change (flow_id resp) with (flow_id event) in Hres.
  change (wake_intervals t5) with (wake_intervals t) in Hres.
  pose proof (NoDup_wi_unlink (p, flow_id event) _ Hnd) as Hnd2.
  destruct (wi_unlink_flows_spec p MAX 0 _ Hnd2) as (_ & _ & Hin3).
  split; [|split; [|split; [|exact Hev6]]].
  - unfold flow_state, agr_at. cbn [fst snd].
    destruct (all_flows_idle _).
    + destruct Hres as (-> & _). now rewrite lookup_delete_eq.
    + destruct Hres as (-> & _). rewrite lookup_insert_eq. cbn.
      destruct (lookup_lt_is_Some_2 (agreements s) (flow_id event)) as [x Hx]; [lia|].
      rewrite list_lookup_alter_eq, Hx. reflexivity.
  - destruct (all_flows_idle _).
    + destruct Hres as (_ & _ & ->). rewrite Hin3. intros [_ Hout]. apply Hout.
      cbn. split; [reflexivity|lia].
    + destruct Hres as (_ & _ & -> & _). rewrite (elem_of_wi_unlink _ _ _ Hnd). tauto.
  - intros q Hq. destruct (all_flows_idle _).
    + destruct Hres as (_ & _ & ->). rewrite Hin3, (elem_of_wi_unlink _ _ _ Hnd). split.
      * tauto.
      * intros Hin. split; [split; [assumption|]|]; [intros ->; now apply Hq|tauto].
    + destruct Hres as (_ & _ & -> & _). rewrite (elem_of_wi_unlink _ _ _ Hnd).
      split; [tauto|]. intros Hin. split; [assumption|]. intros ->. now apply Hq.
Qed.

(** A setup event for a flow in AGREEMENT
    ([morse_twt_handle_event_in_agreement]).  A response command is refused
    with -EINVAL.  A request is dropped when a response for the peer and flow
    is waiting in the transmit queue.  Otherwise it is rejected: when it came
    with an association request, the REJECT is queued and the agreement stays
    as it is; when it came in an action frame, the REJECT goes out at once
    with the peer's dialog token and the flow enters NO_AGREEMENT, which
    takes the existing agreement out of the wake-interval lists. *)
Theorem agreement_request_rejected (t : morse_twt) (p : nat) (s : morse_twt_sta)
    (event : morse_twt_event) (d : morse_twt_agreement_data) :
  sta_mem t !! p = Some s ->
  length (agreements s) = MAX ->
  (flow_id event < MAX)%nat ->
  type event = MORSE_TWT_EVENT_SETUP ->
  setup_agr_data event = Some d ->
  NoDup (concat (wake_intervals t)) ->
  (morse_twt_cmd_is_req (setup_cmd event) = false ->
     morse_twt_handle_event_in_agreement MAX t p event = Some (- EINVAL, t)) /\
  (morse_twt_cmd_is_req (setup_cmd event) = true ->
     exists t',
       morse_twt_handle_event_in_agreement MAX t p event = Some (0, t') /\
       events t' = events t /\
       match morse_twt_peek_tx t (Some (addr s)) (Some (flow_id event)) with
       | Some _ => t' = t
       | None =>
           exists resp,
             response_to event resp TWT_SETUP_CMD_REJECT /\
             if action_is_pending s then
               action_frames t' =
                 action_frames t ++ [ActionFrame resp (addr s) (dialog_token s) true] /\
               flow_state t' p (flow_id event) = MORSE_TWT_STATE_NO_AGREEMENT /\
               ((p, flow_id event) ∉ concat (wake_intervals t')) /\
               (forall q, q.1 <> p ->
                  (q ∈ concat (wake_intervals t') <-> q ∈ concat (wake_intervals t)))
             else t' = set_tx (tx t ++ [resp]) t
       end).
Proof.
  intros Hs Hlen Hf Htype Hd Hnd. unfold morse_twt_handle_event_in_agreement.
  rewrite Htype. split; intros Hcmd.
  - destruct (setup_cmd event); try reflexivity; vm_compute in Hcmd; discriminate.
  - assert (Hbody :
      exists t',
        (s0 ← sta_mem t !! p;
         match morse_twt_peek_tx t (Some (addr s0)) (Some (flow_id event)) with
         | Some _ => Some (0, t)
         | None => r ← morse_twt_send_reject MAX t (Some p) event; Some (0, r.2)
         end) = Some (0, t') /\
        events t' = events t /\
        match morse_twt_peek_tx t (Some (addr s)) (Some (flow_id event)) with
        | Some _ => t' = t
        | None =>
            exists resp,
              response_to event resp TWT_SETUP_CMD_REJECT /\
              if action_is_pending s then
                action_frames t' =
                  action_frames t ++ [ActionFrame resp (addr s) (dialog_token s) true] /\
                flow_state t' p (flow_id event) = MORSE_TWT_STATE_NO_AGREEMENT /\
                ((p, flow_id event) ∉ concat (wake_intervals t')) /\
                (forall q, q.1 <> p ->
                   (q ∈ concat (wake_intervals t') <-> q ∈ concat (wake_intervals t)))
              else t' = set_tx (tx t ++ [resp]) t
        end).
    { rewrite Hs. cbn [mbind option_bind].
      destruct (morse_twt_peek_tx t (Some (addr s)) (Some (flow_id event))) as [i|].
      { exists t. auto. }
      destruct (action_is_pending s) eqn:Hpend.
      - destruct (send_reject_action_run t p s event d Hs Hlen Hf Hd Hpend Hnd)
          as (t' & resp & Hrun & Hresp & Haf & Hst & Hunl & Hoth & Hev).
        rewrite Hrun. cbn [mbind option_bind snd]. exists t'.
        split; [reflexivity|]. split; [exact Hev|]. exists resp. auto.
      - destruct (lookup_lt_is_Some_2 (agreements s) (flow_id event)) as [x Hx]; [lia|].
        destruct (send_reject_run MAX t p s x event d Hs Hlen Hx Hd)
          as (t' & resp & Hrun & Hresp & Hres).
        rewrite Hpend in Hres. subst t'.
        rewrite Hrun. cbn [mbind option_bind snd]. eexists.
        split; [reflexivity|]. split; [reflexivity|]. exists resp. auto. }
    apply cmd_is_req_cases in Hcmd as [-> | [-> | [-> | ->]]]; exact Hbody.
Qed.

End Established.

(** *** Handing a queued response over for transmission *)

Section Dequeue.
Variable MAX : nat.

(** [morse_twt_dequeue_tx(mors, mors_vif, tx)], [tx] being the event at
    position [i] of the transmit queue (the callers pass what
    [morse_twt_peek_tx] returned).  Of the calls made by
    [morse_twt_dequeue_tx_response] only [morse_twt_sta_remove] touches the
    transmit queue: it unlinks and frees every event of the station's
    address, [tx] among them, and the [morse_twt_purge_event(mors, tx)] that
    ends the function then works on freed memory ([None]). *)
Definition morse_twt_dequeue_tx (t : morse_twt) (i : nat) : option (Z * morse_twt) :=
  e ← tx t !! i;
  r ← match type e with
      | MORSE_TWT_EVENT_SETUP =>
          match setup_cmd e with
          | TWT_SETUP_CMD_REQUEST | TWT_SETUP_CMD_SUGGEST
          | TWT_SETUP_CMD_DEMAND | TWT_SETUP_CMD_GROUPING => Some (0, t)
          | _ => morse_twt_dequeue_tx_response MAX t e
          end
      | MORSE_TWT_EVENT_TEARDOWN => Some (0, t)
      end;
  if (length (tx r.2) =? length (tx t))%nat
  then Some (r.1, set_tx (delete i (tx r.2)) r.2)
  else None.

Lemma enter_agreement_eq t p x event d :
  agr_at t (p, flow_id event) = Some x ->
  (flow_id event < MAX)%nat -> setup_agr_data event = Some d ->
  morse_twt_enter_state MAX t (Some p) event MORSE_TWT_STATE_AGREEMENT
    = Some (0, agr_update (set_data d) (p, flow_id event)
                 (agr_update (set_state MORSE_TWT_STATE_AGREEMENT) (p, flow_id event) t)).
Proof.
  intros Ha Hf Hd. unfold morse_twt_enter_state, enter_state_with.
  rewrite Ha. cbn [mbind option_bind].
  unfold morse_twt_sta_agreement_add. rewrite Hd.
  destruct (Nat.leb_spec MAX (flow_id event)) as [|_]; [lia|].
  rewrite (agr_at_update_eq _ _ _ _ Ha). reflexivity.
Qed.

Lemma dequeue_tx_considered t i e p x d :
  tx t !! i = Some e -> type e = MORSE_TWT_EVENT_SETUP ->
  setup_cmd e = TWT_SETUP_CMD_ACCEPT -> (flow_id e < MAX)%nat ->
  morse_twt_get_sta t (ev_addr e) = Some (Some p) ->
  agr_at t (p, flow_id e) = Some x -> considered x -> setup_agr_data e = Some d ->
  exists t',
    morse_twt_dequeue_tx t i = Some (0, t') /\
    agr_at t' (p, flow_id e) = Some (Agr MORSE_TWT_STATE_AGREEMENT d) /\
    (forall q, q <> (p, flow_id e) -> agr_at t' q = agr_at t q) /\
    tx t' = delete i (tx t) /\
    stas t' = stas t /\ wake_intervals t' = wake_intervals t /\
    events t' = events t /\ action_frames t' = action_frames t.
Proof.
  intros Hi Htype Hcmd Hf Hget Hx [Hc1 Hc2] Hd. unfold morse_twt_dequeue_tx. rewrite Hi.
  cbn [mbind option_bind]. rewrite Htype, Hcmd. unfold morse_twt_dequeue_tx_response.
  rewrite Hget. cbn [mbind option_bind]. rewrite Hx. cbn [mbind option_bind]. rewrite Hcmd.
  rewrite (enter_agreement_eq t p x e d Hx Hf Hd).
  assert (Hgoal : exists t',
    (r ← Some (0, agr_update (set_data d) (p, flow_id e)
                    (agr_update (set_state MORSE_TWT_STATE_AGREEMENT) (p, flow_id e) t));
     if (length (tx r.2) =? length (tx t))%nat
     then Some (r.1, set_tx (delete i (tx r.2)) r.2) else None) = Some (0, t') /\
    agr_at t' (p, flow_id e) = Some (Agr MORSE_TWT_STATE_AGREEMENT d) /\
    (forall q, q <> (p, flow_id e) -> agr_at t' q = agr_at t q) /\
    tx t' = delete i (tx t) /\
    stas t' = stas t /\ wake_intervals t' = wake_intervals t /\
    events t' = events t /\ action_frames t' = action_frames t).
  { cbn [mbind option_bind fst snd]. cbn [tx agr_update set_sta_mem].
    rewrite Nat.eqb_refl. eexists. split; [reflexivity|].
    split; [|split; [|repeat split]].
    - match goal with |- context [agr_at (set_tx ?v ?u) ?q] =>
        change (agr_at (set_tx v u) q) with (agr_at u q) end.
      rewrite (agr_at_update_eq _ _ _ (set_state MORSE_TWT_STATE_AGREEMENT x));
        [reflexivity|now apply agr_at_update_eq].
    - intros q Hq.
      match goal with |- context [agr_at (set_tx ?v ?u) ?q] =>
        change (agr_at (set_tx v u) q) with (agr_at u q) end.
      rewrite !agr_at_update_ne by auto. reflexivity. }
  destruct (state x); try exact Hgoal; contradiction.
Qed.

(** [morse_twt_dequeue_tx] of a queued response.  An ACCEPT for a flow under
    consideration completes the handshake: the flow is in AGREEMENT with the
    agreement data of the response, the response has left the queue, and the
    stations, the wake-interval lists and the other queues are as before.  A
    response for a flow that is not under consideration gives -EINVAL, one
    for a peer without station record -ENODEV; the response leaves the queue
    all the same, and nothing else changes. *)
Theorem dequeue_tx_accept (t : morse_twt) (i : nat) (e : morse_twt_event) :
  tx t !! i = Some e ->
  type e = MORSE_TWT_EVENT_SETUP ->
  setup_cmd e = TWT_SETUP_CMD_ACCEPT ->
  (flow_id e < MAX)%nat ->
  (morse_twt_get_sta t (ev_addr e) = Some None ->
     morse_twt_dequeue_tx t i = Some (- ENODEV, set_tx (delete i (tx t)) t)) /\
  (forall p x,
     morse_twt_get_sta t (ev_addr e) = Some (Some p) ->
     agr_at t (p, flow_id e) = Some x ->
     (~ considered x ->
        morse_twt_dequeue_tx t i = Some (- EINVAL, set_tx (delete i (tx t)) t)) /\
     (considered x ->
        forall d, setup_agr_data e = Some d ->
        exists t',
          morse_twt_dequeue_tx t i = Some (0, t') /\
          agr_at t' (p, flow_id e) = Some (Agr MORSE_TWT_STATE_AGREEMENT d) /\
          (forall q, q <> (p, flow_id e) -> agr_at t' q = agr_at t q) /\
          tx t' = delete i (tx t) /\
          stas t' = stas t /\ wake_intervals t' = wake_intervals t /\
          events t' = events t /\ action_frames t' = action_frames t)).
Proof.
  intros Hi Htype Hcmd Hf. split.
  - intros Hget. unfold morse_twt_dequeue_tx. rewrite Hi. cbn [mbind option_bind].
    rewrite Htype, Hcmd. unfold morse_twt_dequeue_tx_response. rewrite Hget.
    cbn [mbind option_bind fst snd]. now rewrite Nat.eqb_refl.
  - intros p x Hget Hx. split.
    + intros Hnc. unfold morse_twt_dequeue_tx. rewrite Hi. cbn [mbind option_bind].
      rewrite Htype, Hcmd. unfold morse_twt_dequeue_tx_response. rewrite Hget.
      cbn [mbind option_bind]. rewrite Hx. cbn [mbind option_bind]. unfold considered in Hnc.
      destruct (state x); cbn [mbind option_bind fst snd];
        try (now rewrite Nat.eqb_refl); exfalso; apply Hnc; split; discriminate.
    + intros Hc d Hd. now apply (dequeue_tx_considered t i e p x d).
Qed.

End Dequeue.

(** *** The event loop ([morse_twt_handle_event]) *)

Lemma find_index_delete {A} (f : A -> bool) l i :
  find_index f l = Some i ->
  exists x, l !! i = Some x /\ x ∈ l /\ f x = true /\
    List.filter (fun y => negb (f y)) (delete i l) = List.filter (fun y => negb (f y)) l /\
    List.filter f l = x :: List.filter f (delete i l) /\
    S (length (delete i l)) = length l.
Proof.
  revert i. induction l as [|a l IH]; intros i; cbn [find_index]; [discriminate|].
  destruct (f a) eqn:Hfa.
  - intros [= <-]. exists a. change (delete 0%nat (a :: l)) with l.
    cbn [List.filter]. rewrite Hfa. repeat split. left.
  - destruct (find_index f l) as [k|] eqn:Hk; [|discriminate]. intros [= <-].
    destruct (IH k eq_refl) as (x & Hx & Hin & Hfx & Hfilter & Hkeep & Hlen).
    exists x. change (delete (S k) (a :: l)) with (a :: delete k l).
    cbn [List.filter length]. rewrite Hfa. cbn [negb].
    split; [exact Hx|]. split; [now right|].
    split; [assumption|]. split; [now rewrite Hfilter|]. split; [assumption|]. now rewrite Hlen.
Qed.

Lemma find_index_None_filter {A} (f : A -> bool) l :
  find_index f l = None ->
  List.filter (fun y => negb (f y)) l = l /\ List.filter f l = [].
Proof.
  induction l as [|a l IH]; cbn [find_index List.filter]; [auto|].
  destruct (f a) eqn:Hfa; [discriminate|].
  destruct (find_index f l); [discriminate|]. intros _. cbn [negb].
  destruct (IH eq_refl) as [-> ->]. auto.
Qed.

(** The events a call with the address filter [addr] takes off the queue:
    all of them without a filter, else those of the address and those of the
    zero address. *)
Definition wanted (addr : option Z) (e : morse_twt_event) : bool :=
  match addr with
  | None => true
  | Some a => peek_matches a None e
  end.

Lemma peek_event_wanted t addr :
  match morse_twt_peek_event t addr None with
  | Some i =>
      exists x, events t !! i = Some x /\ x ∈ events t /\ wanted addr x = true /\
        List.filter (fun y => negb (wanted addr y)) (delete i (events t))
          = List.filter (fun y => negb (wanted addr y)) (events t) /\
        List.filter (wanted addr) (events t)
          = x :: List.filter (wanted addr) (delete i (events t)) /\
        S (length (delete i (events t))) = length (events t)
  | None =>
      List.filter (fun y => negb (wanted addr y)) (events t) = events t /\
      List.filter (wanted addr) (events t) = []
  end.
Proof.
  unfold morse_twt_peek_event, morse_twt_peek_queue. destruct addr as [a|]; cbn [wanted].
  - destruct (find_index (peek_matches a None) (events t)) as [i|] eqn:Hi.
    + now apply find_index_delete.
    + now apply find_index_None_filter.
  - destruct (events t) as [|e q]; [auto|].
    exists e. cbn. repeat split. left.
Qed.

Section Loop.
Variable MAX : nat.
Variables (responder requester associated : bool).

(** **** An interface that does not respond *)

(** What is scheduled for a received ACCEPT. *)
Definition install_work : list twt_work := if associated then [TWT_CMD_WORK] else [].

Definition is_accept (e : morse_twt_event) : bool :=
  match setup_cmd e with TWT_SETUP_CMD_ACCEPT => true | _ => false end.

(** The ACCEPTs among the events taken, which a requester keeps. *)
Definition accepted (addr : option Z) (q : list morse_twt_event) : list morse_twt_event :=
  if requester then List.filter is_accept (List.filter (wanted addr) q) else [].

(** The state after all events wanted have been taken off the queue and the
    ACCEPTs kept have been moved to the install queue. *)
Definition sorted_out (addr : option Z) (t : morse_twt) : morse_twt :=
  set_to_install_uninstall (to_install_uninstall t ++ accepted addr (events t))
    (set_events (List.filter (fun e => negb (wanted addr e)) (events t)) t).

Lemma pass_no_responder t i e :
  responder = false ->
  events t !! i = Some e -> type e = MORSE_TWT_EVENT_SETUP ->
  handle_event_pass MAX responder requester associated t i =
    Some (Pass_next,
          (if requester && is_accept e
           then set_to_install_uninstall (to_install_uninstall t ++ [e])
                  (set_events (delete i (events t)) t)
           else set_events (delete i (events t)) t),
          if requester && is_accept e then install_work else []).
Proof.
  intros Hr Hi Htype. unfold handle_event_pass. rewrite Hi. cbn [mbind option_bind].
  unfold morse_twt_preprocess_event, is_accept, install_work. rewrite Htype, Hr.
  destruct (setup_cmd e), requester; reflexivity.
Qed.

Lemma loop_no_responder addr fuel : forall t w,
  responder = false ->
  (length (events t) <= fuel)%nat ->
  (forall e, e ∈ events t -> wanted addr e = true -> type e = MORSE_TWT_EVENT_SETUP) ->
  handle_event_loop MAX responder requester associated fuel t addr w =
    Some (Some (sorted_out addr t,
                w ++ concat ((fun _ => install_work) <$> accepted addr (events t)))).
Proof.
  induction fuel as [|fuel IH]; intros t w Hr Hlen Hall.
  - assert (He : events t = []) by (destruct (events t); [reflexivity|cbn in Hlen; lia]).
    unfold handle_event_loop, morse_twt_peek_event, morse_twt_peek_queue, sorted_out, accepted.
    rewrite He. cbn. destruct addr, requester; cbn; rewrite !app_nil_r;
      destruct t; cbn in *; subst; reflexivity.
  - cbn [handle_event_loop]. pose proof (peek_event_wanted t addr) as Hpeek.
    destruct (morse_twt_peek_event t addr None) as [i|].
    + destruct Hpeek as (x & Hx & Hin & Hw & Hrest & Htaken & Hl).
      rewrite (pass_no_responder t i x Hr Hx (Hall x Hin Hw)).
      set (t1 := if requester && is_accept x then _ else _).
      assert (Hev1 : events t1 = delete i (events t)).
      { unfold t1. destruct (requester && is_accept x); reflexivity. }
      rewrite (IH t1), Hev1; [|assumption|rewrite Hev1; lia|].
      2:{ intros e He. rewrite Hev1 in He. apply Hall.
          apply list_elem_of_In in He. apply list_elem_of_In.
          revert He. clear. revert i. induction (events t) as [|y l IHl]; intros [|i] He;
            cbn in *; auto. destruct He as [->|He]; [now left|right; eauto]. }
      f_equal. f_equal. unfold sorted_out, accepted. rewrite Hev1, Hrest, Htaken.
      cbn [List.filter]. unfold t1.
      destruct requester; cbn [andb]; [|rewrite !app_nil_r; f_equal].
      destruct (is_accept x); cbn [fmap list_fmap concat to_install_uninstall
        set_to_install_uninstall set_events events]; rewrite <- ?app_assoc; reflexivity.
    + destruct Hpeek as [Hkeep Hnone]. unfold sorted_out, accepted. rewrite Hkeep, Hnone.
      cbn. destruct requester; cbn; rewrite !app_nil_r; destruct t; reflexivity.
Qed.

(** On an interface that is not a TWT responder, [morse_twt_handle_event]
    touches no station, no agreement and no response queue, whatever setup
    events it finds: a requester moves the ACCEPTs it was asked for to the
    install queue, in their order, scheduling the command work for each if
    the interface is associated, and every other event asked for is dropped.
    The events of other addresses stay queued. *)
Theorem handle_event_not_responder (t : morse_twt) (addr : option Z) :
  responder = false ->
  (forall e, e ∈ events t -> wanted addr e = true -> type e = MORSE_TWT_EVENT_SETUP) ->
  exists t',
    morse_twt_handle_event MAX responder requester associated t addr
      = Some (t', concat ((fun _ => install_work) <$> accepted addr (events t))) /\
    events t' = List.filter (fun e => negb (wanted addr e)) (events t) /\
    to_install_uninstall t' = to_install_uninstall t ++ accepted addr (events t) /\
    sta_mem t' = sta_mem t /\ stas t' = stas t /\
    wake_intervals t' = wake_intervals t /\ tx t' = tx t /\
    action_frames t' = action_frames t /\
    active_agreement_bitmap t' = active_agreement_bitmap t.
Proof.
  intros Hr Hall. exists (sorted_out addr t). unfold morse_twt_handle_event.
  rewrite (loop_no_responder addr _ t [] Hr (le_n _) Hall). cbn. repeat split.
Qed.

End Loop.

(** *** What the handlers leave alone: the event queue *)

(** A step that, when it goes through, leaves the event queue as it was. *)
Definition keeps_events {A} (t : morse_twt) (r : option (A * morse_twt)) : Prop :=
  forall x t', r = Some (x, t') -> events t' = events t.

Lemma keeps_events_ret {A} t (x : A) t' :
  events t' = events t -> keeps_events t (Some (x, t')).
Proof. intros H y t'' [= <- <-]. exact H. Qed.

Lemma keeps_events_None {A} t : keeps_events (A := A) t None.
Proof. intros x t' H. discriminate. Qed.

Lemma keeps_events_bind {A B} t (r : option (A * morse_twt))
    (k : A * morse_twt -> option (B * morse_twt)) :
  keeps_events t r -> (forall x t1, events t1 = events t -> keeps_events t (k (x, t1))) ->
  keeps_events t (r ≫= k).
Proof.
  intros Hr Hk y t'' H. destruct r as [[x t1]|]; [|discriminate]. cbn in H.
  exact (Hk x t1 (Hr x t1 eq_refl) y t'' H).
Qed.

Lemma keeps_events_ext {A} t t0 (r : option (A * morse_twt)) :
  events t0 = events t -> keeps_events t0 r -> keeps_events t r.
Proof. intros He Hr x t' H. rewrite (Hr x t' H). exact He. Qed.

Section Frame.
Variable MAX : nat.

Lemma agreement_remove_events t a : keeps_events t (morse_twt_agreement_remove t a).
Proof.
  unfold morse_twt_agreement_remove. intros x t' H.
  destruct (agr_at t a); [|discriminate]. cbn in H.
  destruct (agr_unlinked t a); injection H as <- <-; reflexivity.
Qed.

Lemma sta_remove_agreements_events p n : forall i t t',
  sta_remove_agreements t p i n = Some t' -> events t' = events t.
Proof.
  induction n as [|n IH]; intros i t t' H; cbn in H; [now injection H as <-|].
  destruct (morse_twt_agreement_remove t (p, i)) as [[x t1]|] eqn:Hrm; [|discriminate].
  cbn in H. rewrite (IH _ _ _ H). exact (agreement_remove_events t (p, i) x t1 Hrm).
Qed.

Lemma sta_remove_events t sta : keeps_events t (morse_twt_sta_remove MAX t sta).
Proof.
  unfold morse_twt_sta_remove. intros x t' H. destruct sta as [p|]; [|now injection H as <- <-].
  destruct (sta_mem t !! p) as [s|]; [|discriminate]. cbn in H.
  destruct (sta_remove_agreements t p 0 MAX) as [t1|] eqn:Hrm; [|discriminate]. cbn in H.
  injection H as <- <-. rewrite <- (sta_remove_agreements_events _ _ _ _ _ Hrm).
  destruct (vif_type t1); reflexivity.
Qed.

Lemma sta_agreement_remove_events t sta f :
  keeps_events t (morse_twt_sta_agreement_remove MAX t sta f).
Proof.
  unfold morse_twt_sta_agreement_remove. destruct sta as [p|]; [|now apply keeps_events_ret].
  destruct (MAX <=? f)%nat; [now apply keeps_events_ret|].
  apply keeps_events_bind; [apply agreement_remove_events|]. intros x t1 He. cbn [mbind option_bind snd].
  destruct (sta_mem t1 !! p) as [s|]; [|apply keeps_events_None]. cbn [mbind option_bind snd].
  destruct (forallb _ _); [|now apply keeps_events_ret].
  eapply keeps_events_ext; [exact He|apply sta_remove_events].
Qed.

Lemma sta_agreement_add_events t sta f d :
  keeps_events t (morse_twt_sta_agreement_add MAX t sta f d).
Proof.
  unfold morse_twt_sta_agreement_add. intros x t' H.
  destruct sta as [p|], d as [d|]; try (now injection H as <- <-).
  destruct (MAX <=? f)%nat; [now injection H as <- <-|].
  destruct (agr_at t (p, f)); [|discriminate]. now injection H as <- <-.
Qed.

Lemma wake_interval_add_events t agr :
  keeps_events t (morse_twt_agreement_wake_interval_add t agr).
Proof.
  intros r t'. unfold morse_twt_agreement_wake_interval_add.
  destruct (agr_at t agr) as [a|]; cbn [mbind option_bind]; [|discriminate].
  assert (Hsame : Some (- EINVAL, t) = Some (r, t') -> events t' = events t).
  { now intros [= _ <-]. }
  destruct (state a); try exact Hsame;
    (destruct (morse_twt_agreement_wake_interval_get t (wake_interval_us (data a)))
       as [[[i t1]|]|] eqn:Hget; cbn [mbind option_bind]; [|exact Hsame|discriminate];
     apply wake_interval_get_shape in Hget as [l' ->];
     destruct (wake_intervals (set_wake_intervals l' t) !! i) as [[|c b]|];
       cbn [mbind option_bind];
       [now intros [= _ <-]| |discriminate];
     destruct (_ =? _); [now intros [= _ <-]|];
     destruct (wi_place _ _ _ _) as [[[time b']|]|]; cbn [mbind option_bind];
       [now intros [= _ <-]|now intros [= _ <-]|discriminate]).
Qed.

Definition fn_keeps_events (enter_state : enter_state_fn) : Prop :=
  forall t sta event st, keeps_events t (enter_state t sta event st).

Lemma send_response_events enter_state t p event next :
  fn_keeps_events enter_state ->
  keeps_events t (send_response enter_state t p event next).
Proof.
  intros Hes. unfold send_response.
  destruct (sta_mem t !! p) as [s|]; [|apply keeps_events_None]. cbn [mbind option_bind snd].
  destruct (action_is_pending s); [|now apply keeps_events_ret].
  apply keeps_events_bind.
  - eapply keeps_events_ext; [|apply Hes]. reflexivity.
  - intros x t1 He. now apply keeps_events_ret.
Qed.

Lemma send_accept_with_events enter_state t sta event :
  fn_keeps_events enter_state ->
  keeps_events t (send_accept_with enter_state t sta event).
Proof.
  intros Hes. unfold send_accept_with.
  destruct sta as [p|]; [|now apply keeps_events_ret].
  destruct (setup_agr_data event) as [d|]; [|now apply keeps_events_ret].
  destruct (agr_at t (p, flow_id event)); [|apply keeps_events_None]. cbn [mbind option_bind].
  apply keeps_events_bind.
  - eapply keeps_events_ext; [|apply wake_interval_add_events]. reflexivity.
  - intros x t1 He. cbn [snd].
    destruct (agr_at _ _); [|apply keeps_events_None]. cbn [mbind option_bind].
    eapply keeps_events_ext; [|apply send_response_events; exact Hes]. exact He.
Qed.

Lemma send_reject_with_events enter_state t sta event :
  fn_keeps_events enter_state ->
  keeps_events t (send_reject_with enter_state t sta event).
Proof.
  intros Hes. unfold send_reject_with.
  destruct sta as [p|]; [|now apply keeps_events_ret].
  destruct (setup_agr_data _) as [d|]; [|apply keeps_events_None]. cbn [mbind option_bind].
  now apply send_response_events.
Qed.

Lemma enter_state_with_events send_accept send_reject :
  (forall t sta event, keeps_events t (send_accept t sta event)) ->
  (forall t sta event, keeps_events t (send_reject t sta event)) ->
  fn_keeps_events (enter_state_with MAX send_accept send_reject).
Proof.
  intros Ha Hr t sta event st. unfold enter_state_with.
  destruct sta as [p|]; [|now apply keeps_events_ret].
  destruct (agr_at t (p, flow_id event)); [|apply keeps_events_None]. cbn [mbind option_bind].
  apply keeps_events_bind.
  - eapply keeps_events_ext with (t0 := agr_update (set_state st) (p, flow_id event) t);
      [reflexivity|].
    destruct st; first [apply Ha | apply Hr | apply sta_agreement_remove_events
                       | apply sta_agreement_add_events].
  - intros x t1 He. now apply keeps_events_ret.
Qed.

Lemma enter_state_settled_events : fn_keeps_events (enter_state_settled MAX).
Proof. apply enter_state_with_events; intros; now apply keeps_events_ret. Qed.

Lemma send_accept_events t sta event : keeps_events t (morse_twt_send_accept MAX t sta event).
Proof. apply send_accept_with_events, enter_state_settled_events. Qed.

Lemma send_reject_events t sta event : keeps_events t (morse_twt_send_reject MAX t sta event).
Proof. apply send_reject_with_events, enter_state_settled_events. Qed.

Lemma enter_state_events : fn_keeps_events (morse_twt_enter_state MAX).
Proof. apply enter_state_with_events; [apply send_accept_events|apply send_reject_events]. Qed.

Lemma handle_event_in_no_agreement_events t sta event :
  keeps_events t (morse_twt_handle_event_in_no_agreement MAX t sta event).
Proof.
  unfold morse_twt_handle_event_in_no_agreement.
  destruct sta as [p|]; [|now apply keeps_events_ret].
  destruct (type event); [|now apply keeps_events_ret].
  destruct (setup_cmd event); try (now apply keeps_events_ret);
    (apply keeps_events_bind; [apply enter_state_events|];
     intros x t1 He; now apply keeps_events_ret).
Qed.

Lemma handle_event_in_agreement_events t p event :
  keeps_events t (morse_twt_handle_event_in_agreement MAX t p event).
Proof.
  unfold morse_twt_handle_event_in_agreement.
  destruct (type event); [|now apply keeps_events_ret].
  destruct (setup_cmd event); try (now apply keeps_events_ret);
    (destruct (sta_mem t !! p) as [s|]; [|apply keeps_events_None]; cbn [mbind option_bind];
     destruct (morse_twt_peek_tx _ _ _); [now apply keeps_events_ret|];
     apply keeps_events_bind; [apply send_reject_events|];
     intros x t1 He; now apply keeps_events_ret).
Qed.

Lemma handle_event_teardown_events t sta event :
  keeps_events t (morse_twt_handle_event_teardown MAX t sta event).
Proof.
  unfold morse_twt_handle_event_teardown.
  destruct (vif_type t); try (now apply keeps_events_ret). apply enter_state_events.
Qed.

Lemma handle_setup_event_events t p event t' :
  handle_setup_event MAX t p event = Some t' -> events t' = events t.
Proof.
  unfold handle_setup_event. destruct (agr_at t (p, flow_id event)) as [a|]; [|discriminate].
  cbn [mbind option_bind].
  destruct (state a).
  - destruct (morse_twt_handle_event_in_no_agreement MAX t (Some p) event) as [[x t1]|] eqn:H;
      [|discriminate]. intros [= <-]. exact (handle_event_in_no_agreement_events _ _ _ _ _ H).
  - unfold morse_twt_handle_event_in_consider.
    destruct (type event), (setup_cmd event); now intros [= <-].
  - unfold morse_twt_handle_event_in_consider.
    destruct (type event), (setup_cmd event); now intros [= <-].
  - unfold morse_twt_handle_event_in_consider.
    destruct (type event), (setup_cmd event); now intros [= <-].
  - unfold morse_twt_handle_event_in_consider.
    destruct (type event), (setup_cmd event); now intros [= <-].
  - destruct (morse_twt_handle_event_in_agreement MAX t p event) as [[x t1]|] eqn:H;
      [|discriminate]. intros [= <-]. exact (handle_event_in_agreement_events _ _ _ _ _ H).
Qed.

Section Passes.
Variables (responder requester associated : bool).

Lemma preprocess_events t event more t' w :
  morse_twt_preprocess_event responder requester associated t event = (more, t', w) ->
  events t' = events t /\ sta_mem t' = sta_mem t /\ stas t' = stas t /\
  can_alloc t' = can_alloc t /\ (TWT_WORK ∉ w).
Proof.
  unfold morse_twt_preprocess_event.
  assert (Hnil : TWT_WORK ∉ @nil twt_work) by apply not_elem_of_nil.
  assert (Hcmd : TWT_WORK ∉ (if associated then [TWT_CMD_WORK] else [])).
  { destruct associated; [|exact Hnil]. intros H. apply list_elem_of_singleton in H.
    discriminate. }
  destruct (type event), (teardown event), (setup_cmd event), responder, requester;
    intros [= <- <- <-]; auto.
Qed.

Lemma pass_events t i r t' w :
  handle_event_pass MAX responder requester associated t i = Some (r, t', w) ->
  events t' = delete i (events t) /\
  match r with Pass_return => exists w0, w = w0 ++ [TWT_WORK] | Pass_next => TWT_WORK ∉ w end.
Proof.
  unfold handle_event_pass. destruct (events t !! i) as [event|]; [|discriminate].
  cbn [mbind option_bind].
  destruct (morse_twt_preprocess_event _ _ _ _ event) as [[more t1] w1] eqn:Hpre.
  apply preprocess_events in Hpre as (He1 & _ & _ & _ & Hw1). cbn [events set_events] in He1.
  destruct more; [|intros [= <- <- <-]; auto].
  destruct (morse_twt_get_sta t1 (ev_addr event)) as [sta|]; [|discriminate].
  cbn [mbind option_bind]. destruct (type event).
  - destruct (match sta with Some p => (Some p, t1) | None => morse_twt_add_sta MAX t1 (ev_addr event) end)
      as [sta' t2] eqn:Hsta.
    assert (He2 : events t2 = events t1).
    { destruct sta as [p|]; [now injection Hsta as _ <-|].
      unfold morse_twt_add_sta in Hsta. destruct (can_alloc t1); now injection Hsta as _ <-. }
    destruct sta' as [p|].
    + destruct (handle_setup_event MAX t2 p event) as [t3|] eqn:Hh; [|discriminate].
      cbn [mbind option_bind]. intros [= <- <- <-].
      rewrite (handle_setup_event_events _ _ _ _ Hh), He2, He1. auto.
    + intros [= <- <- <-]. rewrite He2, He1. eauto.
  - destruct (morse_twt_handle_event_teardown MAX t1 sta event) as [[x t3]|] eqn:Hh;
      [|discriminate]. cbn [mbind option_bind snd]. intros [= <- <- <-].
    rewrite (handle_event_teardown_events _ _ _ _ _ Hh), He1. auto.
Qed.

(** The passes of the loop: the unwanted events stay where they are, and
    unless a pass gave up for want of memory, every wanted event is gone. *)
Lemma loop_takes_wanted addr fuel : forall t w,
  (length (events t) <= fuel)%nat ->
  handle_event_loop MAX responder requester associated fuel t addr w <> None /\
  forall t' w',
    handle_event_loop MAX responder requester associated fuel t addr w = Some (Some (t', w')) ->
    List.filter (fun e => negb (wanted addr e)) (events t')
      = List.filter (fun e => negb (wanted addr e)) (events t) /\
    sublist (events t') (events t) /\
    exists w1, w' = w ++ w1 /\
      (TWT_WORK ∉ w1 -> morse_twt_peek_event t' addr None = None).
Proof.
  induction fuel as [|fuel IH]; intros t w Hlen.
  - assert (He : events t = []) by (destruct (events t); [reflexivity|cbn in Hlen; lia]).
    assert (Hp : morse_twt_peek_event t addr None = None).
    { unfold morse_twt_peek_event, morse_twt_peek_queue. rewrite He. now destruct addr. }
    cbn [handle_event_loop]. rewrite Hp. split; [discriminate|].
    intros t' w' [= <- <-]. split; [reflexivity|]. split; [reflexivity|].
    exists []. now rewrite app_nil_r.
  - cbn [handle_event_loop]. pose proof (peek_event_wanted t addr) as Hpeek.
    destruct (morse_twt_peek_event t addr None) as [i|] eqn:Hp.
    + destruct Hpeek as (x & Hx & Hin & Hw & Hrest & Htaken & Hl).
      destruct (handle_event_pass MAX responder requester associated t i)
        as [[[r t1] w1]|] eqn:Hpass.
      2:{ split; [discriminate|]. intros t' w'; discriminate. }
      apply pass_events in Hpass as [He1 Hw1].
      assert (Hsub : sublist (events t1) (events t)) by (rewrite He1; apply sublist_delete).
      destruct r.
      * destruct (IH t1 (w ++ w1)) as [Hfuel Hres]; [rewrite He1; lia|].
        split; [exact Hfuel|]. intros t' w' Hrun.
        destruct (Hres t' w' Hrun) as (Hf & Hs & w2 & -> & Hdone).
        split; [now rewrite Hf, He1|]. split; [now transitivity (events t1)|].
        exists (w1 ++ w2). split; [now rewrite app_assoc|].
        intros Hno. apply Hdone. intros H. apply Hno, elem_of_app. now right.
      * split; [discriminate|]. intros t' w' [= <- <-].
        split; [now rewrite He1|]. split; [exact Hsub|].
        exists w1. split; [reflexivity|].
        intros Hno. exfalso. destruct Hw1 as [w0 ->]. apply Hno, elem_of_app. right. left.
    + split; [discriminate|]. intros t' w' [= <- <-]. split; [reflexivity|].
      split; [reflexivity|]. exists []. now rewrite app_nil_r.
Qed.

(** [morse_twt_handle_event] comes to an end: every pass of its loop takes
    one event off the queue and no handler puts one back, so the loop makes
    at most as many passes as there are events.  When the call returns, the
    events it was not asked for (those of other addresses) are all still
    queued, in their order, and unless it gave up for want of memory
    (rescheduling itself) none of those it was asked for is left. *)
Theorem handle_event_takes_wanted (t : morse_twt) (addr : option Z) :
  handle_event_loop MAX responder requester associated (length (events t)) t addr [] <> None /\
  forall t' w,
    morse_twt_handle_event MAX responder requester associated t addr = Some (t', w) ->
    List.filter (fun e => negb (wanted addr e)) (events t')
      = List.filter (fun e => negb (wanted addr e)) (events t) /\
    sublist (events t') (events t) /\
    (TWT_WORK ∉ w ->
       events t' = List.filter (fun e => negb (wanted addr e)) (events t) /\
       morse_twt_peek_event t' addr None = None).
Proof.
  destruct (loop_takes_wanted addr (length (events t)) t [] (le_n _)) as [Hfuel Hres].
  split; [exact Hfuel|]. intros t' w. unfold morse_twt_handle_event.
  destruct (handle_event_loop _ _ _ _ _ _ _ _) as [[[t1 w1]|]|]; cbn; try discriminate.
  intros [= <- <-]. destruct (Hres t1 w1 eq_refl) as (Hf & Hs & w2 & Hw & Hdone).
  cbn in Hw. subst w2. split; [exact Hf|]. split; [exact Hs|].
  intros Hno. specialize (Hdone Hno). split; [|exact Hdone].
  pose proof (peek_event_wanted t1 addr) as Hp. rewrite Hdone in Hp.
  destruct Hp as [Hkeep _]. now rewrite <- Hf.
Qed.

End Passes.

End Frame.

(** *** A request from a new peer *)

Lemma delete_snoc {A} (l : list A) (x : A) : delete (length l) (l ++ [x]) = l.
Proof.
  induction l as [|y l IH]; [reflexivity|].
  change (delete (length (y :: l)) ((y :: l) ++ [x])) with (y :: delete (length l) (l ++ [x])).
  now rewrite IH.
Qed.

Lemma elem_of_concat_iff {A} (x : A) (ls : list (list A)) :
  x ∈ concat ls <-> exists l, x ∈ l /\ l ∈ ls.
Proof.
  rewrite list_elem_of_In, in_concat. split; intros (l & H1 & H2); exists l;
    rewrite ?list_elem_of_In in *; auto.
Qed.

Section NewPeer.
Variable MAX : nat.
Variables (requester associated : bool).

(** The state in which a request with the given command is considered. *)
Definition consider_state (c : ieee80211_twt_setup_cmd) : morse_twt_state :=
  match c with
  | TWT_SETUP_CMD_SUGGEST => MORSE_TWT_STATE_CONSIDER_SUGGEST
  | _ => MORSE_TWT_STATE_CONSIDER_REQUEST
  end.

Lemma preprocess_request responder t e :
  type e = MORSE_TWT_EVENT_SETUP -> morse_twt_cmd_is_req (setup_cmd e) = true ->
  morse_twt_preprocess_event responder requester associated t e
    = (responder, t, []).
Proof.
  intros Htype Hcmd. unfold morse_twt_preprocess_event. rewrite Htype.
  apply cmd_is_req_cases in Hcmd as [-> | [-> | [-> | ->]]]; now destruct responder.
Qed.

(** A REQUEST or SUGGEST for an idle flow of a station whose request did not
    come in an action frame: the ACCEPT is queued. *)
Lemma setup_no_agreement_queued t p s a0 e d :
  sta_mem t !! p = Some s -> length (agreements s) = MAX ->
  agreements s !! flow_id e = Some a0 -> state a0 = MORSE_TWT_STATE_NO_AGREEMENT ->
  action_is_pending s = false ->
  type e = MORSE_TWT_EVENT_SETUP -> setup_agr_data e = Some d ->
  setup_cmd e = TWT_SETUP_CMD_REQUEST \/ setup_cmd e = TWT_SETUP_CMD_SUGGEST ->
  lists_sound t -> (p, flow_id e) ∉ concat (wake_intervals t) ->
  exists t3 resp x3,
    handle_setup_event MAX t p e = Some (set_tx (tx t ++ [resp]) t3) /\
    response_to e resp TWT_SETUP_CMD_ACCEPT /\
    stas t3 = stas t /\ tx t3 = tx t /\ action_frames t3 = action_frames t /\
    events t3 = events t /\
    (forall a, morse_twt_get_sta t3 a = morse_twt_get_sta t a) /\
    agr_at t3 (p, flow_id e) = Some x3 /\ state x3 = consider_state (setup_cmd e).
Proof.
  intros Hs Hlen Ha0 Hst0 Hpend Htype Hd Hcmd Hsound Hunl.
  set (f := flow_id e) in *. set (st := consider_state (setup_cmd e)).
  pose proof (agr_at_lookup t p f s a0 Hs Ha0) as Ha.
  destruct (considered_sta MAX t p s a0 e Hs Hlen Ha0 st) as (Hs0 & Hlen0 & Hx0).
  fold f in Hs0, Hlen0, Hx0.
  set (t0 := agr_update (set_state st) (p, f) t) in *.
  set (s0 := set_agreements _ s) in *.
  destruct (send_accept_run MAX t0 p s0 (set_state st a0) e d Hs0 Hlen0 Hx0 Hd)
    as (t1 & resp & Hrun & Hresp & Hres).
  { unfold t0. now apply lists_sound_update. }
  { exact Hunl. }
  change (action_is_pending s0) with (action_is_pending s) in Hres. rewrite Hpend in Hres.
  destruct Hres as (t3 & Hstep & ->).
  pose proof (send_accept_events MAX t0 (Some p) e _ _ Hrun) as Hev. cbn in Hev.
  destruct Hstep as (Hstas3 & Htx3 & Haf3 & Hother3 & Hp3).
  destruct (Hp3 s0 Hs0) as (s3 & Hs3 & Hid3 & Hdt3 & Hap3 & Hlen3 & Hslot3).
  destruct (Hslot3 _ Hx0) as (x3 & Hx3 & Hstate3). cbn in Hstate3.
  exists t3, resp, x3. split.
  { unfold handle_setup_event. fold f. rewrite Ha. cbn [mbind option_bind]. rewrite Hst0.
    unfold morse_twt_handle_event_in_no_agreement. rewrite Htype.
    assert (Henter : morse_twt_enter_state MAX t (Some p) e st
                     = Some (0, set_tx (tx t0 ++ [resp]) t3)).
    { unfold morse_twt_enter_state, enter_state_with. fold f. rewrite Ha.
      cbn [mbind option_bind]. fold t0.
      unfold st. destruct Hcmd as [-> | ->]; cbn [consider_state]; rewrite Hrun; reflexivity. }
    unfold st in Henter.
    destruct Hcmd as [Hc | Hc]; rewrite Hc in Henter |- *; cbn [consider_state] in Henter;
      rewrite Henter; reflexivity. }
  split; [exact Hresp|]. split; [exact Hstas3|]. split; [exact Htx3|].
  split; [exact Haf3|]. split; [exact Hev|]. split.
  { intros a. rewrite (slot_step_get_sta p f t0 t3 s0 a Hs0) by (repeat split; assumption).
    unfold t0. apply agr_update_get_sta. }
  split; [exact (agr_at_lookup t3 p f s3 x3 Hs3 Hx3)|exact Hstate3].
Qed.

Lemma handle_event_one responder t addr i t1 w1 :
  morse_twt_peek_event t addr None = Some i ->
  handle_event_pass MAX responder requester associated t i = Some (Pass_next, t1, w1) ->
  morse_twt_peek_event t1 addr None = None ->
  morse_twt_handle_event MAX responder requester associated t addr = Some (t1, w1).
Proof.
  intros Hpeek Hpass Hnone. unfold morse_twt_handle_event.
  pose proof (peek_event_wanted t addr) as Hp. rewrite Hpeek in Hp.
  destruct Hp as (x & _ & _ & _ & _ & _ & Hl). rewrite <- Hl.
  cbn [handle_event_loop]. rewrite Hpeek, Hpass.
  destruct (length (delete i (events t))); cbn [handle_event_loop]; now rewrite Hnone.
Qed.

Lemma handle_event_gives_up responder t addr i t1 w1 :
  morse_twt_peek_event t addr None = Some i ->
  handle_event_pass MAX responder requester associated t i = Some (Pass_return, t1, w1) ->
  morse_twt_handle_event MAX responder requester associated t addr = Some (t1, w1).
Proof.
  intros Hpeek Hpass. unfold morse_twt_handle_event.
  pose proof (peek_event_wanted t addr) as Hp. rewrite Hpeek in Hp.
  destruct Hp as (x & _ & _ & _ & _ & _ & Hl). rewrite <- Hl.
  cbn [handle_event_loop]. now rewrite Hpeek, Hpass.
Qed.

Lemma pass_request_start t i e :
  events t !! i = Some e -> type e = MORSE_TWT_EVENT_SETUP ->
  morse_twt_cmd_is_req (setup_cmd e) = true ->
  morse_twt_get_sta t (ev_addr e) = Some None ->
  handle_event_pass MAX true requester associated t i =
    (let t0 := set_events (delete i (events t)) t in
     match morse_twt_add_sta MAX t0 (ev_addr e) with
     | (None, t1) => Some (Pass_return, t1, [TWT_WORK])
     | (Some p, t1) => t2 ← handle_setup_event MAX t1 p e; Some (Pass_next, t2, [])
     end).
Proof.
  intros Hi Htype Hcmd Hget. unfold handle_event_pass. rewrite Hi. cbn [mbind option_bind].
  rewrite (preprocess_request true _ e Htype Hcmd).
  change (morse_twt_get_sta (set_events (delete i (events t)) t) (ev_addr e))
    with (morse_twt_get_sta t (ev_addr e)).
  rewrite Hget. cbn [mbind option_bind]. rewrite Htype. cbv zeta.
  destruct (morse_twt_add_sta MAX _ _) as [[p|] t1]; reflexivity.
Qed.

(** A responder that cannot allocate a station record for the request of a
    peer it does not know yet gives up at once: it schedules its own work
    again and returns.  The request has been taken off the event queue and
    is in no queue any more, so the later run does not find it; the other
    events stay queued, and nothing else changes. *)
Theorem handle_event_no_memory (t : morse_twt) (addr : option Z) (i : nat)
    (e : morse_twt_event) :
  morse_twt_peek_event t addr None = Some i ->
  events t !! i = Some e ->
  type e = MORSE_TWT_EVENT_SETUP ->
  morse_twt_cmd_is_req (setup_cmd e) = true ->
  morse_twt_get_sta t (ev_addr e) = Some None ->
  can_alloc t = false ->
  morse_twt_handle_event MAX true requester associated t addr
    = Some (set_events (delete i (events t)) t, [TWT_WORK]).
Proof.
  intros Hpeek Hi Htype Hcmd Hget Halloc. apply (handle_event_gives_up true t addr i); [exact Hpeek|].
  rewrite (pass_request_start t i e Hi Htype Hcmd Hget). cbv zeta.
  unfold morse_twt_add_sta. cbn [can_alloc set_events]. now rewrite Halloc.
Qed.

(** The TWT handshake with a new peer whose request came with its
    association request, on a responder with memory.  The state is taken to
    be sound: every listed station is a live record with [MAX] flows, and
    every agreement linked into a wake-interval list is a live flow with a
    wake interval that is not zero.  The request is the only queued event the
    call is asked for; it carries agreement data and a flow id below [MAX],
    and its peer has no station record.  Then [morse_twt_handle_event] takes
    the REQUEST or SUGGEST off the event queue, creates the station record
    of the peer, puts the flow into CONSIDER_REQUEST or CONSIDER_SUGGEST and
    queues an ACCEPT for the peer and flow, its parameters carrying the
    ACCEPT command, at the tail of the transmit queue.
    [morse_twt_dequeue_tx] of that ACCEPT, when the association response is
    built, takes it off the queue and the flow into AGREEMENT. *)
Theorem handle_event_new_peer (t : morse_twt) (addr : option Z) (i : nat)
    (e : morse_twt_event) (d : morse_twt_agreement_data) :
  morse_twt_peek_event t addr None = Some i ->
  events t !! i = Some e ->
  List.filter (wanted addr) (events t) = [e] ->
  type e = MORSE_TWT_EVENT_SETUP ->
  setup_cmd e = TWT_SETUP_CMD_REQUEST \/ setup_cmd e = TWT_SETUP_CMD_SUGGEST ->
  setup_agr_data e = Some d ->
  (flow_id e < MAX)%nat ->
  morse_twt_get_sta t (ev_addr e) = Some None ->
  can_alloc t = true ->
  stas_live MAX t -> lists_sound t ->
  exists p t1 resp,
    morse_twt_handle_event MAX true requester associated t addr = Some (t1, []) /\
    events t1 = delete i (events t) /\
    (p ∉ stas t) /\ stas t1 = stas t ++ [p] /\
    morse_twt_get_sta t1 (ev_addr e) = Some (Some p) /\
    flow_state t1 p (flow_id e) = consider_state (setup_cmd e) /\
    response_to e resp TWT_SETUP_CMD_ACCEPT /\
    tx t1 = tx t ++ [resp] /\ action_frames t1 = action_frames t /\
    exists t2,
      morse_twt_dequeue_tx MAX t1 (length (tx t)) = Some (0, t2) /\
      flow_state t2 p (flow_id e) = MORSE_TWT_STATE_AGREEMENT /\
      tx t2 = tx t /\ events t2 = events t1 /\ stas t2 = stas t1.
Proof.
  intros Hpeek Hi Honly Htype Hcmd Hd Hf Hget Halloc Hlive Hsound.
  assert (Hreq : morse_twt_cmd_is_req (setup_cmd e) = true).
  { apply cmd_is_req_cases. tauto. }
  set (p := fresh (dom (sta_mem t))).
  assert (Hp : sta_mem t !! p = None) by (apply not_elem_of_dom, is_fresh).
  assert (Hpl : p ∉ stas t).
  { intros Hin. destruct (Hlive p Hin) as (s & Hs & _). congruence. }
  set (new := Sta (ev_addr e) 0 false (replicate MAX idle_agr)).
  set (tb := set_stas (stas t ++ [p])
               (set_sta_mem (<[p := new]> (sta_mem t)) (set_events (delete i (events t)) t))).
  assert (Hadd : morse_twt_add_sta MAX (set_events (delete i (events t)) t) (ev_addr e)
                 = (Some p, tb)).
  { unfold morse_twt_add_sta. cbn [can_alloc set_events]. now rewrite Halloc. }
  assert (Hsb : sta_mem tb !! p = Some new) by apply lookup_insert_eq.
  assert (Hold : forall q, q <> p -> sta_mem tb !! q = sta_mem t !! q).
  { intros q Hq. now apply lookup_insert_ne. }
  assert (Hlinked : forall q, q ∈ concat (wake_intervals t) -> slot_sound t q).
  { intros q Hq. apply elem_of_concat_iff in Hq as (b & Hqb & Hb).
    unfold lists_sound in Hsound. rewrite Forall_forall in Hsound.
    specialize (Hsound b Hb). rewrite Forall_forall in Hsound. now apply Hsound. }
  assert (Hne : forall q, q ∈ concat (wake_intervals t) -> q.1 <> p).
  { intros q Hq Heq. destruct (Hlinked q Hq) as (x & Hx & _).
    unfold agr_at in Hx. rewrite Heq, Hp in Hx. discriminate. }
  assert (Hsoundb : lists_sound tb).
  { unfold lists_sound in *. change (wake_intervals tb) with (wake_intervals t).
    rewrite Forall_forall. intros b Hb. rewrite Forall_forall. intros q Hq.
    assert (Hqc : q ∈ concat (wake_intervals t)).
    { apply elem_of_concat_iff. eauto. }
    destruct (Hlinked q Hqc) as (x & Hx & Hnz). exists x. split; [|exact Hnz].
    unfold agr_at in *. rewrite Hold by auto. exact Hx. }
  assert (Hunl : (p, flow_id e) ∉ concat (wake_intervals tb)).
  { intros Hin. now apply (Hne _ Hin). }
  destruct (setup_no_agreement_queued tb p new idle_agr e d Hsb) as
    (t3 & resp & x3 & Hrun & Hresp & Hstas3 & Htx3 & Haf3 & Hev3 & Hget3 & Hx3 & Hst3);
    [apply length_replicate|apply lookup_replicate_2; lia|reflexivity|reflexivity
    |exact Htype|exact Hd|exact Hcmd|exact Hsoundb|exact Hunl|].
  set (t1 := set_tx (tx tb ++ [resp]) t3) in *.
  assert (Hpass : handle_event_pass MAX true requester associated t i
                  = Some (Pass_next, t1, [])).
  { rewrite (pass_request_start t i e Hi Htype Hreq Hget). cbv zeta. rewrite Hadd, Hrun.
    reflexivity. }
  assert (Hev1 : events t1 = delete i (events t)) by exact Hev3.
  assert (Hnone : morse_twt_peek_event t1 addr None = None).
  { pose proof (peek_event_wanted t addr) as Hp0. rewrite Hpeek in Hp0.
    destruct Hp0 as (x & _ & _ & _ & _ & Htaken & _). rewrite Honly in Htaken.
    injection Htaken as _ Hrest.
    pose proof (peek_event_wanted t1 addr) as Hp1.
    destruct (morse_twt_peek_event t1 addr None); [|reflexivity].
    destruct Hp1 as (y & _ & _ & _ & _ & Hy & _). rewrite Hev1, <- Hrest in Hy.
    discriminate. }
  assert (Hgetp : morse_twt_get_sta t1 (ev_addr e) = Some (Some p)).
  { change (morse_twt_get_sta t1 (ev_addr e)) with (morse_twt_get_sta t3 (ev_addr e)).
    rewrite Hget3. unfold morse_twt_get_sta. cbn [sta_mem stas tb set_stas set_sta_mem].
    apply (get_sta_loop_found _ _ _ [] new).
    - intros q Hq. rewrite lookup_insert_ne by (intros ->; contradiction).
      exact (get_sta_loop_None_inv _ _ _ Hget q Hq).
    - apply lookup_insert_eq.
    - reflexivity. }
  pose proof Hresp as (Hrc & Hra & Hrf & Hrt & (d' & Hrd & _)).
  assert (Hx1 : agr_at t1 (p, flow_id resp) = Some x3) by (rewrite Hrf; exact Hx3).
  assert (Hcons : considered x3).
  { split; rewrite Hst3; destruct Hcmd as [-> | ->]; discriminate. }
  destruct (dequeue_tx_considered MAX t1 (length (tx t)) resp p x3 d')
    as (t2 & Hdeq & Hagr2 & _ & Htx2 & Hstas2 & _ & Hev2 & _).
  { unfold t1. cbn [tx set_tx]. change (tx tb) with (tx t). apply lookup_middle with (post := []). }
  { now rewrite Hrt. }
  { exact Hrc. }
  { now rewrite Hrf. }
  { now rewrite Hra. }
  { exact Hx1. }
  { exact Hcons. }
  { exact Hrd. }
  exists p, t1, resp. split; [now apply (handle_event_one true t addr i)|].
  split; [exact Hev1|]. split; [exact Hpl|]. split; [exact Hstas3|].
  split; [exact Hgetp|]. split.
  { unfold flow_state. change (agr_at t1 (p, flow_id e)) with (agr_at t3 (p, flow_id e)).
    now rewrite Hx3. }
  split; [exact Hresp|]. split; [reflexivity|]. split; [exact Haf3|].
  exists t2. split; [exact Hdeq|]. split.
  { unfold flow_state. rewrite <- Hrf, Hagr2. reflexivity. }
  split; [|split; [exact Hev2|exact Hstas2]].
  rewrite Htx2. unfold t1. cbn [tx set_tx]. change (tx tb) with (tx t).
  apply delete_snoc.
Qed.

End NewPeer.

(** *** Placement into a gap, and a wake interval of zero *)

Lemma no_gap_cons2 t duration x y b :
  no_gap t duration (x :: y :: b) <->
  (exists ax ay gap, agr_at t x = Some ax /\ agr_at t y = Some ay /\
     unalloc_dur_us (data ax) (data ay) = Some gap /\ gap < duration) /\
  no_gap t duration (y :: b).
Proof. reflexivity. Qed.

Lemma wi_place_first_fit t agr duration x y b2 ax ay gap : forall b1,
  no_gap t duration (b1 ++ [x]) ->
  agr_at t x = Some ax -> agr_at t y = Some ay ->
  unalloc_dur_us (data ax) (data ay) = Some gap -> duration <= gap ->
  wi_place t agr duration (b1 ++ x :: y :: b2)
    = Some (Some (u64 (wake_time_us (data ax) + wake_duration_us (data ax)),
                  b1 ++ x :: agr :: y :: b2)).
Proof.
  induction b1 as [|z b1 IH]; intros Hgap Hx Hy Hg Hle.
  - cbn [app]. rewrite wi_place_cons2, Hx. cbn [mbind option_bind]. rewrite Hy.
    cbn [mbind option_bind]. rewrite Hg. cbn [mbind option_bind].
    destruct (Z.geb_spec gap duration) as [_|]; [reflexivity|lia].
  - assert (Hshape : exists z' r, b1 ++ [x] = z' :: r /\
                       forall tl, b1 ++ x :: tl = z' :: (r ++ tl)%list).
    { destruct b1 as [|z' b1]; [exists x, []|exists z', (b1 ++ [x])]; split; try reflexivity.
      intros tl. cbn. now rewrite <- app_assoc. }
    destruct Hshape as (z' & r & Hr & Htl).
    cbn [app] in Hgap |- *. rewrite Hr in Hgap.
    apply no_gap_cons2 in Hgap as ((az & az' & g & Hz & Hz' & Hg' & Hlt) & Hrest).
    rewrite <- Hr in Hrest.
    rewrite (Htl (y :: b2)). rewrite wi_place_cons2, Hz. cbn [mbind option_bind].
    rewrite Hz'. cbn [mbind option_bind]. rewrite Hg'. cbn [mbind option_bind].
    destruct (Z.geb_spec g duration) as [|_]; [lia|].
    rewrite <- (Htl (y :: b2)), (IH Hrest Hx Hy Hg Hle). reflexivity.
Qed.

(** First fit: a REQUEST or SUGGEST agreement goes into the first gap
    between two consecutive service periods of its wake-interval list that
    takes its wake duration.  It is linked between the two agreements and
    anchored at the end of the service period before the gap; no other
    agreement is moved or changed, and 0 is returned.  When the two
    neighbours are anchored in order within one wake interval, the new
    service period ends before the next one begins. *)
Theorem wake_interval_add_first_fit (t : morse_twt) (agr : agr_ptr) (a : morse_twt_agreement)
    (pre : list (list agr_ptr)) (b1 : list agr_ptr) (x y : agr_ptr) (b2 : list agr_ptr)
    (post : list (list agr_ptr)) (ax ay : morse_twt_agreement) (gap : Z) :
  agr_at t agr = Some a -> considered a -> request_or_suggest a ->
  wake_intervals t = pre ++ (b1 ++ x :: y :: b2) :: post ->
  Forall (passed_by t (wake_interval_us (data a))) pre ->
  bucket_of t (wake_interval_us (data a)) (b1 ++ x :: y :: b2) ->
  no_gap t (wake_duration_us (data a)) (b1 ++ [x]) ->
  agr_at t x = Some ax -> agr_at t y = Some ay ->
  unalloc_dur_us (data ax) (data ay) = Some gap ->
  wake_duration_us (data a) <= gap ->
  let T := u64 (wake_time_us (data ax) + wake_duration_us (data ax)) in
  (exists t',
     morse_twt_agreement_wake_interval_add t agr = Some (0, t') /\
     wake_intervals t' = pre ++ (b1 ++ x :: agr :: y :: b2) :: post /\
     agr_at t' agr = Some (retime T a) /\
     (forall q, q <> agr -> agr_at t' q = agr_at t q)) /\
  (wake_interval_us (data ay) = wake_interval_us (data ax) ->
   0 <= wake_time_us (data ax) -> 0 <= wake_duration_us (data ax) ->
   wake_time_us (data ax) + wake_duration_us (data ax) <= wake_time_us (data ay) ->
   wake_time_us (data ay) < wake_interval_us (data ax) < 2 ^ 64 ->
   T = wake_time_us (data ax) + wake_duration_us (data ax) /\
   T + wake_duration_us (data a) <= wake_time_us (data ay)).
Proof.
  intros Ha Hcons Hcmd Hw Hpre Hbucket Hgap Hx Hy Hg Hle T. split.
  - assert (Hb : exists c r, b1 ++ x :: y :: b2 = c :: r).
    { destruct Hbucket as (c & r & _ & -> & _). eauto. }
    destruct Hb as (c & r & Hb).
    rewrite (wake_interval_add_run t agr a pre _ post c r Ha Hcons Hcmd Hw Hb Hpre Hbucket).
    rewrite (wi_place_ext t) by reflexivity.
    rewrite (wi_place_first_fit t agr _ x y b2 ax ay gap b1 Hgap Hx Hy Hg Hle).
    cbn [mbind option_bind]. eexists. split; [reflexivity|]. split; [|split].
    + cbn [wake_intervals set_bucket set_wake_intervals agr_update set_sta_mem].
      apply insert_middle.
    + erewrite agr_at_ext; [apply agr_at_update_eq; exact Ha|reflexivity].
    + intros q Hq. transitivity (agr_at (agr_update (retime T) agr t) q).
      * apply agr_at_ext. reflexivity.
      * apply agr_at_update_ne. auto.
  - intros HI Hx0 Hd0 Hord [Hlt H64].
    assert (HT : T = wake_time_us (data ax) + wake_duration_us (data ax)).
    { unfold T. apply u64_small. lia. }
    split; [exact HT|]. rewrite HT.
    unfold unalloc_dur_us, div64_u64_rem in Hg. rewrite HI in Hg.
    destruct (Z.eqb_spec (wake_interval_us (data ax)) 0) as [|_]; [lia|].
    cbn [mbind option_bind] in Hg.
    rewrite !Z.mod_small in Hg by lia.
    destruct (Z.gtb_spec (wake_time_us (data ax)) (wake_time_us (data ay))) as [|_]; [lia|].
    injection Hg as <-. rewrite (u64_small (_ + _)) in Hle by lia.
    rewrite u64_small in Hle by lia. lia.
Qed.

(** A wake interval of zero.  [morse_twt_parse_ie] takes an element with
    the mantissa 0, for which the wake interval of the agreement is 0; once
    two agreements of that interval are linked, the placement of a further
    REQUEST or SUGGEST of the interval computes the gap between them with
    [div64_u64_rem(wake_time_us, 0, ...)]: a division by zero, for which the
    model has no result. *)
Theorem wake_interval_add_zero_interval (t : morse_twt) (agr : agr_ptr)
    (a : morse_twt_agreement) (x y : agr_ptr) (r : list agr_ptr)
    (post : list (list agr_ptr)) (ax ay : morse_twt_agreement) :
  agr_at t agr = Some a -> considered a -> request_or_suggest a ->
  wake_interval_us (data a) = 0 ->
  wake_intervals t = (x :: y :: r) :: post ->
  agr_at t x = Some ax -> wake_interval_us (data ax) = 0 ->
  agr_at t y = Some ay ->
  morse_twt_agreement_wake_interval_add t agr = None /\
  unalloc_dur_us (data ax) (data ay) = None /\
  forall MORSE_TU_TO_US control p,
    mantissa p = 0 ->
    wake_interval_us (agreement_of_params MORSE_TU_TO_US control p) = 0.
Proof.
  intros Ha Hcons Hcmd HI Hw Hx HIx Hy.
  assert (Hun : unalloc_dur_us (data ax) (data ay) = None).
  { unfold unalloc_dur_us, div64_u64_rem. now rewrite HIx. }
  split; [|split; [exact Hun|]].
  - rewrite (wake_interval_add_run t agr a [] (x :: y :: r) post x (y :: r)
               Ha Hcons Hcmd Hw eq_refl).
    + rewrite (wi_place_ext t) by reflexivity.
      rewrite wi_place_cons2, Hx. cbn [mbind option_bind]. rewrite Hy.
      cbn [mbind option_bind]. now rewrite Hun.
    + constructor.
    + exists x, (y :: r), ax. rewrite HI. auto.
  - intros TU control p Hm. cbn. unfold morse_twt_calculate_wake_interval_us.
    rewrite Hm. reflexivity.
Qed.

(** *** TWT action frames *)

(** What [morse_mac_process_twt_action_frame] looks at in the frame: the
    kind ([morse_dot11_is_twt_setup_action_frame],
    [morse_dot11_is_twt_teardown_action_frame]) and, by kind, the dialog
    token or the flow field. *)
Inductive twt_action :=
| TWT_ACTION_SETUP (dialog_token : Z)
| TWT_ACTION_TEARDOWN (flow : Z)
| TWT_ACTION_OTHER.

Definition set_dialog_token (v : Z) (s : morse_twt_sta) : morse_twt_sta :=
  Sta (addr s) v (action_is_pending s) (agreements s).

Section ActionFrames.
Variable MAX : nat.
Variable IEEE80211_TWT_CONTROL_NEG_TYPE : Z.
Variable MORSE_TU_TO_US : Z -> Z.
(** [TWT_TEARDOWN_FLOW_ID_MASK] is declared in a header that is not among
    the sources. *)
Variable TWT_TEARDOWN_FLOW_ID_MASK : Z.

(** [morse_mac_process_twt_ie(mors, mors_vif, element, src_addr)] *)
Definition morse_mac_process_twt_ie (t : morse_twt) (element : ie_element) (src_addr : Z)
  : option morse_twt :=
  if can_alloc t then
    ret ← morse_twt_parse_ie IEEE80211_TWT_CONTROL_NEG_TYPE MORSE_TU_TO_US t
            (Some element) src_addr;
    match ret with
    | inr event => Some (morse_twt_queue_event t event)
    | inl _ => Some t
    end
  else Some t.

(** [morse_mac_process_twt_teardown(mors, vif, mgmt, src_addr)].  The event
    is not zeroed: [junk] is what [kmalloc] returned, of which the fields of
    the setup stay; the result of [kmalloc] is used unchecked. *)
Definition morse_mac_process_twt_teardown (junk : morse_twt_event) (t : morse_twt)
    (flow : Z) (src_addr : Z) : option (Z * morse_twt * list twt_work) :=
  known ← match vif_type t with
          | NL80211_IFTYPE_AP =>
              sta ← morse_twt_get_sta t src_addr; Some (bool_decide (is_Some sta))
          | _ => Some true
          end;
  if negb known then Some (- ENODEV, t, [])
  else if can_alloc t then
    let remove_twt_evt :=
      Event MORSE_TWT_EVENT_TEARDOWN src_addr
            (Z.to_nat (u8 (Z.land flow TWT_TEARDOWN_FLOW_ID_MASK)))
            (setup_cmd junk) (setup_agr_data junk) true in
    Some (0, morse_twt_queue_event t remove_twt_evt, [TWT_WORK])
  else None.

(** [morse_mac_process_twt_action_frame(mors, vif, mgmt, twt_ie, src_addr)] *)
Definition morse_mac_process_twt_action_frame (junk : morse_twt_event) (t : morse_twt)
    (mgmt : twt_action) (twt_ie : ie_element) (src_addr : Z)
  : option (Z * morse_twt * list twt_work) :=
  match mgmt with
  | TWT_ACTION_SETUP dialog_token =>
      t ← morse_mac_process_twt_ie t twt_ie src_addr;
      twt_sta ← morse_twt_get_sta t src_addr;
      let '(twt_sta, t) :=
        match twt_sta with
        | Some p => (Some p, t)
        | None => morse_twt_add_sta MAX t src_addr
        end in
      match twt_sta with
      | None => Some (- ENOMEM, t, [])
      | Some p =>
          s ← sta_mem t !! p;
          let s := set_action_is_pending true (set_dialog_token (u8 dialog_token) s) in
          Some (- EACCES, set_sta_mem (<[p := s]> (sta_mem t)) t, [TWT_WORK])
      end
  | TWT_ACTION_TEARDOWN flow =>
      r ← morse_mac_process_twt_teardown junk t flow src_addr;
      Some (- EACCES, r.1.2, r.2)
  | TWT_ACTION_OTHER => Some (0, t, [])
  end.

(** [morse_twt_send_accept] for a request that came in an action frame. *)
Lemma send_accept_sent t p s x e d :
  sta_mem t !! p = Some s -> length (agreements s) = MAX ->
  agreements s !! flow_id e = Some x -> setup_agr_data e = Some d ->
  action_is_pending s = true ->
  lists_sound t -> (p, flow_id e) ∉ concat (wake_intervals t) ->
  exists t' resp s',
    morse_twt_send_accept MAX t (Some p) e = Some (0, t') /\
    response_to e resp TWT_SETUP_CMD_ACCEPT /\
    action_frames t' = action_frames t ++ [ActionFrame resp (addr s) (dialog_token s) true] /\
    tx t' = tx t /\ stas t' = stas t /\
    sta_mem t' !! p = Some s' /\ addr s' = addr s /\ dialog_token s' = dialog_token s /\
    action_is_pending s' = false /\
    (exists x', agreements s' !! flow_id e = Some x' /\ state x' = MORSE_TWT_STATE_AGREEMENT) /\
    (forall q, q <> p -> sta_mem t' !! q = sta_mem t !! q).
Proof.
  intros Hs Hlen Hx Hd Hpend Hsound Hunl.
  pose proof (agr_at_lookup t p _ s x Hs Hx) as Ha.
  assert (Hf : (flow_id e < MAX)%nat).
  { rewrite <- Hlen. eapply lookup_lt_Some; eassumption. }
  unfold morse_twt_send_accept, send_accept_with. rewrite Hd, Ha. cbn [mbind option_bind].
  set (f := flow_id e) in *.
  set (t1 := agr_update (set_data d) (p, f) t).
  assert (Hst1 : slot_step p f t t1) by (apply slot_step_update; reflexivity).
  destruct (wake_interval_add_safe t1 (p, f)) as [[r t2] Hadd].
  { unfold t1. rewrite (agr_at_update_eq _ _ _ _ Ha). now eexists. }
  { unfold t1. now apply lists_sound_update. }
  rewrite Hadd. cbn [mbind option_bind snd].
  pose proof (wake_interval_add_slot_step p f t1 r t2 Hadd) as Hst2.
  set (G := fun x0 : morse_twt_agreement =>
              set_data (data_update_params (data_set_command TWT_SETUP_CMD_ACCEPT (data x0))) x0).
  set (t3 := agr_update G (p, f) t2).
  assert (Hst3 : slot_step p f t t3).
  { eapply slot_step_trans; [exact Hst1|]. eapply slot_step_trans; [exact Hst2|].
    apply slot_step_update. reflexivity. }
  destruct Hst3 as (Hstas3 & Htx3 & Haf3 & Hother3 & Hp3).
  destruct (Hp3 s Hs) as (s3 & Hs3 & Hid3 & Hdt3 & Hap3 & Hlen3 & Hslot3).
  destruct (Hslot3 x Hx) as (x3 & Hx3 & Hstate3).
  rewrite (agr_at_lookup t3 p f s3 x3 Hs3 Hx3). cbn [mbind option_bind].
  set (resp := set_setup_agr_data (Some (data x3))
                 (set_setup_cmd TWT_SETUP_CMD_ACCEPT e)).
  assert (Hresp : response_to e resp TWT_SETUP_CMD_ACCEPT).
  { repeat split. exists (data x3). split; [reflexivity|].
    eapply (accept_command_pinned t t2 p f s x s3 x3); try eassumption.
    eapply slot_step_trans; eassumption. }
  unfold send_response. rewrite Hs3. cbn [mbind option_bind]. rewrite Hap3, Hpend.
  set (t5 := set_sta_mem _ _).
  assert (Hs5 : sta_mem t5 !! p = Some (set_action_is_pending false s3)).
  { unfold t5. cbn [sta_mem set_sta_mem]. apply lookup_insert_eq. }
  assert (Ha5 : agr_at t5 (p, flow_id resp) = Some x3).
  { apply (agr_at_lookup t5 p _ _ x3 Hs5). exact Hx3. }
  rewrite <- (enter_state_settled_eq MAX t5 (Some p) resp MORSE_TWT_STATE_AGREEMENT) by auto.
  rewrite (enter_agreement_eq MAX t5 p x3 resp (data x3) Ha5 Hf eq_refl).
  cbn [mbind option_bind snd]. eexists _, resp, _.
  split; [reflexivity|]. split; [exact Hresp|].
  split; [|split; [exact Htx3|split; [exact Hstas3|]]].
  { cbn [action_frames agr_update set_sta_mem]. unfold t5.
    cbn [action_frames set_sta_mem push_action_frame]. now rewrite Haf3, Hid3, Hdt3. }
  split.
  { unfold agr_update. cbn [sta_mem set_sta_mem fst snd].
    rewrite !lookup_alter_eq, Hs5. reflexivity. }
  cbn [addr dialog_token action_is_pending agreements set_agreements set_action_is_pending].
  split; [exact Hid3|]. split; [exact Hdt3|]. split; [reflexivity|]. split.
  { change (flow_id resp) with f.
    rewrite !list_lookup_alter_eq, Hx3. eexists. split; reflexivity. }
  intros q Hq. unfold agr_update. cbn [sta_mem set_sta_mem fst snd].
  rewrite !lookup_alter_ne by congruence. unfold t5. cbn [sta_mem set_sta_mem push_action_frame].
  rewrite lookup_insert_ne by congruence. now apply Hother3.
Qed.

Lemma setup_no_agreement_sent t p s a0 e d :
  sta_mem t !! p = Some s -> length (agreements s) = MAX ->
  agreements s !! flow_id e = Some a0 -> state a0 = MORSE_TWT_STATE_NO_AGREEMENT ->
  action_is_pending s = true ->
  type e = MORSE_TWT_EVENT_SETUP -> setup_agr_data e = Some d ->
  setup_cmd e = TWT_SETUP_CMD_REQUEST \/ setup_cmd e = TWT_SETUP_CMD_SUGGEST ->
  lists_sound t -> (p, flow_id e) ∉ concat (wake_intervals t) ->
  exists t' resp s',
    handle_setup_event MAX t p e = Some t' /\
    response_to e resp TWT_SETUP_CMD_ACCEPT /\
    action_frames t' = action_frames t ++ [ActionFrame resp (addr s) (dialog_token s) true] /\
    tx t' = tx t /\ stas t' = stas t /\ events t' = events t /\
    sta_mem t' !! p = Some s' /\ addr s' = addr s /\ dialog_token s' = dialog_token s /\
    action_is_pending s' = false /\
    (exists x', agreements s' !! flow_id e = Some x' /\ state x' = MORSE_TWT_STATE_AGREEMENT) /\
    (forall q, q <> p -> sta_mem t' !! q = sta_mem t !! q).
Proof.
  intros Hs Hlen Ha0 Hst0 Hpend Htype Hd Hcmd Hsound Hunl.
  set (f := flow_id e) in *. set (st := consider_state (setup_cmd e)).
  pose proof (agr_at_lookup t p f s a0 Hs Ha0) as Ha.
  destruct (considered_sta MAX t p s a0 e Hs Hlen Ha0 st) as (Hs0 & Hlen0 & Hx0).
  fold f in Hs0, Hlen0, Hx0.
  set (t0 := agr_update (set_state st) (p, f) t) in *.
  set (s0 := set_agreements _ s) in *.
  destruct (send_accept_sent t0 p s0 (set_state st a0) e d Hs0 Hlen0 Hx0 Hd Hpend)
    as (t1 & resp & s1 & Hrun & Hresp & Haf & Htx & Hstas & Hs1 & Had & Hdt & Hap & Hagr & Hoth).
  { unfold t0. now apply lists_sound_update. }
  { exact Hunl. }
  pose proof (send_accept_events MAX t0 (Some p) e _ _ Hrun) as Hev.
  exists t1, resp, s1. split.
  { unfold handle_setup_event. fold f. rewrite Ha. cbn [mbind option_bind]. rewrite Hst0.
    unfold morse_twt_handle_event_in_no_agreement. rewrite Htype.
    assert (Henter : morse_twt_enter_state MAX t (Some p) e st = Some (0, t1)).
    { unfold morse_twt_enter_state, enter_state_with. fold f. rewrite Ha.
      cbn [mbind option_bind]. fold t0.
      unfold st. destruct Hcmd as [-> | ->]; cbn [consider_state]; rewrite Hrun; reflexivity. }
    unfold st in Henter.
    destruct Hcmd as [Hc | Hc]; rewrite Hc in Henter |- *; cbn [consider_state] in Henter;
      rewrite Henter; reflexivity. }
  split; [exact Hresp|]. split; [exact Haf|]. split; [exact Htx|]. split; [exact Hstas|].
  split; [exact Hev|]. split; [exact Hs1|]. split; [exact Had|]. split; [exact Hdt|].
  split; [exact Hap|]. split; [exact Hagr|].
  intros q Hq. rewrite (Hoth q Hq). unfold t0, agr_update. cbn [sta_mem set_sta_mem fst snd].
  now rewrite lookup_alter_ne by congruence.
Qed.

Variables (requester associated : bool).

Lemma pass_request_known t i e p :
  events t !! i = Some e -> type e = MORSE_TWT_EVENT_SETUP ->
  morse_twt_cmd_is_req (setup_cmd e) = true ->
  morse_twt_get_sta t (ev_addr e) = Some (Some p) ->
  handle_event_pass MAX true requester associated t i =
    (t2 ← handle_setup_event MAX (set_events (delete i (events t)) t) p e;
     Some (Pass_next, t2, [])).
Proof.
  intros Hi Htype Hcmd Hget. unfold handle_event_pass. rewrite Hi. cbn [mbind option_bind].
  rewrite (preprocess_request requester associated true _ e Htype Hcmd).
  change (morse_twt_get_sta (set_events (delete i (events t)) t) (ev_addr e))
    with (morse_twt_get_sta t (ev_addr e)).
  rewrite Hget. cbn [mbind option_bind]. now rewrite Htype.
Qed.

(** A TWT setup action frame with a REQUEST or SUGGEST for a flow below
    [MAX] from a peer that has no station record, received by a responder
    with memory and an empty event queue, in a sound state: every listed
    station is a live record with [MAX] flows, and every agreement linked
    into a wake-interval list is a live flow with a wake interval that is
    not zero.  [morse_mac_process_twt_action_frame] queues the parsed
    event, creates the station record, notes the dialog token of the frame,
    schedules the event work and has the frame consumed (-EACCES).  The
    work, [morse_twt_handle_event] without address filter, then answers at
    once: an ACCEPT for the peer and flow goes out in a setup action frame
    with the dialog token of the request, nothing is queued for
    transmission, and the flow is in AGREEMENT. *)
Theorem action_frame_request_accepted (junk : morse_twt_event) (t : morse_twt) (k : Z)
    (ie : ie_element) (src : Z) (ev : morse_twt_event) :
  events t = [] -> can_alloc t = true ->
  stas_live MAX t -> lists_sound t ->
  morse_twt_get_sta t src = Some None ->
  morse_twt_parse_ie IEEE80211_TWT_CONTROL_NEG_TYPE MORSE_TU_TO_US t (Some ie) src
    = Some (inr ev) ->
  setup_cmd ev = TWT_SETUP_CMD_REQUEST \/ setup_cmd ev = TWT_SETUP_CMD_SUGGEST ->
  (flow_id ev < MAX)%nat ->
  exists p t1 t2 resp s2,
    morse_mac_process_twt_action_frame junk t (TWT_ACTION_SETUP k) ie src
      = Some (- EACCES, t1, [TWT_WORK]) /\
    events t1 = [ev] /\
    morse_twt_handle_event MAX true requester associated t1 None = Some (t2, []) /\
    events t2 = [] /\ tx t2 = tx t /\
    response_to ev resp TWT_SETUP_CMD_ACCEPT /\
    action_frames t2 = action_frames t ++ [ActionFrame resp src (u8 k) true] /\
    morse_twt_get_sta t2 src = Some (Some p) /\ (p ∉ stas t) /\
    flow_state t2 p (flow_id ev) = MORSE_TWT_STATE_AGREEMENT /\
    sta_mem t2 !! p = Some s2 /\ action_is_pending s2 = false.
Proof.
  intros Hev0 Halloc Hlive Hsound Hget Hparse Hcmd Hf.
  destruct (parse_ie_shape _ _ _ _ _ _ Hparse) as (Htype & Haddr & [d Hd]).
  assert (Hreq : morse_twt_cmd_is_req (setup_cmd ev) = true).
  { apply cmd_is_req_cases. tauto. }
  set (p := fresh (dom (sta_mem t))).
  assert (Hp : sta_mem t !! p = None) by (apply not_elem_of_dom, is_fresh).
  assert (Hpl : p ∉ stas t).
  { intros Hin. destruct (Hlive p Hin) as (s & Hs & _). congruence. }
  set (s1 := Sta src (u8 k) true (replicate MAX idle_agr)).
  set (t1 := Twt (can_alloc t) (vif_type t) (<[p := s1]> (sta_mem t)) (stas t ++ [p])
                 (wake_intervals t) [ev] (tx t) (to_install_uninstall t)
                 (active_agreement_bitmap t) (action_frames t)).
  assert (Hrun1 : morse_mac_process_twt_action_frame junk t (TWT_ACTION_SETUP k) ie src
                  = Some (- EACCES, t1, [TWT_WORK])).
  { unfold morse_mac_process_twt_action_frame, morse_mac_process_twt_ie.
    rewrite Halloc, Hparse. cbn [mbind option_bind].
    change (morse_twt_get_sta (morse_twt_queue_event t ev) src) with (morse_twt_get_sta t src).
    rewrite Hget. cbn [mbind option_bind]. unfold morse_twt_add_sta.
    change (can_alloc (morse_twt_queue_event t ev)) with (can_alloc t). rewrite Halloc.
    cbv zeta iota beta. fold p.
    cbn [sta_mem set_stas set_sta_mem morse_twt_queue_event set_events stas].
    rewrite lookup_insert_eq. cbn [mbind option_bind]. unfold t1, s1.
    cbn [set_action_is_pending set_dialog_token addr agreements].
    unfold set_sta_mem, set_stas, morse_twt_queue_event, set_events.
    cbn [can_alloc vif_type sta_mem stas wake_intervals events tx to_install_uninstall
         active_agreement_bitmap action_frames].
    rewrite insert_insert_eq, Hev0. reflexivity. }
  assert (Hs1 : sta_mem t1 !! p = Some s1) by apply lookup_insert_eq.
  assert (Hold : forall q, q <> p -> sta_mem t1 !! q = sta_mem t !! q).
  { intros q Hq. now apply lookup_insert_ne. }
  assert (Hget1 : morse_twt_get_sta t1 src = Some (Some p)).
  { unfold morse_twt_get_sta. cbn [sta_mem stas t1].
    apply (get_sta_loop_found _ _ _ [] s1).
    - intros q Hq. rewrite lookup_insert_ne by (intros ->; contradiction).
      exact (get_sta_loop_None_inv _ _ _ Hget q Hq).
    - apply lookup_insert_eq.
    - reflexivity. }
  assert (Hlinked : forall q, q ∈ concat (wake_intervals t) -> slot_sound t q).
  { intros q Hq. apply elem_of_concat_iff in Hq as (b & Hqb & Hb).
    unfold lists_sound in Hsound. rewrite Forall_forall in Hsound.
    specialize (Hsound b Hb). rewrite Forall_forall in Hsound. now apply Hsound. }
  assert (Hne : forall q, q ∈ concat (wake_intervals t) -> q.1 <> p).
  { intros q Hq Heq. destruct (Hlinked q Hq) as (x & Hx & _).
    unfold agr_at in Hx. rewrite Heq, Hp in Hx. discriminate. }
  set (t1' := set_events (delete 0%nat (events t1)) t1).
  assert (Hsound1 : lists_sound t1').
  { unfold lists_sound in *. change (wake_intervals t1') with (wake_intervals t).
    rewrite Forall_forall. intros b Hb. rewrite Forall_forall. intros q Hq.
    assert (Hqc : q ∈ concat (wake_intervals t)).
    { apply elem_of_concat_iff. eauto. }
    destruct (Hlinked q Hqc) as (x & Hx & Hnz). exists x. split; [|exact Hnz].
    unfold agr_at in *. change (sta_mem t1') with (sta_mem t1). rewrite Hold by auto.
    exact Hx. }
  assert (Hunl : (p, flow_id ev) ∉ concat (wake_intervals t1')).
  { intros Hin. now apply (Hne _ Hin). }
  destruct (setup_no_agreement_sent t1' p s1 idle_agr ev d Hs1) as
    (t2 & resp & s2 & Hrun & Hresp & Haf2 & Htx2 & Hstas2 & Hev2 & Hs2 & Had2 & Hdt2 & Hap2
       & (x2 & Hx2 & Hst2) & Hoth2);
    [apply length_replicate|apply lookup_replicate_2; lia|reflexivity|reflexivity
    |exact Htype|exact Hd|exact Hcmd|exact Hsound1|exact Hunl|].
  assert (Hpass : handle_event_pass MAX true requester associated t1 0
                  = Some (Pass_next, t2, [])).
  { rewrite (pass_request_known t1 0 ev p eq_refl Htype Hreq) by (rewrite Haddr; exact Hget1).
    fold t1'. now rewrite Hrun. }
  exists p, t1, t2, resp, s2. split; [exact Hrun1|]. split; [reflexivity|]. split.
  { apply (handle_event_one MAX requester associated true t1 None 0); [reflexivity|exact Hpass|].
    unfold morse_twt_peek_event, morse_twt_peek_queue. now rewrite Hev2. }
  split; [exact Hev2|]. split; [exact Htx2|]. split; [exact Hresp|].
  split; [exact Haf2|]. split.
  { rewrite <- Hget1. unfold morse_twt_get_sta. rewrite Hstas2.
    change (stas t1') with (stas t1). apply get_sta_loop_ext. intros q.
    destruct (decide (q = p)) as [->|Hq].
    - rewrite Hs2, Hs1. cbn. now rewrite Had2.
    - now rewrite (Hoth2 q Hq). }
  split; [exact Hpl|]. split.
  { unfold flow_state, agr_at. cbn [fst snd]. rewrite Hs2. cbn [mbind option_bind].
    now rewrite Hx2. }
  split; [exact Hs2|exact Hap2].
Qed.

Variable responder : bool.

Lemma pass_teardown t i e :
  events t !! i = Some e -> type e = MORSE_TWT_EVENT_TEARDOWN -> teardown e = true ->
  handle_event_pass MAX responder requester associated t i =
    (let t0 := set_events (delete i (events t)) t in
     sta ← morse_twt_get_sta t0 (ev_addr e);
     r ← morse_twt_handle_event_teardown MAX t0 sta e;
     Some (Pass_next, r.2, [])).
Proof.
  intros Hi Htype Htd. unfold handle_event_pass. rewrite Hi. cbn [mbind option_bind].
  unfold morse_twt_preprocess_event. rewrite Htype, Htd. reflexivity.
Qed.

(** A TWT teardown action frame received by an access point.  From a peer
    without station record it is consumed and nothing else happens.  From a
    known peer, a live record with [MAX] flows of which the frame names one,
    with memory for the event, an empty event queue and no agreement linked
    twice, a TEARDOWN event for the flow named in the frame is queued and
    the event work scheduled; the work then
    takes the flow to NO_AGREEMENT: its agreement leaves the wake-interval
    lists, the agreements of the other stations stay linked, no frame is
    sent in reply, and the station record is freed if that was its last
    flow, and kept otherwise. *)
Theorem action_frame_teardown (junk : morse_twt_event) (t : morse_twt) (flow : Z)
    (ie : ie_element) (src : Z) :
  vif_type t = NL80211_IFTYPE_AP ->
  (morse_twt_get_sta t src = Some None ->
     morse_mac_process_twt_action_frame junk t (TWT_ACTION_TEARDOWN flow) ie src
       = Some (- EACCES, t, [])) /\
  (forall p s,
     let f := Z.to_nat (u8 (Z.land flow TWT_TEARDOWN_FLOW_ID_MASK)) in
     morse_twt_get_sta t src = Some (Some p) ->
     sta_mem t !! p = Some s -> length (agreements s) = MAX -> (f < MAX)%nat ->
     can_alloc t = true -> events t = [] ->
     NoDup (concat (wake_intervals t)) ->
     exists t1 t2,
       morse_mac_process_twt_action_frame junk t (TWT_ACTION_TEARDOWN flow) ie src
         = Some (- EACCES, t1, [TWT_WORK]) /\
       morse_twt_handle_event MAX responder requester associated t1 None = Some (t2, []) /\
       events t2 = [] /\ action_frames t2 = action_frames t /\
       ((p, f) ∉ concat (wake_intervals t2)) /\
       (forall q, q.1 <> p ->
          (q ∈ concat (wake_intervals t2) <-> q ∈ concat (wake_intervals t))) /\
       flow_state t2 p f = MORSE_TWT_STATE_NO_AGREEMENT /\
       (if all_flows_idle (sta_flow_idle f s)
        then sta_mem t2 !! p = None /\ stas t2 = unlink p (stas t)
        else sta_mem t2 !! p = Some (sta_flow_idle f s) /\ stas t2 = stas t /\ tx t2 = tx t)).
Proof.
  intros Hvif. split.
  - intros Hget. unfold morse_mac_process_twt_action_frame, morse_mac_process_twt_teardown.
    rewrite Hvif, Hget. reflexivity.
  - intros p s f Hget Hs Hlen Hf Halloc Hev0 Hnd.
    set (e := Event MORSE_TWT_EVENT_TEARDOWN src f (setup_cmd junk) (setup_agr_data junk) true).
    set (t1 := morse_twt_queue_event t e).
    assert (Hev1 : events t1 = [e]).
    { unfold t1, morse_twt_queue_event. cbn [events set_events]. now rewrite Hev0. }
    assert (Hrun1 : morse_mac_process_twt_action_frame junk t (TWT_ACTION_TEARDOWN flow) ie src
                    = Some (- EACCES, t1, [TWT_WORK])).
    { unfold morse_mac_process_twt_action_frame, morse_mac_process_twt_teardown.
      rewrite Hvif, Hget. cbn [mbind option_bind].
      rewrite bool_decide_eq_true_2 by (now eexists). cbn [negb]. now rewrite Halloc. }
    set (t0 := set_events (delete 0%nat (events t1)) t1).
    destruct (enter_no_agreement_run MAX t0 p s e Hs Hlen Hf)
      as (t2 & Hrun & Haf2 & Hev2 & Hres).
    change (flow_id e) with f in Hres. change (wake_intervals t0) with (wake_intervals t) in Hres.
    change (sta_mem t0) with (sta_mem t) in Hres. change (stas t0) with (stas t) in Hres.
    change (tx t0) with (tx t) in Hres.
    assert (Hpass : handle_event_pass MAX responder requester associated t1 0
                    = Some (Pass_next, t2, [])).
    { rewrite (pass_teardown t1 0 e) by (rewrite ?Hev1; reflexivity). cbv zeta. fold t0.
      change (morse_twt_get_sta t0 (ev_addr e)) with (morse_twt_get_sta t src).
      rewrite Hget. cbn [mbind option_bind]. unfold morse_twt_handle_event_teardown.
      change (vif_type t0) with (vif_type t). rewrite Hvif.
      rewrite enter_state_settled_eq by auto. now rewrite Hrun. }
    assert (Hev2' : events t2 = []).
    { rewrite Hev2. unfold t0. cbn [events set_events]. now rewrite Hev1. }
    exists t1, t2. split; [exact Hrun1|]. split.
    { apply (handle_event_one MAX requester associated responder t1 None 0);
        [unfold morse_twt_peek_event, morse_twt_peek_queue; now rewrite Hev1|exact Hpass|].
      unfold morse_twt_peek_event, morse_twt_peek_queue. now rewrite Hev2'. }
    split; [exact Hev2'|]. split; [exact Haf2|].
    pose proof (NoDup_wi_unlink (p, f) _ Hnd) as Hnd2.
    destruct (wi_unlink_flows_spec p MAX 0 _ Hnd2) as (_ & _ & Hin3).
    destruct (all_flows_idle (sta_flow_idle f s)).
    + destruct Hres as (Hmem & Hstas & Hwi). rewrite Hwi.
      split; [|split; [|split; [|split]]].
      * rewrite Hin3. intros [_ Hout]. apply Hout. cbn. split; [reflexivity|lia].
      * intros q Hq. rewrite Hin3, (elem_of_wi_unlink _ _ _ Hnd). split; [tauto|].
        intros Hin. split; [split; [assumption|]|]; [intros ->; now apply Hq|tauto].
      * unfold flow_state, agr_at. cbn [fst snd]. now rewrite Hmem, lookup_delete_eq.
      * rewrite Hmem. apply lookup_delete_eq.
      * exact Hstas.
    + destruct Hres as (Hmem & Hstas & Hwi & Htx). rewrite Hwi.
      split; [|split; [|split; [|split; [|split]]]].
      * rewrite (elem_of_wi_unlink _ _ _ Hnd). tauto.
      * intros q Hq. rewrite (elem_of_wi_unlink _ _ _ Hnd). split; [tauto|].
        intros Hin. split; [assumption|]. intros ->. now apply Hq.
      * unfold flow_state, agr_at. cbn [fst snd]. rewrite Hmem, lookup_insert_eq.
        cbn [mbind option_bind]. unfold sta_flow_idle. cbn [agreements set_agreements].
        destruct (lookup_lt_is_Some_2 (agreements s) f) as [x Hx]; [lia|].
        rewrite list_lookup_alter_eq, Hx. reflexivity.
      * rewrite Hmem. apply lookup_insert_eq.
      * exact Hstas.
      * exact Htx.
Qed.

End ActionFrames.

Import WakeInterval.

(** *** The two wake-interval codecs *)

(** The requester's encoder and the responder's decoder agree: for a wake
    interval below [2^46] us the exponent that
    [twt_calculate_wake_interval_fields] computes is at most 30, and a
    parameter block that carries its mantissa, with that exponent in the
    exponent field of the request type, is decoded by
    [morse_twt_calculate_wake_interval_us] to the interval the encoder
    returned, the given one rounded down to a multiple of [2^exponent]. *)
Theorem interval_fields_decode (w : Z) (rt tw dur ch : Z) :
  0 <= w < 2 ^ 46 ->
  exists m e,
    twt_calculate_wake_interval_fields w = Some (m, e, m * 2 ^ e) /\
    0 <= e <= 30 /\ 0 <= m <= UINT16_MAX /\
    m * 2 ^ e <= w < (m + 1) * 2 ^ e /\
    (wake_int_exp rt = e ->
     morse_twt_calculate_wake_interval_us (TwtParams rt tw dur m ch) = m * 2 ^ e).
Proof.
  intros Hw.
  assert (Hw64 : 0 <= w < 2 ^ 64).
  { split; [lia|]. eapply Z.lt_trans; [apply Hw|]. now vm_compute. }
  destruct (fields_loop_total 64 w 0) as (m & e & Hloop).
  { split; [lia|]. eapply Z.lt_trans; [apply Hw64|]. now vm_compute. }
  destruct (fields_loop_floor _ _ _ _ _ Hloop ltac:(lia)) as (He & Hm & Hr & Hn).
  rewrite Z.sub_0_r in Hm.
  assert (Hpow : 0 < 2 ^ e) by (apply Z.pow_pos_nonneg; lia).
  assert (Hb : m * 2 ^ e <= w < (m + 1) * 2 ^ e).
  { rewrite Hm. pose proof (Z.mod_pos_bound w (2 ^ e) Hpow).
    pose proof (Z.div_mod w (2 ^ e) ltac:(lia)). nia. }
  assert (He30 : e <= 30).
  { destruct Hn as [->|Hn]; [lia|].
    destruct (Z.le_gt_cases e 30) as [|Hgt]; [assumption|exfalso].
    assert (2 ^ 31 <= 2 ^ e) by (apply Z.pow_le_mono_r; lia).
    assert (32768 * 2 ^ 31 <= m * 2 ^ e) by nia.
    change (32768 * 2 ^ 31) with (2 ^ 46) in *. lia. }
  assert (Hrun : twt_calculate_wake_interval_fields w = Some (m, e, m * 2 ^ e)).
  { unfold twt_calculate_wake_interval_fields. rewrite Hloop.
    rewrite (u16_small m) by (unfold UINT16_MAX in Hr; lia).
    unfold twt_calculate_wake_interval. rewrite Z.shiftl_1_l.
    assert (2 ^ e <= 2 ^ 30) by (apply Z.pow_le_mono_r; lia).
    rewrite (u64_small (2 ^ e)) by (split; [lia|]; eapply Z.le_lt_trans; [eassumption|];
                                    now vm_compute).
    rewrite u64_small; [reflexivity|]. unfold UINT16_MAX in Hr. split; [nia|].
    assert (m * 2 ^ e <= 65535 * 2 ^ 30) by nia.
    eapply Z.le_lt_trans; [eassumption|]. now vm_compute. }
  exists m, e. split; [exact Hrun|]. split; [lia|]. split; [exact Hr|]. split; [exact Hb|].
  intros Hexp.
  destruct (calculate_wake_interval_us_small (TwtParams rt tw dur m ch)) as [Hdec _].
  - cbn. unfold UINT16_MAX in Hr. lia.
  - cbn. rewrite Hexp. lia.
  - cbn in Hdec. now rewrite Hexp in Hdec.
Qed.

Lemma interval_fields_decode_witness :
  0 <= 100001 < 2 ^ 46 /\
  exists m e,
    twt_calculate_wake_interval_fields 100001 = Some (m, e, m * 2 ^ e) /\
    morse_twt_calculate_wake_interval_us (TwtParams (Z.shiftl e 10) 0 0 m 0) = 100000.
Proof.
  assert (H : 0 <= 100001 < 2 ^ 46) by (split; [lia|now vm_compute]).
  split; [exact H|].
  destruct (interval_fields_decode 100001 (Z.shiftl 1 10) 0 0 0 H)
    as (m & e & Hrun & _ & _ & _ & Hdec).
  assert (Hme : m = 50000 /\ e = 1).
  { vm_compute in Hrun. injection Hrun as <- <- _. auto. }
  destruct Hme as [-> ->]. exists 50000, 1. split; [exact Hrun|].
  exact (Hdec eq_refl).
Defined.

(** *** The invariant of the engine *)

Section Invariant.
Variable MAX : nat.

(** A flow in NO_AGREEMENT is linked into no wake-interval list. *)
Definition idle_unlinked (t : morse_twt) : Prop :=
  forall q x, agr_at t q = Some x -> state x = MORSE_TWT_STATE_NO_AGREEMENT ->
    q ∉ concat (wake_intervals t).

(** The state the engine works on: the listed stations are distinct live
    records of [MAX] flows; the agreements linked into the wake-interval
    lists are distinct slots of live records, with a wake interval that is
    not zero, of flows that are not in NO_AGREEMENT. *)
Record twt_inv (t : morse_twt) : Prop := TwtInv {
  inv_live : stas_live MAX t;
  inv_stas : NoDup (stas t);
  inv_sound : lists_sound t;
  inv_nodup : NoDup (concat (wake_intervals t));
  inv_idle : idle_unlinked t
}.

(** What the handlers need of an event: a flow id within the station
    record, and for a setup, agreement data with a wake interval that is not
    zero. *)
Definition event_ok (e : morse_twt_event) : Prop :=
  (flow_id e < MAX)%nat /\
  (type e = MORSE_TWT_EVENT_SETUP ->
   exists d, setup_agr_data e = Some d /\ wake_interval_us d <> 0).

Lemma lists_sound_iff t :
  lists_sound t <-> forall q, q ∈ concat (wake_intervals t) -> slot_sound t q.
Proof.
  unfold lists_sound. rewrite Forall_forall. split.
  - intros H q Hq. apply elem_of_concat_iff in Hq as (b & Hqb & Hb).
    specialize (H b Hb). rewrite Forall_forall in H. now apply H.
  - intros H b Hb. rewrite Forall_forall. intros q Hq. apply H.
    apply elem_of_concat_iff. eauto.
Qed.

Lemma slot_sound_ext t t' q : sta_mem t' = sta_mem t -> slot_sound t q -> slot_sound t' q.
Proof. intros Hm (x & Hx & Hi). exists x. split; [|exact Hi]. now rewrite (agr_at_ext t t'). Qed.

(** The invariant looks at the station records, the station list and the
    wake-interval lists only, and at the latter up to how the linked slots
    are arranged. *)
Lemma inv_lists t t' :
  twt_inv t -> sta_mem t' = sta_mem t -> stas t' = stas t ->
  NoDup (concat (wake_intervals t')) ->
  (forall q, q ∈ concat (wake_intervals t') ->
     q ∈ concat (wake_intervals t) \/
     (slot_sound t q /\ forall x, agr_at t q = Some x -> state x <> MORSE_TWT_STATE_NO_AGREEMENT)) ->
  twt_inv t'.
Proof.
  intros [Hlive Hstas Hsound Hnd Hidle] Hm Hs Hnd' Hin. split.
  - intros p Hp. rewrite Hs in Hp. rewrite Hm. now apply Hlive.
  - now rewrite Hs.
  - apply lists_sound_iff. intros q Hq. apply (slot_sound_ext t); [exact Hm|].
    destruct (Hin q Hq) as [Hold|[Hnew _]]; [|exact Hnew].
    now apply (proj1 (lists_sound_iff t) Hsound).
  - exact Hnd'.
  - intros q x Hx Hst Hq. rewrite (agr_at_ext t t') in Hx by exact Hm.
    destruct (Hin q Hq) as [Hold|[_ Hnew]].
    + exact (Hidle q x Hx Hst Hold).
    + exact (Hnew x Hx Hst).
Qed.

Lemma inv_frame t t' :
  twt_inv t -> sta_mem t' = sta_mem t -> stas t' = stas t ->
  wake_intervals t' = wake_intervals t -> twt_inv t'.
Proof.
  intros Hinv Hm Hs Hw. apply (inv_lists t); auto.
  - rewrite Hw. apply Hinv.
  - intros q Hq. left. now rewrite <- Hw.
Qed.

Lemma agr_at_update_inv g a t x' :
  agr_at (agr_update g a t) a = Some x' -> exists x, agr_at t a = Some x /\ x' = g x.
Proof.
  destruct (agr_at t a) as [x|] eqn:Hx.
  - rewrite (agr_at_update_eq g a t x Hx). intros [= <-]. eauto.
  - intros H. assert (Hs : is_Some (agr_at t a)).
    { apply (agr_at_update_is_Some g a a t). eauto. }
    destruct Hs as [y Hy]. congruence.
Qed.

Lemma stas_live_update g a t : stas_live MAX t -> stas_live MAX (agr_update g a t).
Proof.
  intros Hlive p Hp. destruct (Hlive p Hp) as (s & Hs & Hlen).
  unfold agr_update. cbn [sta_mem set_sta_mem].
  destruct (decide (p = a.1)) as [->|Hne].
  - rewrite lookup_alter_eq, Hs. eexists. split; [reflexivity|]. cbn. now rewrite length_alter.
  - rewrite lookup_alter_ne by congruence. eauto.
Qed.

(** Writing to a slot that is not linked. *)
Lemma inv_update_unlinked g a t :
  twt_inv t -> a ∉ concat (wake_intervals t) -> twt_inv (agr_update g a t).
Proof.
  intros [Hlive Hstas Hsound Hnd Hidle] Hunl. split.
  - now apply stas_live_update.
  - exact Hstas.
  - now apply lists_sound_update.
  - exact Hnd.
  - intros q x Hx Hst. cbn [wake_intervals agr_update set_sta_mem].
    destruct (decide (a = q)) as [<-|Hne]; [exact Hunl|].
    rewrite agr_at_update_ne in Hx by exact Hne. exact (Hidle q x Hx Hst).
Qed.

(** Writing to a slot, linked or not, what keeps its wake interval and does
    not make it idle. *)
Lemma inv_update_linked g a t :
  twt_inv t ->
  (forall x, agr_at t a = Some x ->
     wake_interval_us (data (g x)) = wake_interval_us (data x) /\
     (state (g x) = MORSE_TWT_STATE_NO_AGREEMENT -> state x = MORSE_TWT_STATE_NO_AGREEMENT)) ->
  twt_inv (agr_update g a t).
Proof.
  intros [Hlive Hstas Hsound Hnd Hidle] Hg. split.
  - now apply stas_live_update.
  - exact Hstas.
  - apply lists_sound_iff. cbn [wake_intervals agr_update set_sta_mem]. intros q Hq.
    destruct (proj1 (lists_sound_iff t) Hsound q Hq) as (x & Hx & Hi).
    destruct (decide (a = q)) as [<-|Hne].
    + exists (g x). split; [now apply agr_at_update_eq|]. now rewrite (proj1 (Hg x Hx)).
    + exists x. split; [|exact Hi]. now rewrite agr_at_update_ne.
  - exact Hnd.
  - intros q x' Hx' Hst. cbn [wake_intervals agr_update set_sta_mem].
    destruct (decide (a = q)) as [<-|Hne].
    + apply agr_at_update_inv in Hx' as (x & Hx & ->).
      apply (Hidle a x Hx). now apply (Hg x Hx).
    + rewrite agr_at_update_ne in Hx' by exact Hne. exact (Hidle q x' Hx' Hst).
Qed.

(** Replacing a station record by one with the same agreements. *)
Lemma inv_insert_sta t t' p s s' :
  twt_inv t -> sta_mem t !! p = Some s -> agreements s' = agreements s ->
  sta_mem t' = <[p := s']> (sta_mem t) -> stas t' = stas t ->
  wake_intervals t' = wake_intervals t -> twt_inv t'.
Proof.
  intros [Hlive Hstas Hsound Hnd Hidle] Hs Hagr Hm Hst Hw.
  assert (Hat : forall q, agr_at t' q = agr_at t q).
  { intros q. unfold agr_at. rewrite Hm. destruct (decide (q.1 = p)) as [->|Hne].
    - rewrite lookup_insert_eq, Hs. cbn. now rewrite Hagr.
    - now rewrite lookup_insert_ne by congruence. }
  split.
  - intros q Hq. rewrite Hst in Hq. rewrite Hm. destruct (decide (q = p)) as [->|Hne].
    + rewrite lookup_insert_eq. destruct (Hlive p Hq) as (s0 & Hs0 & Hlen).
      exists s'. split; [reflexivity|]. rewrite Hagr. congruence.
    + rewrite lookup_insert_ne by congruence. now apply Hlive.
  - now rewrite Hst.
  - apply lists_sound_iff. rewrite Hw. intros q Hq.
    destruct (proj1 (lists_sound_iff t) Hsound q Hq) as (x & Hx & Hi).
    exists x. split; [now rewrite Hat|exact Hi].
  - now rewrite Hw.
  - intros q x Hx Hstate. rewrite Hw. rewrite Hat in Hx. exact (Hidle q x Hx Hstate).
Qed.

(** **** The scheduler keeps the invariant *)

Lemma wi_get_loop_concat t I : forall wis i l',
  wi_get_loop t I wis = Some (Some (i, l')) -> concat l' = concat wis.
Proof.
  induction wis as [|wi wis IH]; intros i l'; cbn [wi_get_loop]; [discriminate|].
  destruct wi as [|agr wi0]; [discriminate|].
  destruct (agr_at t agr) as [a|]; [|discriminate]. cbn [mbind option_bind].
  destruct (wake_interval_us (data a) =? I); [now intros [= <- <-]|].
  destruct (wake_interval_us (data a) >? I).
  { destruct (can_alloc t); [|discriminate]. now intros [= <- <-]. }
  destruct wis as [|wi' wis'].
  { destruct (can_alloc t); [|discriminate]. intros [= <- <-]. cbn. now rewrite !app_nil_r. }
  destruct (wi_get_loop t I (wi' :: wis')) as [[[i0 l0]|]|] eqn:Hr; cbn; try discriminate.
  intros [= <- <-]. cbn. now rewrite (IH i0 l0 eq_refl).
Qed.

Lemma wake_interval_get_concat t I i t1 :
  morse_twt_agreement_wake_interval_get t I = Some (Some (i, t1)) ->
  exists l', t1 = set_wake_intervals l' t /\ concat l' = concat (wake_intervals t).
Proof.
  unfold morse_twt_agreement_wake_interval_get.
  destruct (wake_intervals t) as [|c wis] eqn:Hw.
  - destruct (can_alloc t); [|discriminate]. intros [= <- <-]. exists [[]]. auto.
  - destruct (wi_get_loop t I (c :: wis)) as [[[i0 l0]|]|] eqn:Hr; cbn; try discriminate.
    intros [= <- <-]. exists l0. split; [reflexivity|]. exact (wi_get_loop_concat _ _ _ _ _ Hr).
Qed.

Lemma wi_place_perm t agr duration : forall b time b',
  wi_place t agr duration b = Some (Some (time, b')) -> b' ≡ₚ agr :: b.
Proof.
  induction b as [|x b IH]; intros time b'; [discriminate|].
  destruct b as [|y b].
  - cbn. destruct (agr_at t x); [|discriminate]. cbn. intros [= _ <-]. apply Permutation_swap.
  - rewrite wi_place_cons2.
    destruct (agr_at t x) as [ax|]; [|discriminate]. cbn [mbind option_bind].
    destruct (agr_at t y) as [ay|]; [|discriminate]. cbn [mbind option_bind].
    destruct (unalloc_dur_us _ _) as [gap|]; [|discriminate]. cbn [mbind option_bind].
    destruct (gap >=? duration).
    + intros [= _ <-]. apply Permutation_swap.
    + destruct (wi_place t agr duration (y :: b)) as [[[time0 b0]|]|] eqn:Hr; cbn;
        try discriminate.
      intros [= _ <-]. cbn. rewrite (IH time0 b0 eq_refl). apply Permutation_swap.
Qed.

Lemma concat_insert_perm {A} (l : list (list A)) i b b' x :
  l !! i = Some b -> b' ≡ₚ x :: b -> concat (<[i := b']> l) ≡ₚ x :: concat l.
Proof.
  revert i. induction l as [|c l IH]; intros i Hi Hp; [discriminate|].
  destruct i as [|i]; cbn in *.
  - injection Hi as ->. now rewrite Hp.
  - rewrite (IH i Hi Hp). now rewrite Permutation_middle.
Qed.

(** The state after [morse_twt_agreement_wake_interval_add]: the slot may
    have been given a wake time, and the wake-interval lists hold the slots
    they held, with the given one added or not. *)
Lemma wake_interval_add_shape t agr a r t' :
  agr_at t agr = Some a ->
  morse_twt_agreement_wake_interval_add t agr = Some (r, t') ->
  exists l t0,
    t' = set_wake_intervals l t0 /\
    (t0 = t \/ exists time, t0 = agr_update (retime time) agr t) /\
    (concat l = concat (wake_intervals t) \/
     (concat l ≡ₚ agr :: concat (wake_intervals t) /\
      considered a)).
Proof.
  intros Ha. unfold morse_twt_agreement_wake_interval_add.
  rewrite Ha. cbn [mbind option_bind].
  assert (Hsame : Some (- EINVAL, t) = Some (r, t') ->
    exists l t0, t' = set_wake_intervals l t0 /\
      (t0 = t \/ exists time, t0 = agr_update (retime time) agr t) /\
      (concat l = concat (wake_intervals t) \/
       (concat l ≡ₚ agr :: concat (wake_intervals t) /\
        considered a))).
  { intros [= _ <-]. exists (wake_intervals t), t. split; [now destruct t|]. auto. }
  assert (Hcons : (state a <> MORSE_TWT_STATE_NO_AGREEMENT /\
                   state a <> MORSE_TWT_STATE_AGREEMENT) ->
    (r0 ← morse_twt_agreement_wake_interval_get t (wake_interval_us (data a));
     match r0 with
     | Some (i, t0) =>
         b ← wake_intervals t0 !! i;
         match b with
         | [] => Some (0, set_bucket i [agr] (agr_update (retime 0) agr t0))
         | _ :: _ =>
             if morse_twt_get_command (req_type (params (data a)))
                =? setup_cmd_code TWT_SETUP_CMD_DEMAND
             then Some (0, set_bucket i (b ++ [agr]) t0)
             else
               r1 ← wi_place t0 agr (wake_duration_us (data a)) b;
               match r1 with
               | Some (time, b') =>
                   Some (0, set_bucket i b' (agr_update (retime time) agr t0))
               | None => Some (- EBADSLT, t0)
               end
         end
     | None => Some (- EINVAL, t)
     end) = Some (r, t') ->
    exists l t0, t' = set_wake_intervals l t0 /\
      (t0 = t \/ exists time, t0 = agr_update (retime time) agr t) /\
      (concat l = concat (wake_intervals t) \/
       (concat l ≡ₚ agr :: concat (wake_intervals t) /\
        considered a))).
  { intros Hc.
    destruct (morse_twt_agreement_wake_interval_get t (wake_interval_us (data a)))
      as [[[i t1]|]|] eqn:Hget; cbn [mbind option_bind]; [|exact Hsame|discriminate].
    apply wake_interval_get_concat in Hget as (l' & -> & Hl').
    cbn [wake_intervals set_wake_intervals].
    destruct (l' !! i) as [b|] eqn:Hb; cbn [mbind option_bind]; [|discriminate].
    assert (Hlinked : forall b', b' ≡ₚ agr :: b ->
              concat (<[i := b']> l') ≡ₚ agr :: concat (wake_intervals t) /\
              considered a).
    { intros b' Hp. rewrite <- Hl'. split; [now apply (concat_insert_perm l' i b)|exact Hc]. }
    destruct b as [|c b].
    { intros [= _ <-]. exists (<[i := [agr]]> l'), (agr_update (retime 0) agr t).
      split; [reflexivity|]. split; [eauto|]. right. now apply Hlinked. }
    destruct (_ =? _).
    { intros [= _ <-]. exists (<[i := (c :: b) ++ [agr]]> l'), t.
      split; [reflexivity|]. split; [auto|]. right. apply Hlinked.
      rewrite Permutation_app_comm. reflexivity. }
    destruct (wi_place _ _ _ _) as [[[time b']|]|] eqn:Hpl; cbn [mbind option_bind];
      [| |discriminate].
    - intros [= _ <-]. exists (<[i := b']> l'), (agr_update (retime time) agr t).
      split; [reflexivity|]. split; [eauto|]. right. apply Hlinked.
      exact (wi_place_perm _ _ _ _ _ _ Hpl).
    - intros [= _ <-]. exists l', t. split; [reflexivity|]. auto. }
  destruct (state a) eqn:Hst; try exact Hsame; apply Hcons; split; discriminate.
Qed.

Lemma wake_interval_add_inv t agr a :
  twt_inv t -> agr_at t agr = Some a -> wake_interval_us (data a) <> 0 ->
  agr ∉ concat (wake_intervals t) ->
  exists r t', morse_twt_agreement_wake_interval_add t agr = Some (r, t') /\ twt_inv t'.
Proof.
  intros Hinv Ha Hnz Hunl.
  destruct (wake_interval_add_safe t agr) as [[r t'] Hrun]; [eauto|apply Hinv|].
  exists r, t'. split; [exact Hrun|].
  destruct (wake_interval_add_shape t agr a r t' Ha Hrun) as (l & t0 & -> & Ht0 & Hl).
  assert (Hinv0 : twt_inv t0).
  { destruct Ht0 as [->|[time ->]]; [exact Hinv|]. now apply inv_update_unlinked. }
  assert (Hw0 : wake_intervals t0 = wake_intervals t).
  { destruct Ht0 as [->|[time ->]]; reflexivity. }
  apply (inv_lists t0); [exact Hinv0|reflexivity|reflexivity| |];
    cbn [wake_intervals set_wake_intervals]; rewrite ?Hw0.
  - destruct Hl as [->|[Hp _]]; [apply Hinv|]. rewrite Hp. apply NoDup_cons.
    split; [exact Hunl|apply Hinv].
  - intros q Hq. destruct Hl as [Hl|[Hp Hc]]; [left; now rewrite <- Hl|].
    rewrite Hp in Hq. apply elem_of_cons in Hq as [->|Hq]; [right|now left].
    destruct Ht0 as [->|[time ->]].
    + split; [exists a; auto|]. intros x Hx. rewrite Ha in Hx. injection Hx as <-. apply Hc.
    + split.
      * exists (retime time a). split; [now apply agr_at_update_eq|exact Hnz].
      * intros x Hx. rewrite (agr_at_update_eq _ _ _ _ Ha) in Hx. injection Hx as <-.
        apply Hc.
Qed.

(** **** Stations come and go *)

Lemma linked_live t q :
  twt_inv t -> q ∈ concat (wake_intervals t) -> is_Some (sta_mem t !! q.1).
Proof.
  intros Hinv Hq. destruct (proj1 (lists_sound_iff t) (inv_sound t Hinv) q Hq) as (x & Hx & _).
  unfold agr_at in Hx. destruct (sta_mem t !! q.1); [eauto|discriminate].
Qed.

Lemma linked_in_range t p s f :
  twt_inv t -> sta_mem t !! p = Some s -> (p, f) ∈ concat (wake_intervals t) ->
  (f < length (agreements s))%nat.
Proof.
  intros Hinv Hs Hq.
  destruct (proj1 (lists_sound_iff t) (inv_sound t Hinv) _ Hq) as (x & Hx & _).
  unfold agr_at in Hx. cbn in Hx. rewrite Hs in Hx. cbn in Hx.
  eapply lookup_lt_Some. exact Hx.
Qed.

Lemma add_sta_inv t a r t' :
  twt_inv t -> morse_twt_add_sta MAX t a = (r, t') ->
  twt_inv t' /\
  forall p, r = Some p ->
    (p ∈ stas t') /\ sta_mem t' !! p = Some (Sta a 0 false (replicate MAX idle_agr)).
Proof.
  intros Hinv. unfold morse_twt_add_sta. destruct (can_alloc t).
  2:{ intros [= <- <-]. split; [exact Hinv|discriminate]. }
  set (p := fresh (dom (sta_mem t))). set (new := Sta a 0 false (replicate MAX idle_agr)).
  intros [= <- <-].
  assert (Hp : sta_mem t !! p = None) by (apply not_elem_of_dom, is_fresh).
  assert (Hpl : p ∉ stas t).
  { intros Hin. destruct (inv_live t Hinv p Hin) as (s & Hs & _). congruence. }
  assert (Hat : forall q, q.1 <> p ->
            agr_at (set_stas (stas t ++ [p]) (set_sta_mem (<[p := new]> (sta_mem t)) t)) q
            = agr_at t q).
  { intros q Hq. unfold agr_at. cbn [sta_mem set_stas set_sta_mem].
    now rewrite lookup_insert_ne by congruence. }
  assert (Hlp : forall q, q ∈ concat (wake_intervals t) -> q.1 <> p).
  { intros q Hq Heq. destruct (linked_live t q Hinv Hq) as [s Hs]. congruence. }
  split.
  - destruct Hinv as [Hlive Hstas Hsound Hnd Hidle]. split.
    + intros q Hq. cbn [stas sta_mem set_stas set_sta_mem] in *.
      apply elem_of_app in Hq as [Hq|Hq].
      * rewrite lookup_insert_ne by (intros ->; contradiction). now apply Hlive.
      * apply list_elem_of_singleton in Hq as ->. rewrite lookup_insert_eq.
        exists new. split; [reflexivity|apply length_replicate].
    + cbn [stas set_stas set_sta_mem]. apply NoDup_app. split; [exact Hstas|]. split.
      * intros q Hq Hq'. apply list_elem_of_singleton in Hq' as ->. contradiction.
      * apply NoDup_singleton.
    + apply lists_sound_iff. cbn [wake_intervals set_stas set_sta_mem]. intros q Hq.
      destruct (proj1 (lists_sound_iff t) Hsound q Hq) as (x & Hx & Hi).
      exists x. split; [|exact Hi]. rewrite Hat; auto.
    + exact Hnd.
    + intros q x Hx Hst. cbn [wake_intervals set_stas set_sta_mem].
      destruct (decide (q.1 = p)) as [Heq|Hne].
      * intros Hq. now apply (Hlp q Hq).
      * rewrite Hat in Hx by exact Hne. exact (Hidle q x Hx Hst).
  - intros q [= <-]. cbn [stas sta_mem set_stas set_sta_mem]. split.
    + apply elem_of_app. right. left.
    + apply lookup_insert_eq.
Qed.

Lemma enter_no_agreement_inv t p s event :
  twt_inv t -> sta_mem t !! p = Some s -> length (agreements s) = MAX ->
  (flow_id event < MAX)%nat ->
  exists t',
    enter_state_settled MAX t (Some p) event MORSE_TWT_STATE_NO_AGREEMENT = Some (0, t') /\
    twt_inv t'.
Proof.
  intros Hinv Hs Hlen Hf.
  destruct (enter_no_agreement_run MAX t p s event Hs Hlen Hf) as (t' & Hrun & _ & _ & Hres).
  exists t'. split; [exact Hrun|].
  set (a := (p, flow_id event)) in *.
  pose proof (inv_nodup t Hinv) as Hnd.
  pose proof (NoDup_wi_unlink a _ Hnd) as Hnd2.
  pose proof (elem_of_wi_unlink a) as Hin2.
  destruct (all_flows_idle _).
  - destruct Hres as (Hmem & Hstas & Hwi).
    destruct (wi_unlink_flows_spec p MAX 0 _ Hnd2) as (Hnd3 & _ & Hin3).
    rewrite <- Hwi in Hnd3, Hin3.
    assert (Hsub : forall q, q ∈ concat (wake_intervals t') ->
              q ∈ concat (wake_intervals t) /\ q.1 <> p).
    { intros q Hq. apply Hin3 in Hq as [Hq Hout]. apply (Hin2 q _ Hnd) in Hq as [Hq _].
      split; [exact Hq|]. intros Heq. apply Hout. split; [exact Heq|].
      destruct q as [q1 q2]. cbn in Heq. subst q1.
      pose proof (linked_in_range t p s q2 Hinv Hs Hq). cbn. lia. }
    assert (Hat : forall q, q.1 <> p -> agr_at t' q = agr_at t q).
    { intros q Hq. unfold agr_at. rewrite Hmem. now rewrite lookup_delete_ne by congruence. }
    destruct Hinv as [Hlive Hst Hsound _ Hidle]. split.
    + intros q Hq. rewrite Hstas in Hq. apply (elem_of_unlink _ _ _ Hst) in Hq as [Hq Hne].
      rewrite Hmem, lookup_delete_ne by congruence. now apply Hlive.
    + rewrite Hstas. now apply NoDup_unlink.
    + apply lists_sound_iff. intros q Hq. destruct (Hsub q Hq) as [Hq0 Hne].
      destruct (proj1 (lists_sound_iff t) Hsound q Hq0) as (x & Hx & Hi).
      exists x. split; [|exact Hi]. now rewrite Hat.
    + exact Hnd3.
    + intros q x Hx Hstate Hq. destruct (Hsub q Hq) as [Hq0 Hne].
      rewrite Hat in Hx by exact Hne. exact (Hidle q x Hx Hstate Hq0).
  - destruct Hres as (Hmem & Hstas & Hwi & _).
    assert (Hat : forall q, q <> a -> agr_at t' q = agr_at t q).
    { intros q Hq. unfold agr_at. rewrite Hmem. destruct (decide (q.1 = p)) as [Heq|Hne].
      - rewrite Heq, lookup_insert_eq, Hs. cbn. unfold sta_flow_idle. cbn.
        apply list_lookup_alter_ne. intros Hf2. apply Hq. unfold a. destruct q; cbn in *.
        congruence.
      - now rewrite lookup_insert_ne by congruence. }
    destruct Hinv as [Hlive Hst Hsound _ Hidle]. split.
    + intros q Hq. rewrite Hstas in Hq. rewrite Hmem. destruct (decide (q = p)) as [->|Hne].
      * rewrite lookup_insert_eq. eexists. split; [reflexivity|]. cbn.
        now rewrite length_alter.
      * rewrite lookup_insert_ne by congruence. now apply Hlive.
    + now rewrite Hstas.
    + apply lists_sound_iff. rewrite Hwi. intros q Hq.
      apply (Hin2 q _ Hnd) in Hq as [Hq Hne].
      destruct (proj1 (lists_sound_iff t) Hsound q Hq) as (x & Hx & Hi).
      exists x. split; [|exact Hi]. now rewrite Hat.
    + now rewrite Hwi.
    + intros q x Hx Hstate. rewrite Hwi. intros Hq.
      apply (Hin2 q _ Hnd) in Hq as [Hq Hne].
      rewrite Hat in Hx by exact Hne. exact (Hidle q x Hx Hstate Hq).
Qed.

(** **** The senders and the handlers keep the invariant *)

Lemma send_reject_inv t p s e d :
  twt_inv t -> sta_mem t !! p = Some s -> length (agreements s) = MAX ->
  (flow_id e < MAX)%nat -> setup_agr_data e = Some d ->
  exists r t', morse_twt_send_reject MAX t (Some p) e = Some (r, t') /\ twt_inv t'.
Proof.
  intros Hinv Hs Hlen Hf Hd. unfold morse_twt_send_reject, send_reject_with.
  cbn [setup_agr_data set_setup_cmd]. rewrite Hd. cbn [mbind option_bind].
  set (resp := set_setup_agr_data _ _).
  unfold send_response. rewrite Hs. cbn [mbind option_bind].
  destruct (action_is_pending s).
  - set (t5 := set_sta_mem _ _).
    assert (Hinv5 : twt_inv t5).
    { apply (inv_insert_sta t t5 p s (set_action_is_pending false s)); auto. }
    destruct (enter_no_agreement_inv t5 p (set_action_is_pending false s) resp Hinv5)
      as (t' & Hrun & Hinv'); [apply lookup_insert_eq|exact Hlen|exact Hf|].
    rewrite Hrun. cbn [mbind option_bind snd]. eauto.
  - eexists _, _. split; [reflexivity|]. apply (inv_frame t); auto.
Qed.

Lemma send_accept_inv t p s x e d :
  twt_inv t -> sta_mem t !! p = Some s -> length (agreements s) = MAX ->
  agreements s !! flow_id e = Some x -> setup_agr_data e = Some d ->
  wake_interval_us d <> 0 -> (p, flow_id e) ∉ concat (wake_intervals t) ->
  exists r t', morse_twt_send_accept MAX t (Some p) e = Some (r, t') /\ twt_inv t'.
Proof.
  intros Hinv Hs Hlen Hx Hd Hnz Hunl.
  pose proof (agr_at_lookup t p _ s x Hs Hx) as Ha.
  assert (Hf : (flow_id e < MAX)%nat).
  { rewrite <- Hlen. eapply lookup_lt_Some; eassumption. }
  unfold morse_twt_send_accept, send_accept_with. rewrite Hd, Ha. cbn [mbind option_bind].
  set (f := flow_id e) in *.
  set (t1 := agr_update (set_data d) (p, f) t).
  assert (Hinv1 : twt_inv t1) by (now apply inv_update_unlinked).
  assert (Ha1 : agr_at t1 (p, f) = Some (set_data d x)) by (now apply agr_at_update_eq).
  assert (Hst1 : slot_step p f t t1) by (apply slot_step_update; reflexivity).
  destruct (wake_interval_add_inv t1 (p, f) (set_data d x) Hinv1 Ha1 Hnz Hunl)
    as (r & t2 & Hadd & Hinv2).
  rewrite Hadd. cbn [mbind option_bind snd].
  pose proof (wake_interval_add_slot_step p f t1 r t2 Hadd) as Hst2.
  set (G := fun x0 : morse_twt_agreement =>
              set_data (data_update_params (data_set_command TWT_SETUP_CMD_ACCEPT (data x0))) x0).
  set (t3 := agr_update G (p, f) t2).
  assert (Hinv3 : twt_inv t3).
  { apply inv_update_linked; [exact Hinv2|]. intros x0 _. split; [reflexivity|auto]. }
  assert (Hst3 : slot_step p f t t3).
  { eapply slot_step_trans; [exact Hst1|]. eapply slot_step_trans; [exact Hst2|].
    apply slot_step_update. reflexivity. }
  destruct Hst3 as (Hstas3 & Htx3 & Haf3 & Hother3 & Hp3).
  destruct (Hp3 s Hs) as (s3 & Hs3 & Hid3 & Hdt3 & Hap3 & Hlen3 & Hslot3).
  destruct (Hslot3 x Hx) as (x3 & Hx3 & Hstate3).
  rewrite (agr_at_lookup t3 p f s3 x3 Hs3 Hx3). cbn [mbind option_bind].
  set (resp := set_setup_agr_data (Some (data x3))
                 (set_setup_cmd TWT_SETUP_CMD_ACCEPT e)).
  unfold send_response. rewrite Hs3. cbn [mbind option_bind].
  destruct (action_is_pending s3).
  - set (t5 := set_sta_mem _ _).
    assert (Hinv5 : twt_inv t5).
    { apply (inv_insert_sta t3 t5 p s3 (set_action_is_pending false s3)); auto. }
    assert (Hs5 : sta_mem t5 !! p = Some (set_action_is_pending false s3)).
    { unfold t5. cbn [sta_mem set_sta_mem]. apply lookup_insert_eq. }
    assert (Ha5 : agr_at t5 (p, flow_id resp) = Some x3).
    { apply (agr_at_lookup t5 p _ _ x3 Hs5). exact Hx3. }
    rewrite <- (enter_state_settled_eq MAX t5 (Some p) resp MORSE_TWT_STATE_AGREEMENT) by auto.
    rewrite (enter_agreement_eq MAX t5 p x3 resp (data x3) Ha5 Hf eq_refl).
    cbn [mbind option_bind snd]. eexists _, _. split; [reflexivity|].
    apply inv_update_linked.
    + apply inv_update_linked; [exact Hinv5|]. intros x0 _. split; [reflexivity|discriminate].
    + intros x0 Hx0. rewrite (agr_at_update_eq _ _ _ _ Ha5) in Hx0. injection Hx0 as <-.
      split; [reflexivity|auto].
  - eexists _, _. split; [reflexivity|]. apply (inv_frame t3); auto.
Qed.

Lemma enter_consider_inv t p s x0 e st :
  twt_inv t -> sta_mem t !! p = Some s -> length (agreements s) = MAX ->
  agreements s !! flow_id e = Some x0 -> state x0 = MORSE_TWT_STATE_NO_AGREEMENT ->
  event_ok e -> type e = MORSE_TWT_EVENT_SETUP ->
  st <> MORSE_TWT_STATE_NO_AGREEMENT -> st <> MORSE_TWT_STATE_AGREEMENT ->
  exists t', morse_twt_enter_state MAX t (Some p) e st = Some (0, t') /\ twt_inv t'.
Proof.
  intros Hinv Hs Hlen Hx0 Hst0 [Hf Hdata] Htype Hn1 Hn2.
  destruct (Hdata Htype) as (d & Hd & Hnz).
  pose proof (agr_at_lookup t p _ s x0 Hs Hx0) as Ha.
  assert (Hunl : (p, flow_id e) ∉ concat (wake_intervals t)).
  { exact (inv_idle t Hinv _ _ Ha Hst0). }
  destruct (considered_sta MAX t p s x0 e Hs Hlen Hx0 st) as (Hs1 & Hlen1 & Hx1).
  set (t0 := agr_update (set_state st) (p, flow_id e) t) in *.
  assert (Hinv0 : twt_inv t0) by (now apply inv_update_unlinked).
  unfold morse_twt_enter_state, enter_state_with. rewrite Ha. cbn [mbind option_bind].
  fold t0.
  destruct (send_accept_inv t0 p _ _ e d Hinv0 Hs1 Hlen1 Hx1 Hd Hnz Hunl)
    as (ra & ta & Hra & Hinva).
  destruct (send_reject_inv t0 p _ e d Hinv0 Hs1 Hlen1 Hf Hd) as (rr & tr & Hrr & Hinvr).
  destruct st; try contradiction; rewrite ?Hra, ?Hrr; cbn [mbind option_bind snd]; eauto.
Qed.

Lemma handle_event_in_no_agreement_inv t p s x0 e :
  twt_inv t -> sta_mem t !! p = Some s -> length (agreements s) = MAX ->
  agreements s !! flow_id e = Some x0 -> state x0 = MORSE_TWT_STATE_NO_AGREEMENT ->
  event_ok e ->
  exists r t',
    morse_twt_handle_event_in_no_agreement MAX t (Some p) e = Some (r, t') /\ twt_inv t'.
Proof.
  intros Hinv Hs Hlen Hx0 Hst0 Hok. unfold morse_twt_handle_event_in_no_agreement.
  destruct (type e) eqn:Htype; [|eauto].
  destruct (setup_cmd e); eauto;
    match goal with
    | |- context [morse_twt_enter_state MAX t (Some p) e ?st] =>
        destruct (enter_consider_inv t p s x0 e st Hinv Hs Hlen Hx0 Hst0 Hok Htype)
          as (t' & Hrun & Hinv'); [discriminate|discriminate|];
        rewrite Hrun; cbn [mbind option_bind snd]; eauto
    end.
Qed.

Lemma handle_event_in_agreement_inv t p s e :
  twt_inv t -> sta_mem t !! p = Some s -> length (agreements s) = MAX ->
  event_ok e ->
  exists r t', morse_twt_handle_event_in_agreement MAX t p e = Some (r, t') /\ twt_inv t'.
Proof.
  intros Hinv Hs Hlen [Hf Hdata]. unfold morse_twt_handle_event_in_agreement.
  destruct (type e) eqn:Htype; [|eauto].
  destruct (Hdata eq_refl) as (d & Hd & _).
  destruct (send_reject_inv t p s e d Hinv Hs Hlen Hf Hd) as (rr & tr & Hrr & Hinvr).
  destruct (setup_cmd e); eauto; rewrite Hs; cbn [mbind option_bind];
    (destruct (morse_twt_peek_tx _ _ _); [eauto|]);
    rewrite Hrr; cbn [mbind option_bind snd]; eauto.
Qed.

Lemma handle_event_teardown_inv t sta e :
  twt_inv t -> (forall p, sta = Some p -> p ∈ stas t) -> (flow_id e < MAX)%nat ->
  exists r t', morse_twt_handle_event_teardown MAX t sta e = Some (r, t') /\ twt_inv t'.
Proof.
  intros Hinv Hsta Hf. unfold morse_twt_handle_event_teardown.
  destruct (vif_type t); eauto.
  rewrite enter_state_settled_eq by auto. destruct sta as [p|]; [|cbn; eauto].
  destruct (inv_live t Hinv p (Hsta p eq_refl)) as (s & Hs & Hlen).
  destruct (enter_no_agreement_inv t p s e Hinv Hs Hlen Hf) as (t' & Hrun & Hinv'). eauto.
Qed.

Lemma handle_setup_event_inv t p e :
  twt_inv t -> p ∈ stas t -> event_ok e ->
  exists t', handle_setup_event MAX t p e = Some t' /\ twt_inv t'.
Proof.
  intros Hinv Hp Hok. destruct (inv_live t Hinv p Hp) as (s & Hs & Hlen).
  destruct (lookup_lt_is_Some_2 (agreements s) (flow_id e)) as [x0 Hx0].
  { rewrite Hlen. apply Hok. }
  unfold handle_setup_event. rewrite (agr_at_lookup t p _ s x0 Hs Hx0). cbn [mbind option_bind].
  destruct (state x0) eqn:Hst.
  - destruct (handle_event_in_no_agreement_inv t p s x0 e Hinv Hs Hlen Hx0 Hst Hok)
      as (r & t' & Hrun & Hinv'). rewrite Hrun. cbn. eauto.
  - eexists. split; [reflexivity|]. unfold morse_twt_handle_event_in_consider.
    destruct (type e), (setup_cmd e); exact Hinv.
  - eexists. split; [reflexivity|]. unfold morse_twt_handle_event_in_consider.
    destruct (type e), (setup_cmd e); exact Hinv.
  - eexists. split; [reflexivity|]. unfold morse_twt_handle_event_in_consider.
    destruct (type e), (setup_cmd e); exact Hinv.
  - eexists. split; [reflexivity|]. unfold morse_twt_handle_event_in_consider.
    destruct (type e), (setup_cmd e); exact Hinv.
  - destruct (handle_event_in_agreement_inv t p s e Hinv Hs Hlen Hok)
      as (r & t' & Hrun & Hinv'). rewrite Hrun. cbn. eauto.
Qed.

Lemma get_sta_live t a :
  twt_inv t ->
  exists r, morse_twt_get_sta t a = Some r /\ forall p, r = Some p -> p ∈ stas t.
Proof.
  intros Hinv. unfold morse_twt_get_sta.
  destruct (get_sta_loop_cases (sta_mem t) (stas t) a) as
    [[Hn _]|(pre & p & post & s & Hl & _ & _ & _ & Hrun)].
  - intros q Hq. destruct (inv_live t Hinv q Hq) as (s & Hs & _). eauto.
  - exists None. split; [exact Hn|discriminate].
  - exists (Some p). split; [exact Hrun|]. intros q [= <-]. rewrite Hl.
    apply elem_of_app. right. left.
Qed.

Section Engine.
Variables (responder requester associated : bool).

Lemma pass_inv t i e :
  twt_inv t -> events t !! i = Some e -> event_ok e ->
  exists r t' w,
    handle_event_pass MAX responder requester associated t i = Some (r, t', w) /\
    twt_inv t'.
Proof.
  intros Hinv Hi Hok. unfold handle_event_pass. rewrite Hi. cbn [mbind option_bind].
  set (ta := set_events (delete i (events t)) t).
  assert (Hinva : twt_inv ta) by (apply (inv_frame t); auto).
  destruct (morse_twt_preprocess_event responder requester associated ta e)
    as [[more t1] w1] eqn:Hpre.
  assert (Hinv1 : twt_inv t1).
  { apply (inv_frame ta); [exact Hinva| | |];
      unfold morse_twt_preprocess_event in Hpre;
      destruct (type e), (teardown e), (setup_cmd e), responder, requester;
      injection Hpre as _ <- _; reflexivity. }
  destruct more; [|eauto].
  destruct (get_sta_live t1 (ev_addr e) Hinv1) as (sta & Hget & Hsta).
  rewrite Hget. cbn [mbind option_bind].
  destruct (type e).
  - destruct (match sta with
              | Some p => (Some p, t1)
              | None => morse_twt_add_sta MAX t1 (ev_addr e)
              end) as [sta' t2] eqn:Hadd.
    assert (H2 : twt_inv t2 /\ forall p, sta' = Some p -> p ∈ stas t2).
    { destruct sta as [p|].
      - injection Hadd as <- <-. auto.
      - destruct (add_sta_inv t1 _ _ _ Hinv1 Hadd) as [Hinv2 Hp]. split; [exact Hinv2|].
        intros p Hp'. now apply Hp. }
    destruct H2 as [Hinv2 Hp2]. destruct sta' as [p|]; [|eauto].
    destruct (handle_setup_event_inv t2 p e Hinv2 (Hp2 p eq_refl) Hok) as (t3 & Hrun & Hinv3).
    rewrite Hrun. cbn [mbind option_bind]. eauto.
  - destruct (handle_event_teardown_inv t1 sta e Hinv1 Hsta (proj1 Hok))
      as (r & t3 & Hrun & Hinv3).
    rewrite Hrun. cbn [mbind option_bind snd]. eauto.
Qed.

Lemma loop_inv addr fuel : forall t w,
  twt_inv t -> Forall event_ok (events t) -> (length (events t) <= fuel)%nat ->
  exists t' w',
    handle_event_loop MAX responder requester associated fuel t addr w = Some (Some (t', w')) /\
    twt_inv t' /\ Forall event_ok (events t').
Proof.
  induction fuel as [|fuel IH]; intros t w Hinv Hok Hlen.
  - assert (He : events t = []) by (destruct (events t); [reflexivity|cbn in Hlen; lia]).
    assert (Hp : morse_twt_peek_event t addr None = None).
    { unfold morse_twt_peek_event, morse_twt_peek_queue. rewrite He. now destruct addr. }
    cbn [handle_event_loop]. rewrite Hp. eauto.
  - cbn [handle_event_loop]. pose proof (peek_event_wanted t addr) as Hpeek.
    destruct (morse_twt_peek_event t addr None) as [i|]; [|eauto].
    destruct Hpeek as (x & Hx & Hin & _ & _ & _ & Hl).
    assert (Hokx : event_ok x).
    { rewrite Forall_forall in Hok. now apply Hok. }
    destruct (pass_inv t i x Hinv Hx Hokx) as (r & t1 & w1 & Hpass & Hinv1).
    rewrite Hpass. apply pass_events in Hpass as [He1 _].
    assert (Hok1 : Forall event_ok (events t1)).
    { rewrite He1. now apply Forall_delete. }
    destruct r; [|eauto].
    apply IH; [exact Hinv1|exact Hok1|rewrite He1; lia].
Qed.

(** The engine is safe on well-formed states.  From a state that satisfies
    the invariant, with events that name a flow of the station record and,
    for a setup, carry agreement data with a wake interval that is not zero,
    [morse_twt_handle_event] returns: it follows no pointer to a freed
    record, reads no flow outside a station record and divides by no zero.
    The state it leaves satisfies the invariant again, and the events still
    queued are among those that were. *)
Theorem handle_event_safe (t : morse_twt) (addr : option Z) :
  twt_inv t -> Forall event_ok (events t) ->
  exists t' w,
    morse_twt_handle_event MAX responder requester associated t addr = Some (t', w) /\
    twt_inv t' /\ Forall event_ok (events t') /\ sublist (events t') (events t).
Proof.
  intros Hinv Hok.
  destruct (loop_inv addr (length (events t)) t [] Hinv Hok (le_n _))
    as (t' & w' & Hrun & Hinv' & Hok').
  exists t', w'. unfold morse_twt_handle_event. rewrite Hrun. cbn.
  split; [reflexivity|]. split; [exact Hinv'|]. split; [exact Hok'|].
  destruct (loop_takes_wanted MAX responder requester associated addr _ t [] (le_n _))
    as [_ Hres].
  now destruct (Hres t' w' Hrun) as (_ & Hs & _).
Qed.

End Engine.

End Invariant.

(** *** Handing a queued REJECT over for transmission *)

Lemma filter_drops {A} (f : A -> bool) (l : list A) (x : A) :
  x ∈ l -> f x = false -> (length (List.filter f l) < length l)%nat.
Proof.
  induction l as [|y l IH]; intros Hin Hx; [inversion Hin|].
  pose proof (List.filter_length_le f l) as Hle.
  apply elem_of_cons in Hin as [<-|Hin]; cbn [List.filter].
  - rewrite Hx. cbn. lia.
  - specialize (IH Hin Hx). destruct (f y); cbn; lia.
Qed.

Section Reject.
Variable MAX : nat.

(** The transmit queue after a flow has entered NO_AGREEMENT: purged of the
    station's responses when the station record goes, untouched otherwise. *)
Lemma enter_no_agreement_tx t p s event :
  sta_mem t !! p = Some s ->
  length (agreements s) = MAX ->
  (flow_id event < MAX)%nat ->
  exists t',
    enter_state_settled MAX t (Some p) event MORSE_TWT_STATE_NO_AGREEMENT = Some (0, t') /\
    tx t' = (if all_flows_idle (sta_flow_idle (flow_id event) s)
             then morse_twt_queue_purge (tx t) (Some (addr s)) None
             else tx t).
Proof.
  intros Hs Hlen Hflow.
  set (a := (p, flow_id event)). set (s' := sta_flow_idle (flow_id event) s).
  assert (Hlive : is_Some (agr_at t a)).
  { apply (agr_at_live t p s _ Hs). lia. }
  destruct Hlive as [x Hx].
  unfold enter_state_settled, enter_state_with. fold a. rewrite Hx. cbn [mbind option_bind].
  set (t1 := agr_update (set_state MORSE_TWT_STATE_NO_AGREEMENT) a t).
  assert (Hs1 : sta_mem t1 !! p = Some s').
  { unfold t1, agr_update. cbn [sta_mem set_sta_mem]. cbn [a fst snd].
    now rewrite lookup_alter_eq, Hs. }
  assert (Hlen' : length (agreements s') = MAX).
  { unfold s', sta_flow_idle. cbn. now rewrite length_alter. }
  unfold morse_twt_sta_agreement_remove.
  destruct (Nat.leb_spec MAX (flow_id event)) as [Hge|_]; [lia|].
  destruct (agreement_remove_spec t1 a) as (t2 & Hrm & Hwi2 & Hsame2).
  { apply (agr_at_live t1 p s' _ Hs1). lia. }
  fold a. rewrite Hrm. cbn [mbind option_bind snd].
  destruct Hsame2 as (_ & _ & Hmem2 & Hstas2 & Hev2 & Htx2 & _ & _ & Haf2).
  assert (Hs2 : sta_mem t2 !! p = Some s') by (now rewrite Hmem2).
  rewrite Hs2. cbn [mbind option_bind].
  rewrite take_ge by lia. fold (all_flows_idle s').
  destruct (all_flows_idle s') eqn:Hidle.
  - destruct (sta_remove_spec MAX t2 p s' Hs2 Hlen')
      as (t3 & Hrm3 & _ & _ & _ & Htx3 & _).
    rewrite Hrm3. exists t3. split; [reflexivity|]. now rewrite Htx3, Htx2.
  - exists t2. split; [reflexivity|]. now rewrite Htx2.
Qed.

(** [morse_twt_dequeue_tx] of a queued REJECT for a flow under
    consideration.  When the station has another flow that is not in
    NO_AGREEMENT, the flow goes back to NO_AGREEMENT, the station stays and
    the response leaves the queue.  When it has none, the station record is
    freed on the way, and with it every response queued for its address, the
    REJECT itself among them: the [morse_twt_purge_event] that ends the
    function unlinks and frees an event that is already freed, for which
    there is no result. *)
Theorem dequeue_tx_reject (t : morse_twt) (i : nat) (e : morse_twt_event) (p : nat)
    (s : morse_twt_sta) (x : morse_twt_agreement) :
  tx t !! i = Some e ->
  type e = MORSE_TWT_EVENT_SETUP ->
  setup_cmd e = TWT_SETUP_CMD_REJECT ->
  morse_twt_get_sta t (ev_addr e) = Some (Some p) ->
  sta_mem t !! p = Some s ->
  length (agreements s) = MAX ->
  agreements s !! flow_id e = Some x ->
  considered x ->
  (all_flows_idle (sta_flow_idle (flow_id e) s) = true ->
     morse_twt_dequeue_tx MAX t i = None) /\
  (all_flows_idle (sta_flow_idle (flow_id e) s) = false ->
     exists t',
       morse_twt_dequeue_tx MAX t i = Some (0, t') /\
       flow_state t' p (flow_id e) = MORSE_TWT_STATE_NO_AGREEMENT /\
       sta_mem t' = <[p := sta_flow_idle (flow_id e) s]> (sta_mem t) /\
       tx t' = delete i (tx t) /\ stas t' = stas t /\ events t' = events t /\
       action_frames t' = action_frames t).
Proof.
  intros Hi Htype Hcmd Hget Hs Hlen Hx [Hc1 Hc2].
  assert (Hf : (flow_id e < MAX)%nat).
  { rewrite <- Hlen. eapply lookup_lt_Some; exact Hx. }
  assert (Haddr : addr s = ev_addr e).
  { apply get_sta_loop_Some in Hget as (_ & s0 & Hs0 & Ha). congruence. }
  destruct (enter_no_agreement_run MAX t p s e Hs Hlen Hf)
    as (t1 & Hrun & Haf & Hev & Hres).
  destruct (enter_no_agreement_tx t p s e Hs Hlen Hf) as (t1' & Hrun' & Htx).
  rewrite Hrun in Hrun'. injection Hrun' as <-.
  assert (Hresp : morse_twt_dequeue_tx_response MAX t e = Some (0, t1)).
  { unfold morse_twt_dequeue_tx_response. rewrite Hget. cbn [mbind option_bind].
    rewrite (agr_at_lookup t p _ s x Hs Hx). cbn [mbind option_bind]. rewrite Hcmd.
    rewrite enter_state_settled_eq by auto.
    destruct (state x); try contradiction; exact Hrun. }
  unfold morse_twt_dequeue_tx. rewrite Hi. cbn [mbind option_bind].
  rewrite Htype, Hcmd, Hresp. cbn [mbind option_bind fst snd].
  split; intros Hidle; rewrite Hidle in Hres, Htx.
  - assert (Hlt : (length (tx t1) < length (tx t))%nat).
    { rewrite Htx. unfold morse_twt_queue_purge.
      apply (filter_drops _ _ e); [eapply list_elem_of_lookup_2; exact Hi|].
      unfold purge_matches. cbn. rewrite Haddr, Z.eqb_refl. reflexivity. }
    destruct (Nat.eqb_spec (length (tx t1)) (length (tx t))); [lia|reflexivity].
  - destruct Hres as (Hmem & Hstas & _ & _). rewrite Htx, Nat.eqb_refl.
    eexists. split; [reflexivity|]. cbn [tx set_tx stas events action_frames sta_mem].
    split; [|repeat split; assumption].
    unfold flow_state, agr_at. cbn [sta_mem set_tx fst snd]. rewrite Hmem, lookup_insert_eq.
    cbn [mbind option_bind]. unfold sta_flow_idle. cbn [agreements set_agreements].
    now rewrite list_lookup_alter_eq, Hx.
Qed.

(** *** Requests the responder turns down

    [morse_twt_handle_event_in_no_agreement] for a setup event with agreement
    data, for a flow of a live station record.  A DEMAND or a GROUPING is
    rejected: the call returns 0 and a REJECT for the peer and flow, whose
    parameters carry the REJECT command, is produced.  When the request came
    in an action frame the REJECT goes out at once with the dialog token of
    the peer, and the flow is in NO_AGREEMENT; otherwise the REJECT is put at
    the tail of the transmit queue and the flow is in CONSIDER_DEMAND, with
    nothing else changed.  An ACCEPT, ALTERNATE, DICTATE or REJECT gives
    -EINVAL and changes nothing. *)
Theorem no_agreement_demand_rejected (t : morse_twt) (p : nat) (s : morse_twt_sta)
    (a0 : morse_twt_agreement) (event : morse_twt_event) (d : morse_twt_agreement_data) :
  sta_mem t !! p = Some s -> length (agreements s) = MAX ->
  agreements s !! flow_id event = Some a0 ->
  type event = MORSE_TWT_EVENT_SETUP -> setup_agr_data event = Some d ->
  (setup_cmd event = TWT_SETUP_CMD_DEMAND \/ setup_cmd event = TWT_SETUP_CMD_GROUPING ->
   exists t1 resp,
     morse_twt_handle_event_in_no_agreement MAX t (Some p) event = Some (0, t1) /\
     response_to event resp TWT_SETUP_CMD_REJECT /\
     if action_is_pending s then
       action_frames t1 =
         action_frames t ++ [ActionFrame resp (addr s) (dialog_token s) true] /\
       flow_state t1 p (flow_id event) = MORSE_TWT_STATE_NO_AGREEMENT
     else
       t1 = set_tx (tx t ++ [resp])
                   (agr_update (set_state MORSE_TWT_STATE_CONSIDER_DEMAND)
                               (p, flow_id event) t) /\
       flow_state t1 p (flow_id event) = MORSE_TWT_STATE_CONSIDER_DEMAND) /\
  (setup_cmd event = TWT_SETUP_CMD_ACCEPT \/ setup_cmd event = TWT_SETUP_CMD_ALTERNATE \/
   setup_cmd event = TWT_SETUP_CMD_DICTATE \/ setup_cmd event = TWT_SETUP_CMD_REJECT ->
   morse_twt_handle_event_in_no_agreement MAX t (Some p) event = Some (- EINVAL, t)).
Proof.
  intros Hs Hlen Ha0 Htype Hd. unfold morse_twt_handle_event_in_no_agreement. rewrite Htype.
  split.
  - intros Hcmd.
    pose proof (agr_at_lookup t p _ s a0 Hs Ha0) as Ha.
    destruct (considered_sta MAX t p s a0 event Hs Hlen Ha0 MORSE_TWT_STATE_CONSIDER_DEMAND)
      as (Hs0 & Hlen0 & Hx0).
    set (t0 := agr_update (set_state MORSE_TWT_STATE_CONSIDER_DEMAND) (p, flow_id event) t) in *.
    set (s0 := set_agreements _ s) in *.
    destruct (send_reject_run MAX t0 p s0 _ event d Hs0 Hlen0 Hx0 Hd)
      as (t1 & resp & Hrun & Hresp & Hres).
    assert (Henter : morse_twt_enter_state MAX t (Some p) event MORSE_TWT_STATE_CONSIDER_DEMAND
                     = Some (0, t1)).
    { unfold morse_twt_enter_state, enter_state_with. rewrite Ha.
      cbn [mbind option_bind]. fold t0. rewrite Hrun. reflexivity. }
    exists t1, resp.
    split; [destruct Hcmd as [-> | ->]; rewrite Henter; reflexivity|].
    split; [exact Hresp|].
    change (action_is_pending s0) with (action_is_pending s) in Hres.
    destruct (action_is_pending s); [exact Hres|].
    split; [exact Hres|]. subst t1.
    unfold flow_state. rewrite (agr_at_ext t0) by reflexivity.
    rewrite (agr_at_lookup t0 p _ s0 _ Hs0 Hx0). reflexivity.
  - intros [-> | [-> | [-> | ->]]]; reflexivity.
Qed.

End Reject.

(** *** The engine on concrete inputs *)

(** A REQUEST of peer 0xa1 for its flow 0, which has an agreement. *)
Definition repeated_request : morse_twt_event :=
  Event MORSE_TWT_EVENT_SETUP 0xa1 0 TWT_SETUP_CMD_REQUEST
        (Some (sample_data TWT_SETUP_CMD_REQUEST 0 8000)) false.

Lemma booked_NoDup : NoDup (concat (wake_intervals booked_twt)).
Proof. apply NoDup_ListNoDup. repeat constructor; cbn; intuition discriminate. Qed.

Lemma agreement_request_rejected_witness :
  exists t' resp,
    morse_twt_handle_event_in_agreement MAX_FLOWS booked_twt 1 repeated_request
      = Some (0, t') /\
    tx t' = [resp] /\ setup_cmd resp = TWT_SETUP_CMD_REJECT /\
    wake_intervals t' = wake_intervals booked_twt.
Proof.
  assert (Hf : (flow_id repeated_request < MAX_FLOWS)%nat) by (unfold MAX_FLOWS; cbn; lia).
  destruct (proj2 (agreement_request_rejected MAX_FLOWS booked_twt 1 booked_sta
                     repeated_request _ eq_refl eq_refl Hf eq_refl eq_refl booked_NoDup)
              eq_refl)
    as (t' & Hrun & _ & resp & (Hcmd & _) & Hres).
  cbn in Hres. subst t'. eexists _, resp. split; [exact Hrun|]. repeat split. exact Hcmd.
Defined.

(** The ACCEPT for flow 2 of peer 0xa1 waits in the transmit queue. *)
Definition accept_event : morse_twt_event :=
  Event MORSE_TWT_EVENT_SETUP 0xa1 2 TWT_SETUP_CMD_ACCEPT
        (Some (sample_data TWT_SETUP_CMD_ACCEPT 0 8000)) false.

Definition offered_sta : morse_twt_sta :=
  Sta 0xa1 0 false
      (<[2%nat := Agr MORSE_TWT_STATE_CONSIDER_REQUEST
                      (sample_data TWT_SETUP_CMD_ACCEPT 0 8000)]>
         (replicate MAX_FLOWS idle_agr)).

Definition offered_twt : morse_twt :=
  Twt true NL80211_IFTYPE_AP {[ 1%nat := offered_sta ]} [1%nat] [[(1%nat, 2%nat)]] []
      [accept_event] [] 0 [].

Lemma dequeue_tx_accept_witness :
  exists t',
    morse_twt_dequeue_tx MAX_FLOWS offered_twt 0 = Some (0, t') /\
    flow_state t' 1 2 = MORSE_TWT_STATE_AGREEMENT /\ tx t' = [].
Proof.
  assert (Hf : (flow_id accept_event < MAX_FLOWS)%nat) by (unfold MAX_FLOWS; cbn; lia).
  assert (Hc : considered (Agr MORSE_TWT_STATE_CONSIDER_REQUEST
                               (sample_data TWT_SETUP_CMD_ACCEPT 0 8000)))
    by (split; discriminate).
  destruct (proj2 (proj2 (dequeue_tx_accept MAX_FLOWS offered_twt 0 accept_event
                            eq_refl eq_refl eq_refl Hf)
                     1%nat _ eq_refl eq_refl) Hc _ eq_refl)
    as (t' & Hrun & Hagr & _ & Htx & _).
  exists t'. split; [exact Hrun|]. split; [|exact Htx].
  unfold flow_state. change (flow_id accept_event) with 2%nat in Hagr. now rewrite Hagr.
Defined.

(** A station interface, requester and associated, with an ACCEPT and a
    stray REQUEST in its event queue. *)
Definition requester_twt : morse_twt :=
  Twt true NL80211_IFTYPE_STATION ∅ [] [] [accept_event; request_event] [] [] 0 [].

Lemma handle_event_not_responder_witness :
  exists t',
    morse_twt_handle_event MAX_FLOWS false true true requester_twt None
      = Some (t', [TWT_CMD_WORK]) /\
    events t' = [] /\ to_install_uninstall t' = [accept_event].
Proof.
  assert (Hall : forall e, e ∈ events requester_twt -> wanted None e = true ->
                   type e = MORSE_TWT_EVENT_SETUP).
  { intros e He _. cbn in He. apply elem_of_cons in He as [->|He]; [reflexivity|].
    apply list_elem_of_singleton in He as ->. reflexivity. }
  destruct (handle_event_not_responder MAX_FLOWS false true true requester_twt None
              eq_refl Hall) as (t' & Hrun & Hev & Hin & _).
  exists t'. split; [exact Hrun|]. split; [exact Hev|exact Hin].
Defined.

(** A REQUEST of the unknown peer 0xc3 for flow 2. *)
Definition new_peer_request : morse_twt_event :=
  Event MORSE_TWT_EVENT_SETUP 0xc3 2 TWT_SETUP_CMD_REQUEST
        (Some (sample_data TWT_SETUP_CMD_REQUEST 0 8000)) false.

(** The responder of [fresh_twt] out of memory, with that request queued. *)
Definition starved_twt : morse_twt :=
  Twt false NL80211_IFTYPE_AP (sta_mem fresh_twt) (stas fresh_twt) [] [new_peer_request]
      [] [] 0 [].

Lemma handle_event_no_memory_witness :
  exists t',
    morse_twt_handle_event MAX_FLOWS true false false starved_twt None
      = Some (t', [TWT_WORK]) /\
    events t' = [] /\ tx t' = [] /\ stas t' = stas starved_twt.
Proof.
  eexists. split.
  - apply (handle_event_no_memory MAX_FLOWS false false starved_twt None 0 new_peer_request);
      reflexivity.
  - repeat split.
Defined.

Lemma handle_event_new_peer_witness :
  exists p t1 resp t2,
    morse_twt_handle_event MAX_FLOWS true false false
      (morse_twt_queue_event fresh_twt new_peer_request) None = Some (t1, []) /\
    morse_twt_get_sta t1 0xc3 = Some (Some p) /\
    flow_state t1 p 2 = MORSE_TWT_STATE_CONSIDER_REQUEST /\
    tx t1 = [resp] /\ setup_cmd resp = TWT_SETUP_CMD_ACCEPT /\
    morse_twt_dequeue_tx MAX_FLOWS t1 0 = Some (0, t2) /\
    flow_state t2 p 2 = MORSE_TWT_STATE_AGREEMENT /\ tx t2 = [].
Proof.
  assert (Hf : (flow_id new_peer_request < MAX_FLOWS)%nat) by (unfold MAX_FLOWS; cbn; lia).
  assert (Hsound : lists_sound (morse_twt_queue_event fresh_twt new_peer_request))
    by constructor.
  destruct (handle_event_new_peer MAX_FLOWS false false
              (morse_twt_queue_event fresh_twt new_peer_request) None 0 new_peer_request _
              eq_refl eq_refl eq_refl eq_refl (or_introl eq_refl) eq_refl Hf eq_refl eq_refl
              fresh_twt_live Hsound)
    as (p & t1 & resp & Hrun & _ & _ & _ & Hget & Hst & (Hcmd & _) & Htx & _ & t2 & Hdeq
          & Hst2 & Htx2 & _).
  exists p, t1, resp, t2. repeat split; assumption.
Defined.

(** Peer 0xa1 holds two agreements of 8000 us in the wake interval of
    100000 us, one at 0 and one at 50000; peer 0xb2 asks for 8000 us. *)
Definition gapped_sta : morse_twt_sta :=
  Sta 0xa1 0 false
      (Agr MORSE_TWT_STATE_AGREEMENT (sample_data TWT_SETUP_CMD_ACCEPT 0 8000)
       :: Agr MORSE_TWT_STATE_AGREEMENT (sample_data TWT_SETUP_CMD_ACCEPT 50000 8000)
       :: replicate 6 idle_agr).

Definition gapped_twt : morse_twt :=
  Twt true NL80211_IFTYPE_AP {[ 1%nat := gapped_sta; 2%nat := asking_sta 8000 ]}
      [1%nat; 2%nat] [[(1%nat, 0%nat); (1%nat, 1%nat)]] [] [] [] 0 [].

Lemma wake_interval_add_first_fit_witness :
  exists t',
    morse_twt_agreement_wake_interval_add gapped_twt (2%nat, 0%nat) = Some (0, t') /\
    wake_intervals t' = [[(1%nat, 0%nat); (2%nat, 0%nat); (1%nat, 1%nat)]] /\
    wake_time_us <$> (data <$> agr_at t' (2%nat, 0%nat)) = Some 8000.
Proof.
  assert (Hb : bucket_of gapped_twt 100000 [(1%nat, 0%nat); (1%nat, 1%nat)]).
  { do 3 eexists. split; [reflexivity|]. split; reflexivity. }
  assert (Hle : 8000 <= 42000) by discriminate.
  destruct (proj1 (wake_interval_add_first_fit gapped_twt (2%nat, 0%nat) _ [] []
              (1%nat, 0%nat) (1%nat, 1%nat) [] [] _ _ 42000
              eq_refl (asking_considered 8000) (asking_request 8000)
              eq_refl (Forall_nil_2 _) Hb I eq_refl eq_refl eq_refl Hle))
    as (t' & Hrun & Hw & Hagr & _).
  exists t'. split; [exact Hrun|]. split; [exact Hw|]. rewrite Hagr. reflexivity.
Defined.

(** Two agreements with the wake interval 0 are linked, and a third one is
    asked for. *)
Definition zero_data (cmd : ieee80211_twt_setup_cmd) : morse_twt_agreement_data :=
  AgrData 0 (TwtParams (sample_req_type cmd) 0 32 0 0) 0 0 8192.

Definition zero_twt : morse_twt :=
  Twt true NL80211_IFTYPE_AP
      {[ 1%nat := Sta 0xa1 0 false
                    (Agr MORSE_TWT_STATE_AGREEMENT (zero_data TWT_SETUP_CMD_ACCEPT)
                     :: Agr MORSE_TWT_STATE_AGREEMENT (zero_data TWT_SETUP_CMD_ACCEPT)
                     :: replicate 6 idle_agr);
         2%nat := Sta 0xb2 0 false
                    (Agr MORSE_TWT_STATE_CONSIDER_REQUEST (zero_data TWT_SETUP_CMD_REQUEST)
                     :: replicate 7 idle_agr) ]}
      [1%nat; 2%nat] [[(1%nat, 0%nat); (1%nat, 1%nat)]] [] [] [] 0 [].

Lemma wake_interval_add_zero_interval_witness :
  morse_twt_agreement_wake_interval_add zero_twt (2%nat, 0%nat) = None /\
  wake_interval_us
    (agreement_of_params (fun tu => tu * 1024) 0 (TwtParams 0x0421 0 32 0 0)) = 0.
Proof.
  assert (Hc : considered (Agr MORSE_TWT_STATE_CONSIDER_REQUEST
                               (zero_data TWT_SETUP_CMD_REQUEST))) by (split; discriminate).
  assert (Hr : request_or_suggest (Agr MORSE_TWT_STATE_CONSIDER_REQUEST
                                       (zero_data TWT_SETUP_CMD_REQUEST)))
    by (left; reflexivity).
  destruct (wake_interval_add_zero_interval zero_twt (2%nat, 0%nat) _
              (1%nat, 0%nat) (1%nat, 1%nat) [] [] _ _
              eq_refl Hc Hr eq_refl eq_refl eq_refl eq_refl eq_refl)
    as (Hrun & _ & Hzero).
  split; [exact Hrun|]. now apply Hzero.
Defined.

(** The event [morse_twt_parse_ie] makes of [request_ie] from the given
    peer. *)
Definition parsed_request (src : Z) : morse_twt_event :=
  Event MORSE_TWT_EVENT_SETUP src 2 TWT_SETUP_CMD_REQUEST
        (Some (agreement_of_params (fun tu => tu * 1024) 0 (TwtParams 0x0521 0 32 50000 0)))
        false.

Lemma action_frame_request_accepted_witness :
  exists p t1 t2 resp,
    morse_mac_process_twt_action_frame MAX_FLOWS 4 (fun tu => tu * 1024) 7
      teardown_event fresh_twt (TWT_ACTION_SETUP 7) request_ie 0xc3
      = Some (- EACCES, t1, [TWT_WORK]) /\
    morse_twt_handle_event MAX_FLOWS true false false t1 None = Some (t2, []) /\
    action_frames t2 = [ActionFrame resp 0xc3 7 true] /\
    setup_cmd resp = TWT_SETUP_CMD_ACCEPT /\
    flow_state t2 p 2 = MORSE_TWT_STATE_AGREEMENT /\ tx t2 = [] /\ events t2 = [].
Proof.
  assert (Hparse : morse_twt_parse_ie 4 (fun tu => tu * 1024) fresh_twt (Some request_ie) 0xc3
                   = Some (inr (parsed_request 0xc3))) by (vm_compute; reflexivity).
  assert (Hf : (flow_id (parsed_request 0xc3) < MAX_FLOWS)%nat)
    by (unfold MAX_FLOWS; cbn; lia).
  assert (Hsound : lists_sound fresh_twt) by constructor.
  destruct (action_frame_request_accepted MAX_FLOWS 4 (fun tu => tu * 1024) 7 false false
              teardown_event fresh_twt 7 request_ie 0xc3 (parsed_request 0xc3)
              eq_refl eq_refl fresh_twt_live Hsound eq_refl Hparse (or_introl eq_refl) Hf)
    as (p & t1 & t2 & resp & s2 & Hrun & _ & Hwork & Hev & Htx & (Hcmd & _) & Haf & _ & _
          & Hst & _).
  exists p, t1, t2, resp. repeat split; assumption.
Defined.

Lemma action_frame_teardown_witness :
  exists t1 t2,
    morse_mac_process_twt_action_frame MAX_FLOWS 4 (fun tu => tu * 1024) 7
      teardown_event booked_twt (TWT_ACTION_TEARDOWN 0) request_ie 0xa1
      = Some (- EACCES, t1, [TWT_WORK]) /\
    morse_twt_handle_event MAX_FLOWS true false false t1 None = Some (t2, []) /\
    flow_state t2 1 0 = MORSE_TWT_STATE_NO_AGREEMENT /\
    ((1%nat, 0%nat) ∉ concat (wake_intervals t2)) /\ stas t2 = stas booked_twt.
Proof.
  assert (Hf : (Z.to_nat (u8 (Z.land 0 7)) < MAX_FLOWS)%nat) by (vm_compute; lia).
  destruct (proj2 (action_frame_teardown MAX_FLOWS 4 (fun tu => tu * 1024) 7 false false true
                     teardown_event booked_twt 0 request_ie 0xa1 eq_refl)
              1%nat booked_sta eq_refl eq_refl eq_refl Hf eq_refl eq_refl booked_NoDup)
    as (t1 & t2 & Hrun & Hwork & _ & _ & Hunl & _ & Hst & Hsta).
  cbn in Hsta. destruct Hsta as (_ & Hstas & _).
  exists t1, t2. repeat split; assumption.
Defined.

(** The responder of [gapped_twt] with two events queued: peer 0xb2 asks
    for its flow 1, and peer 0xa1 tears its flow 0 down. *)
Definition busy_twt : morse_twt :=
  morse_twt_queue_event
    (morse_twt_queue_event gapped_twt
       (Event MORSE_TWT_EVENT_SETUP 0xb2 1 TWT_SETUP_CMD_REQUEST
              (Some (sample_data TWT_SETUP_CMD_REQUEST 0 8000)) false))
    (Event MORSE_TWT_EVENT_TEARDOWN 0xa1 0 TWT_SETUP_CMD_REQUEST None true).

Lemma busy_twt_inv : twt_inv MAX_FLOWS busy_twt.
Proof.
  split.
  - intros p Hp. cbn in Hp. rewrite !elem_of_cons, elem_of_nil in Hp.
    destruct Hp as [->|[->|[]]]; eexists; (split; [vm_compute; reflexivity|reflexivity]).
  - cbn. apply NoDup_ListNoDup. repeat constructor; cbn; intuition discriminate.
  - repeat constructor; eexists; (split; [vm_compute; reflexivity|discriminate]).
  - cbn. apply NoDup_ListNoDup. repeat constructor; cbn; intuition discriminate.
  - intros q x Ha Hs Hin. cbn in Hin. rewrite !elem_of_cons, elem_of_nil in Hin.
    destruct Hin as [->|[->|[]]]; vm_compute in Ha; injection Ha as <-; discriminate.
Qed.

Lemma busy_twt_events : Forall (event_ok MAX_FLOWS) (events busy_twt).
Proof.
  repeat constructor; try (cbn; unfold MAX_FLOWS; lia); try discriminate.
  intros _. eexists. split; [reflexivity|discriminate].
Qed.

Lemma handle_event_safe_witness :
  exists t' w,
    morse_twt_handle_event MAX_FLOWS true false false busy_twt None = Some (t', w) /\
    twt_inv MAX_FLOWS t' /\ Forall (event_ok MAX_FLOWS) (events t') /\
    sublist (events t') (events busy_twt).
Proof.
  exact (handle_event_safe MAX_FLOWS true false false busy_twt None
           busy_twt_inv busy_twt_events).
Defined.

(** *** Requests that are not answered

    A responder without stations, and a TWT element asking for flow 2 with
    mantissa 0, that is a wake interval of 0 us, which [morse_twt_parse_ie]
    accepts. *)
Definition empty_responder : morse_twt :=
  Twt true NL80211_IFTYPE_AP ∅ [] [] [] [] [] 0 [].

Definition zero_interval_ie : ie_element :=
  IE (Some [0; 0x21; 0x05; 0; 0; 0; 0; 0; 0; 0; 0; 32; 0; 0; 0]) 15.

(** A TWT setup action frame with that element arrives from [src] and the
    event work it schedules runs. *)
Definition receive_setup (t : morse_twt) (src : Z) : option morse_twt :=
  r ← morse_mac_process_twt_action_frame MAX_FLOWS 4 (fun tu => tu * 1024) 7
         teardown_event t (TWT_ACTION_SETUP 1) zero_interval_ie src;
  r' ← morse_twt_handle_event MAX_FLOWS true false false r.1.2 None;
  Some r'.1.

(** A DEMAND of the unknown peer 0xc3 for flow 2, received with its
    association request. *)
Definition demand_event : morse_twt_event :=
  Event MORSE_TWT_EVENT_SETUP 0xc3 2 TWT_SETUP_CMD_DEMAND
        (Some (sample_data TWT_SETUP_CMD_DEMAND 0 8000)) false.

(** C6 at inputs the driver can receive.  Three peers ask for a wake
    interval of 0: the first two requests are accepted and their agreements
    linked into one list; the third request, for a flow in NO_AGREEMENT, is
    parsed and queued like the others, but handling it divides by the wake
    interval of the first agreement, and no ACCEPT is produced.  And a
    DEMAND received with an association request is answered with a queued
    REJECT, but handing that REJECT over for transmission frees the station
    record and with it the queued REJECT, which is then used again. *)
Lemma setup_in_no_agreement_unanswered :
  (exists t1 t2 t3,
     receive_setup empty_responder 0xa1 = Some t1 /\
     flow_state t1 0 2 = MORSE_TWT_STATE_AGREEMENT /\
     receive_setup t1 0xb2 = Some t2 /\
     flow_state t2 1 2 = MORSE_TWT_STATE_AGREEMENT /\
     wake_intervals t2 = [[(0%nat, 2%nat); (1%nat, 2%nat)]] /\
     morse_mac_process_twt_action_frame MAX_FLOWS 4 (fun tu => tu * 1024) 7
       teardown_event t2 (TWT_ACTION_SETUP 1) zero_interval_ie 0xc3
       = Some (- EACCES, t3, [TWT_WORK]) /\
     morse_twt_get_sta t3 0xc3 = Some (Some 2%nat) /\
     flow_state t3 2 2 = MORSE_TWT_STATE_NO_AGREEMENT /\
     (setup_cmd <$> events t3) = [TWT_SETUP_CMD_REQUEST] /\
     morse_twt_handle_event MAX_FLOWS true false false t3 None = None) /\
  (exists t1 resp,
     morse_twt_handle_event MAX_FLOWS true false false
       (morse_twt_queue_event empty_responder demand_event) None = Some (t1, []) /\
     tx t1 = [resp] /\ setup_cmd resp = TWT_SETUP_CMD_REJECT /\
     flow_state t1 0 2 = MORSE_TWT_STATE_CONSIDER_DEMAND /\
     morse_twt_dequeue_tx MAX_FLOWS t1 0 = None).
Proof.
  split.
  - eexists _, _, _.
    do 9 (split; [vm_compute; reflexivity|]). vm_compute; reflexivity.
  - eexists _, _.
    do 4 (split; [vm_compute; reflexivity|]). vm_compute; reflexivity.
Qed.

(** A station whose flow 0 is considered while flow 1 holds an agreement,
    and one for which flow 0 is the only flow that is not idle; a REJECT for
    flow 0 waits in the transmit queue. *)
Definition rejected_twt (others : list morse_twt_agreement) : morse_twt :=
  Twt true NL80211_IFTYPE_AP
      {[ 1%nat := Sta 0xa1 0 false
                    (Agr MORSE_TWT_STATE_CONSIDER_DEMAND (sample_data TWT_SETUP_CMD_DEMAND 0 8000)
                     :: others) ]}
      [1%nat] [] []
      [Event MORSE_TWT_EVENT_SETUP 0xa1 0 TWT_SETUP_CMD_REJECT
             (Some (sample_data TWT_SETUP_CMD_REJECT 0 8000)) false]
      [] 0 [].

Lemma dequeue_tx_reject_witness :
  morse_twt_dequeue_tx MAX_FLOWS (rejected_twt (replicate 7 idle_agr)) 0 = None /\
  exists t',
    morse_twt_dequeue_tx MAX_FLOWS
      (rejected_twt (Agr MORSE_TWT_STATE_AGREEMENT (sample_data TWT_SETUP_CMD_ACCEPT 0 8000)
                     :: replicate 6 idle_agr)) 0 = Some (0, t') /\
    flow_state t' 1 0 = MORSE_TWT_STATE_NO_AGREEMENT /\ tx t' = [].
Proof.
  assert (Hc : considered (Agr MORSE_TWT_STATE_CONSIDER_DEMAND
                               (sample_data TWT_SETUP_CMD_DEMAND 0 8000)))
    by (split; discriminate).
  split.
  - exact (proj1 (dequeue_tx_reject MAX_FLOWS (rejected_twt (replicate 7 idle_agr)) 0 _ 1%nat _ _
                    eq_refl eq_refl eq_refl eq_refl eq_refl eq_refl eq_refl Hc) eq_refl).
  - destruct (proj2 (dequeue_tx_reject MAX_FLOWS
                       (rejected_twt (Agr MORSE_TWT_STATE_AGREEMENT
                                          (sample_data TWT_SETUP_CMD_ACCEPT 0 8000)
                                      :: replicate 6 idle_agr)) 0 _ 1%nat _ _
                       eq_refl eq_refl eq_refl eq_refl eq_refl eq_refl eq_refl Hc) eq_refl)
      as (t' & Hrun & Hst & _ & Htx & _).
    exists t'. split; [exact Hrun|]. split; [exact Hst|exact Htx].
Defined.

(** A DEMAND of the known peer 0xa1 for flow 2. *)
Definition known_demand_event : morse_twt_event :=
  Event MORSE_TWT_EVENT_SETUP 0xa1 2 TWT_SETUP_CMD_DEMAND
        (Some (sample_data TWT_SETUP_CMD_DEMAND 0 8000)) false.

Lemma no_agreement_demand_rejected_witness :
  exists t1 resp,
    morse_twt_handle_event_in_no_agreement MAX_FLOWS fresh_twt (Some 1%nat) known_demand_event
      = Some (0, t1) /\
    tx t1 = [resp] /\ setup_cmd resp = TWT_SETUP_CMD_REJECT /\
    flow_state t1 1 2 = MORSE_TWT_STATE_CONSIDER_DEMAND.
Proof.
  destruct (proj1 (no_agreement_demand_rejected MAX_FLOWS fresh_twt 1 (idle_sta 0xa1) idle_agr
                     known_demand_event (sample_data TWT_SETUP_CMD_DEMAND 0 8000)
                     eq_refl eq_refl eq_refl eq_refl eq_refl) (or_introl eq_refl))
    as (t1 & resp & Hrun & (Hcmd & _) & Heq & Hst).
  exists t1, resp. split; [exact Hrun|]. split; [rewrite Heq; reflexivity|].
  split; [exact Hcmd|exact Hst].
Defined.

End Twt.
